(** * GURS shapefile to GeoJSON converter: a shallow embedding of
      [gursShp2geoJson.go] and the properties of its transformation pipeline.

    The Go program reads six lookup tables and one primary table of address
    records from shapefiles, builds one GeoJSON point feature with
    OpenStreetMap address tags per valid record, sorts the features and writes
    them out.  The embedding below follows the source function by function.
    Go values are modelled as follows:

    - a Go [string] is a sequence of bytes: Rocq's [string] (a list of 8-bit
      [ascii]); [len], indexing and slicing count bytes, comparison is
      byte-wise lexicographic, as in Go;
    - [int], [rune] and [byte] values are [Z] (the program never gets near the
      bounds of a 64-bit [int]);
    - [float64] is the kernel's binary64 [float];
    - [map[string]string] and [map[string]interface{}] are [gmap string _];
    - a slice is a [list]; the in-place sort threads the list explicitly;
    - a run-time panic, [log.Fatal] and exhausted recursion fuel are the three
      failures of the [result] monad. *)

From Stdlib Require Import ZArith Ascii String List Floats DecimalString.
From stdpp Require Import base option list gmap strings.

(* Decimal literals such as 14.6 stand for the nearest binary64 value, as
   they do in Go. *)
Set Warnings "-inexact-float".

Open Scope string_scope.
Open Scope Z_scope.

(** ** Failures *)

Inductive result (A : Type) : Type :=
| Ok (a : A)              (* normal completion *)
| Panic (msg : string)    (* run-time panic: the program aborts *)
| Fatal (msg : string)    (* log.Fatal: the program exits with status 1 *)
| OutOfFuel.              (* the model's recursion bound was too small *)
Arguments Ok {A} a.
Arguments Panic {A} msg.
Arguments Fatal {A} msg.
Arguments OutOfFuel {A}.

Definition bind {A B} (m : result A) (k : A -> result B) : result B :=
  match m with
  | Ok a => k a
  | Panic msg => Panic msg
  | Fatal msg => Fatal msg
  | OutOfFuel => OutOfFuel
  end.

Notation "'let*' x ':=' m 'in' k" := (bind m (fun x => k))
  (at level 10, x name, m at level 100, k at level 200, only parsing).
Notation "'let*' ' p ':=' m 'in' k" := (bind m (fun p => k))
  (at level 10, p pattern, m at level 100, k at level 200, only parsing).

(** ** Go strings *)

(** The numeric value of a byte, and the byte of a number (Go's [byte(x)]
    conversion keeps the low eight bits). *)
Definition byte_val (c : ascii) : Z := Z.of_N (N_of_ascii c).
Definition chr (x : Z) : ascii := ascii_of_N (Z.to_N (Z.land x 255)).

Definition len (s : string) : Z := Z.of_nat (String.length s).

(** [s[i]] for an index the caller has checked to be in range. *)
Definition byte_at (s : string) (i : Z) : Z :=
  match String.get (Z.to_nat i) s with
  | Some c => byte_val c
  | None => 0
  end.

(** [s[lo:hi]] for bounds the caller has checked. *)
Definition slice (s : string) (lo hi : Z) : string :=
  String.substring (Z.to_nat lo) (Z.to_nat (hi - lo)) s.

(** [s[lo:hi]] as the Go run time evaluates it: out-of-range bounds panic. *)
Definition slice_checked (s : string) (lo hi : Z) : result string :=
  if (0 <=? lo) && (lo <=? hi) && (hi <=? len s)
  then Ok (slice s lo hi)
  else Panic "slice bounds out of range".

(** Go's [<] and [>] on strings. *)
Definition string_lt (a b : string) : bool := String.ltb a b.
Definition string_gt (a b : string) : bool := String.ltb b a.

Fixpoint string_repeat (c : ascii) (n : nat) : string :=
  match n with
  | O => ""
  | S n' => String c (string_repeat c n')
  end.

(** ** Package [unicode/utf8] *)

Module Utf8.

Definition RuneError : Z := 0xFFFD.
Definition RuneSelf : Z := 0x80.
Definition MaxRune : Z := 0x10FFFF.
Definition UTFMax : Z := 4.

Definition surrogateMin : Z := 0xD800.
Definition surrogateMax : Z := 0xDFFF.

Definition tx : Z := 0x80.
Definition t2 : Z := 0xC0.
Definition t3 : Z := 0xE0.
Definition t4 : Z := 0xF0.
Definition maskx : Z := 0x3F.
Definition mask2 : Z := 0x1F.
Definition mask3 : Z := 0x0F.
Definition mask4 : Z := 0x07.
Definition rune1Max : Z := 0x7F.
Definition rune2Max : Z := 0x7FF.
Definition rune3Max : Z := 0xFFFF.

(* The default lowest and highest continuation byte. *)
Definition locb : Z := 0x80.
Definition hicb : Z := 0xBF.

(* Entries of the [first] table: the high nibble indexes [acceptRanges]
   (or is F for the two special cases), the low nibble is the size. *)
Definition xx : Z := 0xF1. (* invalid: size 1 *)
Definition as_ : Z := 0xF0. (* ASCII: size 1 *)
Definition s1 : Z := 0x02.
Definition s2 : Z := 0x13.
Definition s3 : Z := 0x03.
Definition s4 : Z := 0x23.
Definition s5 : Z := 0x34.
Definition s6 : Z := 0x04.
Definition s7 : Z := 0x44.

(** Information about the first byte of a UTF-8 sequence. *)
Definition first (b : Z) : Z :=
  if b <? 0x80 then as_
  else if b <? 0xC2 then xx
  else if b <? 0xE0 then s1
  else if b =? 0xE0 then s2
  else if b <? 0xED then s3
  else if b =? 0xED then s4
  else if b <? 0xF0 then s3
  else if b =? 0xF0 then s5
  else if b <? 0xF4 then s6
  else if b =? 0xF4 then s7
  else xx.

(** The range of valid values for the second byte, by [first b >> 4]. *)
Definition acceptRanges (i : Z) : Z * Z :=
  match i with
  | 0 => (locb, hicb)
  | 1 => (0xA0, hicb)
  | 2 => (locb, 0x9F)
  | 3 => (0x90, hicb)
  | 4 => (locb, 0x8F)
  | _ => (0, 0)
  end.

(** [RuneStart b]: [b] is not a continuation byte. *)
Definition RuneStart (b : Z) : bool := negb (Z.land b 0xC0 =? 0x80).

(** [DecodeRuneInString s] is the first rune of [s] and its width in bytes;
    [(RuneError, 0)] for the empty string, [(RuneError, 1)] for an invalid
    encoding. *)
Definition DecodeRuneInString (s : string) : Z * Z :=
  let n := len s in
  if n <? 1 then (RuneError, 0) else
  let b0 := byte_at s 0 in
  let x := first b0 in
  if as_ <=? x then ((if x =? xx then RuneError else b0), 1) else
  let sz := Z.land x 7 in
  let accept := acceptRanges (Z.shiftr x 4) in
  if n <? sz then (RuneError, 1) else
  let b1 := byte_at s 1 in
  if (b1 <? fst accept) || (snd accept <? b1) then (RuneError, 1) else
  if sz <=? 2 then
    (Z.lor (Z.shiftl (Z.land b0 mask2) 6) (Z.land b1 maskx), 2) else
  let b2 := byte_at s 2 in
  if (b2 <? locb) || (hicb <? b2) then (RuneError, 1) else
  if sz <=? 3 then
    (Z.lor (Z.lor (Z.shiftl (Z.land b0 mask3) 12)
                  (Z.shiftl (Z.land b1 maskx) 6))
           (Z.land b2 maskx), 3) else
  let b3 := byte_at s 3 in
  if (b3 <? locb) || (hicb <? b3) then (RuneError, 1) else
  (Z.lor (Z.lor (Z.lor (Z.shiftl (Z.land b0 mask4) 18)
                       (Z.shiftl (Z.land b1 maskx) 12))
                (Z.shiftl (Z.land b2 maskx) 6))
         (Z.land b3 maskx), 4).

(** The backwards scan of [DecodeLastRuneInString]:
    [for start--; start >= lim; start-- { if RuneStart(s[start]) { break } }],
    entered with [start] already decremented.  It runs at most [UTFMax]
    times, which bounds [n]. *)
Fixpoint scanRuneStart (s : string) (lim : Z) (n : nat) (start : Z) : Z :=
  match n with
  | O => start
  | S n' =>
    if start <? lim then start
    else if RuneStart (byte_at s start) then start
    else scanRuneStart s lim n' (start - 1)
  end.

(** [DecodeLastRuneInString s] is the last rune of [s] and its width;
    [(RuneError, 0)] for the empty string, [(RuneError, 1)] for an invalid
    encoding. *)
Definition DecodeLastRuneInString (s : string) : Z * Z :=
  let end_ := len s in
  if end_ =? 0 then (RuneError, 0) else
  let start := end_ - 1 in
  let r := byte_at s start in
  if r <? RuneSelf then (r, 1) else
  let lim := end_ - UTFMax in
  let lim := if lim <? 0 then 0 else lim in
  let start := scanRuneStart s lim (Z.to_nat UTFMax) (start - 1) in
  let start := if start <? 0 then 0 else start in
  let '(r, size) := DecodeRuneInString (slice s start end_) in
  if negb (start + size =? end_) then (RuneError, 1) else (r, size).

(** The runes a [for _, c := range s] loop yields: each maximal valid
    encoding is one rune, each byte of an invalid one is [RuneError].
    [skip] counts the bytes of the current rune still to be passed over. *)
Fixpoint runesFrom (skip : nat) (s : string) : list Z :=
  match s with
  | "" => []
  | String _ t =>
    match skip with
    | S k => runesFrom k t
    | O => let '(r, size) := DecodeRuneInString s in
           r :: runesFrom (Z.to_nat size - 1) t
    end
  end.

Definition runes (s : string) : list Z := runesFrom 0 s.

(** [RuneCountInString s] counts the runes of [s]; an invalid byte counts
    as one rune of width 1. *)
Definition RuneCountInString (s : string) : Z := Z.of_nat (length (runes s)).

(** [AppendRune p r] appends the UTF-8 encoding of [r] to [p]; an invalid
    rune is encoded as [RuneError]. *)
Definition AppendRune (p : string) (r : Z) : string :=
  if (0 <=? r) && (r <=? rune1Max) then p +:+ String (chr r) ""
  else if (0 <=? r) && (r <=? rune2Max) then
    p +:+ String (chr (Z.lor t2 (Z.shiftr r 6)))
         (String (chr (Z.lor tx (Z.land r maskx))) "")
  else
    let r := if (r <? 0) || (MaxRune <? r)
                || ((surrogateMin <=? r) && (r <=? surrogateMax))
             then RuneError else r in
    if r <=? rune3Max then
      p +:+ String (chr (Z.lor t3 (Z.shiftr r 12)))
           (String (chr (Z.lor tx (Z.land (Z.shiftr r 6) maskx)))
           (String (chr (Z.lor tx (Z.land r maskx))) ""))
    else
      p +:+ String (chr (Z.lor t4 (Z.shiftr r 18)))
           (String (chr (Z.lor tx (Z.land (Z.shiftr r 12) maskx)))
           (String (chr (Z.lor tx (Z.land (Z.shiftr r 6) maskx)))
           (String (chr (Z.lor tx (Z.land r maskx))) ""))).

End Utf8.

(** ** Package [unicode] *)

Module Unicode.

Definition MaxASCII : Z := 0x7F.
Definition MaxLatin1 : Z := 0xFF.

(** The range table [unicode.Digit] (category Nd, Unicode 15.0) above
    Latin-1, as inclusive ranges of stride 1. *)
Definition Digit : list (Z * Z) :=
  [ (0x660, 0x669); (0x6F0, 0x6F9); (0x7C0, 0x7C9); (0x966, 0x96F);
   (0x9E6, 0x9EF); (0xA66, 0xA6F); (0xAE6, 0xAEF); (0xB66, 0xB6F);
   (0xBE6, 0xBEF); (0xC66, 0xC6F); (0xCE6, 0xCEF); (0xD66, 0xD6F);
   (0xDE6, 0xDEF); (0xE50, 0xE59); (0xED0, 0xED9); (0xF20, 0xF29);
   (0x1040, 0x1049); (0x1090, 0x1099); (0x17E0, 0x17E9); (0x1810, 0x1819);
   (0x1946, 0x194F); (0x19D0, 0x19D9); (0x1A80, 0x1A89); (0x1A90, 0x1A99);
   (0x1B50, 0x1B59); (0x1BB0, 0x1BB9); (0x1C40, 0x1C49); (0x1C50, 0x1C59);
   (0xA620, 0xA629); (0xA8D0, 0xA8D9); (0xA900, 0xA909); (0xA9D0, 0xA9D9);
   (0xA9F0, 0xA9F9); (0xAA50, 0xAA59); (0xABF0, 0xABF9); (0xFF10, 0xFF19);
   (0x104A0, 0x104A9); (0x10D30, 0x10D39); (0x11066, 0x1106F); (0x110F0, 0x110F9);
   (0x11136, 0x1113F); (0x111D0, 0x111D9); (0x112F0, 0x112F9); (0x11450, 0x11459);
   (0x114D0, 0x114D9); (0x11650, 0x11659); (0x116C0, 0x116C9); (0x11730, 0x11739);
   (0x118E0, 0x118E9); (0x11950, 0x11959); (0x11C50, 0x11C59); (0x11D50, 0x11D59);
   (0x11DA0, 0x11DA9); (0x11F50, 0x11F59); (0x16A60, 0x16A69); (0x16AC0, 0x16AC9);
   (0x16B50, 0x16B59); (0x1D7CE, 0x1D7FF); (0x1E140, 0x1E149); (0x1E2F0, 0x1E2F9);
   (0x1E4F0, 0x1E4F9); (0x1E950, 0x1E959); (0x1FBF0, 0x1FBF9) ].

Definition isExcludingLatin (tab : list (Z * Z)) (r : Z) : bool :=
  existsb (fun '(lo, hi) => (lo <=? r) && (r <=? hi)) tab.

(** [IsDigit r]: [r] is a decimal digit. *)
Definition IsDigit (r : Z) : bool :=
  if r <=? MaxLatin1 then (0x30 <=? r) && (r <=? 0x39)
  else isExcludingLatin Digit r.

(** The distance from a code point to its lower case.  [UpperLower] marks
    an alternating sequence that starts with an upper-case letter:
    code points at even offsets are upper case, the next one is their
    lower case. *)
Inductive delta : Type :=
| Delta (d : Z)
| UpperLower.

(** The lower-case column of [unicode.CaseRanges] above ASCII (simple case
    mappings of Unicode 14.0): [(Lo, Hi, delta)]. *)
Definition LowerCaseRanges : list (Z * Z * delta) :=
  [ (0xC0, 0xD6, Delta 32); (0xD8, 0xDE, Delta 32); (0x100, 0x12F, UpperLower);
   (0x130, 0x130, Delta (-199)); (0x132, 0x137, UpperLower); (0x139, 0x148, UpperLower);
   (0x14A, 0x177, UpperLower); (0x178, 0x178, Delta (-121)); (0x179, 0x17E, UpperLower);
   (0x181, 0x181, Delta 210); (0x182, 0x185, UpperLower); (0x186, 0x186, Delta 206);
   (0x187, 0x187, Delta 1); (0x189, 0x18A, Delta 205); (0x18B, 0x18B, Delta 1);
   (0x18E, 0x18E, Delta 79); (0x18F, 0x18F, Delta 202); (0x190, 0x190, Delta 203);
   (0x191, 0x191, Delta 1); (0x193, 0x193, Delta 205); (0x194, 0x194, Delta 207);
   (0x196, 0x196, Delta 211); (0x197, 0x197, Delta 209); (0x198, 0x198, Delta 1);
   (0x19C, 0x19C, Delta 211); (0x19D, 0x19D, Delta 213); (0x19F, 0x19F, Delta 214);
   (0x1A0, 0x1A5, UpperLower); (0x1A6, 0x1A6, Delta 218); (0x1A7, 0x1A7, Delta 1);
   (0x1A9, 0x1A9, Delta 218); (0x1AC, 0x1AC, Delta 1); (0x1AE, 0x1AE, Delta 218);
   (0x1AF, 0x1AF, Delta 1); (0x1B1, 0x1B2, Delta 217); (0x1B3, 0x1B6, UpperLower);
   (0x1B7, 0x1B7, Delta 219); (0x1B8, 0x1B8, Delta 1); (0x1BC, 0x1BC, Delta 1);
   (0x1C4, 0x1C4, Delta 2); (0x1C5, 0x1C5, Delta 1); (0x1C7, 0x1C7, Delta 2);
   (0x1C8, 0x1C8, Delta 1); (0x1CA, 0x1CA, Delta 2); (0x1CB, 0x1DC, UpperLower);
   (0x1DE, 0x1EF, UpperLower); (0x1F1, 0x1F1, Delta 2); (0x1F2, 0x1F5, UpperLower);
   (0x1F6, 0x1F6, Delta (-97)); (0x1F7, 0x1F7, Delta (-56)); (0x1F8, 0x21F, UpperLower);
   (0x220, 0x220, Delta (-130)); (0x222, 0x233, UpperLower); (0x23A, 0x23A, Delta 10795);
   (0x23B, 0x23B, Delta 1); (0x23D, 0x23D, Delta (-163)); (0x23E, 0x23E, Delta 10792);
   (0x241, 0x241, Delta 1); (0x243, 0x243, Delta (-195)); (0x244, 0x244, Delta 69);
   (0x245, 0x245, Delta 71); (0x246, 0x24F, UpperLower); (0x370, 0x373, UpperLower);
   (0x376, 0x376, Delta 1); (0x37F, 0x37F, Delta 116); (0x386, 0x386, Delta 38);
   (0x388, 0x38A, Delta 37); (0x38C, 0x38C, Delta 64); (0x38E, 0x38F, Delta 63);
   (0x391, 0x3A1, Delta 32); (0x3A3, 0x3AB, Delta 32); (0x3CF, 0x3CF, Delta 8);
   (0x3D8, 0x3EF, UpperLower); (0x3F4, 0x3F4, Delta (-60)); (0x3F7, 0x3F7, Delta 1);
   (0x3F9, 0x3F9, Delta (-7)); (0x3FA, 0x3FA, Delta 1); (0x3FD, 0x3FF, Delta (-130));
   (0x400, 0x40F, Delta 80); (0x410, 0x42F, Delta 32); (0x460, 0x481, UpperLower);
   (0x48A, 0x4BF, UpperLower); (0x4C0, 0x4C0, Delta 15); (0x4C1, 0x4CE, UpperLower);
   (0x4D0, 0x52F, UpperLower); (0x531, 0x556, Delta 48); (0x10A0, 0x10C5, Delta 7264);
   (0x10C7, 0x10C7, Delta 7264); (0x10CD, 0x10CD, Delta 7264); (0x13A0, 0x13EF, Delta 38864);
   (0x13F0, 0x13F5, Delta 8); (0x1C90, 0x1CBA, Delta (-3008)); (0x1CBD, 0x1CBF, Delta (-3008));
   (0x1E00, 0x1E95, UpperLower); (0x1E9E, 0x1E9E, Delta (-7615)); (0x1EA0, 0x1EFF, UpperLower);
   (0x1F08, 0x1F0F, Delta (-8)); (0x1F18, 0x1F1D, Delta (-8)); (0x1F28, 0x1F2F, Delta (-8));
   (0x1F38, 0x1F3F, Delta (-8)); (0x1F48, 0x1F4D, Delta (-8)); (0x1F59, 0x1F59, Delta (-8));
   (0x1F5B, 0x1F5B, Delta (-8)); (0x1F5D, 0x1F5D, Delta (-8)); (0x1F5F, 0x1F5F, Delta (-8));
   (0x1F68, 0x1F6F, Delta (-8)); (0x1F88, 0x1F8F, Delta (-8)); (0x1F98, 0x1F9F, Delta (-8));
   (0x1FA8, 0x1FAF, Delta (-8)); (0x1FB8, 0x1FB9, Delta (-8)); (0x1FBA, 0x1FBB, Delta (-74));
   (0x1FBC, 0x1FBC, Delta (-9)); (0x1FC8, 0x1FCB, Delta (-86)); (0x1FCC, 0x1FCC, Delta (-9));
   (0x1FD8, 0x1FD9, Delta (-8)); (0x1FDA, 0x1FDB, Delta (-100)); (0x1FE8, 0x1FE9, Delta (-8));
   (0x1FEA, 0x1FEB, Delta (-112)); (0x1FEC, 0x1FEC, Delta (-7)); (0x1FF8, 0x1FF9, Delta (-128));
   (0x1FFA, 0x1FFB, Delta (-126)); (0x1FFC, 0x1FFC, Delta (-9)); (0x2126, 0x2126, Delta (-7517));
   (0x212A, 0x212A, Delta (-8383)); (0x212B, 0x212B, Delta (-8262)); (0x2132, 0x2132, Delta 28);
   (0x2160, 0x216F, Delta 16); (0x2183, 0x2183, Delta 1); (0x24B6, 0x24CF, Delta 26);
   (0x2C00, 0x2C2F, Delta 48); (0x2C60, 0x2C60, Delta 1); (0x2C62, 0x2C62, Delta (-10743));
   (0x2C63, 0x2C63, Delta (-3814)); (0x2C64, 0x2C64, Delta (-10727)); (0x2C67, 0x2C6C, UpperLower);
   (0x2C6D, 0x2C6D, Delta (-10780)); (0x2C6E, 0x2C6E, Delta (-10749)); (0x2C6F, 0x2C6F, Delta (-10783));
   (0x2C70, 0x2C70, Delta (-10782)); (0x2C72, 0x2C72, Delta 1); (0x2C75, 0x2C75, Delta 1);
   (0x2C7E, 0x2C7F, Delta (-10815)); (0x2C80, 0x2CE3, UpperLower); (0x2CEB, 0x2CEE, UpperLower);
   (0x2CF2, 0x2CF2, Delta 1); (0xA640, 0xA66D, UpperLower); (0xA680, 0xA69B, UpperLower);
   (0xA722, 0xA72F, UpperLower); (0xA732, 0xA76F, UpperLower); (0xA779, 0xA77C, UpperLower);
   (0xA77D, 0xA77D, Delta (-35332)); (0xA77E, 0xA787, UpperLower); (0xA78B, 0xA78B, Delta 1);
   (0xA78D, 0xA78D, Delta (-42280)); (0xA790, 0xA793, UpperLower); (0xA796, 0xA7A9, UpperLower);
   (0xA7AA, 0xA7AA, Delta (-42308)); (0xA7AB, 0xA7AB, Delta (-42319)); (0xA7AC, 0xA7AC, Delta (-42315));
   (0xA7AD, 0xA7AD, Delta (-42305)); (0xA7AE, 0xA7AE, Delta (-42308)); (0xA7B0, 0xA7B0, Delta (-42258));
   (0xA7B1, 0xA7B1, Delta (-42282)); (0xA7B2, 0xA7B2, Delta (-42261)); (0xA7B3, 0xA7B3, Delta 928);
   (0xA7B4, 0xA7C3, UpperLower); (0xA7C4, 0xA7C4, Delta (-48)); (0xA7C5, 0xA7C5, Delta (-42307));
   (0xA7C6, 0xA7C6, Delta (-35384)); (0xA7C7, 0xA7CA, UpperLower); (0xA7D0, 0xA7D0, Delta 1);
   (0xA7D6, 0xA7D9, UpperLower); (0xA7F5, 0xA7F5, Delta 1); (0xFF21, 0xFF3A, Delta 32);
   (0x10400, 0x10427, Delta 40); (0x104B0, 0x104D3, Delta 40); (0x10570, 0x1057A, Delta 39);
   (0x1057C, 0x1058A, Delta 39); (0x1058C, 0x10592, Delta 39); (0x10594, 0x10595, Delta 39);
   (0x10C80, 0x10CB2, Delta 64); (0x118A0, 0x118BF, Delta 32); (0x16E40, 0x16E5F, Delta 32);
   (0x1E900, 0x1E921, Delta 34) ].

Fixpoint toLower (r : Z) (caseRange : list (Z * Z * delta)) : Z :=
  match caseRange with
  | [] => r
  | (lo, hi, d) :: rest =>
    if (lo <=? r) && (r <=? hi) then
      match d with
      | UpperLower => lo + Z.lor (Z.land (r - lo) (Z.lnot 1)) 1
      | Delta d => r + d
      end
    else toLower r rest
  end.

(** [ToLower r] maps the rune to lower case. *)
Definition ToLower (r : Z) : Z :=
  if r <=? MaxASCII then
    (if (0x41 <=? r) && (r <=? 0x5A) then r + (0x61 - 0x41) else r)
  else toLower r LowerCaseRanges.

End Unicode.

(** ** Package [strings] *)

Module Strings.

(** [Map mapping s]: the string of the mapped runes of [s]; a rune mapped
    to a negative value is dropped, an invalid byte is read as
    [RuneError]. *)
Definition Map (mapping : Z -> Z) (s : string) : string :=
  fold_left (fun b c => let r := mapping c in
                        if 0 <=? r then Utf8.AppendRune b r else b)
            (Utf8.runes s) "".

(** [ToLower s]: [s] with all Unicode letters mapped to their lower
    case. *)
Definition ToLower (s : string) : string := Map Unicode.ToLower s.

Definition ContainsRune (s : string) (r : Z) : bool :=
  existsb (Z.eqb r) (Utf8.runes s).

(** [for len(s) > 0 { decode the first rune; stop unless it is in the
    cutset; s = s[n:] }]; the loop runs at most [len(s)] times. *)
Fixpoint trimLeft (n : nat) (s cutset : string) : string :=
  match n with
  | O => s
  | S n' =>
    if 0 <? len s then
      let '(r, w) := Utf8.DecodeRuneInString s in
      if ContainsRune cutset r then trimLeft n' (slice s w (len s)) cutset
      else s
    else s
  end.

Fixpoint trimRight (n : nat) (s cutset : string) : string :=
  match n with
  | O => s
  | S n' =>
    if 0 <? len s then
      let '(r, w) := Utf8.DecodeLastRuneInString s in
      if ContainsRune cutset r then trimRight n' (slice s 0 (len s - w)) cutset
      else s
    else s
  end.

(** [Trim s cutset]: [s] without the leading and trailing code points
    contained in [cutset]. *)
Definition Trim (s cutset : string) : string :=
  if (len s =? 0) || (len cutset =? 0) then s
  else
    let r := trimRight (String.length s) s cutset in
    trimLeft (String.length r) r cutset.

End Strings.

(** ** Package [fmt]: the verb [%0Ns] *)

Module Fmt.

(** [writePadding n] with the zero flag: [n] bytes ['0'] (none when
    [n <= 0]). *)
Definition writePadding (n : Z) : string := string_repeat "0"%char (Z.to_nat n).

(** [padString s] for a verb [%0<wid>s]: the width is counted in runes and
    only ever pads, it does not truncate. *)
Definition padString (wid : Z) (s : string) : string :=
  if wid =? 0 then s
  else writePadding (wid - Utf8.RuneCountInString s) +:+ s.

End Fmt.

(** ** Package [golang.org/x/text/encoding/charmap] *)

Module Charmap.

(** The upper half of the Windows-1250 code page: the code point of byte
    [0x80 + i] is the [i]-th entry (positions the code page leaves
    undefined decode to the C1 control of the same value). *)
Definition windows1250High : list Z :=
  [ 0x20AC; 0x81; 0x201A; 0x83; 0x201E; 0x2026; 0x2020; 0x2021;
   0x88; 0x2030; 0x160; 0x2039; 0x15A; 0x164; 0x17D; 0x179;
   0x90; 0x2018; 0x2019; 0x201C; 0x201D; 0x2022; 0x2013; 0x2014;
   0x98; 0x2122; 0x161; 0x203A; 0x15B; 0x165; 0x17E; 0x17A;
   0xA0; 0x2C7; 0x2D8; 0x141; 0xA4; 0x104; 0xA6; 0xA7;
   0xA8; 0xA9; 0x15E; 0xAB; 0xAC; 0xAD; 0xAE; 0x17B;
   0xB0; 0xB1; 0x2DB; 0x142; 0xB4; 0xB5; 0xB6; 0xB7;
   0xB8; 0x105; 0x15F; 0xBB; 0x13D; 0x2DD; 0x13E; 0x17C;
   0x154; 0xC1; 0xC2; 0x102; 0xC4; 0x139; 0x106; 0xC7;
   0x10C; 0xC9; 0x118; 0xCB; 0x11A; 0xCD; 0xCE; 0x10E;
   0x110; 0x143; 0x147; 0xD3; 0xD4; 0x150; 0xD6; 0xD7;
   0x158; 0x16E; 0xDA; 0x170; 0xDC; 0xDD; 0x162; 0xDF;
   0x155; 0xE1; 0xE2; 0x103; 0xE4; 0x13A; 0x107; 0xE7;
   0x10D; 0xE9; 0x119; 0xEB; 0x11B; 0xED; 0xEE; 0x10F;
   0x111; 0x144; 0x148; 0xF3; 0xF4; 0x151; 0xF6; 0xF7;
   0x159; 0x16F; 0xFA; 0x171; 0xFC; 0xFD; 0x163; 0x2D9 ].

Definition Windows1250 (b : Z) : Z :=
  if b <? Utf8.RuneSelf then b
  else nth (Z.to_nat (b - 0x80)) windows1250High Utf8.RuneError.

(** [Windows1250.NewDecoder().Bytes(enc)]: every byte is replaced by the
    UTF-8 encoding of its code point; this never fails. *)
Fixpoint decodeBytes (enc : string) : string :=
  match enc with
  | "" => ""
  | String c rest => Utf8.AppendRune "" (Windows1250 (byte_val c)) +:+ decodeBytes rest
  end.

(** The [encode] table of the code page: one entry per byte, the byte in
    the high 8 bits and its code point in the low 24, ordered by code
    point. *)
Definition windows1250Encode : list Z :=
  [ 0x00000000; 0x01000001; 0x02000002; 0x03000003; 0x04000004; 0x05000005;
   0x06000006; 0x07000007; 0x08000008; 0x09000009; 0x0A00000A; 0x0B00000B;
   0x0C00000C; 0x0D00000D; 0x0E00000E; 0x0F00000F; 0x10000010; 0x11000011;
   0x12000012; 0x13000013; 0x14000014; 0x15000015; 0x16000016; 0x17000017;
   0x18000018; 0x19000019; 0x1A00001A; 0x1B00001B; 0x1C00001C; 0x1D00001D;
   0x1E00001E; 0x1F00001F; 0x20000020; 0x21000021; 0x22000022; 0x23000023;
   0x24000024; 0x25000025; 0x26000026; 0x27000027; 0x28000028; 0x29000029;
   0x2A00002A; 0x2B00002B; 0x2C00002C; 0x2D00002D; 0x2E00002E; 0x2F00002F;
   0x30000030; 0x31000031; 0x32000032; 0x33000033; 0x34000034; 0x35000035;
   0x36000036; 0x37000037; 0x38000038; 0x39000039; 0x3A00003A; 0x3B00003B;
   0x3C00003C; 0x3D00003D; 0x3E00003E; 0x3F00003F; 0x40000040; 0x41000041;
   0x42000042; 0x43000043; 0x44000044; 0x45000045; 0x46000046; 0x47000047;
   0x48000048; 0x49000049; 0x4A00004A; 0x4B00004B; 0x4C00004C; 0x4D00004D;
   0x4E00004E; 0x4F00004F; 0x50000050; 0x51000051; 0x52000052; 0x53000053;
   0x54000054; 0x55000055; 0x56000056; 0x57000057; 0x58000058; 0x59000059;
   0x5A00005A; 0x5B00005B; 0x5C00005C; 0x5D00005D; 0x5E00005E; 0x5F00005F;
   0x60000060; 0x61000061; 0x62000062; 0x63000063; 0x64000064; 0x65000065;
   0x66000066; 0x67000067; 0x68000068; 0x69000069; 0x6A00006A; 0x6B00006B;
   0x6C00006C; 0x6D00006D; 0x6E00006E; 0x6F00006F; 0x70000070; 0x71000071;
   0x72000072; 0x73000073; 0x74000074; 0x75000075; 0x76000076; 0x77000077;
   0x78000078; 0x79000079; 0x7A00007A; 0x7B00007B; 0x7C00007C; 0x7D00007D;
   0x7E00007E; 0x7F00007F; 0x81000081; 0x83000083; 0x88000088; 0x90000090;
   0x98000098; 0xA00000A0; 0xA40000A4; 0xA60000A6; 0xA70000A7; 0xA80000A8;
   0xA90000A9; 0xAB0000AB; 0xAC0000AC; 0xAD0000AD; 0xAE0000AE; 0xB00000B0;
   0xB10000B1; 0xB40000B4; 0xB50000B5; 0xB60000B6; 0xB70000B7; 0xB80000B8;
   0xBB0000BB; 0xC10000C1; 0xC20000C2; 0xC40000C4; 0xC70000C7; 0xC90000C9;
   0xCB0000CB; 0xCD0000CD; 0xCE0000CE; 0xD30000D3; 0xD40000D4; 0xD60000D6;
   0xD70000D7; 0xDA0000DA; 0xDC0000DC; 0xDD0000DD; 0xDF0000DF; 0xE10000E1;
   0xE20000E2; 0xE40000E4; 0xE70000E7; 0xE90000E9; 0xEB0000EB; 0xED0000ED;
   0xEE0000EE; 0xF30000F3; 0xF40000F4; 0xF60000F6; 0xF70000F7; 0xFA0000FA;
   0xFC0000FC; 0xFD0000FD; 0xC3000102; 0xE3000103; 0xA5000104; 0xB9000105;
   0xC6000106; 0xE6000107; 0xC800010C; 0xE800010D; 0xCF00010E; 0xEF00010F;
   0xD0000110; 0xF0000111; 0xCA000118; 0xEA000119; 0xCC00011A; 0xEC00011B;
   0xC5000139; 0xE500013A; 0xBC00013D; 0xBE00013E; 0xA3000141; 0xB3000142;
   0xD1000143; 0xF1000144; 0xD2000147; 0xF2000148; 0xD5000150; 0xF5000151;
   0xC0000154; 0xE0000155; 0xD8000158; 0xF8000159; 0x8C00015A; 0x9C00015B;
   0xAA00015E; 0xBA00015F; 0x8A000160; 0x9A000161; 0xDE000162; 0xFE000163;
   0x8D000164; 0x9D000165; 0xD900016E; 0xF900016F; 0xDB000170; 0xFB000171;
   0x8F000179; 0x9F00017A; 0xAF00017B; 0xBF00017C; 0x8E00017D; 0x9E00017E;
   0xA10002C7; 0xA20002D8; 0xFF0002D9; 0xB20002DB; 0xBD0002DD; 0x96002013;
   0x97002014; 0x91002018; 0x92002019; 0x8200201A; 0x9300201C; 0x9400201D;
   0x8400201E; 0x86002020; 0x87002021; 0x95002022; 0x85002026; 0x89002030;
   0x8B002039; 0x9B00203A; 0x800020AC; 0x99002122 ].

(** The first entry of the table past the ASCII bytes. *)
Definition low : Z := 0x80.

(** The binary search of the encoder for the rune [r]:
    [for low, high := int(low), 0x100; ; { if low >= high { error }; ... }].
    The interval shrinks at every turn, which bounds [fuel]. *)
Fixpoint search (fuel : nat) (r low high : Z) : option Z :=
  match fuel with
  | O => None
  | S fuel' =>
    if high <=? low then None else
    let mid := Z.quot (low + high) 2 in
    let got := nth (Z.to_nat mid) windows1250Encode 0 in
    let gotRune := Z.land got (Z.shiftl 1 24 - 1) in
    if gotRune <? r then search fuel' r (mid + 1) high
    else if r <? gotRune then search fuel' r low mid
    else Some (Z.land (Z.shiftr got 24) 255)
  end.

(** The byte of a rune above ASCII, [None] when the code page has no such
    character.  The interval of 128 entries is empty after eight
    halvings. *)
Definition encodeRune (r : Z) : option Z := search 9 r low 0x100.

(** The loop of the encoder over the source: an ASCII byte is copied,
    every other rune is decoded and looked up; a byte that is not UTF-8
    and a rune the code page does not have are errors ([None]).  [skip]
    counts the bytes of the current rune still to be passed over. *)
Fixpoint encodeFrom (skip : nat) (src : string) : option string :=
  match src with
  | "" => Some ""
  | String c rest =>
    match skip with
    | S k => encodeFrom k rest
    | O =>
      if byte_val c <? Utf8.RuneSelf then
        (* Decode a 1-byte rune. *)
        option_map (String c) (encodeFrom 0 rest)
      else
        (* Decode a multi-byte rune. *)
        let '(r, size) := Utf8.DecodeRuneInString src in
        if size =? 1 then None else
        match encodeRune r with
        | Some b => option_map (String (chr b)) (encodeFrom (Z.to_nat size - 1) rest)
        | None => None
        end
    end
  end.

(** [Windows1250.NewEncoder().String(s)]: the encoded string, or the
    error ([None]). *)
Definition encodeString (s : string) : option string := encodeFrom 0 s.

End Charmap.

(** ** Package [math] *)

Module GoMath.

Definition signMask : Z := 2 ^ 63.
Definition shift : Z := 52.
Definition mask : Z := 0x7FF.
Definition bias : Z := 1023.
Definition fracMask : Z := 2 ^ 52 - 1.
Definition uvone : Z := 0x3FF0000000000000.
Definition uvnan : Z := 0x7FF8000000000001.
Definition uvinf : Z := 0x7FF0000000000000.

(** The IEEE 754 binary representation of a [float64]. *)
Definition Float64bits (f : float) : Z :=
  match Prim2SF f with
  | S754_zero s => if s then signMask else 0
  | S754_infinity s => (if s then signMask else 0) + uvinf
  | S754_nan => uvnan
  | S754_finite s m e =>
    (if s then signMask else 0) +
    (if Z.pos m <? 2 ^ shift then Z.pos m
     else (e + shift + bias) * 2 ^ shift + (Z.pos m - 2 ^ shift))
  end.

Definition Float64frombits (b : Z) : float :=
  let s := Z.testbit b 63 in
  let e := Z.land (Z.shiftr b shift) mask in
  let frac := Z.land b fracMask in
  if e =? mask then
    (if frac =? 0 then (if s then neg_infinity else infinity) else nan)
  else if e =? 0 then
    match frac with
    | Z.pos m => SF2Prim (S754_finite s m (1 - bias - shift))
    | _ => if s then neg_zero else zero
    end
  else SF2Prim (S754_finite s (Z.to_pos (frac + 2 ^ shift)) (e - bias - shift)).

(** [Round x]: the nearest integer, rounding half away from zero. *)
Definition Round (x : float) : float :=
  let bits := Float64bits x in
  let e := Z.land (Z.shiftr bits shift) mask in
  let bits :=
    if e <? bias then
      (* Round abs(x) < 1 including denormals. *)
      let bits := Z.land bits signMask in
      if e =? bias - 1 then Z.lor bits uvone else bits
    else if e <? bias + shift then
      (* Round any abs(x) >= 1 containing a fractional component. *)
      let half := 2 ^ (shift - 1) in
      let e := e - bias in
      let bits := (bits + Z.shiftr half e) mod 2 ^ 64 in
      Z.land bits (Z.lnot (Z.shiftr fracMask e) mod 2 ^ 64)
    else bits in
  Float64frombits bits.

End GoMath.

(** ** Package [sort]: [sort.Slice]

    [sort.Slice(x, less)] runs the pattern-defeating quicksort of Go's
    [sort] package (Go 1.19 and later) on the pair of operations
    [lessSwap{less, swap}].  The closure [less] receives two indices and
    reads the slice it closes over, which is the slice being sorted: it is
    modelled as a function of the current contents and the two indices.
    Every loop carries a bound on its iterations, one more than it can run
    (the bound is never reached: [OutOfFuel]). *)

Module GoSort.
Section Slice.

Context {A : Type}.
Variable less : list A -> Z -> Z -> result bool.

Definition index (data : list A) (i : Z) : result A :=
  if 0 <=? i then
    match data !! Z.to_nat i with
    | Some x => Ok x
    | None => Panic "index out of range"
    end
  else Panic "index out of range".

(** [reflectlite.Swapper]: exchanges two elements of the slice. *)
Definition Swap (data : list A) (i j : Z) : result (list A) :=
  let* x := index data i in
  let* y := index data j in
  Ok (<[Z.to_nat j := x]> (<[Z.to_nat i := y]> data)).

Definition Less (data : list A) (i j : Z) : result bool := less data i j.

(** [for j := i; j > a && data.Less(j, j-1); j-- { data.Swap(j, j-1) }] *)
Fixpoint insertionSort_inner (fuel : nat) (data : list A) (a j : Z)
  : result (list A) :=
  match fuel with
  | O => OutOfFuel
  | S fuel' =>
    if a <? j then
      let* lt := Less data j (j - 1) in
      if lt : bool then
        let* data := Swap data j (j - 1) in
        insertionSort_inner fuel' data a (j - 1)
      else Ok data
    else Ok data
  end.

(** [for i := a + 1; i < b; i++ { ... }] *)
Fixpoint insertionSort_outer (fuel : nat) (data : list A) (a b i : Z)
  : result (list A) :=
  match fuel with
  | O => OutOfFuel
  | S fuel' =>
    if i <? b then
      let* data := insertionSort_inner (S (Z.to_nat (i - a))) data a i in
      insertionSort_outer fuel' data a b (i + 1)
    else Ok data
  end.

(** [insertionSort_func] sorts [data[a:b]] using insertion sort. *)
Definition insertionSort_func (data : list A) (a b : Z) : result (list A) :=
  insertionSort_outer (S (Z.to_nat (b - a))) data a b (a + 1).

(** [siftDown_func] implements the heap property on [data[lo:hi]];
    [first] is the offset of the root of the heap. *)
Fixpoint siftDown_loop (fuel : nat) (data : list A) (root hi first : Z)
  : result (list A) :=
  match fuel with
  | O => OutOfFuel
  | S fuel' =>
    let child := 2 * root + 1 in
    if hi <=? child then Ok data else
    let* child := (if child + 1 <? hi then
                let* lt := Less data (first + child) (first + child + 1) in
                Ok (if lt : bool then child + 1 else child)
              else Ok child) in
    let* lt := Less data (first + root) (first + child) in
    if negb lt then Ok data else
    let* data := Swap data (first + root) (first + child) in
    siftDown_loop fuel' data child hi first
  end.

Definition siftDown_func (data : list A) (lo hi first : Z) : result (list A) :=
  siftDown_loop (S (Z.to_nat hi)) data lo hi first.

(** [for i := (hi - 1) / 2; i >= 0; i-- { siftDown_func(data, i, hi, first) }] *)
Fixpoint heapSort_build (fuel : nat) (data : list A) (i hi first : Z)
  : result (list A) :=
  match fuel with
  | O => OutOfFuel
  | S fuel' =>
    if 0 <=? i then
      let* data := siftDown_func data i hi first in
      heapSort_build fuel' data (i - 1) hi first
    else Ok data
  end.

(** [for i := hi - 1; i >= 0; i-- { data.Swap(first, first+i);
    siftDown_func(data, lo, i, first) }] *)
Fixpoint heapSort_pop (fuel : nat) (data : list A) (i lo first : Z)
  : result (list A) :=
  match fuel with
  | O => OutOfFuel
  | S fuel' =>
    if 0 <=? i then
      let* data := Swap data first (first + i) in
      let* data := siftDown_func data lo i first in
      heapSort_pop fuel' data (i - 1) lo first
    else Ok data
  end.

Definition heapSort_func (data : list A) (a b : Z) : result (list A) :=
  let first := a in
  let lo := 0 in
  let hi := b - a in
  (* Build heap with greatest element at top. *)
  let* data := heapSort_build (S (S (Z.to_nat hi))) data (Z.quot (hi - 1) 2) hi first in
  (* Pop elements, largest first, into end of data. *)
  heapSort_pop (S (S (Z.to_nat hi))) data (hi - 1) lo first.

(** [for i <= j && data.Less(i, a) { i++ }] *)
Fixpoint scanLess (fuel : nat) (data : list A) (a i j : Z) : result Z :=
  match fuel with
  | O => OutOfFuel
  | S fuel' =>
    if i <=? j then
      let* lt := Less data i a in
      if lt : bool then scanLess fuel' data a (i + 1) j else Ok i
    else Ok i
  end.

(** [for i <= j && !data.Less(j, a) { j-- }] *)
Fixpoint scanNotLess (fuel : nat) (data : list A) (a i j : Z) : result Z :=
  match fuel with
  | O => OutOfFuel
  | S fuel' =>
    if i <=? j then
      let* lt := Less data j a in
      if negb lt then scanNotLess fuel' data a i (j - 1) else Ok j
    else Ok j
  end.

(** The closing [for { ... }] of [partition_func]. *)
Fixpoint partition_loop (fuel : nat) (data : list A) (a i j : Z)
  : result (list A * Z * Z) :=
  match fuel with
  | O => OutOfFuel
  | S fuel' =>
    let* i := scanLess (S (S (Z.to_nat (j - i)))) data a i j in
    let* j := scanNotLess (S (S (Z.to_nat (j - i)))) data a i j in
    if j <? i then Ok (data, i, j) else
    let* data := Swap data i j in
    partition_loop fuel' data a (i + 1) (j - 1)
  end.

(** [partition_func] does one quicksort partition: with [p = data[pivot]],
    it moves the elements of [data[a:b]] so that [data[i] < p] and
    [data[j] >= p] for [i < newpivot] and [j > newpivot]. *)
Definition partition_func (data : list A) (a b pivot : Z)
  : result (list A * Z * bool) :=
  let* data := Swap data a pivot in
  let i := a + 1 in
  let j := b - 1 in
  let* i := scanLess (S (S (Z.to_nat (j - i)))) data a i j in
  let* j := scanNotLess (S (S (Z.to_nat (j - i)))) data a i j in
  if j <? i then
    let* data := Swap data j a in
    Ok (data, j, true)
  else
    let* data := Swap data i j in
    let* ' (data, _, j) := partition_loop (S (S (Z.to_nat (j - i)))) data a (i + 1) (j - 1) in
    let* data := Swap data j a in
    Ok (data, j, false).

(** [for i <= j && !data.Less(a, i) { i++ }] *)
Fixpoint scanNotGreater (fuel : nat) (data : list A) (a i j : Z) : result Z :=
  match fuel with
  | O => OutOfFuel
  | S fuel' =>
    if i <=? j then
      let* lt := Less data a i in
      if negb lt then scanNotGreater fuel' data a (i + 1) j else Ok i
    else Ok i
  end.

(** [for i <= j && data.Less(a, j) { j-- }] *)
Fixpoint scanGreater (fuel : nat) (data : list A) (a i j : Z) : result Z :=
  match fuel with
  | O => OutOfFuel
  | S fuel' =>
    if i <=? j then
      let* lt := Less data a j in
      if lt : bool then scanGreater fuel' data a i (j - 1) else Ok j
    else Ok j
  end.

Fixpoint partitionEqual_loop (fuel : nat) (data : list A) (a i j : Z)
  : result (list A * Z) :=
  match fuel with
  | O => OutOfFuel
  | S fuel' =>
    let* i := scanNotGreater (S (S (Z.to_nat (j - i)))) data a i j in
    let* j := scanGreater (S (S (Z.to_nat (j - i)))) data a i j in
    if j <? i then Ok (data, i) else
    let* data := Swap data i j in
    partitionEqual_loop fuel' data a (i + 1) (j - 1)
  end.

(** [partitionEqual_func] partitions [data[a:b]] into the elements equal
    to [data[pivot]] followed by the elements greater than it. *)
Definition partitionEqual_func (data : list A) (a b pivot : Z)
  : result (list A * Z) :=
  let* data := Swap data a pivot in
  partitionEqual_loop (S (S (Z.to_nat (b - a)))) data a (a + 1) (b - 1).

(** [for i < b && !data.Less(i, i-1) { i++ }] *)
Fixpoint scanOrdered (fuel : nat) (data : list A) (b i : Z) : result Z :=
  match fuel with
  | O => OutOfFuel
  | S fuel' =>
    if i <? b then
      let* lt := Less data i (i - 1) in
      if negb lt then scanOrdered fuel' data b (i + 1) else Ok i
    else Ok i
  end.

(** [for j := i - 1; j >= 1; j-- { if !data.Less(j, j-1) { break };
    data.Swap(j, j-1) }] *)
Fixpoint shiftLeft (fuel : nat) (data : list A) (j : Z) : result (list A) :=
  match fuel with
  | O => OutOfFuel
  | S fuel' =>
    if 1 <=? j then
      let* lt := Less data j (j - 1) in
      if negb lt then Ok data else
      let* data := Swap data j (j - 1) in
      shiftLeft fuel' data (j - 1)
    else Ok data
  end.

(** [for j := i + 1; j < b; j++ { if !data.Less(j, j-1) { break };
    data.Swap(j, j-1) }] *)
Fixpoint shiftRight (fuel : nat) (data : list A) (b j : Z) : result (list A) :=
  match fuel with
  | O => OutOfFuel
  | S fuel' =>
    if j <? b then
      let* lt := Less data j (j - 1) in
      if negb lt then Ok data else
      let* data := Swap data j (j - 1) in
      shiftRight fuel' data b (j + 1)
    else Ok data
  end.

Definition maxSteps : nat := 5.
Definition shortestShifting : Z := 50.

(** [for j := 0; j < maxSteps; j++ { ... }]; [steps] counts the
    iterations left. *)
Fixpoint partialInsertionSort_loop (steps : nat) (data : list A) (a b i : Z)
  : result (list A * bool) :=
  match steps with
  | O => Ok (data, false)
  | S steps' =>
    let* i := scanOrdered (S (S (Z.to_nat (b - i)))) data b i in
    if i =? b then Ok (data, true) else
    if b - a <? shortestShifting then Ok (data, false) else
    let* data := Swap data i (i - 1) in
    (* Shift the smaller one to the left. *)
    let* data := (if 2 <=? i - a then shiftLeft (S (S (Z.to_nat i))) data (i - 1)
             else Ok data) in
    (* Shift the greater one to the right. *)
    let* data := (if 2 <=? b - i then shiftRight (S (S (Z.to_nat (b - i)))) data b (i + 1)
             else Ok data) in
    partialInsertionSort_loop steps' data a b i
  end.

(** [partialInsertionSort_func] partially sorts a slice and reports
    whether the slice is sorted at the end. *)
Definition partialInsertionSort_func (data : list A) (a b : Z)
  : result (list A * bool) :=
  partialInsertionSort_loop maxSteps data a b (a + 1).

(** [bits.Len(x)]: the number of bits needed to represent [x]. *)
Definition bitsLen (x : Z) : Z := if x <=? 0 then 0 else Z.log2 x + 1.

(** [xorshift.Next]. *)
Definition xorshiftNext (r : Z) : Z :=
  let r := Z.lxor r (Z.shiftl r 13 mod 2 ^ 64) in
  let r := Z.lxor r (Z.shiftr r 7) in
  Z.lxor r (Z.shiftl r 17 mod 2 ^ 64).

Definition nextPowerOfTwo (length : Z) : Z := Z.shiftl 1 (bitsLen length).

(** [for i := 0; i < 3; i++ { ... }] of [breakPatterns_func]. *)
Fixpoint breakPatterns_loop (n : nat) (data : list A)
    (a length modulus idx random i : Z) : result (list A) :=
  match n with
  | O => Ok data
  | S n' =>
    let random := xorshiftNext random in
    let other := Z.land random (modulus - 1) in
    let other := if length <=? other then other - length else other in
    let* data := Swap data (idx - 1 + i) (a + other) in
    breakPatterns_loop n' data a length modulus idx random (i + 1)
  end.

(** [breakPatterns_func] scatters some elements around in an attempt to
    break patterns that might cause imbalanced partitions. *)
Definition breakPatterns_func (data : list A) (a b : Z) : result (list A) :=
  let length := b - a in
  if 8 <=? length then
    let random := length in
    let modulus := nextPowerOfTwo length in
    let idx := a + Z.quot length 4 * 2 - 1 in
    breakPatterns_loop 3 data a length modulus idx random 0
  else Ok data.

Inductive sortedHint : Type :=
| unknownHint
| increasingHint
| decreasingHint.

(** [order2_func] returns [x, y] with [data[x] <= data[y]], where
    [x, y = a, b] or [x, y = b, a]; [swaps] counts the exchanges. *)
Definition order2_func (data : list A) (a b swaps : Z) : result (Z * Z * Z) :=
  let* lt := Less data b a in
  if lt : bool then Ok (b, a, swaps + 1) else Ok (a, b, swaps).

(** [median_func] returns [x] where [data[x]] is the median of
    [data[a], data[b], data[c]]. *)
Definition median_func (data : list A) (a b c swaps : Z) : result (Z * Z) :=
  let* ' (a, b, swaps) := order2_func data a b swaps in
  let* ' (b, c, swaps) := order2_func data b c swaps in
  let* ' (a, b, swaps) := order2_func data a b swaps in
  Ok (b, swaps).

(** [medianAdjacent_func] finds the median of [data[a-1], data[a],
    data[a+1]]. *)
Definition medianAdjacent_func (data : list A) (a swaps : Z) : result (Z * Z) :=
  median_func data (a - 1) a (a + 1) swaps.

Definition shortestNinther : Z := 50.
Definition maxSwaps : Z := 4 * 3.

(** [choosePivot_func] chooses a pivot in [data[a:b]]: a static pivot for
    fewer than 8 elements, the median of three below [shortestNinther],
    Tukey's ninther above. *)
Definition choosePivot_func (data : list A) (a b : Z) : result (Z * sortedHint) :=
  let l := b - a in
  let swaps := 0 in
  let i := a + Z.quot l 4 * 1 in
  let j := a + Z.quot l 4 * 2 in
  let k := a + Z.quot l 4 * 3 in
  let* ' (j, swaps) :=
    (if 8 <=? l then
       let* ' (i, j, k, swaps) :=
         (if shortestNinther <=? l then
            let* ' (i, swaps) := medianAdjacent_func data i swaps in
            let* ' (j, swaps) := medianAdjacent_func data j swaps in
            let* ' (k, swaps) := medianAdjacent_func data k swaps in
            Ok (i, j, k, swaps)
          else Ok (i, j, k, swaps)) in
       (* Find the median among i, j, k and stores it into j. *)
       median_func data i j k swaps
     else Ok (j, swaps)) in
  if swaps =? 0 then Ok (j, increasingHint)
  else if swaps =? maxSwaps then Ok (j, decreasingHint)
  else Ok (j, unknownHint).

(** [for i < j { data.Swap(i, j); i++; j-- }] *)
Fixpoint reverseRange_loop (fuel : nat) (data : list A) (i j : Z)
  : result (list A) :=
  match fuel with
  | O => OutOfFuel
  | S fuel' =>
    if i <? j then
      let* data := Swap data i j in
      reverseRange_loop fuel' data (i + 1) (j - 1)
    else Ok data
  end.

Definition reverseRange_func (data : list A) (a b : Z) : result (list A) :=
  reverseRange_loop (S (Z.to_nat (b - a))) data a (b - 1).

Definition maxInsertion : Z := 12.

Definition isIncreasing (h : sortedHint) : bool :=
  match h with increasingHint => true | _ => false end.

Definition isDecreasing (h : sortedHint) : bool :=
  match h with decreasingHint => true | _ => false end.

(** [pdqsort_func] sorts [data[a:b]]; [limit] is the number of allowed bad
    pivots before falling back to heapsort.  One unit of [fuel] is spent
    per iteration of the function's loop, on its recursive call as on
    its continuation; [wasBalanced] and [wasPartitioned] are the loop's
    two variables, both [true] on entry. *)
Fixpoint pdqsort_loop (fuel : nat) (data : list A) (a b limit : Z)
    (wasBalanced wasPartitioned : bool) : result (list A) :=
  match fuel with
  | O => OutOfFuel
  | S fuel' =>
    let length := b - a in
    if length <=? maxInsertion then insertionSort_func data a b else
    (* Fall back to heapsort if too many bad choices were made. *)
    if limit =? 0 then heapSort_func data a b else
    (* If the last partitioning was imbalanced, we need to breakPatterns. *)
    let* ' (data, limit) :=
      (if negb wasBalanced then
         let* data := breakPatterns_func data a b in Ok (data, limit - 1)
       else Ok (data, limit)) in
    let* ' (pivot, hint) := choosePivot_func data a b in
    let* ' (data, pivot, hint) :=
      (if isDecreasing hint then
         let* data := reverseRange_func data a b in
         Ok (data, (b - 1) - (pivot - a), increasingHint)
       else Ok (data, pivot, hint)) in
    (* The slice is likely already sorted. *)
    let* ' (data, sorted) :=
      (if wasBalanced && wasPartitioned && isIncreasing hint then
         partialInsertionSort_func data a b
       else Ok (data, false)) in
    if sorted : bool then Ok data else
    (* Probably the slice contains many duplicate elements. *)
    let* dup := (if 0 <? a then let* lt := Less data (a - 1) pivot in Ok (negb lt)
            else Ok false) in
    if dup : bool then
      let* ' (data, mid) := partitionEqual_func data a b pivot in
      pdqsort_loop fuel' data mid b limit wasBalanced wasPartitioned
    else
      let* ' (data, mid, alreadyPartitioned) := partition_func data a b pivot in
      let wasPartitioned := alreadyPartitioned in
      let leftLen := mid - a in
      let rightLen := b - mid in
      let balanceThreshold := Z.quot length 8 in
      if leftLen <? rightLen then
        let wasBalanced := balanceThreshold <=? leftLen in
        let* data := pdqsort_loop fuel' data a mid limit true true in
        pdqsort_loop fuel' data (mid + 1) b limit wasBalanced wasPartitioned
      else
        let wasBalanced := balanceThreshold <=? rightLen in
        let* data := pdqsort_loop fuel' data (mid + 1) b limit true true in
        pdqsort_loop fuel' data a mid limit wasBalanced wasPartitioned
  end.

Definition pdqsort_func (data : list A) (a b limit : Z) : result (list A) :=
  pdqsort_loop (S (Z.to_nat (b - a))) data a b limit true true.

(** [for i := n - 1; i > 0; i-- { if less(i, i-1) { return false } }] *)
Fixpoint isSorted_loop (fuel : nat) (data : list A) (i : Z) : result bool :=
  match fuel with
  | O => OutOfFuel
  | S fuel' =>
    if 0 <? i then
      let* lt := Less data i (i - 1) in
      if lt : bool then Ok false else isSorted_loop fuel' data (i - 1)
    else Ok true
  end.

(** [sort.SliceIsSorted(x, less)] reports whether the slice is sorted
    according to [less]. *)
Definition SliceIsSorted (x : list A) : result bool :=
  let n := Z.of_nat (List.length x) in
  isSorted_loop (S (Z.to_nat n)) x (n - 1).

(** [sort.Slice(x, less)]. *)
Definition Slice (x : list A) : result (list A) :=
  let length := Z.of_nat (List.length x) in
  let limit := bitsLen length in
  pdqsort_func x 0 length limit.

End Slice.
End GoSort.

(** ** Package [github.com/jonas-p/go-shp]: the consumed interface

    A shapefile is seen through its reader: the declared column names, and
    per record the shape (by its bounding box) and the attribute values as
    strings, addressed by column position. *)

Module Shp.

Record Box : Type := mkBox {
  MinX : float;
  MinY : float;
  MaxX : float;
  MaxY : float
}.

Record Row : Type := mkRow {
  BBox : Box;
  attributes : list string
}.

Record Reader : Type := mkReader {
  Fields : list string;
  rows : list Row
}.

(** The files [shp.Open] can open, by name. *)
Definition FileSystem : Type := gmap string Reader.

(** [shp.Open]: [None] is the error return. *)
Definition Open (fs : FileSystem) (name : string) : option Reader := fs !! name.

(** [Attribute n] of the current record: a column the table does not have
    is an index out of range. *)
Definition Attribute (r : Row) (n : Z) : result string :=
  if 0 <=? n then
    match attributes r !! Z.to_nat n with
    | Some s => Ok s
    | None => Panic "index out of range"
    end
  else Panic "index out of range".

End Shp.

(** ** Package [github.com/paulmach/go.geojson] *)

Module Geojson.

(** The values of type [interface{}] a property can hold. *)
Inductive any : Type :=
| AString (s : string)
| AFloat64 (x : float)
| ABool (b : bool)
| ANil.

Record Feature : Type := mkFeature {
  Point : list float;              (* the coordinates of the Point geometry *)
  Properties : gmap string any
}.

Definition NewPointFeature (coordinate : list float) : Feature :=
  {| Point := coordinate; Properties := ∅ |}.

Definition SetProperty (f : Feature) (key : string) (value : any) : Feature :=
  {| Point := Point f; Properties := <[key := value]> (Properties f) |}.

Record FeatureCollection : Type := mkFeatureCollection {
  Features : list Feature
}.

Definition NewFeatureCollection : FeatureCollection := {| Features := [] |}.

Definition AddFeature (fc : FeatureCollection) (f : Feature) : FeatureCollection :=
  {| Features := Features fc ++ [f] |}.

(** [v != nil] for [v := Properties[key]]. *)
Definition notNil (v : option any) : bool :=
  match v with
  | None | Some ANil => false
  | Some _ => true
  end.

(** The type assertion [v.(string)] for [v := Properties[key]]. *)
Definition assertString (v : option any) : result string :=
  match v with
  | Some (AString s) => Ok s
  | _ => Panic "interface conversion: interface {} is not string"
  end.

End Geojson.

Import Geojson.

(** ** The program: [gursShp2geoJson.go] *)

(** [DecodeWindows1250bytes] decodes win1250 bytes and returns a UTF-8
    string. *)
Definition DecodeWindows1250bytes (enc : string) : string := Charmap.decodeBytes enc.

(** [DecodeWindows1250] decodes a win1250 string and returns a UTF-8
    string. *)
Definition DecodeWindows1250 (str : string) : string := DecodeWindows1250bytes str.

(** [EncodeWindows1250] encodes the given UTF-8 string into Windows 1250.
    The error of the encoder is dropped, and the encoder returns the empty
    string with an error. *)
Definition EncodeWindows1250 (inp : string) : string :=
  match Charmap.encodeString inp with
  | Some out => out
  | None => ""
  end.

Definition NUL : string := String (chr 0) "".

(** The loop over [shapeReader.Fields()] of [readShapefileToMap]; [i] is
    the position of the head of [fields]. *)
Fixpoint findColumns (fields : list string) (keyColumnName valueColumnName : string)
    (i keyColumnIndex valueColumnIndex : Z) : Z * Z :=
  match fields with
  | [] => (keyColumnIndex, valueColumnIndex)
  | v :: rest =>
    let '(keyColumnIndex, valueColumnIndex) :=
      if String.eqb v keyColumnName then (i, valueColumnIndex)
      else if String.eqb v valueColumnName then (keyColumnIndex, i)
      else (keyColumnIndex, valueColumnIndex) in
    if negb (valueColumnIndex =? -1) && negb (keyColumnIndex =? -1)
    then (keyColumnIndex, valueColumnIndex)
    else findColumns rest keyColumnName valueColumnName (i + 1)
                     keyColumnIndex valueColumnIndex
  end.

(** The loop over the records of [readShapefileToMap]. *)
Fixpoint readRows (rows : list Shp.Row) (keyColumnIndex valueColumnIndex : Z)
    (resultMap : gmap string string) : result (gmap string string) :=
  match rows with
  | [] => Ok resultMap
  | row :: rest =>
    let* value := Shp.Attribute row valueColumnIndex in
    let valueUtf := DecodeWindows1250 value in
    (* trim null characters to remove null strings (when no bilingual name) *)
    let valueUtf := Strings.Trim valueUtf NUL in
    let* resultMap :=
      (if 0 <? len valueUtf then
         let* key := Shp.Attribute row keyColumnIndex in
         Ok (<[DecodeWindows1250 key := valueUtf]> resultMap)
       else Ok resultMap) in
    readRows rest keyColumnIndex valueColumnIndex resultMap
  end.

(** [readShapefileToMap] reads 2 columns from [shapeFileName] and returns
    them as a map.  (The sample records it collects and the warning for an
    empty map only go to the log, which is not modelled.) *)
Definition readShapefileToMap (fs : Shp.FileSystem) (shapeFileName : string)
    (keyColumnName valueColumnName : string) : result (gmap string string) :=
  match Shp.Open fs shapeFileName with
  | None => Fatal "open"
  | Some shapeReader =>
    let '(keyColumnIndex, valueColumnIndex) :=
      findColumns (Shp.Fields shapeReader) keyColumnName valueColumnName 0 (-1) (-1) in
    readRows (Shp.rows shapeReader) keyColumnIndex valueColumnIndex ∅
  end.

Definition roundingFactor : float := 10000000%float.

(* OpenStreetMap tags: *)
Definition tagHousenumber : string := "addr:housenumber".
Definition tagCity : string := "addr:city".
Definition tagPostCode : string := "addr:postcode".
Definition tagStreet : string := "addr:street".
Definition tagPlace : string := "addr:place".
Definition tagSourceDate : string := "source:addr:date".
Definition tagSource : string := "source:addr".
Definition tagSourceValue : string := "GURS".
Definition tagRef : string := "ref:GURS:HS_MID".
Definition tagLangPostfixSlovenian : string := ":sl".
Definition tagLangPostfixItalian : string := ":it".
Definition tagLangPostfixHungarian : string := ":hu".
Definition bilingualSeparator : string := " / ".

(** The six lookup maps (package-level variables in the source). *)
Record Lookups : Type := mkLookups {
  ptCodeMap : gmap string string;
  ptNameMap : gmap string string;
  ulNameMap : gmap string string;
  ulNameDjMap : gmap string string;
  naNameMap : gmap string string;
  naNameDjMap : gmap string string
}.

(** [ReadLookups] reads all needed shapefiles to maps in memory.  The six
    goroutines write six different variables and are joined before the
    function returns, so their effect is that of the six calls in sequence
    (when several of them fail, the model reports the first). *)
Definition ReadLookups (fs : Shp.FileSystem) : result Lookups :=
  let* ptCode := readShapefileToMap fs "data/temp/PT/SI.GURS.RPE.PUB.PT.shp" "PT_MID" "PT_ID" in
  let* ptName := readShapefileToMap fs "data/temp/PT/SI.GURS.RPE.PUB.PT.shp" "PT_MID" "PT_UIME" in
  let* ulName := readShapefileToMap fs "data/temp/UL/SI.GURS.RPE.PUB.UL.shp" "UL_MID" "UL_UIME" in
  let* ulNameDj := readShapefileToMap fs "data/temp/UL/SI.GURS.RPE.PUB.UL.shp" "UL_MID" "UL_DJ" in
  let* naName := readShapefileToMap fs "data/temp/NA/SI.GURS.RPE.PUB.NA.shp" "NA_MID" "NA_UIME" in
  let* naNameDj := readShapefileToMap fs "data/temp/NA/SI.GURS.RPE.PUB.NA.shp" "NA_MID" "NA_DJ" in
  Ok {| ptCodeMap := ptCode; ptNameMap := ptName;
        ulNameMap := ulName; ulNameDjMap := ulNameDj;
        naNameMap := naName; naNameDjMap := naNameDj |}.

(** [m[key]] of a [map[string]string]: the empty string when [key] is
    missing. *)
Definition mapIndex (m : gmap string string) (key : string) : string :=
  default "" (m !! key).

(** [ApplyTagLanguagePostfix] applies the language postfix to the given
    prefix based on longitude. *)
Definition ApplyTagLanguagePostfix (prefix : string) (longitude : float) : string :=
  (* Bilingual names with longitude greater than (right, east of this
     meridian) are considered in Hungarian, otherwise in Italian *)
  let ItalianHungarianSplitLongitude := 14.5%float in
  if PrimFloat.ltb ItalianHungarianSplitLongitude longitude then
    (* assume Hungarian *)
    prefix +:+ tagLangPostfixHungarian
  else
    (* assume Italian *)
    prefix +:+ tagLangPostfixItalian.

(** What one iteration of the loop of [ReadShapefile] does with a record:
    [continue] after printing a line, or a feature to add. *)
Inductive step : Type :=
| Skip (line : string)
| Emit (f : Feature).

(** The body of the loop of [ReadShapefile]. *)
Definition readRecord (lk : Lookups) (row : Shp.Row) : result step :=
  let p := Shp.BBox row in
  let* status := Shp.Attribute row 12 in
  if negb (String.eqb status "V") then Ok (Skip "skipping invalid...") else
  let bb := p in
  (* prepare rounded coordinates: *)
  let lat := (GoMath.Round (Shp.MinY bb * roundingFactor) / roundingFactor)%float in
  let lon := (GoMath.Round (Shp.MinX bb * roundingFactor) / roundingFactor)%float in
  let f := NewPointFeature [lat; lon] in
  let* labela := Shp.Attribute row 4 in
  let f := SetProperty f tagHousenumber
             (AString (Strings.ToLower (DecodeWindows1250 labela))) in
  let* ulMid := Shp.Attribute row 5 in
  let* f :=
    match ulNameMap lk !! ulMid with
    | Some ulName =>
      (* street name exists *)
      match ulNameDjMap lk !! ulMid with
      | Some ulNameDj =>
        if negb (String.eqb ulNameDj ulName) then
          (* bilingual street name exists *)
          let f := SetProperty f tagStreet
                     (AString (ulName +:+ bilingualSeparator +:+ ulNameDj)) in
          let f := SetProperty f (tagStreet +:+ tagLangPostfixSlovenian) (AString ulName) in
          Ok (SetProperty f (ApplyTagLanguagePostfix tagStreet lon) (AString ulNameDj))
        else
          (* only slovenian name *)
          Ok (SetProperty f tagStreet (AString ulName))
      | None => Ok (SetProperty f tagStreet (AString ulName))
      end
    | None =>
      (* no street name, only place *)
      let* naMid := Shp.Attribute row 6 in
      let naName := mapIndex (naNameMap lk) naMid in
      match naNameDjMap lk !! naMid with
      | Some naNameDj =>
        if negb (String.eqb naNameDj naName) then
          (* bilingual place name exists *)
          let f := SetProperty f tagPlace
                     (AString (naName +:+ bilingualSeparator +:+ naNameDj)) in
          let f := SetProperty f (tagPlace +:+ tagLangPostfixSlovenian) (AString naName) in
          Ok (SetProperty f (ApplyTagLanguagePostfix tagPlace lon) (AString naNameDj))
        else
          (* only slovenian name *)
          Ok (SetProperty f tagPlace (AString naName))
      | None => Ok (SetProperty f tagPlace (AString naName))
      end
    end in
  let* ptMid := Shp.Attribute row 8 in
  let f := SetProperty f tagPostCode (AString (mapIndex (ptCodeMap lk) ptMid)) in
  let f := SetProperty f tagCity (AString (mapIndex (ptNameMap lk) ptMid)) in
  let* dateOd := Shp.Attribute row 10 in
  (* slice it up into nice iso YYYY-MM-DD format: *)
  let* yyyy := slice_checked dateOd 0 4 in
  let* mm := slice_checked dateOd 4 6 in
  let* dd := slice_checked dateOd 6 8 in
  let f := SetProperty f tagSourceDate (AString (yyyy +:+ "-" +:+ mm +:+ "-" +:+ dd)) in
  let f := SetProperty f tagSource (AString tagSourceValue) in
  let* hsMid := Shp.Attribute row 1 in
  let f := SetProperty f tagRef (AString hsMid) in
  Ok (Emit f).

(** The state of the loop of [ReadShapefile]: the collection built so far
    and the lines printed on the standard output. *)
Record output : Type := mkOutput {
  featureCollection : FeatureCollection;
  stdout : list string
}.

(** [for shapeReader.Next() { ... }] *)
Fixpoint readRecords (lk : Lookups) (rows : list Shp.Row) (st : output) : result output :=
  match rows with
  | [] => Ok st
  | row :: rest =>
    let* s := readRecord lk row in
    match s with
    | Skip line =>
      readRecords lk rest {| featureCollection := featureCollection st;
                             stdout := stdout st ++ [line] |}
    | Emit f =>
      readRecords lk rest {| featureCollection := AddFeature (featureCollection st) f;
                             stdout := stdout st |}
    end
  end.

(** [ReadShapefile] reads the given shapefile and returns the geoJson. *)
Definition ReadShapefile (fs : Shp.FileSystem) (lk : Lookups) (shapefilename : string)
  : result output :=
  match Shp.Open fs shapefilename with
  | None => Fatal "open"
  | Some shapeReader =>
    readRecords lk (Shp.rows shapeReader)
                {| featureCollection := NewFeatureCollection; stdout := [] |}
  end.

(** [NormalizeHouseNumber] returns a comparable house number (digits padded
    to the left, followed by one letter or [_]). *)
Definition NormalizeHouseNumber (housenumber : string) : string :=
  let '(lastRune, n) := Utf8.DecodeLastRuneInString housenumber in
  if (n =? 0) || Unicode.IsDigit lastRune then
    (* pad right side with _ if it ends with digit to accommodate for
       1-letter suffixes; pad left with zeros to get to 3-digits
       eg "12" -> "012_" (4 characters) *)
    Fmt.padString 3 housenumber +:+ "_"
  else
    (* there is already a letter at the end, just pad left side with zeros
       to keep all lengths equal to 4 characters
       eg "12c" -> "012c" (4 characters) *)
    Fmt.padString 4 housenumber.

(** The closure passed to [sort.Slice] by [SortFeatureCollection]:
    [Features] is the slice being sorted. *)
Definition featureLess (Features : list Feature) (i j : Z) : result bool :=
  let* fi := GoSort.index Features i in
  let* fj := GoSort.index Features j in
  let* PostLeft := assertString (Properties fi !! tagPostCode) in
  let* PostRight := assertString (Properties fj !! tagPostCode) in
  if string_lt PostLeft PostRight then Ok true else
  if string_gt PostLeft PostRight then Ok false else
  let* decided :=
    (if notNil (Properties fi !! tagStreet) then
       if notNil (Properties fj !! tagStreet) then
         let* StreetLeft := assertString (Properties fi !! tagStreet) in
         let* StreetRight := assertString (Properties fj !! tagStreet) in
         if string_lt StreetLeft StreetRight then Ok (Some true) else
         if string_gt StreetLeft StreetRight then Ok (Some false) else
         Ok None
       else Ok None
     else Ok None) in
  match decided with
  | Some b => Ok b
  | None =>
    let* decided :=
      (if notNil (Properties fi !! tagPlace) then
         if notNil (Properties fj !! tagPlace) then
           let* PlaceLeft := assertString (Properties fi !! tagPlace) in
           let* PlaceRight := assertString (Properties fj !! tagPlace) in
           if string_lt PlaceLeft PlaceRight then Ok (Some true) else
           if string_gt PlaceLeft PlaceRight then Ok (Some false) else
           Ok None
         else Ok None
       else Ok None) in
    match decided with
    | Some b => Ok b
    | None =>
      let* hi := assertString (Properties fi !! tagHousenumber) in
      let* hj := assertString (Properties fj !! tagHousenumber) in
      Ok (string_lt (NormalizeHouseNumber hi) (NormalizeHouseNumber hj))
    end
  end.

(** [SortFeatureCollection] sorts the features of the given collection for
    reproducible results and better compression.  The collection is passed
    by value but shares its slice of features with the caller's, so the
    caller sees the new order. *)
Definition SortFeatureCollection (fc : FeatureCollection) : result FeatureCollection :=
  let* sorted := GoSort.Slice featureLess (Features fc) in
  Ok {| Features := sorted |}.

(** [main], up to the serialization of the sorted collection. *)
Definition main (fs : Shp.FileSystem) (inputShapeFileName : string) : result output :=
  let* lk := ReadLookups fs in
  let* out := ReadShapefile fs lk inputShapeFileName in
  let* sorted := SortFeatureCollection (featureCollection out) in
  Ok {| featureCollection := sorted; stdout := stdout out |}.

(** ** Notions the statements use *)

(** The block of the loop body that sets the street tags or the place
    tags (from [ulMid := ...] to the end of the [if]), on its own: it is
    applied to the feature built so far. *)
Definition namingOf (lk : Lookups) (row : Shp.Row) (lon : float) (f : Feature)
  : result Feature :=
  let* ulMid := Shp.Attribute row 5 in
  match ulNameMap lk !! ulMid with
  | Some ulName =>
    match ulNameDjMap lk !! ulMid with
    | Some ulNameDj =>
      if negb (String.eqb ulNameDj ulName) then
        let f := SetProperty f tagStreet
                   (AString (ulName +:+ bilingualSeparator +:+ ulNameDj)) in
        let f := SetProperty f (tagStreet +:+ tagLangPostfixSlovenian) (AString ulName) in
        Ok (SetProperty f (ApplyTagLanguagePostfix tagStreet lon) (AString ulNameDj))
      else Ok (SetProperty f tagStreet (AString ulName))
    | None => Ok (SetProperty f tagStreet (AString ulName))
    end
  | None =>
    let* naMid := Shp.Attribute row 6 in
    let naName := mapIndex (naNameMap lk) naMid in
    match naNameDjMap lk !! naMid with
    | Some naNameDj =>
      if negb (String.eqb naNameDj naName) then
        let f := SetProperty f tagPlace
                   (AString (naName +:+ bilingualSeparator +:+ naNameDj)) in
        let f := SetProperty f (tagPlace +:+ tagLangPostfixSlovenian) (AString naName) in
        Ok (SetProperty f (ApplyTagLanguagePostfix tagPlace lon) (AString naNameDj))
      else Ok (SetProperty f tagPlace (AString naName))
    | None => Ok (SetProperty f tagPlace (AString naName))
    end
  end.

Definition lonOf (row : Shp.Row) : float :=
  (GoMath.Round (Shp.MinX (Shp.BBox row) * roundingFactor) / roundingFactor)%float.
Definition latOf (row : Shp.Row) : float :=
  (GoMath.Round (Shp.MinY (Shp.BBox row) * roundingFactor) / roundingFactor)%float.

(** The tags of one family ([tag] is [tagStreet] or [tagPlace]) for a name
    and the alternate name the second table may hold. *)
Definition nameTags (tag name : string) (alt : option string) (lon : float)
    (f : Feature) : Feature :=
  match alt with
  | Some nameDj =>
    if negb (String.eqb nameDj name) then
      SetProperty
        (SetProperty
           (SetProperty f tag (AString (name +:+ bilingualSeparator +:+ nameDj)))
           (tag +:+ tagLangPostfixSlovenian) (AString name))
        (ApplyTagLanguagePostfix tag lon) (AString nameDj)
    else SetProperty f tag (AString name)
  | None => SetProperty f tag (AString name)
  end.

(** Every property the loop body sets is a string. *)
Definition allStrings (f : Feature) : Prop :=
  forall k v, Properties f !! k = Some v -> exists s, v = AString s.

(** The features of a run of the loop. *)
Definition featuresOf (r : result output) : result (list Feature) :=
  let* out := r in Ok (Features (featureCollection out)).

(** The feature has the tag [k]. *)
Definition hasTag (f : Feature) (k : string) : Prop := is_Some (Properties f !! k).

(** The record [row] makes the loader write [v] under [k]: its value
    column, decoded and trimmed, is [v] and not empty, and its key column
    decodes to [k]. *)
Definition rowWrites (keyColumnIndex valueColumnIndex : Z) (row : Shp.Row)
    (k v : string) : Prop :=
  exists value key,
    Shp.Attribute row valueColumnIndex = Ok value /\
    v = Strings.Trim (DecodeWindows1250 value) NUL /\
    0 < len v /\
    Shp.Attribute row keyColumnIndex = Ok key /\
    k = DecodeWindows1250 key.

(** The test of [NormalizeHouseNumber]: the string is empty or its last
    character is a digit. *)
Definition endsInDigit (housenumber : string) : bool :=
  let '(lastRune, n) := Utf8.DecodeLastRuneInString housenumber in
  (n =? 0) || Unicode.IsDigit lastRune.

(** The slice is in order for [less]: no element is less than an earlier
    one. *)
Definition inOrder {A} (less : list A -> Z -> Z -> result bool) (data : list A) : Prop :=
  forall i j, 0 <= i < j -> j < Z.of_nat (length data) -> less data j i = Ok false.

(** [inOrder] as a test: every later element is compared with every
    earlier one. *)
Definition inOrderb {A} (less : list A -> Z -> Z -> result bool) (data : list A) : bool :=
  forallb (fun j =>
    forallb (fun i =>
      match less data (Z.of_nat j) (Z.of_nat i) with
      | Ok false => true
      | _ => false
      end) (seq 0 j)) (seq 0 (length data)).

(** ** Sample data *)

(** A primary record with the fifteen columns of the address table. *)
Definition sampleRow (labela ulMid naMid ptMid dateOd status : string)
    (x y : float) : Shp.Row :=
  {| Shp.BBox := {| Shp.MinX := x; Shp.MinY := y; Shp.MaxX := x; Shp.MaxY := y |};
     Shp.attributes :=
       ["11"; "10000001"; "12"; "A"; labela; ulMid; naMid; "61"; ptMid; "3";
        dateOd; "20200102"; status; "461000"; "101000"] |}.

Definition sampleLookups : Lookups :=
  {| ptCodeMap := {[ "7" := "1000" ]};
     ptNameMap := {[ "7" := "Ljubljana" ]};
     ulNameMap := {[ "5" := "Glavna ulica" ]};
     ulNameDjMap := {[ "5" := "Via Principale" ]};
     naNameMap := {[ "6" := "Koper" ]};
     naNameDjMap := {[ "6" := "Capodistria"; "8" := "Alt" ]} |}.

(** The feature of a record, for records that have one. *)
Definition featureOf (lk : Lookups) (row : Shp.Row) : Feature :=
  match readRecord lk row with
  | Ok (Emit f) => f
  | _ => NewPointFeature []
  end.

(** A valid record whose postal area "9" is in no table. *)
Definition rowNoPostalArea : Shp.Row :=
  sampleRow "12A" "5" "6" "9" "20200131" "V" 14.5%float 46%float.

(** A valid record whose date field holds four bytes only. *)
Definition rowShortDate : Shp.Row :=
  sampleRow "12A" "5" "6" "7" "2020" "V" 14.5%float 46%float.

(** A record that is not valid, and whose other fields are unusable. *)
Definition rowInvalid : Shp.Row :=
  sampleRow "" "x" "y" "z" "" "R" 0%float 0%float.

(** A valid record with no street, and a settlement "8" that has an
    alternate name but no name. *)
Definition rowAltOnly : Shp.Row :=
  sampleRow "3" "0" "8" "7" "20200131" "V" 13.75%float 45.5%float.

(** A valid record with neither street nor settlement in any table. *)
Definition rowNoNames : Shp.Row :=
  sampleRow "3" "0" "0" "7" "20200131" "V" 13.75%float 45.5%float.

(** Two valid records with a bilingual street that differ in longitude
    only. *)
Definition rowEast : Shp.Row :=
  sampleRow "12A" "5" "6" "7" "20200131" "V" 14.6%float 46%float.
Definition rowWest : Shp.Row :=
  sampleRow "12A" "5" "6" "7" "20200131" "V" 14.4%float 46%float.

(** The columns of the address table, and the table as a file. *)
Definition addressFields : list string :=
  ["ENOTA"; "HS_MID"; "HS"; "HD"; "LABELA"; "UL_MID"; "NA_MID"; "OB_MID";
   "PT_MID"; "PO_MID"; "D_OD"; "DV_OD"; "STATUS"; "Y_C"; "X_C"].

Definition addressFile (rows : list Shp.Row) : Shp.FileSystem :=
  {[ "in.shp" := {| Shp.Fields := addressFields; Shp.rows := rows |} ]}.

(** A street table with a named street and a street without a name. *)
Definition streetFile : Shp.FileSystem :=
  {[ "UL.shp" :=
       {| Shp.Fields := ["UL_MID"; "UL_UIME"; "UL_DJ"];
          Shp.rows :=
            [ {| Shp.BBox := Shp.mkBox 0 0 0 0; Shp.attributes := ["100"; "Main St"; ""] |};
              {| Shp.BBox := Shp.mkBox 0 0 0 0; Shp.attributes := ["101"; ""; ""] |} ] |} ]}.

(** Tables with two streets and a settlement, and records of one postal
    area: house 1 of street "b", house 2 of the settlement "x" (no
    street), house 3 of street "a". *)
Definition sortLookups : Lookups :=
  {| ptCodeMap := {[ "7" := "1000" ]};
     ptNameMap := {[ "7" := "Ljubljana" ]};
     ulNameMap := {[ "1" := "a"; "2" := "b" ]};
     ulNameDjMap := ∅;
     naNameMap := {[ "9" := "x" ]};
     naNameDjMap := ∅ |}.

Definition rowB1 : Shp.Row :=
  sampleRow "1" "2" "9" "7" "20200131" "V" 14.5%float 46%float.
Definition rowX2 : Shp.Row :=
  sampleRow "2" "0" "9" "7" "20200131" "V" 14.5%float 46%float.
Definition rowA3 : Shp.Row :=
  sampleRow "3" "1" "9" "7" "20200131" "V" 14.5%float 46%float.

Definition fB1 : Feature := featureOf sortLookups rowB1.
Definition fX2 : Feature := featureOf sortLookups rowX2.
Definition fA3 : Feature := featureOf sortLookups rowA3.

(** Thirteen such records, in an order that one run of the sort produces. *)
Definition rowsMixed : list Shp.Row :=
  [rowB1; rowB1; rowB1; rowB1; rowB1; rowB1; rowB1; rowX2;
   rowA3; rowA3; rowA3; rowA3; rowA3].

Definition featuresMixed : FeatureCollection :=
  {| Features := [fB1; fB1; fB1; fB1; fB1; fB1; fB1; fX2; fA3; fA3; fA3; fA3; fA3] |}.

(** An order of the same features from which the sort arrives at
    [featuresMixed]. *)
Definition featuresUnsorted : FeatureCollection :=
  {| Features := [fA3; fA3; fB1; fX2; fB1; fB1; fB1; fB1; fB1; fA3; fB1; fA3; fA3] |}.

Definition featuresResorted : FeatureCollection :=
  {| Features := [fA3; fA3; fA3; fA3; fA3; fB1; fB1; fB1; fB1; fB1; fB1; fB1; fX2] |}.

(** Fourteen features that all have a street, in order. *)
Definition featuresOneStreet : FeatureCollection :=
  {| Features := [fA3; fA3; fA3; fA3; fA3; fA3; fA3; fA3; fA3; fA3; fA3; fA3; fA3; fB1] |}.

(** The three lookup files and an address file with a valid and an invalid
    record; the alternate name of the street is NUL padding only. *)
Definition sampleFiles : Shp.FileSystem :=
  {[ "data/temp/PT/SI.GURS.RPE.PUB.PT.shp" :=
       {| Shp.Fields := ["PT_MID"; "PT_ID"; "PT_UIME"];
          Shp.rows := [ {| Shp.BBox := Shp.mkBox 0 0 0 0;
                           Shp.attributes := ["7"; "1000"; "Ljubljana"] |} ] |};
     "data/temp/UL/SI.GURS.RPE.PUB.UL.shp" :=
       {| Shp.Fields := ["UL_UIME"; "UL_DJ"; "UL_MID"];
          Shp.rows := [ {| Shp.BBox := Shp.mkBox 0 0 0 0;
                           Shp.attributes := ["Glavna ulica"; NUL +:+ NUL; "5"] |} ] |};
     "data/temp/NA/SI.GURS.RPE.PUB.NA.shp" :=
       {| Shp.Fields := ["NA_MID"; "NA_UIME"; "NA_DJ"];
          Shp.rows := [ {| Shp.BBox := Shp.mkBox 0 0 0 0;
                           Shp.attributes := ["6"; "Koper"; "Capodistria"] |} ] |};
     "in.shp" :=
       {| Shp.Fields := addressFields;
          Shp.rows := [ rowInvalid;
                        sampleRow "12A" "5" "6" "7" "20200131" "V"
                                  14.50000001%float 46.05%float ] |} ]}.

(** ** Notions of the further properties *)

(** The bytes of a string, as numbers. *)
Definition bytes (s : string) : list Z := map byte_val (list_ascii_of_string s).

(** The second byte a lead byte of a three-byte sequence accepts. *)
Definition accept3 (b0 b1 : Z) : bool :=
  ((b0 =? 0xE0) && (0xA0 <=? b1) && (b1 <=? 0xBF)) ||
  (((0xE1 <=? b0) && (b0 <? 0xED) || (0xEE <=? b0) && (b0 <? 0xF0)) &&
   (0x80 <=? b1) && (b1 <=? 0xBF)) ||
  ((b0 =? 0xED) && (0x80 <=? b1) && (b1 <=? 0x9F)).

(** The second byte a lead byte of a four-byte sequence accepts. *)
Definition accept4 (b0 b1 : Z) : bool :=
  ((b0 =? 0xF0) && (0x90 <=? b1) && (b1 <=? 0xBF)) ||
  ((0xF1 <=? b0) && (b0 <? 0xF4) && (0x80 <=? b1) && (b1 <=? 0xBF)) ||
  ((b0 =? 0xF4) && (0x80 <=? b1) && (b1 <=? 0x8F)).

(** The rune of a valid sequence of two, three and four bytes. *)
Definition rune2 (b0 b1 : Z) : Z :=
  Z.lor (Z.shiftl (Z.land b0 Utf8.mask2) 6) (Z.land b1 Utf8.maskx).
Definition rune3 (b0 b1 b2 : Z) : Z :=
  Z.lor (Z.lor (Z.shiftl (Z.land b0 Utf8.mask3) 12) (Z.shiftl (Z.land b1 Utf8.maskx) 6))
        (Z.land b2 Utf8.maskx).
Definition rune4 (b0 b1 b2 b3 : Z) : Z :=
  Z.lor (Z.lor (Z.lor (Z.shiftl (Z.land b0 Utf8.mask4) 18)
                      (Z.shiftl (Z.land b1 Utf8.maskx) 12))
               (Z.shiftl (Z.land b2 Utf8.maskx) 6))
        (Z.land b3 Utf8.maskx).

(** The computation returns normally, with a result that satisfies [P]. *)
Definition returns {B} (r : result B) (P : B -> Prop) : Prop :=
  exists x, r = Ok x /\ P x.

(** A feature the comparison of [SortFeatureCollection] can read: its
    properties are strings, and the postcode and the house number are
    among them. *)
Definition comparable (f : Feature) : Prop :=
  allStrings f /\
  (exists s, Properties f !! tagPostCode = Some (AString s)) /\
  (exists h, Properties f !! tagHousenumber = Some (AString h)).

(** The record passes the validity check of [ReadShapefile]. *)
Definition isValid (row : Shp.Row) : bool :=
  match Shp.Attribute row 12 with
  | Ok status => String.eqb status "V"
  | _ => false
  end.

(** The record has a status column and, when it is valid, a date of at
    least eight bytes. *)
Definition readable (row : Shp.Row) : bool :=
  match Shp.Attribute row 12 with
  | Ok status =>
    if String.eqb status "V" then
      match Shp.Attribute row 10 with
      | Ok dateOd => 8 <=? len dateOd
      | _ => false
      end
    else true
  | _ => false
  end.

(** ** Further sample data *)

(** The lookup tables of [sampleFiles]: the street has no alternate name,
    its field holds NUL bytes only. *)
Definition sampleFilesLookups : Lookups :=
  {| ptCodeMap := {[ "7" := "1000" ]};
     ptNameMap := {[ "7" := "Ljubljana" ]};
     ulNameMap := {[ "5" := "Glavna ulica" ]};
     ulNameDjMap := ∅;
     naNameMap := {[ "6" := "Koper" ]};
     naNameDjMap := {[ "6" := "Capodistria" ]} |}.

(** The table of [streetFile]. *)
Definition streetTable : Shp.Reader :=
  {| Shp.Fields := ["UL_MID"; "UL_UIME"; "UL_DJ"];
     Shp.rows :=
       [ {| Shp.BBox := Shp.mkBox 0 0 0 0; Shp.attributes := ["100"; "Main St"; ""] |};
         {| Shp.BBox := Shp.mkBox 0 0 0 0; Shp.attributes := ["101"; ""; ""] |} ] |}.

(** ** Notions for the order of a sorted slice *)

(** The element at position [i] of the slice, if there is one. *)
Definition nthZ {A} (d : list A) (i : Z) : option A :=
  if 0 <=? i then d !! Z.to_nat i else None.

(** [d'] is [d] with the elements at [i] and [j] exchanged. *)
Definition swapped {A} (d : list A) (i j : Z) (d' : list A) : Prop :=
  exists x y, nthZ d i = Some x /\ nthZ d j = Some y /\
    d' = <[Z.to_nat j := x]> (<[Z.to_nat i := y]> d).

(** Every element of [d[a:b]] satisfies [P]. *)
Definition allIn {A} (d : list A) (a b : Z) (P : A -> Prop) : Prop :=
  forall k x, a <= k < b -> nthZ d k = Some x -> P x.

(** [d[a:b]] is in order for [le]: no element is above a later one. *)
Definition sortedBy {A} (le : A -> A -> Prop) (d : list A) (a b : Z) : Prop :=
  forall i j x y, a <= i -> i < j -> j < b ->
    nthZ d i = Some x -> nthZ d j = Some y -> le x y.

(** Every element of [d[a:m]] is below every element of [d[m:b]]. *)
Definition below {A} (le : A -> A -> Prop) (d : list A) (a m b : Z) : Prop :=
  forall i j x y, a <= i < m -> m <= j < b ->
    nthZ d i = Some x -> nthZ d j = Some y -> le x y.

(** [P] does not tell apart two elements that are each below the other. *)
Definition respects {A} (le : A -> A -> Prop) (P : A -> Prop) : Prop :=
  forall x y, le x y -> le y x -> P x -> P y.

(** [d'] is [d] with [d[a:b]] rearranged, up to exchanges of elements that
    are each below the other: the same elements, outside [d[a:b]] every
    position holds an element that stands for the one it held, and what
    held of all elements of [d[a:b]] still does. *)
Definition rearranged {A} (le : A -> A -> Prop) (a b : Z) (d d' : list A) : Prop :=
  d' ≡ₚ d /\
  (forall k x', k < a \/ b <= k -> nthZ d' k = Some x' ->
     exists x, nthZ d k = Some x /\ le x x' /\ le x' x) /\
  (forall P, respects le P -> allIn d a b P -> allIn d' a b P).

(** [d[first : first+hi]] is a heap from the node [lo] on: no element is
    above its parent, for the parents at [first + lo] and after.  The
    children of the position [p] are the positions [q] with
    [q - first = 2 * (p - first) + 1] or [+ 2]. *)
Definition heapFrom {A} (le : A -> A -> Prop) (d : list A) (first lo hi : Z) : Prop :=
  forall p q x y, first + lo <= p ->
    q - first = 2 * (p - first) + 1 \/ q - first = 2 * (p - first) + 2 ->
    q < first + hi ->
    nthZ d p = Some x -> nthZ d q = Some y -> le y x.

(** The comparison [less] follows the preorder [le] on the slices that
    hold the elements of [data0]: when it returns, the two positions hold
    elements, and its answer tells which of the two is below the other. *)
Class Compares {A} (less : list A -> Z -> Z -> result bool) (le : A -> A -> Prop)
    (data0 : list A) : Prop :=
  compares : forall d i j r, d ≡ₚ data0 -> less d i j = Ok r ->
    exists x y, nthZ d i = Some x /\ nthZ d j = Some y /\
                if r : bool then le x y else le y x.

(** ** Notions for the order of the sorted features *)

(** The postcode of a feature, the first key of the comparison. *)
Definition postcodeOf (f : Feature) : string :=
  match Properties f !! tagPostCode with
  | Some (AString s) => s
  | _ => ""
  end.

(** The postcode of [f] is not after the postcode of [g]. *)
Definition byPostcode (f g : Feature) : Prop :=
  string_lt (postcodeOf g) (postcodeOf f) = false.

(** One step of the comparison: [a] before [b] decides for [true], [b]
    before [a] for [false], and equal strings leave it to the rest. *)
Definition lessStep (a b : string) (rest : bool) : bool :=
  if string_lt a b then true else if string_gt a b then false else rest.

(** The string under the tag [k], if the feature has one. *)
Definition stringTag (f : Feature) (k : string) : option string :=
  match Properties f !! k with
  | Some (AString s) => Some s
  | _ => None
  end.

(** The step of the comparison for the tag [k]: it is taken when both
    features have the tag. *)
Definition tagStep (f g : Feature) (k : string) (rest : bool) : bool :=
  match stringTag f k, stringTag g k with
  | Some a, Some b => lessStep a b rest
  | _, _ => rest
  end.

(** The comparison of [SortFeatureCollection] as a function of the two
    features: postcode, street, place, normalized house number. *)
Definition lessFeature (f g : Feature) : bool :=
  tagStep f g tagPostCode
    (tagStep f g tagStreet
       (tagStep f g tagPlace
          (string_lt (NormalizeHouseNumber (default "" (stringTag f tagHousenumber)))
                     (NormalizeHouseNumber (default "" (stringTag g tagHousenumber)))))).

(** Two features are named alike: both have a street or none has, and
    both have a place or none has. *)
Definition sameNaming (f g : Feature) : Prop :=
  notNil (Properties f !! tagStreet) = notNil (Properties g !! tagStreet) /\
  notNil (Properties f !! tagPlace) = notNil (Properties g !! tagPlace).

(** The features of one postcode are named alike. *)
Definition uniform (l : list Feature) : Prop :=
  forall f g, f ∈ l -> g ∈ l ->
    Properties f !! tagPostCode = Properties g !! tagPostCode -> sameNaming f g.

(** Among the features of [l], the comparison does not put [g] before
    [f]. *)
Definition notAfter (l : list Feature) (f g : Feature) : Prop :=
  f ∈ l -> g ∈ l /\ lessFeature g f = false.

(** Fourteen features of one postcode that all have a street, out of
    order. *)
Definition featuresTwoStreets : FeatureCollection :=
  {| Features := [fB1; fA3; fB1; fA3; fB1; fA3; fB1; fA3; fB1; fA3; fB1; fA3; fB1; fA3] |}.

(** * Properties *)

(** ** The [result] monad *)

Lemma bind_Ok {A B} (m : result A) (k : A -> result B) (b : B) :
  bind m k = Ok b -> exists a, m = Ok a /\ k a = Ok b.
Proof. destruct m; simpl; intros H; try discriminate. eauto. Qed.

Ltac inv_bind H :=
  let a := fresh "a" in
  let Ha := fresh "Ha" in
  apply bind_Ok in H; destruct H as (a & Ha & H).

(** ** The loop body of [ReadShapefile] *)

Lemma readRecord_Emit lk row f :
  readRecord lk row = Ok (Emit f) ->
  exists labela named ptMid dateOd hsMid,
    Shp.Attribute row 12 = Ok "V" /\
    Shp.Attribute row 4 = Ok labela /\
    namingOf lk row (lonOf row)
      (SetProperty (NewPointFeature [latOf row; lonOf row]) tagHousenumber
         (AString (Strings.ToLower (DecodeWindows1250 labela)))) = Ok named /\
    Shp.Attribute row 8 = Ok ptMid /\
    Shp.Attribute row 10 = Ok dateOd /\
    8 <= len dateOd /\
    Shp.Attribute row 1 = Ok hsMid /\
    f = SetProperty (SetProperty (SetProperty (SetProperty (SetProperty named
          tagPostCode (AString (mapIndex (ptCodeMap lk) ptMid)))
          tagCity (AString (mapIndex (ptNameMap lk) ptMid)))
          tagSourceDate (AString (slice dateOd 0 4 +:+ "-" +:+ slice dateOd 4 6
                                  +:+ "-" +:+ slice dateOd 6 8)))
          tagSource (AString tagSourceValue))
          tagRef (AString hsMid).
Proof.
  unfold readRecord. intros H.
  inv_bind H. destruct (String.eqb a "V") eqn:Hv; cbn [negb] in H; [|discriminate].
  apply String.eqb_eq in Hv. subst a.
  inv_bind H. inv_bind H. inv_bind H. inv_bind H. inv_bind H. inv_bind H. inv_bind H. inv_bind H.
  inv_bind H. injection H as <-.
  exists a, a1, a2, a3, a7. repeat split; try assumption.
  - unfold namingOf. rewrite Ha1. cbn [bind]. exact Ha2.
  - unfold slice_checked in Ha7. destruct ((0 <=? 6) && (6 <=? 8) && (8 <=? len a3)) eqn:E; [|discriminate].
    apply andb_true_iff in E. destruct E as [_ E]. lia.
  - unfold slice_checked in *.
    repeat match goal with H : (if ?c then _ else _) = Ok _ |- _ => destruct c; [injection H as <- | discriminate] end.
    reflexivity.
Qed.

Lemma Attribute_Ok_range row n s :
  Shp.Attribute row n = Ok s -> 0 <= n < Z.of_nat (length (Shp.attributes row)).
Proof.
  unfold Shp.Attribute. destruct (0 <=? n) eqn:E; [|discriminate].
  destruct (Shp.attributes row !! Z.to_nat n) eqn:L; [|discriminate].
  intros _. apply lookup_lt_Some in L. lia.
Qed.

Lemma Attribute_in_range row n :
  0 <= n < Z.of_nat (length (Shp.attributes row)) -> exists s, Shp.Attribute row n = Ok s.
Proof.
  intros H. unfold Shp.Attribute.
  destruct (0 <=? n) eqn:E; [|lia].
  destruct (Shp.attributes row !! Z.to_nat n) eqn:L; [eauto|].
  apply lookup_ge_None in L. lia.
Qed.

Lemma Attribute_below row n m s :
  Shp.Attribute row n = Ok s -> 0 <= m <= n -> exists s', Shp.Attribute row m = Ok s'.
Proof.
  intros H Hm. apply Attribute_Ok_range in H. apply Attribute_in_range. lia.
Qed.

Lemma namingOf_total lk row lon f s :
  Shp.Attribute row 12 = Ok s -> exists named, namingOf lk row lon f = Ok named.
Proof.
  intros H. unfold namingOf.
  destruct (Attribute_below _ _ 5 _ H) as [ulMid ->]; [lia|].
  destruct (Attribute_below _ _ 6 _ H) as [naMid ->]; [lia|].
  cbn [bind].
  repeat match goal with |- context [match ?x with _ => _ end] => destruct x end; eauto.
Qed.

Lemma slice_checked_Ok s lo hi :
  0 <= lo <= hi -> hi <= len s -> slice_checked s lo hi = Ok (slice s lo hi).
Proof.
  intros H1 H2. unfold slice_checked.
  destruct (0 <=? lo) eqn:E1; [|lia].
  destruct (lo <=? hi) eqn:E2; [|lia].
  destruct (hi <=? len s) eqn:E3; [|lia]. reflexivity.
Qed.

Lemma slice_checked_Panic s lo hi :
  len s < hi -> slice_checked s lo hi = Panic "slice bounds out of range".
Proof.
  intros H. unfold slice_checked.
  destruct (hi <=? len s) eqn:E3; [lia|].
  rewrite andb_false_r. reflexivity.
Qed.

(** A valid record is turned into a feature when its date has at least
    eight bytes, and makes the program panic when it has fewer. *)
Lemma readRecord_valid lk row :
  Shp.Attribute row 12 = Ok "V" ->
  exists labela named ptMid dateOd hsMid,
    Shp.Attribute row 4 = Ok labela /\
    namingOf lk row (lonOf row)
      (SetProperty (NewPointFeature [latOf row; lonOf row]) tagHousenumber
         (AString (Strings.ToLower (DecodeWindows1250 labela)))) = Ok named /\
    Shp.Attribute row 8 = Ok ptMid /\
    Shp.Attribute row 10 = Ok dateOd /\
    Shp.Attribute row 1 = Ok hsMid /\
    readRecord lk row =
      if 8 <=? len dateOd then
        Ok (Emit (SetProperty (SetProperty (SetProperty (SetProperty (SetProperty named
          tagPostCode (AString (mapIndex (ptCodeMap lk) ptMid)))
          tagCity (AString (mapIndex (ptNameMap lk) ptMid)))
          tagSourceDate (AString (slice dateOd 0 4 +:+ "-" +:+ slice dateOd 4 6
                                  +:+ "-" +:+ slice dateOd 6 8)))
          tagSource (AString tagSourceValue))
          tagRef (AString hsMid)))
      else Panic "slice bounds out of range".
Proof.
  intros HV.
  destruct (Attribute_below _ _ 4 _ HV) as [labela H4]; [lia|].
  destruct (Attribute_below _ _ 8 _ HV) as [ptMid H8]; [lia|].
  destruct (Attribute_below _ _ 10 _ HV) as [dateOd H10]; [lia|].
  destruct (Attribute_below _ _ 1 _ HV) as [hsMid H1]; [lia|].
  destruct (namingOf_total lk row (lonOf row)
    (SetProperty (NewPointFeature [latOf row; lonOf row]) tagHousenumber
         (AString (Strings.ToLower (DecodeWindows1250 labela)))) _ HV) as [named HN].
  exists labela, named, ptMid, dateOd, hsMid. repeat split; try assumption.
  unfold readRecord. rewrite HV. cbn [bind String.eqb Ascii.eqb Bool.eqb negb].
  rewrite H4. cbn [bind].
  unfold namingOf in HN.
  destruct (Shp.Attribute row 5) as [ulMid| | |] eqn:H5; try discriminate.
  cbn [bind] in HN |- *.
  unfold lonOf, latOf in HN. rewrite HN. cbn [bind].
  rewrite H8. cbn [bind]. rewrite H10. cbn [bind].
  destruct (8 <=? len dateOd) eqn:E.
  - rewrite !slice_checked_Ok by lia. cbn [bind]. rewrite H1. reflexivity.
  - destruct (Z_lt_le_dec (len dateOd) 4).
    { rewrite slice_checked_Panic by lia. reflexivity. }
    rewrite slice_checked_Ok by lia. cbn [bind].
    destruct (Z_lt_le_dec (len dateOd) 6).
    { rewrite slice_checked_Panic by lia. reflexivity. }
    rewrite slice_checked_Ok by lia. cbn [bind].
    rewrite slice_checked_Panic by lia. reflexivity.
Qed.

Lemma namingOf_inv lk row lon f0 named :
  namingOf lk row lon f0 = Ok named ->
  exists ulMid, Shp.Attribute row 5 = Ok ulMid /\
    match ulNameMap lk !! ulMid with
    | Some ulName => named = nameTags tagStreet ulName (ulNameDjMap lk !! ulMid) lon f0
    | None =>
      exists naMid, Shp.Attribute row 6 = Ok naMid /\
        named = nameTags tagPlace (mapIndex (naNameMap lk) naMid)
                         (naNameDjMap lk !! naMid) lon f0
    end.
Proof.
  unfold namingOf. intros H. inv_bind H. exists a. split; [assumption|].
  destruct (ulNameMap lk !! a) as [ulName|].
  - unfold nameTags. destruct (ulNameDjMap lk !! a) as [dj|].
    + destruct (negb (dj =? ulName)%string); congruence.
    + congruence.
  - inv_bind H. exists a0. split; [assumption|].
    unfold nameTags. destruct (naNameDjMap lk !! a0) as [dj|].
    + destruct (negb (dj =? mapIndex (naNameMap lk) a0)%string); congruence.
    + congruence.
Qed.

Lemma Properties_SetProperty f k v :
  Properties (SetProperty f k v) = <[k := v]> (Properties f).
Proof. reflexivity. Qed.

Lemma Point_SetProperty f k v : Point (SetProperty f k v) = Point f.
Proof. reflexivity. Qed.

Lemma Point_nameTags tag name alt lon f : Point (nameTags tag name alt lon f) = Point f.
Proof.
  unfold nameTags. destruct alt as [dj|]; [destruct (negb _)|]; reflexivity.
Qed.

(** The key of the minority-language variant is one of two. *)
Lemma ApplyTagLanguagePostfix_cases prefix lon :
  (PrimFloat.ltb 14.5 lon = true /\
   ApplyTagLanguagePostfix prefix lon = prefix +:+ tagLangPostfixHungarian) \/
  (PrimFloat.ltb 14.5 lon = false /\
   ApplyTagLanguagePostfix prefix lon = prefix +:+ tagLangPostfixItalian).
Proof.
  unfold ApplyTagLanguagePostfix. destruct (PrimFloat.ltb 14.5 lon); auto.
Qed.

(** Closed tag keys are compared by evaluation. *)
Ltac tag_ne :=
  let H := fresh in
  intro H; vm_compute in H; discriminate H.

Ltac lookup_tags :=
  repeat first
    [ rewrite Properties_SetProperty
    | rewrite lookup_insert_eq
    | rewrite lookup_insert_ne by tag_ne
    | rewrite lookup_empty ].

Lemma allStrings_SetProperty f k s :
  allStrings f -> allStrings (SetProperty f k (AString s)).
Proof.
  intros H k' v. rewrite Properties_SetProperty.
  destruct (decide (k = k')) as [->|Hne].
  - rewrite lookup_insert_eq. intros [= <-]. eauto.
  - rewrite lookup_insert_ne by assumption. apply H.
Qed.

Lemma allStrings_nameTags tag name alt lon f :
  allStrings f -> allStrings (nameTags tag name alt lon f).
Proof.
  intros H. unfold nameTags.
  destruct alt as [dj|]; [destruct (negb _)|]; repeat apply allStrings_SetProperty; assumption.
Qed.

(** The shape of an emitted feature: the house number, one family of name
    tags, and the five tags that follow. *)
Lemma readRecord_Emit_shape lk row f :
  readRecord lk row = Ok (Emit f) ->
  exists labela tag name alt ptMid dateOd hsMid,
    Shp.Attribute row 12 = Ok "V" /\
    Shp.Attribute row 8 = Ok ptMid /\
    Shp.Attribute row 10 = Ok dateOd /\ 8 <= len dateOd /\
    (exists ulMid, Shp.Attribute row 5 = Ok ulMid /\
       match ulNameMap lk !! ulMid with
       | Some ulName => tag = tagStreet /\ name = ulName /\ alt = ulNameDjMap lk !! ulMid
       | None =>
         exists naMid, Shp.Attribute row 6 = Ok naMid /\ tag = tagPlace /\
           name = mapIndex (naNameMap lk) naMid /\ alt = naNameDjMap lk !! naMid
       end) /\
    f = SetProperty (SetProperty (SetProperty (SetProperty (SetProperty
          (nameTags tag name alt (lonOf row)
             (SetProperty (NewPointFeature [latOf row; lonOf row]) tagHousenumber
                (AString (Strings.ToLower (DecodeWindows1250 labela)))))
          tagPostCode (AString (mapIndex (ptCodeMap lk) ptMid)))
          tagCity (AString (mapIndex (ptNameMap lk) ptMid)))
          tagSourceDate (AString (slice dateOd 0 4 +:+ "-" +:+ slice dateOd 4 6
                                  +:+ "-" +:+ slice dateOd 6 8)))
          tagSource (AString tagSourceValue))
          tagRef (AString hsMid).
Proof.
  intros H. apply readRecord_Emit in H.
  destruct H as (labela & named & ptMid & dateOd & hsMid & HV & H4 & HN & H8 & H10 & Hlen & H1 & ->).
  apply namingOf_inv in HN. destruct HN as (ulMid & H5 & HN).
  destruct (ulNameMap lk !! ulMid) as [ulName|] eqn:Hul.
  - exists labela, tagStreet, ulName, (ulNameDjMap lk !! ulMid), ptMid, dateOd, hsMid.
    repeat split; try assumption.
    + exists ulMid. split; [assumption|]. rewrite Hul. auto.
    + rewrite HN. reflexivity.
  - destruct HN as (naMid & H6 & HN).
    exists labela, tagPlace, (mapIndex (naNameMap lk) naMid), (naNameDjMap lk !! naMid),
           ptMid, dateOd, hsMid.
    repeat split; try assumption.
    + exists ulMid. split; [assumption|]. rewrite Hul. eauto.
    + rewrite HN. reflexivity.
Qed.

(** ** C5: records that are not valid *)

Lemma readRecords_stdout lk rows fc out1 out2 :
  featuresOf (readRecords lk rows {| featureCollection := fc; stdout := out1 |}) =
  featuresOf (readRecords lk rows {| featureCollection := fc; stdout := out2 |}).
Proof.
  revert fc out1 out2. induction rows as [|row rows IH]; intros fc out1 out2.
  - reflexivity.
  - cbn [readRecords]. destruct (readRecord lk row) as [[line|f]| | |]; cbn [bind];
      try reflexivity; cbn [featureCollection stdout]; apply IH.
Qed.

Lemma readRecords_skip lk before row after st line :
  readRecord lk row = Ok (Skip line) ->
  featuresOf (readRecords lk (before ++ row :: after) st) =
  featuresOf (readRecords lk (before ++ after) st).
Proof.
  intros Hs. revert st. induction before as [|r before IH]; intros st.
  - cbn [app readRecords]. rewrite Hs. cbn [bind]. destruct st as [fc out].
    cbn [featureCollection stdout]. apply readRecords_stdout.
  - cbn [app readRecords]. destruct (readRecord lk r) as [[l|f]| | |]; cbn [bind];
      try reflexivity; apply IH.
Qed.

(** C5.  A record whose status-validity attribute (column 12) is not "V" is
    skipped by the loop body whatever its other fields hold: the loop
    goes on to the next record, and the features of the run are those of
    the run over the table without the record. *)
Theorem C5_invalid_record_is_skipped lk row status :
  Shp.Attribute row 12 = Ok status -> status <> "V" ->
  readRecord lk row = Ok (Skip "skipping invalid...") /\
  forall before after st,
    featuresOf (readRecords lk (before ++ row :: after) st) =
    featuresOf (readRecords lk (before ++ after) st).
Proof.
  intros H12 Hne.
  assert (Hs : readRecord lk row = Ok (Skip "skipping invalid...")).
  { unfold readRecord. rewrite H12. cbn [bind].
    apply String.eqb_neq in Hne. rewrite Hne. reflexivity. }
  split; [exact Hs|]. intros. eapply readRecords_skip, Hs.
Qed.

Lemma C5_witness :
  readRecord sampleLookups rowInvalid = Ok (Skip "skipping invalid...") /\
  forall before after st,
    featuresOf (readRecords sampleLookups (before ++ rowInvalid :: after) st) =
    featuresOf (readRecords sampleLookups (before ++ after) st).
Proof.
  apply (C5_invalid_record_is_skipped sampleLookups rowInvalid "R").
  - reflexivity.
  - discriminate.
Defined.

(** ** C1: a postal area that is in no table *)

(** C1, as the code has it.  When the postal-area identifier of a record
    is not a key of [ptCodeMap] (of [ptNameMap]), the emitted feature has
    the tag addr:postcode (addr:city) all the same, and its value is the
    empty string. *)
Theorem C1_missing_postal_area_gives_empty_tags lk row f ptMid :
  readRecord lk row = Ok (Emit f) ->
  Shp.Attribute row 8 = Ok ptMid ->
  (ptCodeMap lk !! ptMid = None -> Properties f !! tagPostCode = Some (AString "")) /\
  (ptNameMap lk !! ptMid = None -> Properties f !! tagCity = Some (AString "")).
Proof.
  intros H H8. apply readRecord_Emit_shape in H.
  destruct H as (labela & tag & name & alt & ptMid' & dateOd & hsMid &
                 _ & H8' & _ & _ & _ & ->).
  rewrite H8 in H8'. injection H8' as <-.
  split; intros Hmiss; lookup_tags; unfold mapIndex; rewrite Hmiss; reflexivity.
Qed.

Lemma C1_witness :
  Properties (featureOf sampleLookups rowNoPostalArea) !! tagPostCode = Some (AString "") /\
  Properties (featureOf sampleLookups rowNoPostalArea) !! tagCity = Some (AString "").
Proof.
  destruct (C1_missing_postal_area_gives_empty_tags sampleLookups rowNoPostalArea
              (featureOf sampleLookups rowNoPostalArea) "9") as [H1 H2].
  - vm_compute. reflexivity.
  - reflexivity.
  - split; [apply H1 | apply H2]; reflexivity.
Defined.

(** The claim as the spec words it fails: the tags are present. *)
Lemma C1_counterexample :
  readRecord sampleLookups rowNoPostalArea =
    Ok (Emit (featureOf sampleLookups rowNoPostalArea)) /\
  Shp.Attribute rowNoPostalArea 8 = Ok "9" /\
  ptCodeMap sampleLookups !! "9" = None /\
  ptNameMap sampleLookups !! "9" = None /\
  is_Some (Properties (featureOf sampleLookups rowNoPostalArea) !! tagPostCode) /\
  is_Some (Properties (featureOf sampleLookups rowNoPostalArea) !! tagCity).
Proof.
  repeat split; try (vm_compute; reflexivity); vm_compute; eauto.
Qed.

(** ** C2: what can abort a valid record *)

(** C2, as the code has it.  A record that passes the validity check has
    all the columns the loop body reads, and the only step that can abort
    is the slicing of the date: it succeeds for every content of at least
    eight bytes, of which it uses the first eight, and the date tag is
    made of those bytes whatever they are; on a shorter field the slice
    expression panics, and with it the loop. *)
Theorem C2_valid_record_fails_only_on_short_date lk row :
  Shp.Attribute row 12 = Ok "V" ->
  exists dateOd, Shp.Attribute row 10 = Ok dateOd /\
    (8 <= len dateOd ->
     exists f, readRecord lk row = Ok (Emit f) /\
       Properties f !! tagSourceDate =
         Some (AString (slice dateOd 0 4 +:+ "-" +:+ slice dateOd 4 6
                        +:+ "-" +:+ slice dateOd 6 8))) /\
    (len dateOd < 8 ->
     readRecord lk row = Panic "slice bounds out of range" /\
     forall after st,
       readRecords lk (row :: after) st = Panic "slice bounds out of range").
Proof.
  intros HV. destruct (readRecord_valid lk row HV)
    as (labela & named & ptMid & dateOd & hsMid & H4 & HN & H8 & H10 & H1 & HR).
  exists dateOd. split; [assumption|]. split.
  - intros Hlen. destruct (8 <=? len dateOd) eqn:E; [|lia].
    eexists. split; [exact HR|]. lookup_tags. reflexivity.
  - intros Hlen. destruct (8 <=? len dateOd) eqn:E; [lia|].
    split; [exact HR|]. intros after st. cbn [readRecords]. rewrite HR. reflexivity.
Qed.

Lemma C2_witness :
  exists dateOd, Shp.Attribute rowEast 10 = Ok dateOd /\
    (8 <= len dateOd ->
     exists f, readRecord sampleLookups rowEast = Ok (Emit f) /\
       Properties f !! tagSourceDate =
         Some (AString (slice dateOd 0 4 +:+ "-" +:+ slice dateOd 4 6
                        +:+ "-" +:+ slice dateOd 6 8))) /\
    (len dateOd < 8 ->
     readRecord sampleLookups rowEast = Panic "slice bounds out of range" /\
     forall after st,
       readRecords sampleLookups (rowEast :: after) st = Panic "slice bounds out of range").
Proof.
  apply (C2_valid_record_fails_only_on_short_date sampleLookups rowEast).
  reflexivity.
Defined.

(** The claim as the spec words it fails: a valid record with a date of
    four bytes aborts the run. *)
Lemma C2_counterexample :
  Shp.Attribute rowShortDate 12 = Ok "V" /\
  Shp.Attribute rowShortDate 10 = Ok "2020" /\
  ReadShapefile (addressFile [rowEast; rowShortDate; rowWest]) sampleLookups "in.shp" =
    Panic "slice bounds out of range".
Proof. repeat split; vm_compute; reflexivity. Qed.

(** ** The features of a run *)

Lemma readRecords_features lk rows st out f :
  readRecords lk rows st = Ok out ->
  f ∈ Features (featureCollection out) ->
  f ∈ Features (featureCollection st) \/
  exists row, row ∈ rows /\ readRecord lk row = Ok (Emit f).
Proof.
  revert st. induction rows as [|row rows IH]; intros st H Hin.
  - injection H as <-. auto.
  - cbn [readRecords] in H. inv_bind H. destruct a as [line|g].
    + destruct (IH _ H Hin) as [Hst|(r & Hr & He)]; [auto|].
      right. exists r. split; [apply elem_of_cons; auto | assumption].
    + destruct (IH _ H Hin) as [Hst|(r & Hr & He)].
      * cbn [featureCollection AddFeature Features] in Hst.
        apply elem_of_app in Hst. destruct Hst as [Hst|Hst]; [auto|].
        apply list_elem_of_singleton in Hst. subst g.
        right. exists row. split; [apply elem_of_cons; auto | assumption].
      * right. exists r. split; [apply elem_of_cons; auto | assumption].
Qed.

Lemma ReadShapefile_features fs lk name out f :
  ReadShapefile fs lk name = Ok out ->
  f ∈ Features (featureCollection out) ->
  exists rdr row, Shp.Open fs name = Some rdr /\ row ∈ Shp.rows rdr /\
                  readRecord lk row = Ok (Emit f).
Proof.
  unfold ReadShapefile. destruct (Shp.Open fs name) as [rdr|]; [|discriminate].
  intros H Hin. destruct (readRecords_features _ _ _ _ _ H Hin) as [Hst|(row & Hr & He)].
  - cbn in Hst. apply elem_of_nil in Hst. contradiction.
  - eauto.
Qed.

(** ** C4: one family of name tags *)

Lemma hasTag_SetProperty f k v k' :
  hasTag (SetProperty f k v) k' -> k' = k \/ hasTag f k'.
Proof.
  unfold hasTag. rewrite Properties_SetProperty.
  destruct (decide (k = k')) as [->|Hne]; [auto|].
  rewrite lookup_insert_ne by assumption. auto.
Qed.

Lemma hasTag_NewPointFeature c k : ~ hasTag (NewPointFeature c) k.
Proof. unfold hasTag. cbn. rewrite lookup_empty. intros [x Hx]. discriminate. Qed.

(** The tags of [f] are among the keys the tactic finds: it leaves one
    goal per key, with [k] replaced by the key. *)
Ltac tag_cases H :=
  repeat (apply hasTag_SetProperty in H; destruct H as [H|H]; [subst|]);
  try (apply hasTag_NewPointFeature in H; contradiction).

Ltac has_tag := unfold hasTag; lookup_tags; eauto.

Lemma nameTags_family tag other name alt lon f0 :
  (tag = tagStreet /\ other = tagPlace) \/ (tag = tagPlace /\ other = tagStreet) ->
  hasTag (nameTags tag name alt lon f0) tag /\
  forall k, hasTag (nameTags tag name alt lon f0) k ->
            String.prefix other k = true -> hasTag f0 k.
Proof.
  intros Htag. unfold nameTags.
  destruct alt as [dj|]; [destruct (negb (dj =? name)%string)|].
  - split; [destruct (ApplyTagLanguagePostfix_cases tag lon) as [[_ ->]|[_ ->]];
            destruct Htag as [[-> ->]|[-> ->]]; has_tag|].
    intros k H Hp.
    destruct (ApplyTagLanguagePostfix_cases tag lon) as [[_ E]|[_ E]]; rewrite E in H;
      tag_cases H; try assumption;
      destruct Htag as [[-> ->]|[-> ->]]; vm_compute in Hp; discriminate Hp.
  - split; [has_tag|]. intros k H Hp. tag_cases H; try assumption.
    destruct Htag as [[-> ->]|[-> ->]]; vm_compute in Hp; discriminate Hp.
  - split; [has_tag|]. intros k H Hp. tag_cases H; try assumption.
    destruct Htag as [[-> ->]|[-> ->]]; vm_compute in Hp; discriminate Hp.
Qed.

Lemma readRecord_one_family lk row f :
  readRecord lk row = Ok (Emit f) ->
  (hasTag f tagStreet /\ forall k, hasTag f k -> String.prefix tagPlace k = false) \/
  (hasTag f tagPlace /\ forall k, hasTag f k -> String.prefix tagStreet k = false).
Proof.
  intros H. apply readRecord_Emit_shape in H.
  destruct H as (labela & tag & name & alt & ptMid & dateOd & hsMid &
                 _ & _ & _ & _ & (ulMid & _ & Htag) & ->).
  set (f0 := SetProperty (NewPointFeature [latOf row; lonOf row]) tagHousenumber
               (AString (Strings.ToLower (DecodeWindows1250 labela)))) in *.
  assert (Hcase : (tag = tagStreet /\ tagPlace = tagPlace) \/
                  (tag = tagPlace /\ tagStreet = tagStreet)).
  { destruct (ulNameMap lk !! ulMid).
    - left. split; [apply Htag | reflexivity].
    - right. destruct Htag as (naMid & _ & -> & _). auto. }
  assert (Hfam : forall other,
    (tag = tagStreet /\ other = tagPlace) \/ (tag = tagPlace /\ other = tagStreet) ->
    hasTag (SetProperty (SetProperty (SetProperty (SetProperty (SetProperty
          (nameTags tag name alt (lonOf row) f0)
          tagPostCode (AString (mapIndex (ptCodeMap lk) ptMid)))
          tagCity (AString (mapIndex (ptNameMap lk) ptMid)))
          tagSourceDate (AString (slice dateOd 0 4 +:+ "-" +:+ slice dateOd 4 6
                                  +:+ "-" +:+ slice dateOd 6 8)))
          tagSource (AString tagSourceValue))
          tagRef (AString hsMid)) tag /\
    forall k, hasTag (SetProperty (SetProperty (SetProperty (SetProperty (SetProperty
          (nameTags tag name alt (lonOf row) f0)
          tagPostCode (AString (mapIndex (ptCodeMap lk) ptMid)))
          tagCity (AString (mapIndex (ptNameMap lk) ptMid)))
          tagSourceDate (AString (slice dateOd 0 4 +:+ "-" +:+ slice dateOd 4 6
                                  +:+ "-" +:+ slice dateOd 6 8)))
          tagSource (AString tagSourceValue))
          tagRef (AString hsMid)) k -> String.prefix other k = false).
  { intros other Ho. destruct (nameTags_family tag other name alt (lonOf row) f0 Ho) as [Hhas Hno].
    split.
    - unfold hasTag in *. destruct Ho as [[-> ->]|[-> ->]]; lookup_tags; exact Hhas.
    - intros k Hk. destruct (String.prefix other k) eqn:Hp; [|reflexivity]. exfalso.
      repeat (apply hasTag_SetProperty in Hk; destruct Hk as [->|Hk];
              [destruct Ho as [[_ ->]|[_ ->]]; vm_compute in Hp; discriminate Hp|]).
      apply Hno in Hk; [|assumption]. unfold f0 in Hk.
      apply hasTag_SetProperty in Hk. destruct Hk as [->|Hk].
      + destruct Ho as [[_ ->]|[_ ->]]; vm_compute in Hp; discriminate Hp.
      + apply hasTag_NewPointFeature in Hk. contradiction. }
  destruct Hcase as [[-> _]|[-> _]].
  - left. apply Hfam. auto.
  - right. apply Hfam. auto.
Qed.

(** C4.  Every feature of the collection [ReadShapefile] returns carries
    exactly one of the two families of name tags: it has addr:street or it
    has addr:place, it has addr:street exactly when it has no addr:place,
    and a feature with addr:street has no tag that starts with addr:place
    (and the other way round). *)
Theorem C4_street_or_place_never_both fs lk name out f :
  ReadShapefile fs lk name = Ok out ->
  f ∈ Features (featureCollection out) ->
  (hasTag f tagStreet <-> ~ hasTag f tagPlace) /\
  ((hasTag f tagStreet /\ forall k, hasTag f k -> String.prefix tagPlace k = false) \/
   (hasTag f tagPlace /\ forall k, hasTag f k -> String.prefix tagStreet k = false)).
Proof.
  intros H Hin. destruct (ReadShapefile_features _ _ _ _ _ H Hin) as (rdr & row & _ & _ & He).
  pose proof (readRecord_one_family _ _ _ He) as Hfam.
  split; [|exact Hfam].
  destruct Hfam as [[Hs Hno]|[Hp Hno]].
  - split; [|auto]. intros _ Hp. apply Hno in Hp. vm_compute in Hp. discriminate Hp.
  - split.
    + intros Hs. apply Hno in Hs. vm_compute in Hs. discriminate Hs.
    + intros Hn. contradiction.
Qed.

Lemma C4_witness :
  (hasTag (featureOf sampleLookups rowEast) tagStreet <->
   ~ hasTag (featureOf sampleLookups rowEast) tagPlace) /\
  ((hasTag (featureOf sampleLookups rowEast) tagStreet /\
    forall k, hasTag (featureOf sampleLookups rowEast) k -> String.prefix tagPlace k = false) \/
   (hasTag (featureOf sampleLookups rowEast) tagPlace /\
    forall k, hasTag (featureOf sampleLookups rowEast) k -> String.prefix tagStreet k = false)).
Proof.
  apply (C4_street_or_place_never_both (addressFile [rowInvalid; rowEast; rowAltOnly])
           sampleLookups "in.shp"
           {| featureCollection :=
                {| Features := [featureOf sampleLookups rowEast;
                                featureOf sampleLookups rowAltOnly] |};
              stdout := ["skipping invalid..."] |}).
  - vm_compute. reflexivity.
  - cbn [featureCollection Features]. apply elem_of_cons. left. reflexivity.
Defined.

(** ** C9: neither street nor settlement name *)

(** C9, as the code has it.  For a valid record whose street identifier is
    not in [ulNameMap] and whose settlement identifier is not in
    [naNameMap], the settlement name is fetched without an existence check:
    when the settlement has no non-empty alternate name in [naNameDjMap]
    either, the feature has the tag addr:place with the empty string as
    its value, no addr:street, and none of the language variants. *)
Theorem C9_no_names_gives_empty_place lk row f ulMid naMid :
  readRecord lk row = Ok (Emit f) ->
  Shp.Attribute row 5 = Ok ulMid ->
  Shp.Attribute row 6 = Ok naMid ->
  ulNameMap lk !! ulMid = None ->
  naNameMap lk !! naMid = None ->
  naNameDjMap lk !! naMid = None \/ naNameDjMap lk !! naMid = Some "" ->
  Properties f !! tagPlace = Some (AString "") /\
  Properties f !! tagStreet = None /\
  Properties f !! (tagPlace +:+ tagLangPostfixSlovenian) = None /\
  Properties f !! (tagPlace +:+ tagLangPostfixItalian) = None /\
  Properties f !! (tagPlace +:+ tagLangPostfixHungarian) = None.
Proof.
  intros H H5 H6 Hul Hna Hdj. apply readRecord_Emit_shape in H.
  destruct H as (labela & tag & name & alt & ptMid & dateOd & hsMid &
                 _ & _ & _ & _ & (ulMid' & H5' & Htag) & ->).
  rewrite H5 in H5'. injection H5' as <-. rewrite Hul in Htag.
  destruct Htag as (naMid' & H6' & -> & -> & ->).
  rewrite H6 in H6'. injection H6' as <-.
  unfold mapIndex. rewrite Hna. cbn [default].
  assert (E : forall f0, nameTags tagPlace "" (naNameDjMap lk !! naMid) (lonOf row) f0 =
                         SetProperty f0 tagPlace (AString "")).
  { intros f0. unfold nameTags. destruct Hdj as [-> | ->]; reflexivity. }
  rewrite E. repeat split; lookup_tags; reflexivity.
Qed.

Lemma C9_witness :
  Properties (featureOf sampleLookups rowNoNames) !! tagPlace = Some (AString "") /\
  Properties (featureOf sampleLookups rowNoNames) !! tagStreet = None /\
  Properties (featureOf sampleLookups rowNoNames) !! (tagPlace +:+ tagLangPostfixSlovenian) = None /\
  Properties (featureOf sampleLookups rowNoNames) !! (tagPlace +:+ tagLangPostfixItalian) = None /\
  Properties (featureOf sampleLookups rowNoNames) !! (tagPlace +:+ tagLangPostfixHungarian) = None.
Proof.
  apply (C9_no_names_gives_empty_place sampleLookups rowNoNames
           (featureOf sampleLookups rowNoNames) "0" "0").
  - vm_compute. reflexivity.
  - reflexivity.
  - reflexivity.
  - reflexivity.
  - reflexivity.
  - left. reflexivity.
Defined.

(** The claim as worded fails when the settlement has an alternate name
    only: the place tag is then the separator followed by that name, and
    the variants are set. *)
Lemma C9_counterexample :
  readRecord sampleLookups rowAltOnly = Ok (Emit (featureOf sampleLookups rowAltOnly)) /\
  Shp.Attribute rowAltOnly 5 = Ok "0" /\ ulNameMap sampleLookups !! "0" = None /\
  Shp.Attribute rowAltOnly 6 = Ok "8" /\ naNameMap sampleLookups !! "8" = None /\
  Properties (featureOf sampleLookups rowAltOnly) !! tagPlace = Some (AString " / Alt") /\
  Properties (featureOf sampleLookups rowAltOnly) !! "addr:place:sl" = Some (AString "") /\
  Properties (featureOf sampleLookups rowAltOnly) !! "addr:place:it" = Some (AString "Alt").
Proof. repeat split; vm_compute; reflexivity. Qed.

(** ** C10: the type assertions of the comparison *)

Lemma readRecord_strings lk row f :
  readRecord lk row = Ok (Emit f) ->
  allStrings f /\
  (exists s, Properties f !! tagPostCode = Some (AString s)) /\
  (exists h, Properties f !! tagHousenumber = Some (AString h)).
Proof.
  intros H. apply readRecord_Emit_shape in H.
  destruct H as (labela & tag & name & alt & ptMid & dateOd & hsMid &
                 _ & _ & _ & _ & (ulMid & _ & Htag) & ->).
  split; [|split].
  - repeat apply allStrings_SetProperty. apply allStrings_nameTags.
    apply allStrings_SetProperty. intros k v Hk. cbn in Hk. rewrite lookup_empty in Hk.
    discriminate.
  - eexists. lookup_tags. reflexivity.
  - assert (Ht : tag = tagStreet \/ tag = tagPlace).
    { destruct (ulNameMap lk !! ulMid); [left; apply Htag|].
      destruct Htag as (naMid & _ & -> & _). auto. }
    eexists. lookup_tags. unfold nameTags.
    destruct alt as [dj|]; [destruct (negb (dj =? name)%string)|].
    + destruct (ApplyTagLanguagePostfix_cases tag (lonOf row)) as [[_ ->]|[_ ->]];
        destruct Ht as [-> | ->]; lookup_tags; reflexivity.
    + destruct Ht as [-> | ->]; lookup_tags; reflexivity.
    + destruct Ht as [-> | ->]; lookup_tags; reflexivity.
Qed.

Lemma assertString_allStrings f k :
  allStrings f -> notNil (Properties f !! k) = true ->
  exists s, assertString (Properties f !! k) = Ok s.
Proof.
  intros Hall Hn. destruct (Properties f !! k) as [v|] eqn:E; [|discriminate].
  destruct (Hall _ _ E) as [s ->]. cbn. eauto.
Qed.

Lemma featureLess_total data i j fi fj :
  GoSort.index data i = Ok fi -> GoSort.index data j = Ok fj ->
  allStrings fi -> allStrings fj ->
  (exists s, Properties fi !! tagPostCode = Some (AString s)) ->
  (exists s, Properties fj !! tagPostCode = Some (AString s)) ->
  (exists h, Properties fi !! tagHousenumber = Some (AString h)) ->
  (exists h, Properties fj !! tagHousenumber = Some (AString h)) ->
  exists b, featureLess data i j = Ok b.
Proof.
  intros Hi Hj Ai Aj [pi Pi] [pj Pj] [hi Hhi] [hj Hhj].
  unfold featureLess. rewrite Hi, Hj. cbn [bind]. rewrite Pi, Pj. cbn [bind assertString].
  destruct (string_lt pi pj); [eauto|]. destruct (string_gt pi pj); [eauto|].
  destruct (notNil (Properties fi !! tagStreet)) eqn:Si;
    [destruct (notNil (Properties fj !! tagStreet)) eqn:Sj|].
  - destruct (assertString_allStrings _ _ Ai Si) as [si ->].
    destruct (assertString_allStrings _ _ Aj Sj) as [sj ->]. cbn [bind].
    destruct (string_lt si sj); [cbn [bind]; eauto|].
    destruct (string_gt si sj); [cbn [bind]; eauto|]. cbn [bind].
    destruct (notNil (Properties fi !! tagPlace)) eqn:Li;
      [destruct (notNil (Properties fj !! tagPlace)) eqn:Lj|].
    + destruct (assertString_allStrings _ _ Ai Li) as [li ->].
      destruct (assertString_allStrings _ _ Aj Lj) as [lj ->]. cbn [bind].
      destruct (string_lt li lj); [cbn [bind]; eauto|].
      destruct (string_gt li lj); [cbn [bind]; eauto|]. cbn [bind].
      rewrite Hhi, Hhj. cbn [bind assertString]. eauto.
    + cbn [bind]. rewrite Hhi, Hhj. cbn [bind assertString]. eauto.
    + cbn [bind]. rewrite Hhi, Hhj. cbn [bind assertString]. eauto.
  - cbn [bind].
    destruct (notNil (Properties fi !! tagPlace)) eqn:Li;
      [destruct (notNil (Properties fj !! tagPlace)) eqn:Lj|].
    + destruct (assertString_allStrings _ _ Ai Li) as [li ->].
      destruct (assertString_allStrings _ _ Aj Lj) as [lj ->]. cbn [bind].
      destruct (string_lt li lj); [cbn [bind]; eauto|].
      destruct (string_gt li lj); [cbn [bind]; eauto|]. cbn [bind].
      rewrite Hhi, Hhj. cbn [bind assertString]. eauto.
    + cbn [bind]. rewrite Hhi, Hhj. cbn [bind assertString]. eauto.
    + cbn [bind]. rewrite Hhi, Hhj. cbn [bind assertString]. eauto.
  - cbn [bind].
    destruct (notNil (Properties fi !! tagPlace)) eqn:Li;
      [destruct (notNil (Properties fj !! tagPlace)) eqn:Lj|].
    + destruct (assertString_allStrings _ _ Ai Li) as [li ->].
      destruct (assertString_allStrings _ _ Aj Lj) as [lj ->]. cbn [bind].
      destruct (string_lt li lj); [cbn [bind]; eauto|].
      destruct (string_gt li lj); [cbn [bind]; eauto|]. cbn [bind].
      rewrite Hhi, Hhj. cbn [bind assertString]. eauto.
    + cbn [bind]. rewrite Hhi, Hhj. cbn [bind assertString]. eauto.
    + cbn [bind]. rewrite Hhi, Hhj. cbn [bind assertString]. eauto.
Qed.

Lemma index_in_range {A} (data : list A) i :
  0 <= i < Z.of_nat (length data) -> exists x, GoSort.index data i = Ok x /\ x ∈ data.
Proof.
  intros H. unfold GoSort.index. destruct (0 <=? i) eqn:E; [|lia].
  destruct (data !! Z.to_nat i) as [x|] eqn:L.
  - exists x. split; [reflexivity|]. eapply list_elem_of_lookup_2, L.
  - apply lookup_ge_None in L. lia.
Qed.

(** C10.  Every feature of the collection [ReadShapefile] returns has the
    tags addr:postcode and addr:housenumber, both strings; so the
    comparison of [SortFeatureCollection] never fails on a slice made of
    such features, in whatever order the sort has put them: its type
    assertions succeed for every two positions. *)
Theorem C10_comparison_never_fails fs lk name out :
  ReadShapefile fs lk name = Ok out ->
  (forall f, f ∈ Features (featureCollection out) ->
     (exists s, Properties f !! tagPostCode = Some (AString s)) /\
     (exists h, Properties f !! tagHousenumber = Some (AString h))) /\
  (forall data i j,
     (forall f, f ∈ data -> f ∈ Features (featureCollection out)) ->
     0 <= i < Z.of_nat (length data) -> 0 <= j < Z.of_nat (length data) ->
     exists b, featureLess data i j = Ok b).
Proof.
  intros H.
  assert (Hall : forall f, f ∈ Features (featureCollection out) ->
            allStrings f /\
            (exists s, Properties f !! tagPostCode = Some (AString s)) /\
            (exists h, Properties f !! tagHousenumber = Some (AString h))).
  { intros f Hin. destruct (ReadShapefile_features _ _ _ _ _ H Hin) as (rdr & row & _ & _ & He).
    eapply readRecord_strings, He. }
  split.
  - intros f Hin. apply Hall, Hin.
  - intros data i j Hdata Hi Hj.
    destruct (index_in_range data i Hi) as (fi & Ei & Ii).
    destruct (index_in_range data j Hj) as (fj & Ej & Ij).
    destruct (Hall fi (Hdata _ Ii)) as (Ai & Pi & Hi').
    destruct (Hall fj (Hdata _ Ij)) as (Aj & Pj & Hj').
    eapply featureLess_total; eassumption.
Qed.

Lemma C10_witness :
  (forall f, f ∈ [featureOf sampleLookups rowEast; featureOf sampleLookups rowAltOnly] ->
     (exists s, Properties f !! tagPostCode = Some (AString s)) /\
     (exists h, Properties f !! tagHousenumber = Some (AString h))) /\
  (forall data i j,
     (forall f, f ∈ data ->
        f ∈ [featureOf sampleLookups rowEast; featureOf sampleLookups rowAltOnly]) ->
     0 <= i < Z.of_nat (length data) -> 0 <= j < Z.of_nat (length data) ->
     exists b, featureLess data i j = Ok b).
Proof.
  apply (C10_comparison_never_fails (addressFile [rowInvalid; rowEast; rowAltOnly])
           sampleLookups "in.shp"
           {| featureCollection :=
                {| Features := [featureOf sampleLookups rowEast;
                                featureOf sampleLookups rowAltOnly] |};
              stdout := ["skipping invalid..."] |}).
  vm_compute. reflexivity.
Defined.

(** ** C6: the language of the second variant *)

Lemma nameTags_variants tag name alt lon c v rest :
  tag = tagStreet \/ tag = tagPlace ->
  (forall k, k ∈ [tagStreet +:+ tagLangPostfixHungarian; tagStreet +:+ tagLangPostfixItalian;
                  tagStreet +:+ tagLangPostfixSlovenian; tagPlace +:+ tagLangPostfixHungarian;
                  tagPlace +:+ tagLangPostfixItalian; tagPlace +:+ tagLangPostfixSlovenian] ->
     Properties rest !! k =
     Properties (nameTags tag name alt lon
                   (SetProperty (NewPointFeature c) tagHousenumber v)) !! k) ->
  forall t, t = tagStreet \/ t = tagPlace ->
    (hasTag rest (t +:+ tagLangPostfixHungarian) -> PrimFloat.ltb 14.5 lon = true) /\
    (hasTag rest (t +:+ tagLangPostfixItalian) -> PrimFloat.ltb 14.5 lon = false) /\
    (hasTag rest (t +:+ tagLangPostfixSlovenian) ->
     hasTag rest (ApplyTagLanguagePostfix t lon)).
Proof.
  intros Htag Hrest t Ht. unfold hasTag, ApplyTagLanguagePostfix.
  destruct (PrimFloat.ltb 14.5 lon) eqn:E;
    destruct Htag as [-> | ->]; destruct Ht as [-> | ->];
    rewrite !Hrest by (vm_compute; set_solver);
    unfold nameTags, ApplyTagLanguagePostfix; rewrite E;
    (destruct alt as [dj|]; [destruct (negb (dj =? name)%string)|]);
    vm_compute;
    repeat split; intros [x Hx]; try discriminate Hx; eauto.
Qed.

(** C6.  The key of the minority-language variant is the prefix followed
    by ":hu" when the longitude is strictly greater than 14.5 and by ":it"
    otherwise, 14.5 included; so 14.6 selects Hungarian and 14.4 Italian.
    On a feature the longitude is its second coordinate: a variant ":hu"
    is only present east of 14.5, a variant ":it" only at or west of it,
    and a feature with the Slovenian variant has the variant of its
    longitude.  Two records that differ in longitude only, one on each
    side, get different keys. *)
Theorem C6_language_suffix_follows_longitude :
  (forall prefix lon,
     ApplyTagLanguagePostfix prefix lon =
     prefix +:+ (if PrimFloat.ltb 14.5 lon then ":hu" else ":it")) /\
  ApplyTagLanguagePostfix tagStreet 14.6 = "addr:street:hu" /\
  ApplyTagLanguagePostfix tagStreet 14.4 = "addr:street:it" /\
  ApplyTagLanguagePostfix tagStreet 14.5 = "addr:street:it" /\
  (forall lk row f,
     readRecord lk row = Ok (Emit f) ->
     exists lat lon, Point f = [lat; lon] /\
       forall t, t = tagStreet \/ t = tagPlace ->
         (hasTag f (t +:+ tagLangPostfixHungarian) -> PrimFloat.ltb 14.5 lon = true) /\
         (hasTag f (t +:+ tagLangPostfixItalian) -> PrimFloat.ltb 14.5 lon = false) /\
         (hasTag f (t +:+ tagLangPostfixSlovenian) ->
          hasTag f (ApplyTagLanguagePostfix t lon))) /\
  (Shp.attributes rowEast = Shp.attributes rowWest /\
   Properties (featureOf sampleLookups rowEast) !! "addr:street:hu" =
     Some (AString "Via Principale") /\
   Properties (featureOf sampleLookups rowEast) !! "addr:street:it" = None /\
   Properties (featureOf sampleLookups rowWest) !! "addr:street:it" =
     Some (AString "Via Principale") /\
   Properties (featureOf sampleLookups rowWest) !! "addr:street:hu" = None).
Proof.
  split; [|split; [|split; [|split; [|split]]]].
  - intros prefix lon. unfold ApplyTagLanguagePostfix.
    destruct (PrimFloat.ltb 14.5 lon); reflexivity.
  - vm_compute. reflexivity.
  - vm_compute. reflexivity.
  - vm_compute. reflexivity.
  - intros lk row f H. apply readRecord_Emit_shape in H.
    destruct H as (labela & tag & name & alt & ptMid & dateOd & hsMid &
                   _ & _ & _ & _ & (ulMid & _ & Htag) & ->).
    exists (latOf row), (lonOf row). split.
    { rewrite !Point_SetProperty, Point_nameTags. reflexivity. }
    assert (Ht : tag = tagStreet \/ tag = tagPlace).
    { destruct (ulNameMap lk !! ulMid); [left; apply Htag|].
      destruct Htag as (naMid & _ & -> & _). auto. }
    eapply nameTags_variants; [exact Ht|].
    intros k Hk. rewrite !Properties_SetProperty.
    rewrite !lookup_insert_ne; [reflexivity|..];
      intros <-; vm_compute in Hk;
      repeat (apply elem_of_cons in Hk; destruct Hk as [Hk|Hk]; [discriminate Hk|]);
      apply elem_of_nil in Hk; exact Hk.
  - repeat split; vm_compute; reflexivity.
Qed.

(** ** C8: the lookup loader *)

Lemma len_pos_nonempty s : 0 < len s -> s <> "".
Proof. intros H ->. unfold len in H. simpl in H. lia. Qed.

Lemma readRows_step row rows ki vi m table :
  readRows (row :: rows) ki vi m = Ok table ->
  exists m', readRows rows ki vi m' = Ok table /\
    ((exists k v, rowWrites ki vi row k v /\ m' = <[k := v]> m) \/
     ((forall k v, ~ rowWrites ki vi row k v) /\ m' = m)).
Proof.
  cbn [readRows]. intros H. inv_bind H. inv_bind H.
  exists a0. split; [assumption|].
  destruct (0 <? len (Strings.Trim (DecodeWindows1250 a) NUL)) eqn:E.
  - inv_bind Ha0. injection Ha0 as <-. left.
    exists (DecodeWindows1250 a1), (Strings.Trim (DecodeWindows1250 a) NUL).
    split; [|reflexivity]. exists a, a1. repeat split; try assumption. lia.
  - injection Ha0 as <-. right. split; [|reflexivity].
    intros k v (value & key & Hv & -> & Hlen & _). rewrite Ha in Hv. injection Hv as <-. lia.
Qed.

Lemma rowWrites_fun ki vi row k v k' v' :
  rowWrites ki vi row k v -> rowWrites ki vi row k' v' -> k = k' /\ v = v'.
Proof.
  intros (value & key & Hv & -> & _ & Hk & ->) (value' & key' & Hv' & -> & _ & Hk' & ->).
  rewrite Hv in Hv'. rewrite Hk in Hk'. injection Hv' as <-. injection Hk' as <-. auto.
Qed.

(** What the table holds was there before or was written by a record. *)
Lemma readRows_lookup rows ki vi m table k v :
  readRows rows ki vi m = Ok table -> table !! k = Some v ->
  m !! k = Some v \/ exists row, row ∈ rows /\ rowWrites ki vi row k v.
Proof.
  revert m. induction rows as [|row rows IH]; intros m H Hk.
  - injection H as <-. auto.
  - apply readRows_step in H. destruct H as (m' & H & Hm').
    destruct (IH _ H Hk) as [Hm|(r & Hr & Hw)].
    + destruct Hm' as [(k0 & v0 & Hw & ->)|[_ ->]]; [|auto].
      destruct (decide (k0 = k)) as [->|Hne].
      * rewrite lookup_insert_eq in Hm. injection Hm as ->.
        right. exists row. split; [apply elem_of_cons; auto | assumption].
      * rewrite lookup_insert_ne in Hm by assumption. auto.
    + right. exists r. split; [apply elem_of_cons; auto | assumption].
Qed.

(** Records that do not write under [k] leave the entry of [k] alone. *)
Lemma readRows_untouched rows ki vi m table k :
  readRows rows ki vi m = Ok table ->
  (forall r v, r ∈ rows -> ~ rowWrites ki vi r k v) ->
  table !! k = m !! k.
Proof.
  revert m. induction rows as [|row rows IH]; intros m H Hno.
  - injection H as <-. reflexivity.
  - apply readRows_step in H. destruct H as (m' & H & Hm').
    rewrite (IH _ H) by (intros r v Hr; apply Hno, elem_of_cons; auto).
    destruct Hm' as [(k0 & v0 & Hw & ->)|[_ ->]]; [|reflexivity].
    apply lookup_insert_ne. intros ->. eapply Hno; [|exact Hw]. apply elem_of_cons; auto.
Qed.

Lemma readRows_app r1 r2 ki vi m :
  readRows (r1 ++ r2) ki vi m = (let* m' := readRows r1 ki vi m in readRows r2 ki vi m').
Proof.
  revert m. induction r1 as [|row r1 IH]; intros m; [reflexivity|].
  cbn [app readRows]. destruct (Shp.Attribute row vi); try reflexivity. cbn [bind].
  destruct (if 0 <? len (Strings.Trim (DecodeWindows1250 a) NUL)
            then _ else _); try reflexivity.
  cbn [bind]. apply IH.
Qed.

(** The columns the loader reads are columns of the given names. *)
Lemma findColumns_named fields kc vc i ki vi ki' vi' :
  findColumns fields kc vc i ki vi = (ki', vi') ->
  (ki' = ki \/ (i <= ki' /\ fields !! Z.to_nat (ki' - i) = Some kc)) /\
  (vi' = vi \/ (i <= vi' /\ fields !! Z.to_nat (vi' - i) = Some vc)).
Proof.
  revert i ki vi. induction fields as [|v rest IH]; intros i ki vi H.
  - injection H as <- <-. auto.
  - cbn [findColumns] in H.
    assert (Hhead : forall x, x = i -> (v :: rest) !! Z.to_nat (x - i) = Some v).
    { intros x ->. rewrite Z.sub_diag. reflexivity. }
    assert (Htail : forall x s, i + 1 <= x -> rest !! Z.to_nat (x - (i + 1)) = Some s ->
                                (v :: rest) !! Z.to_nat (x - i) = Some s).
    { intros x s Hx Hs. replace (Z.to_nat (x - i)) with (S (Z.to_nat (x - (i + 1)))) by lia.
      exact Hs. }
    destruct (String.eqb v kc) eqn:Ek; [apply String.eqb_eq in Ek; subst v|].
    + destruct (negb (vi =? -1) && negb (i =? -1)) eqn:Eb.
      * injection H as <- <-. split; [right; split; [lia|apply Hhead; reflexivity]|auto].
      * apply IH in H. destruct H as [[->|[H1 H2]] [->|[H3 H4]]].
        -- split; [right; split; [lia|apply Hhead; reflexivity]|auto].
        -- split; [right; split; [lia|apply Hhead; reflexivity]|].
           right. split; [lia|]. apply Htail; assumption.
        -- split; [right; split; [lia|apply Htail; assumption]|auto].
        -- split; right; (split; [lia|apply Htail; assumption]).
    + destruct (String.eqb v vc) eqn:Ev; [apply String.eqb_eq in Ev; subst v|].
      * destruct (negb (i =? -1) && negb (ki =? -1)) eqn:Eb.
        -- injection H as <- <-. split; [auto|right; split; [lia|apply Hhead; reflexivity]].
        -- apply IH in H. destruct H as [[->|[H1 H2]] [->|[H3 H4]]].
           ++ split; [auto|right; split; [lia|apply Hhead; reflexivity]].
           ++ split; [auto|]. right. split; [lia|]. apply Htail; assumption.
           ++ split; [right; split; [lia|apply Htail; assumption]|].
              right. split; [lia|apply Hhead; reflexivity].
           ++ split; right; (split; [lia|apply Htail; assumption]).
      * destruct (negb (vi =? -1) && negb (ki =? -1)) eqn:Eb.
        -- injection H as <- <-. auto.
        -- apply IH in H. destruct H as [[->|[H1 H2]] [->|[H3 H4]]].
           ++ auto.
           ++ split; [auto|]. right. split; [lia|]. apply Htail; assumption.
           ++ split; [right; split; [lia|apply Htail; assumption]|auto].
           ++ split; right; (split; [lia|apply Htail; assumption]).
Qed.

(** C8.  The loader puts a key in the table only for a record whose value,
    decoded and trimmed of NUL bytes, is not empty (the two columns are
    found by their names); when several records write under one key the
    last of them wins; and loading a table with a record of key "100" and
    value "Main St" and a record of key "101" and an empty value gives a
    table that holds "100" and does not hold "101". *)
Theorem C8_loader_keeps_nonempty_values_last_wins :
  (forall fs name kc vc table k v,
     readShapefileToMap fs name kc vc = Ok table -> table !! k = Some v ->
     v <> "" /\
     exists rdr ki vi row,
       Shp.Open fs name = Some rdr /\
       Shp.Fields rdr !! Z.to_nat ki = Some kc /\
       Shp.Fields rdr !! Z.to_nat vi = Some vc /\
       row ∈ Shp.rows rdr /\ rowWrites ki vi row k v) /\
  (forall before row after ki vi m table k v,
     readRows (before ++ row :: after) ki vi m = Ok table ->
     rowWrites ki vi row k v ->
     (forall r v', r ∈ after -> ~ rowWrites ki vi r k v') ->
     table !! k = Some v) /\
  (readShapefileToMap streetFile "UL.shp" "UL_MID" "UL_UIME" = Ok {[ "100" := "Main St" ]} /\
   ({[ "100" := "Main St" ]} : gmap string string) !! "100" = Some "Main St" /\
   ({[ "100" := "Main St" ]} : gmap string string) !! "101" = None).
Proof.
  split; [|split].
  - intros fs name kc vc table k v H Hk. unfold readShapefileToMap in H.
    destruct (Shp.Open fs name) as [rdr|] eqn:Ho; [|discriminate].
    destruct (findColumns _ _ _ _ _ _) as [ki vi] eqn:Hc.
    destruct (readRows_lookup _ _ _ _ _ _ _ H Hk) as [He|(row & Hr & Hw)].
    + rewrite lookup_empty in He. discriminate.
    + pose proof Hw as (value & key & Hv & _ & Hlen & Hkey & _).
      apply Attribute_Ok_range in Hv. apply Attribute_Ok_range in Hkey.
      apply findColumns_named in Hc. destruct Hc as [[->|[_ Hki]] [->|[_ Hvi]]]; try lia.
      rewrite Z.sub_0_r in Hki, Hvi.
      split; [apply len_pos_nonempty, Hlen|].
      exists rdr, ki, vi, row. auto.
  - intros before row after ki vi m table k v H Hw Hno.
    rewrite readRows_app in H. inv_bind H.
    apply readRows_step in H. destruct H as (m' & H & Hm').
    rewrite (readRows_untouched _ _ _ _ _ _ H Hno).
    destruct Hm' as [(k0 & v0 & Hw' & ->)|[Hnot _]].
    + destruct (rowWrites_fun _ _ _ _ _ _ _ Hw Hw') as [-> ->]. apply lookup_insert_eq.
    + exfalso. eapply Hnot, Hw.
  - repeat split; vm_compute; reflexivity.
Qed.

(** ** UTF-8 *)

Lemma byte_val_range c : 0 <= byte_val c < 256.
Proof.
  unfold byte_val. destruct c as [[] [] [] [] [] [] [] []]; vm_compute; split; congruence.
Qed.

Lemma len_String c s : len (String c s) = 1 + len s.
Proof. unfold len. cbn [String.length]. lia. Qed.

Lemma len_nonneg s : 0 <= len s.
Proof. unfold len. lia. Qed.

Lemma len_app s t : len (s +:+ t) = len s + len t.
Proof.
  unfold len. induction s as [|c s IH]; [reflexivity|].
  change (String c s +:+ t) with (String c (s +:+ t)).
  cbn [String.length]. rewrite !Nat2Z.inj_succ. lia.
Qed.

Lemma byte_at_0 c s : byte_at (String c s) 0 = byte_val c.
Proof. reflexivity. Qed.

Lemma byte_at_S c s i : 0 <= i -> byte_at (String c s) (i + 1) = byte_at s i.
Proof.
  intros H. unfold byte_at. replace (Z.to_nat (i + 1)) with (S (Z.to_nat i)) by lia.
  reflexivity.
Qed.

Ltac zbool :=
  repeat match goal with
  | H : (_ <? _) = true |- _ => apply Z.ltb_lt in H
  | H : (_ <? _) = false |- _ => apply Z.ltb_ge in H
  | H : (_ <=? _) = true |- _ => apply Z.leb_le in H
  | H : (_ <=? _) = false |- _ => apply Z.leb_gt in H
  | H : (_ =? _) = true |- _ => apply Z.eqb_eq in H
  | H : (_ =? _) = false |- _ => apply Z.eqb_neq in H
  | H : (_ || _) = true |- _ => apply orb_true_iff in H; destruct H
  | H : (_ || _) = false |- _ => apply orb_false_iff in H; destruct H
  | H : (_ && _) = true |- _ => apply andb_true_iff in H; destruct H
  | H : (_ && _) = false |- _ => apply andb_false_iff in H; destruct H
  | H : negb _ = true |- _ => apply negb_true_iff in H
  | H : negb _ = false |- _ => apply negb_false_iff in H
  end.

Ltac break_if :=
  match goal with
  | |- context [if ?b then _ else _] => destruct b eqn:?
  end; zbool; try (exfalso; lia).

(** The class of a first byte, by ranges. *)
Lemma first_cases b :
  0 <= b < 256 ->
  (b < 0x80 /\ Utf8.first b = Utf8.as_) \/
  ((0x80 <= b < 0xC2 \/ 0xF5 <= b) /\ Utf8.first b = Utf8.xx) \/
  (0xC2 <= b < 0xE0 /\ Utf8.first b = Utf8.s1) \/
  (b = 0xE0 /\ Utf8.first b = Utf8.s2) \/
  ((0xE1 <= b < 0xED \/ 0xEE <= b < 0xF0) /\ Utf8.first b = Utf8.s3) \/
  (b = 0xED /\ Utf8.first b = Utf8.s4) \/
  (b = 0xF0 /\ Utf8.first b = Utf8.s5) \/
  (0xF1 <= b < 0xF4 /\ Utf8.first b = Utf8.s6) \/
  (b = 0xF4 /\ Utf8.first b = Utf8.s7).
Proof.
  intros Hb. unfold Utf8.first.
  repeat break_if; intuition lia.
Qed.

(** [DecodeRuneInString] reads the length and at most four bytes, and a
    byte below [0x80] after the end changes nothing. *)
Lemma DecodeRune_agree s s' :
  1 <= len s -> len s < len s' ->
  (forall i, 0 <= i < len s -> byte_at s' i = byte_at s i) ->
  0 <= byte_at s' (len s) < 0x80 ->
  Utf8.DecodeRuneInString s' = Utf8.DecodeRuneInString s.
Proof.
  intros Hn Hn' Hb Hend. unfold Utf8.DecodeRuneInString.
  rewrite (Hb 0) by lia.
  assert (H0 : exists c, byte_at s 0 = byte_val c).
  { destruct s as [|c t]; [unfold len in Hn; simpl in Hn; lia|]. exists c. reflexivity. }
  destruct H0 as [c0 H0]. pose proof (byte_val_range c0) as Hr. rewrite <- H0 in Hr.
  generalize dependent (byte_at s 0). intros b0 _ Hr.
  assert (H1 : 1 < len s -> byte_at s' 1 = byte_at s 1) by (intros; apply Hb; lia).
  assert (H2 : 2 < len s -> byte_at s' 2 = byte_at s 2) by (intros; apply Hb; lia).
  assert (H3 : 3 < len s -> byte_at s' 3 = byte_at s 3) by (intros; apply Hb; lia).
  assert (E1 : len s = 1 -> 0 <= byte_at s' 1 < 0x80) by (intros E; rewrite <- E; exact Hend).
  assert (E2 : len s = 2 -> 0 <= byte_at s' 2 < 0x80) by (intros E; rewrite <- E; exact Hend).
  assert (E3 : len s = 3 -> 0 <= byte_at s' 3 < 0x80) by (intros E; rewrite <- E; exact Hend).
  clear Hb Hend.
  generalize dependent (byte_at s' 1). generalize dependent (byte_at s' 2).
  generalize dependent (byte_at s' 3). generalize dependent (byte_at s 1).
  generalize dependent (byte_at s 2). generalize dependent (byte_at s 3).
  generalize dependent (len s'). generalize dependent (len s).
  intros n Hn n' Hn' b3 b2 b1 b3' H3 E3 b2' H2 E2 b1' H1 E1.
  destruct (first_cases b0 Hr) as
    [[_ ->]|[[_ ->]|[[_ ->]|[[_ ->]|[[_ ->]|[[_ ->]|[[_ ->]|[[_ ->]|[_ ->]]]]]]]]];
    match goal with |- context [Z.land ?k 7] =>
      let sz := eval vm_compute in (Z.land k 7) in change (Z.land k 7) with sz;
      let ar := eval vm_compute in (Utf8.acceptRanges (Z.shiftr k 4)) in
      change (Utf8.acceptRanges (Z.shiftr k 4)) with ar
    end; cbn [fst snd];
    unfold Utf8.as_, Utf8.xx, Utf8.s1, Utf8.s2, Utf8.s3, Utf8.s4, Utf8.s5, Utf8.s6,
      Utf8.s7, Utf8.locb, Utf8.hicb;
    repeat break_if; try reflexivity;
    try (rewrite ?H1, ?H2, ?H3 by lia; reflexivity);
    try (exfalso; first [ specialize (H1 ltac:(lia)) | specialize (E1 ltac:(lia)) ];
         first [ specialize (H2 ltac:(lia)) | specialize (E2 ltac:(lia)) | idtac ];
         first [ specialize (H3 ltac:(lia)) | specialize (E3 ltac:(lia)) | idtac ]; lia).
Qed.

Lemma byte_at_app_l s t i : 0 <= i < len s -> byte_at (s +:+ t) i = byte_at s i.
Proof.
  revert i. induction s as [|c s IH]; intros i Hi.
  - unfold len in Hi. simpl in Hi. lia.
  - change (String c s +:+ t) with (String c (s +:+ t)).
    destruct (Z.eq_dec i 0) as [->|Hne]; [reflexivity|].
    replace i with (i - 1 + 1) by lia. rewrite !byte_at_S by lia.
    apply IH. rewrite len_String in Hi. lia.
Qed.

Lemma byte_at_app_r s c t : byte_at (s +:+ String c t) (len s) = byte_val c.
Proof.
  induction s as [|a s IH]; [reflexivity|].
  change (String a s +:+ String c t) with (String a (s +:+ String c t)).
  rewrite len_String. replace (1 + len s) with (len s + 1) by lia.
  rewrite byte_at_S by apply len_nonneg. exact IH.
Qed.

(** The first rune of a non-empty string takes between one byte and the
    whole string. *)
Lemma DecodeRune_size s :
  1 <= len s -> 1 <= snd (Utf8.DecodeRuneInString s) <= len s.
Proof.
  intros Hn. unfold Utf8.DecodeRuneInString.
  assert (H0 : exists c, byte_at s 0 = byte_val c).
  { destruct s as [|c t]; [unfold len in Hn; simpl in Hn; lia|]. exists c. reflexivity. }
  destruct H0 as [c0 H0]. pose proof (byte_val_range c0) as Hr. rewrite <- H0 in Hr.
  generalize dependent (byte_at s 0). intros b0 _ Hr.
  destruct (first_cases b0 Hr) as
    [[_ ->]|[[_ ->]|[[_ ->]|[[_ ->]|[[_ ->]|[[_ ->]|[[_ ->]|[[_ ->]|[_ ->]]]]]]]]];
    match goal with |- context [Z.land ?k 7] =>
      let sz := eval vm_compute in (Z.land k 7) in change (Z.land k 7) with sz
    end;
    unfold Utf8.as_, Utf8.xx, Utf8.s1, Utf8.s2, Utf8.s3, Utf8.s4, Utf8.s5, Utf8.s6,
      Utf8.s7;
    repeat break_if; cbn [snd]; lia.
Qed.

Lemma DecodeRune_ascii c t :
  byte_val c < 0x80 -> Utf8.DecodeRuneInString (String c t) = (byte_val c, 1).
Proof.
  intros Hc. unfold Utf8.DecodeRuneInString. rewrite len_String, byte_at_0.
  pose proof (len_nonneg t). pose proof (byte_val_range c).
  assert (E : Utf8.first (byte_val c) = Utf8.as_).
  { unfold Utf8.first. break_if. reflexivity. }
  rewrite E. unfold Utf8.as_, Utf8.xx. repeat break_if. reflexivity.
Qed.

(** Appending an ASCII byte to a string appends it to its runes. *)
Lemma runesFrom_app_ascii c s k :
  byte_val c < 0x80 -> (k <= String.length s)%nat ->
  Utf8.runesFrom k (s +:+ String c "") = (Utf8.runesFrom k s ++ [byte_val c])%list.
Proof.
  intros Hc. revert k. induction s as [|a s IH]; intros k Hk.
  - cbn [String.length] in Hk. replace k with O by lia.
    change ("" +:+ String c "") with (String c "").
    cbn [Utf8.runesFrom]. rewrite DecodeRune_ascii by assumption. reflexivity.
  - change (String a s +:+ String c "") with (String a (s +:+ String c "")).
    destruct k as [|k]; cbn [Utf8.runesFrom].
    + change (String a (s +:+ String c "")) with (String a s +:+ String c "").
      rewrite (DecodeRune_agree (String a s) (String a s +:+ String c "")).
      * pose proof (DecodeRune_size (String a s)) as Hs.
        destruct (Utf8.DecodeRuneInString (String a s)) as [r size]. cbn [snd] in Hs.
        rewrite IH; [reflexivity|].
        rewrite len_String in Hs. pose proof (len_nonneg s). unfold len in *.
        cbn [String.length] in Hk. lia.
      * rewrite len_String. pose proof (len_nonneg s). lia.
      * rewrite len_app. unfold len at 3. simpl. lia.
      * intros i Hi. apply byte_at_app_l, Hi.
      * rewrite byte_at_app_r. pose proof (byte_val_range c). lia.
    + apply IH. cbn [String.length] in Hk. lia.
Qed.

Lemma RuneCount_app_ascii s c :
  byte_val c < 0x80 ->
  Utf8.RuneCountInString (s +:+ String c "") = Utf8.RuneCountInString s + 1.
Proof.
  intros Hc. unfold Utf8.RuneCountInString, Utf8.runes.
  rewrite runesFrom_app_ascii by (assumption || lia).
  rewrite length_app. cbn [length]. lia.
Qed.

Lemma RuneCount_cons_ascii c s :
  byte_val c < 0x80 ->
  Utf8.RuneCountInString (String c s) = 1 + Utf8.RuneCountInString s.
Proof.
  intros Hc. unfold Utf8.RuneCountInString, Utf8.runes. cbn [Utf8.runesFrom].
  rewrite DecodeRune_ascii by assumption. cbn [length].
  replace (Z.to_nat 1 - 1)%nat with O by lia. lia.
Qed.

Lemma RuneCount_nonneg s : 0 <= Utf8.RuneCountInString s.
Proof. unfold Utf8.RuneCountInString. lia. Qed.

Lemma RuneCount_zeros n s :
  Utf8.RuneCountInString (string_repeat "0"%char n +:+ s) =
  Z.of_nat n + Utf8.RuneCountInString s.
Proof.
  induction n as [|n IH]; [reflexivity|].
  change (string_repeat "0"%char (S n) +:+ s)
    with (String "0"%char (string_repeat "0"%char n +:+ s)).
  rewrite RuneCount_cons_ascii by (vm_compute; reflexivity). lia.
Qed.

Lemma DecodeLast_app_ascii s c :
  byte_val c < 0x80 ->
  Utf8.DecodeLastRuneInString (s +:+ String c "") = (byte_val c, 1).
Proof.
  intros Hc. unfold Utf8.DecodeLastRuneInString.
  rewrite len_app. change (len (String c "")) with 1.
  pose proof (len_nonneg s).
  break_if. replace (len s + 1 - 1) with (len s) by lia.
  rewrite byte_at_app_r. unfold Utf8.RuneSelf. break_if. reflexivity.
Qed.

Lemma byte_at_cons c s i : 1 <= i -> byte_at (String c s) i = byte_at s (i - 1).
Proof. intros H. replace i with (i - 1 + 1) at 1 by lia. apply byte_at_S. lia. Qed.

Lemma slice_cons c s lo hi :
  0 <= lo -> slice (String c s) (lo + 1) (hi + 1) = slice s lo hi.
Proof.
  intros H. unfold slice. replace (Z.to_nat (lo + 1)) with (S (Z.to_nat lo)) by lia.
  replace (hi + 1 - (lo + 1)) with (hi - lo) by lia. reflexivity.
Qed.

Lemma scanRuneStart_cons c s lim n start :
  0 <= lim ->
  Utf8.scanRuneStart (String c s) (lim + 1) n (start + 1) =
  Utf8.scanRuneStart s lim n start + 1.
Proof.
  intros Hl. revert start. induction n as [|n IH]; intros start; cbn [Utf8.scanRuneStart].
  - reflexivity.
  - destruct (start <? lim) eqn:E; zbool.
    + destruct (start + 1 <? lim + 1) eqn:E'; zbool; [reflexivity|lia].
    + destruct (start + 1 <? lim + 1) eqn:E'; zbool; [lia|].
      rewrite byte_at_S by lia. destruct (Utf8.RuneStart (byte_at s start)); [reflexivity|].
      replace (start + 1 - 1) with (start - 1 + 1) by lia. apply IH.
Qed.

Lemma scanRuneStart_ge s lim n start :
  lim - 1 <= start -> lim - 1 <= Utf8.scanRuneStart s lim n start.
Proof.
  revert start. induction n as [|n IH]; intros start H; cbn [Utf8.scanRuneStart]; [lia|].
  destruct (start <? lim) eqn:E; zbool; [lia|].
  destruct (Utf8.RuneStart (byte_at s start)); [lia|]. apply IH. lia.
Qed.

(** A byte is a continuation byte when it lies in [0x80, 0xBF]. *)
Lemma RuneStart_false c :
  Utf8.RuneStart (byte_val c) = false -> 0x80 <= byte_val c < 0xC0.
Proof.
  destruct c as [[] [] [] [] [] [] [] []]; intros H; vm_compute in H;
    try discriminate H; vm_compute; split; congruence.
Qed.

Lemma RuneStart_ascii c : byte_val c < 0x80 -> Utf8.RuneStart (byte_val c) = true.
Proof.
  intros H. destruct (Utf8.RuneStart (byte_val c)) eqn:E; [reflexivity|].
  apply RuneStart_false in E. lia.
Qed.

(** A continuation byte does not start a rune. *)
Lemma DecodeRune_continuation c t :
  Utf8.RuneStart (byte_val c) = false ->
  Utf8.DecodeRuneInString (String c t) = (Utf8.RuneError, 1).
Proof.
  intros Hc. apply RuneStart_false in Hc.
  unfold Utf8.DecodeRuneInString. rewrite len_String, byte_at_0.
  pose proof (len_nonneg t).
  assert (E : Utf8.first (byte_val c) = Utf8.xx).
  { unfold Utf8.first. repeat break_if. reflexivity. }
  rewrite E. unfold Utf8.as_, Utf8.xx. repeat break_if. reflexivity.
Qed.

(** A single byte that is not ASCII is no rune. *)
Lemma DecodeRune_single c :
  0x80 <= byte_val c ->
  Utf8.DecodeRuneInString (String c "") = (Utf8.RuneError, 1).
Proof.
  intros Hc. unfold Utf8.DecodeRuneInString. rewrite byte_at_0.
  change (len (String c "")) with 1.
  destruct (first_cases _ (byte_val_range c)) as
    [[? ->]|[[_ ->]|[[_ ->]|[[_ ->]|[[_ ->]|[[_ ->]|[[_ ->]|[[_ ->]|[_ ->]]]]]]]]];
    [lia|..];
    match goal with |- context [Z.land ?k 7] =>
      let sz := eval vm_compute in (Z.land k 7) in change (Z.land k 7) with sz
    end;
    unfold Utf8.as_, Utf8.xx, Utf8.s1, Utf8.s2, Utf8.s3, Utf8.s4, Utf8.s5, Utf8.s6,
      Utf8.s7;
    repeat break_if; reflexivity.
Qed.

Lemma slice_full s : slice s 0 (len s) = s.
Proof.
  unfold slice, len. rewrite Z.sub_0_r, Nat2Z.id. change (Z.to_nat 0) with O.
  induction s as [|c s IH]; [reflexivity|]. cbn [String.length String.substring].
  f_equal. exact IH.
Qed.

(** With the limit at the start of the string, the scan of the string
    with an ASCII byte in front ends one position further right: on the
    same byte, or on the new byte when the string has no rune start. *)
Lemma scanRuneStart_cons_0 c s n start :
  byte_val c < 0x80 -> -1 <= start -> (Z.to_nat (start + 1) < n)%nat ->
  Utf8.scanRuneStart (String c s) 0 n (start + 1) = Utf8.scanRuneStart s 0 n start + 1.
Proof.
  intros Hc. revert start. induction n as [|n IH]; intros start Hs Hn; [lia|].
  cbn [Utf8.scanRuneStart].
  destruct (start + 1 <? 0) eqn:E; zbool; [lia|].
  destruct (start <? 0) eqn:E'; zbool.
  - replace start with (-1) by lia. change (-1 + 1) with 0. rewrite byte_at_0.
    rewrite RuneStart_ascii by assumption. reflexivity.
  - rewrite byte_at_S by lia. destruct (Utf8.RuneStart (byte_at s start)); [reflexivity|].
    replace (start + 1 - 1) with (start - 1 + 1) by lia. apply IH; lia.
Qed.

Lemma scanRuneStart_none s n start :
  0 <= start -> (Z.to_nat start < n)%nat ->
  Utf8.scanRuneStart s 0 n start = -1 -> Utf8.RuneStart (byte_at s 0) = false.
Proof.
  revert start. induction n as [|n IH]; intros start Hs Hn; [lia|].
  cbn [Utf8.scanRuneStart]. destruct (start <? 0) eqn:E; zbool; [lia|].
  destruct (Utf8.RuneStart (byte_at s start)) eqn:R; [lia|].
  destruct (Z.eq_dec start 0) as [->|Hne]; [intros _; exact R|].
  apply IH; lia.
Qed.

Lemma byte_at_head s : 1 <= len s -> exists c t, s = String c t.
Proof.
  destruct s as [|c t]; [unfold len; simpl; lia|]. eauto.
Qed.

(** An ASCII byte in front of a non-empty string does not change its last
    rune. *)
Lemma DecodeLast_cons_ascii c s :
  byte_val c < 0x80 -> 1 <= len s ->
  Utf8.DecodeLastRuneInString (String c s) = Utf8.DecodeLastRuneInString s.
Proof.
  intros Hc He. unfold Utf8.DecodeLastRuneInString. rewrite len_String.
  set (e := len s) in *.
  destruct (1 + e =? 0) eqn:E1; zbool; [lia|].
  destruct (e =? 0) eqn:E2; zbool; [lia|].
  rewrite (byte_at_cons c s (1 + e - 1)) by lia.
  replace (1 + e - 1 - 1) with (e - 1) by lia.
  destruct (byte_at s (e - 1) <? Utf8.RuneSelf) eqn:Er; [reflexivity|]. zbool.
  unfold Utf8.UTFMax. change (Z.to_nat 4) with 4%nat.
  set (lim := if e - 4 <? 0 then 0 else e - 4).
  set (lim' := if 1 + e - 4 <? 0 then 0 else 1 + e - 4).
  set (w := Utf8.scanRuneStart s lim 4 (e - 1 - 1)).
  assert (Hw' : Utf8.scanRuneStart (String c s) lim' 4 (e - 1) = w + 1).
  { subst w lim lim'. replace (e - 1) with (e - 1 - 1 + 1) at 1 by lia.
    destruct (Z_lt_le_dec e 4) as [Hlt|Hge].
    - destruct (e - 4 <? 0) eqn:L; zbool; [|lia].
      destruct (1 + e - 4 <? 0) eqn:L'; zbool.
      + apply scanRuneStart_cons_0; [assumption|lia|lia].
      + replace (1 + e - 4) with 0 by lia. apply scanRuneStart_cons_0; [assumption|lia|lia].
    - destruct (e - 4 <? 0) eqn:L; zbool; [lia|].
      destruct (1 + e - 4 <? 0) eqn:L'; zbool; [lia|].
      replace (1 + e - 4) with (e - 4 + 1) by lia. apply scanRuneStart_cons. lia. }
  rewrite Hw'.
  assert (Hlim : 0 <= lim <= e - 1 /\ (lim = 0 \/ lim = e - 4)).
  { subst lim. destruct (e - 4 <? 0) eqn:L; zbool; lia. }
  assert (Hge : lim - 1 <= w) by (subst w; apply scanRuneStart_ge; lia).
  destruct (w <? 0) eqn:Wn; zbool.
  - (* no rune start in the string *)
    assert (w = -1) by lia. assert (lim = 0) by lia.
    destruct (w + 1 <? 0) eqn:Wn'; zbool; [lia|].
    replace (w + 1) with 0 by lia.
    replace (1 + e) with (len (String c s)) by (rewrite len_String; reflexivity).
    rewrite slice_full, DecodeRune_ascii by assumption.
    rewrite len_String. fold e.
    destruct (negb (0 + 1 =? 1 + e)) eqn:C; [|apply negb_false_iff in C; zbool; lia].
    subst e. rewrite slice_full.
    assert (Hd : Utf8.DecodeRuneInString s = (Utf8.RuneError, 1)).
    { destruct (byte_at_head s He) as (a & t & ->).
      destruct (Z.eq_dec (len (String a t)) 1) as [E|E].
      - assert (t = "") as ->.
        { rewrite len_String in E. destruct t; [reflexivity|].
          rewrite len_String in E. pose proof (len_nonneg t). lia. }
        apply DecodeRune_single. change (len (String a "") - 1) with 0 in Er.
        rewrite byte_at_0 in Er. exact Er.
      - apply DecodeRune_continuation. rewrite <- (byte_at_0 a t).
        apply (scanRuneStart_none (String a t) 4 (len (String a t) - 1 - 1)).
        + lia.
        + subst lim. destruct (len (String a t) - 4 <? 0) eqn:L; rewrite ?L in *; zbool; lia.
        + subst w lim. destruct (len (String a t) - 4 <? 0) eqn:L; rewrite ?L in *; zbool;
            [assumption|]. rewrite H0 in H. exact H. }
    rewrite Hd. destruct (negb (0 + 1 =? len s)); reflexivity.
  - destruct (w + 1 <? 0) eqn:Wn'; zbool; [lia|].
    replace (1 + e) with (e + 1) by lia. rewrite slice_cons by lia.
    destruct (Utf8.DecodeRuneInString (slice s w e)) as [r size].
    replace (w + 1 + size =? e + 1) with (w + size =? e); [reflexivity|].
    destruct (w + size =? e) eqn:A; destruct (w + 1 + size =? e + 1) eqn:B; zbool;
      try reflexivity; lia.
Qed.

Lemma DecodeLast_zeros n s :
  1 <= len s ->
  Utf8.DecodeLastRuneInString (string_repeat "0"%char n +:+ s) =
  Utf8.DecodeLastRuneInString s.
Proof.
  intros Hs. induction n as [|n IH]; [reflexivity|].
  change (string_repeat "0"%char (S n) +:+ s)
    with (String "0"%char (string_repeat "0"%char n +:+ s)).
  rewrite DecodeLast_cons_ascii; [exact IH | vm_compute; reflexivity |].
  rewrite len_app. pose proof (len_nonneg (string_repeat "0"%char n)). lia.
Qed.

(** ** C3: the normalized house number *)

Lemma len_string_repeat c n : len (string_repeat c n) = Z.of_nat n.
Proof.
  induction n as [|n IH]; [reflexivity|].
  cbn [string_repeat]. rewrite len_String, IH. lia.
Qed.

Lemma endsInDigit_false_nonempty h : endsInDigit h = false -> 1 <= len h.
Proof.
  destruct h as [|c t]; [vm_compute; discriminate|].
  intros _. rewrite len_String. pose proof (len_nonneg t). lia.
Qed.

(** C3, as the code has it.  The verbs [%03s] and [%04s] pad and never
    truncate, and they count characters (runes).  When [h] is empty or
    ends in a digit, the result is [h] after the zeros that bring it to
    three characters, followed by the placeholder: it ends in [_] and has
    one character more than the larger of 3 and the length of [h].
    Otherwise the result is [h] after the zeros that bring it to four
    characters: its last character is that of [h] and its length is the
    larger of 4 and the length of [h].  So the result has at least four
    characters, and exactly four when [h] has at most three (at most four
    when it ends in a letter). *)
Theorem C3_normalized_house_number (h : string) :
  (endsInDigit h = true ->
   NormalizeHouseNumber h =
     (string_repeat "0"%char (Z.to_nat (3 - Utf8.RuneCountInString h)) +:+ h) +:+ "_" /\
   Utf8.RuneCountInString (NormalizeHouseNumber h) =
     Z.max 3 (Utf8.RuneCountInString h) + 1 /\
   len (NormalizeHouseNumber h) = len h + Z.max 0 (3 - Utf8.RuneCountInString h) + 1 /\
   Utf8.DecodeLastRuneInString (NormalizeHouseNumber h) = (0x5F, 1)) /\
  (endsInDigit h = false ->
   NormalizeHouseNumber h =
     string_repeat "0"%char (Z.to_nat (4 - Utf8.RuneCountInString h)) +:+ h /\
   Utf8.RuneCountInString (NormalizeHouseNumber h) = Z.max 4 (Utf8.RuneCountInString h) /\
   len (NormalizeHouseNumber h) = len h + Z.max 0 (4 - Utf8.RuneCountInString h) /\
   Utf8.DecodeLastRuneInString (NormalizeHouseNumber h) =
     Utf8.DecodeLastRuneInString h) /\
  (Utf8.RuneCountInString h <= (if endsInDigit h then 3 else 4) ->
   Utf8.RuneCountInString (NormalizeHouseNumber h) = 4) /\
  4 <= Utf8.RuneCountInString (NormalizeHouseNumber h).
Proof.
  pose proof (RuneCount_nonneg h) as Hrc.
  assert (Hd : endsInDigit h = true ->
    NormalizeHouseNumber h =
      (string_repeat "0"%char (Z.to_nat (3 - Utf8.RuneCountInString h)) +:+ h) +:+ "_").
  { unfold endsInDigit, NormalizeHouseNumber.
    destruct (Utf8.DecodeLastRuneInString h) as [lastRune n]. intros ->. reflexivity. }
  assert (Hl : endsInDigit h = false ->
    NormalizeHouseNumber h =
      string_repeat "0"%char (Z.to_nat (4 - Utf8.RuneCountInString h)) +:+ h).
  { unfold endsInDigit, NormalizeHouseNumber.
    destruct (Utf8.DecodeLastRuneInString h) as [lastRune n]. intros ->. reflexivity. }
  assert (Hd' : endsInDigit h = true ->
    Utf8.RuneCountInString (NormalizeHouseNumber h) =
      Z.max 3 (Utf8.RuneCountInString h) + 1).
  { intros E. rewrite (Hd E). rewrite RuneCount_app_ascii by (vm_compute; reflexivity).
    rewrite RuneCount_zeros. lia. }
  assert (Hl' : endsInDigit h = false ->
    Utf8.RuneCountInString (NormalizeHouseNumber h) = Z.max 4 (Utf8.RuneCountInString h)).
  { intros E. rewrite (Hl E). rewrite RuneCount_zeros. lia. }
  split; [|split; [|split]].
  - intros E. split; [exact (Hd E)|]. split; [exact (Hd' E)|]. split.
    + rewrite (Hd E), !len_app, len_string_repeat. change (len "_") with 1. lia.
    + rewrite (Hd E). apply (DecodeLast_app_ascii _ "_"%char). vm_compute. reflexivity.
  - intros E. split; [exact (Hl E)|]. split; [exact (Hl' E)|]. split.
    + rewrite (Hl E), len_app, len_string_repeat. lia.
    + rewrite (Hl E). apply DecodeLast_zeros, endsInDigit_false_nonempty, E.
  - destruct (endsInDigit h) eqn:E; intros Hle.
    + rewrite Hd' by reflexivity. lia.
    + rewrite Hl' by reflexivity. lia.
  - destruct (endsInDigit h) eqn:E.
    + rewrite Hd' by reflexivity. lia.
    + rewrite Hl' by reflexivity. lia.
Qed.

(** The claim as the spec words it fails on a number of four digits and on
    a number with a suffix of two letters: both results have five
    characters. *)
Lemma C3_counterexample :
  NormalizeHouseNumber "1234" = "1234_" /\
  Utf8.RuneCountInString (NormalizeHouseNumber "1234") = 5 /\
  len (NormalizeHouseNumber "1234") = 5 /\
  NormalizeHouseNumber "123ab" = "123ab" /\
  Utf8.RuneCountInString (NormalizeHouseNumber "123ab") = 5 /\
  len (NormalizeHouseNumber "123ab") = 5.
Proof. repeat split; vm_compute; reflexivity. Qed.

(** The house numbers of the spec's examples. *)
Example NormalizeHouseNumber_examples :
  NormalizeHouseNumber "12" = "012_" /\
  NormalizeHouseNumber "12a" = "012a" /\
  NormalizeHouseNumber "" = "000_" /\
  string_lt (NormalizeHouseNumber "12") (NormalizeHouseNumber "12a") = true /\
  string_lt (NormalizeHouseNumber "2") (NormalizeHouseNumber "12") = true.
Proof. repeat split; vm_compute; reflexivity. Qed.

(** ** C7: sorting a slice that is in order *)

Section SortedSlice.

Context {A : Type}.
Variable less : list A -> Z -> Z -> result bool.
Variable data : list A.
Hypothesis Horder : inOrder less data.

Let n : Z := Z.of_nat (length data).

Lemma Less_later_earlier i j :
  0 <= i < j -> j < n -> GoSort.Less less data j i = Ok false.
Proof. intros Hi Hj. apply Horder; assumption. Qed.

Lemma insertionSort_outer_inOrder fuel a b i :
  0 <= a < i -> b <= n -> (Z.to_nat (b - i) < fuel)%nat ->
  GoSort.insertionSort_outer less fuel data a b i = Ok data.
Proof.
  revert i. induction fuel as [|fuel IH]; intros i Ha Hb Hf; [lia|].
  cbn [GoSort.insertionSort_outer].
  destruct (i <? b) eqn:E; [|reflexivity]. apply Z.ltb_lt in E.
  cbn [GoSort.insertionSort_inner].
  replace (a <? i) with true by (symmetry; apply Z.ltb_lt; lia).
  rewrite Less_later_earlier by lia. cbn [bind].
  apply IH; lia.
Qed.

Lemma insertionSort_func_inOrder a b :
  0 <= a -> b <= n -> GoSort.insertionSort_func less data a b = Ok data.
Proof.
  intros Ha Hb. unfold GoSort.insertionSort_func.
  apply insertionSort_outer_inOrder; lia.
Qed.

Lemma order2_inOrder a b swaps :
  0 <= a < b -> b < n -> GoSort.order2_func less data a b swaps = Ok (a, b, swaps).
Proof.
  intros Ha Hb. unfold GoSort.order2_func.
  rewrite Less_later_earlier by lia. reflexivity.
Qed.

Lemma median_inOrder a b c swaps :
  0 <= a < b -> b < c -> c < n ->
  GoSort.median_func less data a b c swaps = Ok (b, swaps).
Proof.
  intros Ha Hb Hc. unfold GoSort.median_func.
  rewrite order2_inOrder by lia. cbn [bind].
  rewrite order2_inOrder by lia. cbn [bind].
  rewrite order2_inOrder by lia. reflexivity.
Qed.

Lemma choosePivot_inOrder :
  12 < n ->
  GoSort.choosePivot_func less data 0 n =
    Ok (Z.quot n 4 * 2, GoSort.increasingHint).
Proof.
  intros Hn. unfold GoSort.choosePivot_func, GoSort.medianAdjacent_func.
  rewrite Z.sub_0_r, !Z.add_0_l.
  assert (Hq : 3 <= Z.quot n 4 /\ 4 * Z.quot n 4 <= n).
  { rewrite Z.quot_div_nonneg by lia. split.
    - apply Z.div_le_lower_bound; lia.
    - apply Z.mul_div_le. lia. }
  destruct Hq as [Hq1 Hq2]. set (q := Z.quot n 4) in *.
  replace (8 <=? n) with true by (symmetry; apply Z.leb_le; lia).
  destruct (GoSort.shortestNinther <=? n).
  - repeat (rewrite median_inOrder by lia; cbn [bind]). reflexivity.
  - cbn [bind]. rewrite median_inOrder by lia. reflexivity.
Qed.

Lemma scanOrdered_inOrder fuel i :
  1 <= i <= n -> (Z.to_nat (n - i) < fuel)%nat ->
  GoSort.scanOrdered less fuel data n i = Ok n.
Proof.
  revert i. induction fuel as [|fuel IH]; intros i Hi Hf; [lia|].
  cbn [GoSort.scanOrdered]. destruct (i <? n) eqn:E.
  - apply Z.ltb_lt in E. rewrite Less_later_earlier by lia. cbn [bind negb].
    apply IH; lia.
  - apply Z.ltb_ge in E. f_equal. lia.
Qed.

Lemma partialInsertionSort_inOrder :
  1 <= n -> GoSort.partialInsertionSort_func less data 0 n = Ok (data, true).
Proof.
  intros Hn. unfold GoSort.partialInsertionSort_func, GoSort.maxSteps.
  cbn [GoSort.partialInsertionSort_loop].
  rewrite scanOrdered_inOrder by lia. cbn [bind]. rewrite Z.eqb_refl. reflexivity.
Qed.

(** [sort.Slice] leaves a slice that is in order as it is. *)
Theorem Slice_inOrder : GoSort.Slice less data = Ok data.
Proof.
  unfold GoSort.Slice, GoSort.pdqsort_func. fold n.
  cbn [GoSort.pdqsort_loop]. rewrite Z.sub_0_r.
  unfold GoSort.maxInsertion.
  destruct (n <=? 12) eqn:E.
  - apply insertionSort_func_inOrder; lia.
  - apply Z.leb_gt in E.
    assert (Hl : (GoSort.bitsLen n =? 0) = false).
    { unfold GoSort.bitsLen. destruct (n <=? 0) eqn:E0; [apply Z.leb_le in E0; lia|].
      apply Z.eqb_neq. pose proof (Z.log2_nonneg n). lia. }
    rewrite Hl. cbn [negb bind].
    rewrite choosePivot_inOrder by lia. cbn [bind GoSort.isDecreasing GoSort.isIncreasing andb].
    rewrite partialInsertionSort_inOrder by lia. reflexivity.
Qed.

End SortedSlice.

(** C7, as the code has it.  When no feature of the collection compares
    less than an earlier one, [SortFeatureCollection] returns the
    collection as it is: the same features in the same order. *)
Theorem C7_sorting_a_collection_in_order_changes_nothing (fc : FeatureCollection) :
  inOrder featureLess (Features fc) -> SortFeatureCollection fc = Ok fc.
Proof.
  intros H. unfold SortFeatureCollection. rewrite Slice_inOrder by exact H.
  destruct fc. reflexivity.
Qed.

Lemma inOrderb_correct {A} (less : list A -> Z -> Z -> result bool) (data : list A) :
  inOrderb less data = true -> inOrder less data.
Proof.
  unfold inOrderb, inOrder. intros H i j Hi Hj.
  rewrite forallb_forall in H.
  specialize (H (Z.to_nat j)). rewrite forallb_forall in H.
  assert (Hin : In (Z.to_nat j) (seq 0 (length data))) by (apply in_seq; lia).
  specialize (H Hin (Z.to_nat i)).
  assert (Hin' : In (Z.to_nat i) (seq 0 (Z.to_nat j))) by (apply in_seq; lia).
  specialize (H Hin'). rewrite !Z2Nat.id in H by lia.
  destruct (less data j i) as [[|]| | |]; try discriminate H. reflexivity.
Qed.

Lemma C7_witness : SortFeatureCollection featuresOneStreet = Ok featuresOneStreet.
Proof.
  apply C7_sorting_a_collection_in_order_changes_nothing.
  apply inOrderb_correct. vm_compute. reflexivity.
Defined.

(** The claim as the spec words it fails where a postal area has features
    with a street and features with a place only: there the comparison is
    cyclic (b/1 before x/2 and x/2 before a/3 by house number, a/3 before
    b/1 by street).  The thirteen features of [featuresMixed] are what
    [ReadShapefile] makes of thirteen records; their order is one the sort
    itself produces, and one that [sort.SliceIsSorted] accepts.  Sorting
    it again moves every feature: with more than twelve elements
    [choosePivot_func] compares positions 3, 6 and 9 (b/1, b/1, a/3), counts
    two exchanges and gives no hint, and [partition_func] around b/1 brings
    the five a/3 to the front; insertion sort of the rest puts x/2 last. *)
Lemma C7_counterexample :
  ReadShapefile (addressFile rowsMixed) sortLookups "in.shp" =
    Ok {| featureCollection := featuresMixed; stdout := [] |} /\
  SortFeatureCollection featuresUnsorted = Ok featuresMixed /\
  GoSort.SliceIsSorted featureLess (Features featuresMixed) = Ok true /\
  SortFeatureCollection featuresMixed = Ok featuresResorted /\
  featuresResorted <> featuresMixed.
Proof.
  split; [vm_compute; reflexivity|].
  split; [vm_compute; reflexivity|].
  split; [vm_compute; reflexivity|].
  split; [vm_compute; reflexivity|].
  intros H.
  apply (f_equal (fun c => match Features c with
                           | f :: _ => Properties f !! tagHousenumber
                           | [] => None
                           end)) in H.
  vm_compute in H. discriminate H.
Qed.

(** ** The program on sample data *)

(** One valid record with a plain street name: the run gives one feature
    with the tags of the record, and the coordinates are rounded to seven
    decimals before the longitude is compared (here to 14.5 exactly). *)
Example main_on_sample_files :
  exists f,
    main sampleFiles "in.shp" =
      Ok {| featureCollection := {| Features := [f] |};
            stdout := ["skipping invalid..."] |} /\
    Point f = [46.05%float; 14.5%float] /\
    Properties f !! tagPostCode = Some (AString "1000") /\
    Properties f !! tagCity = Some (AString "Ljubljana") /\
    Properties f !! tagHousenumber = Some (AString "12a") /\
    Properties f !! tagStreet = Some (AString "Glavna ulica") /\
    Properties f !! tagPlace = None /\
    Properties f !! tagSourceDate = Some (AString "2020-01-31") /\
    Properties f !! tagSource = Some (AString "GURS") /\
    Properties f !! tagRef = Some (AString "10000001").
Proof.
  eexists. split; [vm_compute; reflexivity|]. repeat split; vm_compute; reflexivity.
Qed.

Example Round_half_away_from_zero :
  GoMath.Round 2.5 = 3%float /\ GoMath.Round (-2.5) = (-3)%float /\
  GoMath.Round 0.4 = 0%float /\ GoMath.Round 145000000.1 = 145000000%float.
Proof. repeat split; vm_compute; reflexivity. Qed.

Example DecodeWindows1250_examples :
  DecodeWindows1250 "Main St" = "Main St" /\
  Utf8.runes (DecodeWindows1250 (String (chr 0x8A) (String (chr 0xE8) ""))) = [0x160; 0x10D] /\
  Utf8.runes (Strings.ToLower (DecodeWindows1250 (String (chr 0x8A) "A"))) = [0x161; 0x61].
Proof. repeat split; vm_compute; reflexivity. Qed.

(** ** Windows-1250 *)

Lemma byte_at_1 c0 c1 t : byte_at (String c0 (String c1 t)) 1 = byte_val c1.
Proof. reflexivity. Qed.

Lemma byte_at_2 c0 c1 c2 t : byte_at (String c0 (String c1 (String c2 t))) 2 = byte_val c2.
Proof. reflexivity. Qed.

(** A sequence of two bytes: a lead byte in [C2, DF] and a continuation. *)
Lemma DecodeRune_two c0 c1 t :
  0xC2 <= byte_val c0 < 0xE0 -> 0x80 <= byte_val c1 <= 0xBF ->
  Utf8.DecodeRuneInString (String c0 (String c1 t)) =
    (Z.lor (Z.shiftl (Z.land (byte_val c0) Utf8.mask2) 6) (Z.land (byte_val c1) Utf8.maskx), 2).
Proof.
  intros H0 H1. unfold Utf8.DecodeRuneInString.
  rewrite !len_String, byte_at_0, byte_at_1. pose proof (len_nonneg t).
  assert (E : Utf8.first (byte_val c0) = Utf8.s1).
  { unfold Utf8.first. repeat break_if. reflexivity. }
  rewrite E. change (Z.land Utf8.s1 7) with 2.
  change (Utf8.acceptRanges (Z.shiftr Utf8.s1 4)) with (Utf8.locb, Utf8.hicb).
  cbn [fst snd]. unfold Utf8.as_, Utf8.s1, Utf8.locb, Utf8.hicb.
  repeat break_if. reflexivity.
Qed.

(** A sequence of three bytes with a lead byte in [E1, EC] or [EE, EF]. *)
Lemma DecodeRune_three c0 c1 c2 t :
  0xE1 <= byte_val c0 < 0xED \/ 0xEE <= byte_val c0 < 0xF0 ->
  0x80 <= byte_val c1 <= 0xBF -> 0x80 <= byte_val c2 <= 0xBF ->
  Utf8.DecodeRuneInString (String c0 (String c1 (String c2 t))) =
    (Z.lor (Z.lor (Z.shiftl (Z.land (byte_val c0) Utf8.mask3) 12)
                  (Z.shiftl (Z.land (byte_val c1) Utf8.maskx) 6))
           (Z.land (byte_val c2) Utf8.maskx), 3).
Proof.
  intros H0 H1 H2. unfold Utf8.DecodeRuneInString.
  rewrite !len_String, byte_at_0, byte_at_1, byte_at_2. pose proof (len_nonneg t).
  assert (E : Utf8.first (byte_val c0) = Utf8.s3).
  { unfold Utf8.first. repeat break_if. all: reflexivity. }
  rewrite E. change (Z.land Utf8.s3 7) with 3.
  change (Utf8.acceptRanges (Z.shiftr Utf8.s3 4)) with (Utf8.locb, Utf8.hicb).
  cbn [fst snd]. unfold Utf8.as_, Utf8.s3, Utf8.locb, Utf8.hicb.
  repeat break_if. reflexivity.
Qed.

Lemma chr_byte_val c : chr (byte_val c) = c.
Proof. destruct c as [[] [] [] [] [] [] [] []]; reflexivity. Qed.

Lemma byte_val_chr x : 0 <= x < 256 -> byte_val (chr x) = x.
Proof.
  intros H. unfold byte_val, chr.
  rewrite N_ascii_embedding.
  - rewrite Z2N.id; [|apply Z.land_nonneg; lia].
    change 255 with (Z.ones 8). rewrite Z.land_ones by lia. apply Z.mod_small. lia.
  - apply N2Z.inj_lt. rewrite Z2N.id; [|apply Z.land_nonneg; lia].
    change 255 with (Z.ones 8). rewrite Z.land_ones by lia.
    change (Z.of_N 256) with 256. apply Z.mod_pos_bound. lia.
Qed.

(** The code point of a byte of the upper half is encoded in two or three
    bytes, which decode to it whatever follows, and the encoder finds the
    byte back. *)
Lemma Windows1250_high c :
  0x80 <= byte_val c ->
  exists c0 rest,
    Utf8.AppendRune "" (Charmap.Windows1250 (byte_val c)) = String c0 rest /\
    0x80 <= byte_val c0 /\ 1 <= len rest <= 2 /\
    0x80 <= Charmap.Windows1250 (byte_val c) /\
    Charmap.encodeRune (Charmap.Windows1250 (byte_val c)) = Some (byte_val c) /\
    forall t, Utf8.DecodeRuneInString (String c0 rest +:+ t) =
              (Charmap.Windows1250 (byte_val c), 1 + len rest).
Proof.
  destruct c as [[] [] [] [] [] [] [] []]; intros H;
    try (exfalso; vm_compute in H; apply H; reflexivity);
    match goal with |- context [Utf8.AppendRune "" ?r] =>
      let s' := eval vm_compute in (Utf8.AppendRune "" r) in
      match s' with
      | String ?c0 ?rest =>
        exists c0, rest; split; [vm_compute; reflexivity|];
        split; [vm_compute; congruence|];
        split; [vm_compute; split; congruence|];
        split; [vm_compute; congruence|];
        split; [vm_compute; reflexivity|];
        intros t;
        match rest with
        | String ?c1 "" =>
          change (String c0 rest +:+ t) with (String c0 (String c1 t));
          rewrite DecodeRune_two by (vm_compute; split; congruence);
          vm_compute; reflexivity
        | String ?c1 (String ?c2 "") =>
          change (String c0 rest +:+ t) with (String c0 (String c1 (String c2 t)));
          rewrite DecodeRune_three by
            (vm_compute; first [split; congruence | left; split; congruence
                               | right; split; congruence]);
          vm_compute; reflexivity
        end
      end
    end.
Qed.

Lemma Windows1250_low c :
  byte_val c < 0x80 ->
  Utf8.AppendRune "" (Charmap.Windows1250 (byte_val c)) = String c "".
Proof.
  intros H. pose proof (byte_val_range c).
  unfold Charmap.Windows1250, Utf8.RuneSelf, Utf8.AppendRune, Utf8.rune1Max.
  destruct (byte_val c <? 128) eqn:E; zbool; [|lia].
  destruct ((0 <=? byte_val c) && (byte_val c <=? 127)) eqn:E'; zbool; try lia.
  change ("" +:+ String (chr (byte_val c)) "") with (String (chr (byte_val c)) "").
  rewrite chr_byte_val. reflexivity.
Qed.

Lemma append_String c s t : String c s +:+ t = String c (s +:+ t).
Proof. reflexivity. Qed.

Lemma append_assoc s t u : (s +:+ t) +:+ u = s +:+ (t +:+ u).
Proof. induction s as [|c s IH]; [reflexivity|]. rewrite !append_String, IH. reflexivity. Qed.

Lemma append_nil_r s : s +:+ "" = s.
Proof. induction s as [|c s IH]; [reflexivity|]. rewrite append_String, IH. reflexivity. Qed.

Lemma decodeBytes_String c s :
  DecodeWindows1250 (String c s) =
  Utf8.AppendRune "" (Charmap.Windows1250 (byte_val c)) +:+ DecodeWindows1250 s.
Proof. reflexivity. Qed.

(** The bytes of a rune being passed over. *)
Lemma runesFrom_skip a t :
  Utf8.runesFrom (String.length a) (a +:+ t) = Utf8.runesFrom 0 t.
Proof.
  induction a as [|c a IH]; [reflexivity|].
  rewrite append_String. cbn [String.length Utf8.runesFrom]. exact IH.
Qed.

Lemma encodeFrom_skip a t :
  Charmap.encodeFrom (String.length a) (a +:+ t) = Charmap.encodeFrom 0 t.
Proof.
  induction a as [|c a IH]; [reflexivity|].
  rewrite append_String. cbn [String.length Charmap.encodeFrom]. exact IH.
Qed.

Lemma runes_decode_String c s :
  Utf8.runes (DecodeWindows1250 (String c s)) =
  Charmap.Windows1250 (byte_val c) :: Utf8.runes (DecodeWindows1250 s).
Proof.
  rewrite decodeBytes_String. unfold Utf8.runes.
  destruct (Z_lt_le_dec (byte_val c) 0x80) as [Hlo|Hhi].
  - rewrite Windows1250_low by assumption. rewrite append_String.
    cbn [Utf8.runesFrom]. rewrite DecodeRune_ascii by assumption.
    unfold Charmap.Windows1250, Utf8.RuneSelf. break_if. reflexivity.
  - destruct (Windows1250_high c Hhi) as (c0 & rest & -> & H0 & Hr & _ & _ & Hd).
    rewrite append_String. cbn [Utf8.runesFrom].
    rewrite <- append_String, Hd. f_equal.
    replace (Z.to_nat (1 + len rest) - 1)%nat with (String.length rest) by (unfold len; lia).
    apply runesFrom_skip.
Qed.

Lemma encode_decode_String c s :
  Charmap.encodeString (DecodeWindows1250 (String c s)) =
  option_map (String c) (Charmap.encodeString (DecodeWindows1250 s)).
Proof.
  rewrite decodeBytes_String. unfold Charmap.encodeString.
  destruct (Z_lt_le_dec (byte_val c) 0x80) as [Hlo|Hhi].
  - rewrite Windows1250_low by assumption. rewrite append_String.
    cbn [Charmap.encodeFrom]. unfold Utf8.RuneSelf. break_if. reflexivity.
  - destruct (Windows1250_high c Hhi) as (c0 & rest & -> & H0 & Hr & _ & He & Hd).
    rewrite append_String. cbn [Charmap.encodeFrom]. unfold Utf8.RuneSelf. break_if.
    rewrite <- append_String, Hd, He.
    destruct (1 + len rest =? 1) eqn:E1; zbool; [lia|].
    rewrite chr_byte_val.
    replace (Z.to_nat (1 + len rest) - 1)%nat with (String.length rest) by (unfold len; lia).
    rewrite encodeFrom_skip. reflexivity.
Qed.

(** ** UTF-8: what [DecodeRuneInString] accepts *)

Ltac size1 :=
  left; split; [reflexivity|]; do 2 eexists; split; [reflexivity|];
  first [left; split; [reflexivity|lia] | right; split; [reflexivity|lia]].

Ltac split_ifs H :=
  repeat match type of H with
         | context [if ?b then _ else _] => destruct b eqn:?; zbool; try lia
         end.

Ltac bool_lia :=
  repeat match goal with
         | |- context [?a <=? ?b] => destruct (a <=? b) eqn:?; zbool; try lia
         | |- context [?a <? ?b] => destruct (a <? b) eqn:?; zbool; try lia
         | |- context [?a =? ?b] => destruct (a =? b) eqn:?; zbool; try lia
         end; try reflexivity.

Ltac three_bytes H :=
  match type of H with
  | context [byte_at (String ?c0 ?t0)] =>
    destruct t0 as [|?c1 [|?c2 ?t2]];
    try (vm_compute in H; injection H as <- <-; size1)
  end;
  rewrite !len_String, byte_at_1, byte_at_2 in H;
  match type of H with
  | context [len ?t] => pose proof (len_nonneg t)
  end;
  match type of H with
  | context [byte_at (String _ (String ?c1 (String ?c2 _)))] =>
    pose proof (byte_val_range c1); pose proof (byte_val_range c2)
  end;
  split_ifs H; injection H as <- <-; try size1;
  right; right; left; split; [reflexivity|]; do 4 eexists; split; [reflexivity|];
  split; [|split; [lia|reflexivity]];
  unfold accept3; bool_lia.

Ltac four_bytes H :=
  match type of H with
  | context [byte_at (String ?c0 ?t0)] =>
    destruct t0 as [|?c1 [|?c2 [|?c3 ?t3]]];
    try (vm_compute in H; injection H as <- <-; size1)
  end;
  rewrite !len_String, byte_at_1, byte_at_2 in H;
  match type of H with
  | context [len ?t] => pose proof (len_nonneg t)
  end;
  match type of H with
  | context [byte_at (String ?c0 (String ?c1 (String ?c2 (String ?c3 ?t)))) 3] =>
    change (byte_at (String c0 (String c1 (String c2 (String c3 t)))) 3) with (byte_val c3) in H;
    pose proof (byte_val_range c1); pose proof (byte_val_range c2);
    pose proof (byte_val_range c3)
  end;
  split_ifs H; injection H as <- <-; try size1;
  right; right; right; split; [reflexivity|]; do 5 eexists; split; [reflexivity|];
  split; [|split; [lia|split; [lia|reflexivity]]];
  unfold accept4; bool_lia.

Lemma DecodeRune_cases s r size :
  Utf8.DecodeRuneInString s = (r, size) ->
  (size = 0 /\ s = "") \/
  (size = 1 /\ exists c t, s = String c t /\
     (r = byte_val c /\ byte_val c < 0x80 \/ r = Utf8.RuneError /\ 0x80 <= byte_val c)) \/
  (size = 2 /\ exists c0 c1 t, s = String c0 (String c1 t) /\
     0xC2 <= byte_val c0 < 0xE0 /\ 0x80 <= byte_val c1 <= 0xBF /\
     r = rune2 (byte_val c0) (byte_val c1)) \/
  (size = 3 /\ exists c0 c1 c2 t, s = String c0 (String c1 (String c2 t)) /\
     accept3 (byte_val c0) (byte_val c1) = true /\ 0x80 <= byte_val c2 <= 0xBF /\
     r = rune3 (byte_val c0) (byte_val c1) (byte_val c2)) \/
  (size = 4 /\ exists c0 c1 c2 c3 t, s = String c0 (String c1 (String c2 (String c3 t))) /\
     accept4 (byte_val c0) (byte_val c1) = true /\ 0x80 <= byte_val c2 <= 0xBF /\
     0x80 <= byte_val c3 <= 0xBF /\
     r = rune4 (byte_val c0) (byte_val c1) (byte_val c2) (byte_val c3)).
Proof.
  intros H.
  destruct s as [|c0 t0]; [left; vm_compute in H; injection H as <- <-; auto|right].
  pose proof (byte_val_range c0) as R0.
  unfold Utf8.DecodeRuneInString in H. rewrite byte_at_0 in H.
  destruct (first_cases _ R0) as
    [[B0 E]|[[B0 E]|[[B0 E]|[[B0 E]|[[B0 E]|[[B0 E]|[[B0 E]|[[B0 E]|[B0 E]]]]]]]]];
    rewrite E in H;
    match type of H with context [Z.land ?k 7] =>
      let sz := eval vm_compute in (Z.land k 7) in change (Z.land k 7) with sz in H;
      let ar := eval vm_compute in (Utf8.acceptRanges (Z.shiftr k 4)) in
      change (Utf8.acceptRanges (Z.shiftr k 4)) with ar in H
    end; cbn [fst snd] in H;
    unfold Utf8.as_, Utf8.xx, Utf8.s1, Utf8.s2, Utf8.s3, Utf8.s4, Utf8.s5, Utf8.s6,
      Utf8.s7, Utf8.locb, Utf8.hicb in H.
  - (* ASCII *)
    rewrite len_String in H. pose proof (len_nonneg t0).
    split_ifs H. injection H as <- <-. size1.
  - rewrite len_String in H. pose proof (len_nonneg t0).
    split_ifs H. injection H as <- <-. size1.
  - (* two bytes *)
    destruct t0 as [|c1 t1];
      [vm_compute in H; injection H as <- <-; size1|].
    rewrite !len_String, byte_at_1 in H. pose proof (len_nonneg t1). pose proof (byte_val_range c1).
    split_ifs H; injection H as <- <-; try size1.
    right. left. split; [reflexivity|]. do 3 eexists. split; [reflexivity|].
    repeat split; lia.
  - three_bytes H.
  - destruct B0 as [B0|B0]; three_bytes H.
  - three_bytes H.
  - four_bytes H.
  - four_bytes H.
  - four_bytes H.
Qed.

(** ** Exhaustive checks over byte ranges *)

Lemma forallb_range (P : Z -> bool) lo n b :
  forallb P (map Z.of_nat (seq lo n)) = true ->
  Z.of_nat lo <= b < Z.of_nat (lo + n) -> P b = true.
Proof.
  intros H Hb. rewrite forallb_forall in H. apply H.
  apply in_map_iff. exists (Z.to_nat b). split; [lia|]. apply in_seq. lia.
Qed.

(** Encoding the rune of a valid two-byte sequence gives the sequence. *)
Lemma AppendRune_rune2 c0 c1 :
  0xC2 <= byte_val c0 < 0xE0 -> 0x80 <= byte_val c1 <= 0xBF ->
  Utf8.AppendRune "" (rune2 (byte_val c0) (byte_val c1)) = String c0 (String c1 "") /\
  0x80 <= rune2 (byte_val c0) (byte_val c1).
Proof.
  intros H0 H1.
  assert (C : forallb (fun b0 => forallb (fun b1 =>
     String.eqb (Utf8.AppendRune "" (rune2 b0 b1)) (String (chr b0) (String (chr b1) ""))
     && (0x80 <=? rune2 b0 b1)) (map Z.of_nat (seq 0x80 0x40))) (map Z.of_nat (seq 0xC2 30)) = true)
    by (vm_compute; reflexivity).
  pose proof (forallb_range _ _ _ (byte_val c0) C ltac:(lia)) as C0. cbv beta in C0.
  pose proof (forallb_range _ _ _ (byte_val c1) C0 ltac:(lia)) as C1. cbv beta in C1.
  apply andb_true_iff in C1. destruct C1 as [C1 C2].
  apply String.eqb_eq in C1. rewrite !chr_byte_val in C1. apply Z.leb_le in C2. auto.
Qed.

Lemma accept3_range b0 b1 :
  accept3 b0 b1 = true -> 0xE0 <= b0 < 0xF0 /\ 0x80 <= b1 <= 0xBF.
Proof. unfold accept3. intros H. zbool; lia. Qed.

Lemma accept4_range b0 b1 :
  accept4 b0 b1 = true -> 0xF0 <= b0 < 0xF5 /\ 0x80 <= b1 <= 0xBF.
Proof. unfold accept4. intros H. zbool; lia. Qed.

(** Encoding the rune of a valid three-byte sequence gives the sequence. *)
Lemma AppendRune_rune3 c0 c1 c2 :
  accept3 (byte_val c0) (byte_val c1) = true -> 0x80 <= byte_val c2 <= 0xBF ->
  Utf8.AppendRune "" (rune3 (byte_val c0) (byte_val c1) (byte_val c2)) =
    String c0 (String c1 (String c2 "")) /\
  0x800 <= rune3 (byte_val c0) (byte_val c1) (byte_val c2).
Proof.
  intros H0 H2. pose proof (accept3_range _ _ H0) as [R0 R1].
  assert (C : forallb (fun b0 => forallb (fun b1 => negb (accept3 b0 b1) || forallb (fun b2 =>
     String.eqb (Utf8.AppendRune "" (rune3 b0 b1 b2))
                (String (chr b0) (String (chr b1) (String (chr b2) "")))
     && (0x800 <=? rune3 b0 b1 b2)) (map Z.of_nat (seq 0x80 0x40)))
       (map Z.of_nat (seq 0x80 0x40))) (map Z.of_nat (seq 0xE0 16)) = true)
    by (vm_compute; reflexivity).
  pose proof (forallb_range _ _ _ (byte_val c0) C ltac:(lia)) as C0. cbv beta in C0.
  pose proof (forallb_range _ _ _ (byte_val c1) C0 ltac:(lia)) as C1. cbv beta in C1.
  rewrite H0 in C1. cbn [negb orb] in C1.
  pose proof (forallb_range _ _ _ (byte_val c2) C1 ltac:(lia)) as C2. cbv beta in C2.
  apply andb_true_iff in C2. destruct C2 as [C2 C3].
  apply String.eqb_eq in C2. rewrite !chr_byte_val in C2. apply Z.leb_le in C3. auto.
Qed.

Lemma lor_ge_pow2 x y k :
  0 <= x -> 0 <= y -> 0 <= k -> 2 ^ k <= x -> 2 ^ k <= Z.lor x y.
Proof.
  intros Hx Hy Hk H.
  assert (0 < x) by (pose proof (Z.pow_pos_nonneg 2 k); lia).
  assert (0 <= Z.lor x y) by (apply Z.lor_nonneg; auto).
  assert (0 < Z.lor x y).
  { destruct (Z.eq_dec (Z.lor x y) 0) as [E|E]; [|lia].
    apply Z.lor_eq_0_iff in E. lia. }
  apply Z.log2_le_pow2; [assumption|].
  rewrite Z.log2_lor by assumption.
  apply Z.log2_le_pow2 in H; [|assumption]. lia.
Qed.

(** The rune of a valid four-byte sequence lies above the basic plane. *)
Lemma rune4_large c0 c1 b2 b3 :
  accept4 (byte_val c0) (byte_val c1) = true ->
  0x10000 <= rune4 (byte_val c0) (byte_val c1) b2 b3.
Proof.
  intros H0. pose proof (accept4_range _ _ H0) as [R0 R1].
  assert (C : forallb (fun b0 => forallb (fun b1 => negb (accept4 b0 b1) ||
     (0x10000 <=? Z.lor (Z.shiftl (Z.land b0 Utf8.mask4) 18)
                        (Z.shiftl (Z.land b1 Utf8.maskx) 12)))
       (map Z.of_nat (seq 0x80 0x40))) (map Z.of_nat (seq 0xF0 5)) = true)
    by (vm_compute; reflexivity).
  pose proof (forallb_range _ _ _ (byte_val c0) C ltac:(lia)) as C0. cbv beta in C0.
  pose proof (forallb_range _ _ _ (byte_val c1) C0 ltac:(lia)) as C1. cbv beta in C1.
  rewrite H0 in C1. cbn [negb orb] in C1. apply Z.leb_le in C1.
  unfold rune4.
  assert (Hn : forall a m, 0 <= Z.land a m \/ True) by auto.
  assert (N1 : 0 <= Z.lor (Z.shiftl (Z.land (byte_val c0) Utf8.mask4) 18)
                          (Z.shiftl (Z.land (byte_val c1) Utf8.maskx) 12)) by lia.
  assert (N2 : 0 <= Z.shiftl (Z.land b2 Utf8.maskx) 6).
  { apply Z.shiftl_nonneg, Z.land_nonneg. right. vm_compute. congruence. }
  assert (N3 : 0 <= Z.land b3 Utf8.maskx).
  { apply Z.land_nonneg. right. vm_compute. congruence. }
  change 0x10000 with (2 ^ 16) in *.
  apply lor_ge_pow2; [apply Z.lor_nonneg; auto|assumption|lia|].
  apply lor_ge_pow2; [assumption..|lia|assumption].
Qed.

(** ** The encoder's table *)

Lemma search_sound fuel r lo hi b :
  0 <= lo ->
  Charmap.search fuel r lo hi = Some b ->
  exists mid, lo <= mid < hi /\
    Z.land (nth (Z.to_nat mid) Charmap.windows1250Encode 0) (Z.shiftl 1 24 - 1) = r /\
    b = Z.land (Z.shiftr (nth (Z.to_nat mid) Charmap.windows1250Encode 0) 24) 255.
Proof.
  revert lo hi. induction fuel as [|fuel IH]; intros lo hi Hlo H; [discriminate|].
  cbn [Charmap.search] in H.
  destruct (hi <=? lo) eqn:E; [discriminate|]. zbool.
  assert (Hm : lo <= Z.quot (lo + hi) 2 < hi).
  { rewrite Z.quot_div_nonneg by lia. split.
    - apply Z.div_le_lower_bound; lia.
    - apply Z.div_lt_upper_bound; lia. }
  set (mid := Z.quot (lo + hi) 2) in *.
  set (got := nth (Z.to_nat mid) Charmap.windows1250Encode 0) in *.
  destruct (Z.land got (Z.shiftl 1 24 - 1) <? r) eqn:E1; zbool.
  - apply IH in H; [|lia]. destruct H as (m & Hm' & Hr). exists m. split; [lia|exact Hr].
  - destruct (r <? Z.land got (Z.shiftl 1 24 - 1)) eqn:E2; zbool.
    + apply IH in H; [|lia]. destruct H as (m & Hm' & Hr). exists m. split; [lia|exact Hr].
    + injection H as <-. exists mid. split; [lia|]. fold got. split; [lia|reflexivity].
Qed.

(** The encoder only returns the byte whose code point the rune is. *)
Lemma encodeRune_sound r b :
  Charmap.encodeRune r = Some b ->
  0x80 <= b < 0x100 /\ Charmap.Windows1250 b = r.
Proof.
  unfold Charmap.encodeRune, Charmap.low. intros H.
  apply search_sound in H; [|lia]. destruct H as (mid & Hm & <- & ->).
  assert (C : forallb (fun m =>
      let got := nth (Z.to_nat m) Charmap.windows1250Encode 0 in
      let b := Z.land (Z.shiftr got 24) 255 in
      (0x80 <=? b) && (b <? 0x100) &&
      (Charmap.Windows1250 b =? Z.land got (Z.shiftl 1 24 - 1)))
    (map Z.of_nat (seq 0x80 0x80)) = true) by (vm_compute; reflexivity).
  pose proof (forallb_range _ _ _ mid C ltac:(lia)) as C0. cbv beta zeta in C0.
  zbool. split; [lia|assumption].
Qed.

(** Every byte of the upper half is found by the encoder. *)
Lemma encodeRune_complete b :
  0x80 <= b < 0x100 -> Charmap.encodeRune (Charmap.Windows1250 b) = Some b.
Proof.
  intros H.
  assert (C : forallb (fun b =>
      match Charmap.encodeRune (Charmap.Windows1250 b) with
      | Some x => x =? b
      | None => false
      end) (map Z.of_nat (seq 0x80 0x80)) = true) by (vm_compute; reflexivity).
  pose proof (forallb_range _ _ _ b C ltac:(lia)) as C0. cbv beta in C0.
  destruct (Charmap.encodeRune (Charmap.Windows1250 b)); [|discriminate].
  zbool. congruence.
Qed.

(** ** [DecodeWindows1250] and [EncodeWindows1250] *)

Lemma bytes_String c s : bytes (String c s) = byte_val c :: bytes s.
Proof. reflexivity. Qed.

Lemma length_bytes s : Z.of_nat (length (bytes s)) = len s.
Proof.
  unfold bytes, len. rewrite length_map. f_equal.
  induction s as [|c s IH]; [reflexivity|].
  cbn [list_ascii_of_string length String.length]. f_equal. exact IH.
Qed.

Lemma len_DecodeWindows1250 s : len s <= len (DecodeWindows1250 s) <= 3 * len s.
Proof.
  induction s as [|c s IH]; [vm_compute; split; congruence|].
  rewrite decodeBytes_String, len_app, len_String.
  destruct (Z_lt_le_dec (byte_val c) 0x80) as [Hlo|Hhi].
  - rewrite Windows1250_low by assumption. change (len (String c "")) with 1. lia.
  - destruct (Windows1250_high c Hhi) as (c0 & rest & -> & _ & Hr & _).
    rewrite len_String. lia.
Qed.

Lemma runes_DecodeWindows1250 s :
  Utf8.runes (DecodeWindows1250 s) = map Charmap.Windows1250 (bytes s).
Proof.
  induction s as [|c s IH]; [reflexivity|].
  rewrite runes_decode_String, IH. reflexivity.
Qed.

(** X17.  Decoding yields one rune per byte, the code point of the byte. *)
Theorem DecodeWindows1250_runes (s : string) :
  Utf8.runes (DecodeWindows1250 s) = map Charmap.Windows1250 (bytes s) /\
  Utf8.RuneCountInString (DecodeWindows1250 s) = len s /\
  len s <= len (DecodeWindows1250 s) <= 3 * len s.
Proof.
  split; [apply runes_DecodeWindows1250|]. split; [|apply len_DecodeWindows1250].
  unfold Utf8.RuneCountInString. rewrite runes_DecodeWindows1250, length_map.
  apply length_bytes.
Qed.

(** X19.  Encoding what was decoded gives the bytes back. *)
Theorem EncodeWindows1250_DecodeWindows1250 (s : string) :
  EncodeWindows1250 (DecodeWindows1250 s) = s.
Proof.
  unfold EncodeWindows1250.
  assert (H : Charmap.encodeString (DecodeWindows1250 s) = Some s).
  { induction s as [|c s IH]; [reflexivity|].
    rewrite encode_decode_String, IH. reflexivity. }
  rewrite H. reflexivity.
Qed.

Lemma len_0_empty s : len s = 0 -> s = "".
Proof. destruct s; [reflexivity|]. rewrite len_String. pose proof (len_nonneg s). lia. Qed.

Lemma DecodeWindows1250_ascii_id s :
  (forall b, In b (bytes s) -> b < 0x80) -> DecodeWindows1250 s = s.
Proof.
  intros H. induction s as [|c s IH]; [reflexivity|].
  rewrite decodeBytes_String, Windows1250_low, IH.
  - reflexivity.
  - intros b Hb. apply H. rewrite bytes_String. right. exact Hb.
  - apply H. rewrite bytes_String. left. reflexivity.
Qed.

(** X18.  A string is left as it is exactly when all its bytes are ASCII. *)
Theorem DecodeWindows1250_ascii (s : string) :
  DecodeWindows1250 s = s <-> forall b, In b (bytes s) -> b < 0x80.
Proof.
  split; [|apply DecodeWindows1250_ascii_id].
  intros H. apply (f_equal len) in H.
  induction s as [|c s IH]; [intros b []|].
  rewrite decodeBytes_String, len_app, len_String in H.
  pose proof (len_DecodeWindows1250 s) as Hl.
  destruct (Z_lt_le_dec (byte_val c) 0x80) as [Hlo|Hhi].
  - rewrite Windows1250_low in H by assumption. change (len (String c "")) with 1 in H.
    intros b [<-|Hb]; [assumption|]. apply IH; [lia|assumption].
  - destruct (Windows1250_high c Hhi) as (c0 & rest & E & _ & Hr & _).
    rewrite E, len_String in H. lia.
Qed.

Lemma append_inj_length a b x y :
  a +:+ x = b +:+ y -> String.length a = String.length b -> a = b /\ x = y.
Proof.
  revert b. induction a as [|c a IH]; intros [|d b] H Hl; try discriminate Hl.
  - auto.
  - rewrite !append_String in H. injection H as -> H. cbn [String.length] in Hl.
    destruct (IH b H ltac:(lia)) as [-> ->]. auto.
Qed.

(** A rune of two bytes or more is encoded by the bytes it was decoded
    from; it is not ASCII, and a rune of the code page has at most three
    bytes. *)
Lemma DecodeRune_multi s r size :
  Utf8.DecodeRuneInString s = (r, size) -> 2 <= size ->
  0x80 <= r /\
  (0x10000 <= r \/
   exists rest, s = Utf8.AppendRune "" r +:+ rest /\ len (Utf8.AppendRune "" r) = size).
Proof.
  intros H Hs. apply DecodeRune_cases in H.
  destruct H as [[-> _]|[[-> _]|[[-> H]|[[-> H]|[-> H]]]]]; try lia.
  - destruct H as (c0 & c1 & t & -> & H0 & H1 & ->).
    destruct (AppendRune_rune2 c0 c1 H0 H1) as [E R]. split; [exact R|].
    right. exists t. rewrite E. split; reflexivity.
  - destruct H as (c0 & c1 & c2 & t & -> & H0 & H2 & ->).
    destruct (AppendRune_rune3 c0 c1 c2 H0 H2) as [E R]. split; [lia|].
    right. exists t. rewrite E. split; reflexivity.
  - destruct H as (c0 & c1 & c2 & c3 & t & -> & H0 & H2 & H3 & ->).
    pose proof (rune4_large c0 c1 (byte_val c2) (byte_val c3) H0). split; [lia|]. left. lia.
Qed.

Lemma Windows1250_bound b : 0 <= b < 0x100 -> 0 <= Charmap.Windows1250 b <= 0x2122.
Proof.
  intros H.
  assert (C : forallb (fun b => (0 <=? Charmap.Windows1250 b) &&
                                (Charmap.Windows1250 b <=? 0x2122))
                      (map Z.of_nat (seq 0 256)) = true) by (vm_compute; reflexivity).
  pose proof (forallb_range _ _ _ b C ltac:(lia)) as C0. cbv beta in C0. zbool. lia.
Qed.

Lemma option_map_Some {A B} (f : A -> B) o y :
  option_map f o = Some y -> exists x, o = Some x /\ y = f x.
Proof. destruct o; [intros [= <-]; eauto|discriminate]. Qed.

Lemma encodeFrom_decode s :
  forall skip out, (skip <= String.length s)%nat ->
    Charmap.encodeFrom skip s = Some out ->
    exists pre, s = pre +:+ DecodeWindows1250 out /\ String.length pre = skip.
Proof.
  induction s as [|c rest IH]; intros skip out Hk H.
  - cbn in H. injection H as <-. exists "". cbn [String.length] in Hk. split; [reflexivity|].
    cbn [String.length]. lia.
  - cbn [String.length] in Hk. destruct skip as [|k].
    + cbn [Charmap.encodeFrom] in H. unfold Utf8.RuneSelf in H.
      destruct (byte_val c <? 128) eqn:Ec; zbool.
      * apply option_map_Some in H. destruct H as (out' & H & ->).
        apply IH in H; [|lia]. destruct H as (pre & -> & Hp).
        destruct pre; [|discriminate Hp].
        exists "". split; [|reflexivity].
        rewrite decodeBytes_String, Windows1250_low by assumption. reflexivity.
      * destruct (Utf8.DecodeRuneInString (String c rest)) as [r size] eqn:Hd.
        pose proof (DecodeRune_size (String c rest)) as Hsz. rewrite Hd in Hsz. cbn [snd] in Hsz.
        rewrite len_String in Hsz. pose proof (len_nonneg rest).
        specialize (Hsz ltac:(lia)).
        destruct (size =? 1) eqn:E1; [discriminate|]. zbool.
        destruct (Charmap.encodeRune r) as [b|] eqn:Er; [|discriminate].
        apply option_map_Some in H. destruct H as (out' & H & ->).
        apply IH in H; [|unfold len in *; lia]. destruct H as (pre & -> & Hp).
        apply encodeRune_sound in Er. destruct Er as [Hb Hw].
        destruct (DecodeRune_multi _ _ _ Hd ltac:(lia)) as [_ [Hbig|(rest' & Hs & Hl)]].
        { pose proof (Windows1250_bound b ltac:(lia)). lia. }
        exists "". split; [|reflexivity].
        rewrite decodeBytes_String, byte_val_chr, Hw by lia.
        change ("" +:+ ?x) with x.
        rewrite <- append_String in Hs.
        apply append_inj_length in Hs.
        -- destruct Hs as [<- _]. rewrite append_String. reflexivity.
        -- unfold len in Hl. cbn [String.length]. lia.
    + cbn [Charmap.encodeFrom] in H. apply IH in H; [|lia].
      destruct H as (pre & -> & Hp). exists (String c pre). split; [reflexivity|].
      cbn [String.length]. lia.
Qed.

Lemma encodeFrom_None s :
  forall skip, Charmap.encodeFrom skip s = None ->
    exists r, In r (Utf8.runesFrom skip s) /\
              forall b, 0 <= b < 256 -> Charmap.Windows1250 b <> r.
Proof.
  induction s as [|c rest IH]; intros skip H; [discriminate|].
  destruct skip as [|k]; [|cbn [Charmap.encodeFrom Utf8.runesFrom] in *; auto].
  cbn [Charmap.encodeFrom Utf8.runesFrom] in *. unfold Utf8.RuneSelf in H.
  destruct (byte_val c <? 128) eqn:Ec; zbool.
  - rewrite DecodeRune_ascii by assumption.
    destruct (Charmap.encodeFrom 0 rest) eqn:E; [discriminate|].
    destruct (IH _ E) as (r & Hr & Hn). exists r. split; [right; exact Hr|exact Hn].
  - destruct (Utf8.DecodeRuneInString (String c rest)) as [r size] eqn:Hd.
    pose proof (DecodeRune_size (String c rest)) as Hsz. rewrite Hd in Hsz. cbn [snd] in Hsz.
    rewrite len_String in Hsz. pose proof (len_nonneg rest).
    specialize (Hsz ltac:(lia)).
    destruct (size =? 1) eqn:E1; zbool.
    + exists r. split; [left; reflexivity|]. intros b Hb Hw.
      apply DecodeRune_cases in Hd.
      destruct Hd as [[-> _]|[[_ Hd]|[[-> _]|[[-> _]|[-> _]]]]]; try lia.
      destruct Hd as (c' & t' & [= <- <-] & [[_ Hlo]|[-> _]]); [lia|].
      pose proof (Windows1250_bound b Hb). unfold Utf8.RuneError in Hw. lia.
    + destruct (Charmap.encodeRune r) as [b|] eqn:Er.
      * destruct (Charmap.encodeFrom (Z.to_nat size - 1) rest) eqn:E; [discriminate|].
        destruct (IH _ E) as (r' & Hr & Hn). exists r'. split; [right; exact Hr|exact Hn].
      * exists r. split; [left; reflexivity|]. intros b Hb Hw.
        destruct (DecodeRune_multi _ _ _ Hd ltac:(lia)) as [Hr _].
        destruct (Z_lt_le_dec b 0x80) as [Hlo|Hhi].
        -- unfold Charmap.Windows1250, Utf8.RuneSelf in Hw.
           destruct (b <? 128) eqn:Eb; zbool; lia.
        -- rewrite <- Hw, encodeRune_complete in Er by lia. discriminate.
Qed.

(** X20. [EncodeWindows1250] gives one byte per rune of its argument, the
    byte whose code point the rune is, and decoding the result gives the
    argument back; unless a rune of the argument is no code point of the
    page (a byte that is not UTF-8 counts as U+FFFD): then the result is
    the empty string. *)
Theorem EncodeWindows1250_spec (s : string) :
  (DecodeWindows1250 (EncodeWindows1250 s) = s /\
   map Charmap.Windows1250 (bytes (EncodeWindows1250 s)) = Utf8.runes s) \/
  (EncodeWindows1250 s = "" /\
   exists r, In r (Utf8.runes s) /\ forall b, 0 <= b < 256 -> Charmap.Windows1250 b <> r).
Proof.
  unfold EncodeWindows1250. destruct (Charmap.encodeString s) as [out|] eqn:E.
  - left. unfold Charmap.encodeString in E. apply encodeFrom_decode in E; [|lia].
    destruct E as (pre & -> & Hp). destruct pre; [|discriminate].
    change ("" +:+ ?x) with x. split; [reflexivity|].
    symmetry. apply runes_DecodeWindows1250.
  - right. split; [reflexivity|]. apply encodeFrom_None, E.
Qed.

(** ** Lower case *)

Lemma byte_val_chr_land x : byte_val (chr x) = Z.land x 255.
Proof.
  unfold byte_val, chr.
  assert (H : 0 <= Z.land x 255 < 256).
  { change 255 with (Z.ones 8). rewrite Z.land_ones by lia. apply Z.mod_pos_bound. lia. }
  rewrite N_ascii_embedding.
  - apply Z2N.id. lia.
  - apply N2Z.inj_lt. rewrite Z2N.id by lia. change (Z.of_N 256) with 256. lia.
Qed.

(** A byte with its top bit set by the encoder is no ASCII byte. *)
Lemma byte_val_chr_lor t y :
  0x80 <= t < 0x100 -> 0 <= y -> 0x80 <= byte_val (chr (Z.lor t y)).
Proof.
  intros Ht Hy. rewrite byte_val_chr_land, Z.land_lor_distr_l.
  assert (E : Z.land t 255 = t).
  { change 255 with (Z.ones 8). rewrite Z.land_ones by lia. apply Z.mod_small. lia. }
  rewrite E. change 0x80 with (2 ^ 7).
  apply lor_ge_pow2; [lia| |lia|lia].
  apply Z.land_nonneg. right. lia.
Qed.

Lemma AppendRune_app p r : Utf8.AppendRune p r = p +:+ Utf8.AppendRune "" r.
Proof.
  unfold Utf8.AppendRune.
  repeat match goal with |- context [if ?b then _ else _] => destruct b end; reflexivity.
Qed.

Lemma bytes_app s t : bytes (s +:+ t) = (bytes s ++ bytes t)%list.
Proof.
  induction s as [|c s IH]; [reflexivity|].
  rewrite append_String, !bytes_String, IH. reflexivity.
Qed.

Lemma AppendRune_no_upper r x :
  r < 0x41 \/ 0x5A < r ->
  In x (bytes (Utf8.AppendRune "" r)) -> x < 0x41 \/ 0x5A < x.
Proof.
  intros Hr. unfold Utf8.AppendRune, Utf8.rune1Max, Utf8.rune2Max, Utf8.rune3Max,
    Utf8.t2, Utf8.t3, Utf8.t4, Utf8.tx, Utf8.maskx, Utf8.RuneError, Utf8.MaxRune,
    Utf8.surrogateMin, Utf8.surrogateMax.
  repeat match goal with |- context [if ?b then _ else _] => destruct b eqn:? end;
    zbool;
    change ("" +:+ ?s) with s; cbn [bytes list_ascii_of_string map In];
    intros Hin; repeat (destruct Hin as [<-|Hin]); try contradiction;
    try (rewrite byte_val_chr by lia; exact Hr);
    match goal with |- context [byte_val (chr (Z.lor ?t ?y))] =>
      assert (0x80 <= byte_val (chr (Z.lor t y)));
      [apply byte_val_chr_lor;
       [lia|first [apply Z.land_nonneg; right; lia | apply Z.shiftr_nonneg; lia]]
      |lia]
    end.
Qed.

Lemma toLower_no_upper r tab :
  forallb (fun '(lo, hi, d) =>
             match d with
             | Unicode.UpperLower => 0x5A <? lo
             | Unicode.Delta d => 0x5A <? lo + d
             end) tab = true ->
  0x5A < r -> 0x5A < Unicode.toLower r tab.
Proof.
  intros Ht Hr. induction tab as [|[[lo hi] d] rest IH]; [exact Hr|].
  cbn [forallb] in Ht. apply andb_true_iff in Ht. destruct Ht as [H1 H2].
  cbn [Unicode.toLower]. destruct ((lo <=? r) && (r <=? hi)) eqn:E; [|apply IH, H2].
  zbool. destruct d as [d|]; zbool; [lia|].
  assert (0 <= Z.lor (Z.land (r - lo) (Z.lnot 1)) 1).
  { apply Z.lor_nonneg. split; [|lia]. apply Z.land_nonneg. left. lia. }
  lia.
Qed.

Lemma ToLower_no_upper r : Unicode.ToLower r < 0x41 \/ 0x5A < Unicode.ToLower r.
Proof.
  unfold Unicode.ToLower, Unicode.MaxASCII.
  destruct (r <=? 127) eqn:E; zbool.
  - destruct ((65 <=? r) && (r <=? 90)) eqn:E2; zbool; lia.
  - right. apply toLower_no_upper; [vm_compute; reflexivity|lia].
Qed.

Lemma Map_no_upper mapping s x :
  (forall r, mapping r < 0x41 \/ 0x5A < mapping r) ->
  In x (bytes (Strings.Map mapping s)) -> x < 0x41 \/ 0x5A < x.
Proof.
  intros Hm. unfold Strings.Map.
  assert (G : forall l acc, (forall y, In y (bytes acc) -> y < 0x41 \/ 0x5A < y) ->
    In x (bytes (fold_left (fun b c => let r := mapping c in
                                       if 0 <=? r then Utf8.AppendRune b r else b) l acc)) ->
    x < 0x41 \/ 0x5A < x).
  { induction l as [|c l IH]; intros acc Hacc; cbn [fold_left]; [apply Hacc|].
    apply IH. cbv zeta. destruct (0 <=? mapping c); [|exact Hacc].
    intros y. rewrite AppendRune_app, bytes_app, in_app_iff.
    intros [Hy|Hy]; [apply Hacc, Hy|]. eapply AppendRune_no_upper; [apply Hm|exact Hy]. }
  apply G. intros y [].
Qed.

(** X11.  The house number of a feature has no ASCII upper-case letter. *)
Theorem readRecord_housenumber_lower_case lk row f :
  readRecord lk row = Ok (Emit f) ->
  exists h, Properties f !! tagHousenumber = Some (AString h) /\
    forall x, In x (bytes h) -> x < 0x41 \/ 0x5A < x.
Proof.
  intros H. apply readRecord_Emit in H.
  destruct H as (labela & named & ptMid & dateOd & hsMid & HV & H4 & HN & H8 & H10 & Hlen & H1 & ->).
  apply namingOf_inv in HN. destruct HN as (ulMid & H5 & HN).
  exists (Strings.ToLower (DecodeWindows1250 labela)). split.
  - lookup_tags.
    destruct (ulNameMap lk !! ulMid) as [ulName|].
    + rewrite HN. unfold nameTags.
      destruct (ulNameDjMap lk !! ulMid) as [dj|]; [destruct (negb (dj =? ulName)%string)|];
        try (destruct (ApplyTagLanguagePostfix_cases tagStreet (lonOf row)) as [[_ ->]|[_ ->]]);
        lookup_tags; reflexivity.
    + destruct HN as (naMid & _ & ->). unfold nameTags.
      destruct (naNameDjMap lk !! naMid) as [dj|];
        [destruct (negb (dj =? mapIndex (naNameMap lk) naMid)%string)|];
        try (destruct (ApplyTagLanguagePostfix_cases tagPlace (lonOf row)) as [[_ ->]|[_ ->]]);
        lookup_tags; reflexivity.
  - intros x. unfold Strings.ToLower. apply Map_no_upper. apply ToLower_no_upper.
Qed.

Lemma readRecord_housenumber_lower_case_witness :
  exists h, Properties (featureOf sampleLookups rowEast) !! tagHousenumber = Some (AString h) /\
    forall x, In x (bytes h) -> x < 0x41 \/ 0x5A < x.
Proof.
  apply (readRecord_housenumber_lower_case sampleLookups rowEast).
  vm_compute. reflexivity.
Defined.

(** ** The lookup loader: columns that are missing, values that are empty *)

Lemma findColumns_absent_value fields kc vc i ki vi :
  ~ In vc fields -> snd (findColumns fields kc vc i ki vi) = vi.
Proof.
  revert i ki vi. induction fields as [|v rest IH]; intros i ki vi Hn; [reflexivity|].
  cbn [findColumns].
  assert (Hv : String.eqb v vc = false).
  { apply String.eqb_neq. intros ->. apply Hn. left. reflexivity. }
  assert (Hr : ~ In vc rest) by (intros H; apply Hn; right; exact H).
  rewrite Hv. destruct (String.eqb v kc).
  - destruct (negb (vi =? -1) && negb (i =? -1)); [reflexivity|]. apply IH, Hr.
  - destruct (negb (vi =? -1) && negb (ki =? -1)); [reflexivity|]. apply IH, Hr.
Qed.

Lemma findColumns_absent_key fields kc vc i ki vi :
  ~ In kc fields -> fst (findColumns fields kc vc i ki vi) = ki.
Proof.
  revert i ki vi. induction fields as [|v rest IH]; intros i ki vi Hn; [reflexivity|].
  cbn [findColumns].
  assert (Hv : String.eqb v kc = false).
  { apply String.eqb_neq. intros ->. apply Hn. left. reflexivity. }
  assert (Hr : ~ In kc rest) by (intros H; apply Hn; right; exact H).
  rewrite Hv. destruct (String.eqb v vc).
  - destruct (negb (i =? -1) && negb (ki =? -1)); [reflexivity|]. apply IH, Hr.
  - destruct (negb (vi =? -1) && negb (ki =? -1)); [reflexivity|]. apply IH, Hr.
Qed.

Lemma Attribute_negative row n : n < 0 -> Shp.Attribute row n = Panic "index out of range".
Proof. intros H. unfold Shp.Attribute. destruct (0 <=? n) eqn:E; [apply Z.leb_le in E; lia|reflexivity]. Qed.

(** X1.  A table without the value column makes the loader panic at its
    first record, and gives the empty map when it has no record; a table
    without the key column gives the empty map if the loader returns at
    all. *)
Theorem readShapefileToMap_missing_column fs name kc vc rdr :
  Shp.Open fs name = Some rdr ->
  (~ In vc (Shp.Fields rdr) ->
   readShapefileToMap fs name kc vc =
     match Shp.rows rdr with
     | [] => Ok ∅
     | _ :: _ => Panic "index out of range"
     end) /\
  (~ In kc (Shp.Fields rdr) ->
   forall table, readShapefileToMap fs name kc vc = Ok table -> table = ∅).
Proof.
  intros Ho. unfold readShapefileToMap. rewrite Ho. split.
  - intros Hn.
    pose proof (findColumns_absent_value (Shp.Fields rdr) kc vc 0 (-1) (-1) Hn) as Hv.
    destruct (findColumns _ _ _ _ _ _) as [ki vi]. cbn [snd] in Hv. subst vi.
    destruct (Shp.rows rdr) as [|row rows]; [reflexivity|].
    cbn [readRows]. rewrite Attribute_negative by lia. reflexivity.
  - intros Hn table H.
    pose proof (findColumns_absent_key (Shp.Fields rdr) kc vc 0 (-1) (-1) Hn) as Hk.
    destruct (findColumns _ _ _ _ _ _) as [ki vi]. cbn [fst] in Hk. subst ki.
    apply map_eq. intros k. rewrite lookup_empty.
    destruct (table !! k) as [v|] eqn:E; [|reflexivity]. exfalso.
    destruct (readRows_lookup _ _ _ _ _ _ _ H E) as [He|(row & _ & Hw)].
    + rewrite lookup_empty in He. discriminate.
    + destruct Hw as (value & key & _ & _ & _ & Hkey & _).
      rewrite Attribute_negative in Hkey by lia. discriminate.
Qed.

Lemma readShapefileToMap_missing_column_witness :
  (~ In "UL_XX" (Shp.Fields streetTable) ->
   readShapefileToMap streetFile "UL.shp" "UL_MID" "UL_XX" =
     match Shp.rows streetTable with
     | [] => Ok ∅
     | _ :: _ => Panic "index out of range"
     end) /\
  (~ In "UL_MID" (Shp.Fields streetTable) ->
   forall table,
     readShapefileToMap streetFile "UL.shp" "UL_MID" "UL_XX" = Ok table -> table = ∅).
Proof.
  apply (readShapefileToMap_missing_column streetFile "UL.shp" "UL_MID" "UL_XX" streetTable).
  vm_compute. reflexivity.
Defined.

(** ** [strings.Trim] with the cutset NUL *)

Lemma string_repeat_snoc c n :
  string_repeat c (S n) = string_repeat c n +:+ String c "".
Proof.
  induction n as [|n IH]; [reflexivity|].
  change (string_repeat c (S (S n))) with (String c (string_repeat c (S n))).
  change (string_repeat c (S n) +:+ String c "")
    with (String c (string_repeat c n +:+ String c "")).
  f_equal. exact IH.
Qed.

Lemma string_snoc_inv s : 1 <= len s -> exists p c, s = p +:+ String c "".
Proof.
  induction s as [|a s IH]; [unfold len; simpl; lia|]. intros _.
  destruct s as [|b s].
  - exists "", a. reflexivity.
  - destruct IH as (p & c & E).
    { rewrite len_String. pose proof (len_nonneg s). lia. }
    exists (String a p), c. rewrite E. reflexivity.
Qed.

Lemma slice_app_prefix p t : slice (p +:+ t) 0 (len p) = p.
Proof.
  unfold slice, len. rewrite Z.sub_0_r, Nat2Z.id. change (Z.to_nat 0) with O.
  induction p as [|c p IH].
  - cbn. destruct t; reflexivity.
  - rewrite append_String. cbn [String.length String.substring]. f_equal. exact IH.
Qed.

Lemma slice_app_suffix p t : slice (p +:+ t) (len p) (len (p +:+ t)) = t.
Proof.
  rewrite len_app. unfold slice.
  replace (len p + len t - len p) with (len t) by lia.
  unfold len. rewrite !Nat2Z.id.
  induction p as [|c p IH].
  - change ("" +:+ t) with t. cbn [String.length].
    pose proof (slice_full t) as H. unfold slice, len in H.
    rewrite Z.sub_0_r, Nat2Z.id in H. exact H.
  - rewrite append_String. cbn [String.length String.substring]. exact IH.
Qed.

Lemma ContainsRune_NUL r : Strings.ContainsRune NUL r = (r =? 0).
Proof.
  unfold Strings.ContainsRune.
  change (Utf8.runes NUL) with [0]. cbn [existsb]. apply orb_false_r.
Qed.

Lemma byte_val_0 c : byte_val c = 0 -> c = chr 0.
Proof. intros H. rewrite <- (chr_byte_val c), H. reflexivity. Qed.

(** The rune U+0000 is only decoded from the byte NUL. *)
Lemma DecodeRune_zero s w :
  Utf8.DecodeRuneInString s = (0, w) -> w = 1 /\ exists t, s = String (chr 0) t.
Proof.
  intros H. pose proof H as H'. apply DecodeRune_cases in H'.
  destruct H' as [[-> ->]|[[-> Hc]|Hm]].
  - vm_compute in H. discriminate.
  - split; [reflexivity|]. destruct Hc as (c & t & -> & [[E Hlo]|[E _]]).
    + exists t. f_equal. apply byte_val_0. congruence.
    + unfold Utf8.RuneError in E. discriminate.
  - assert (2 <= w) by (destruct Hm as [[-> _]|[[-> _]|[-> _]]]; lia).
    destruct (DecodeRune_multi _ _ _ H ltac:(lia)) as [Hr _]. lia.
Qed.

Lemma DecodeLast_zero s w :
  Utf8.DecodeLastRuneInString s = (0, w) -> w = 1 /\ exists p, s = p +:+ NUL.
Proof.
  unfold Utf8.DecodeLastRuneInString.
  destruct (len s =? 0) eqn:E0; [intros [= ? _]; discriminate|]. zbool.
  pose proof (len_nonneg s).
  destruct (string_snoc_inv s ltac:(lia)) as (p & c & ->).
  rewrite len_app. change (len (String c "")) with 1.
  replace (len p + 1 - 1) with (len p) by lia. rewrite byte_at_app_r.
  destruct (byte_val c <? Utf8.RuneSelf) eqn:Ec.
  - intros [= E <-]. split; [reflexivity|]. exists p. unfold NUL. do 2 f_equal.
    apply byte_val_0, E.
  - zbool. unfold Utf8.RuneSelf in Ec.
    set (start := if Utf8.scanRuneStart _ _ _ _ <? 0 then 0 else Utf8.scanRuneStart _ _ _ _).
    destruct (Utf8.DecodeRuneInString (slice (p +:+ String c "") start (len p + 1)))
      as [r size] eqn:Hd.
    destruct (negb (start + size =? len p + 1)) eqn:En; [intros [= ? _]; discriminate|].
    apply negb_false_iff in En. zbool.
    intros [= -> <-]. exfalso.
    apply DecodeRune_zero in Hd. destruct Hd as [-> (t & Ht)].
    assert (start = len p) by lia.
    rewrite H0 in Ht. replace (len p + 1) with (len (p +:+ String c "")) in Ht
      by (rewrite len_app; reflexivity).
    rewrite slice_app_suffix in Ht. injection Ht as -> _.
    vm_compute in Ec. apply Ec. reflexivity.
Qed.

Lemma trimRight_NUL n s :
  (String.length s <= n)%nat ->
  (exists k, s = Strings.trimRight n s NUL +:+ string_repeat (chr 0) k) /\
  (forall p, Strings.trimRight n s NUL <> p +:+ NUL).
Proof.
  revert s. induction n as [|n IH]; intros s Hn.
  - destruct s; [|cbn in Hn; lia]. cbn. split; [exists O; reflexivity|].
    intros [|? ?]; discriminate.
  - cbn [Strings.trimRight]. destruct (0 <? len s) eqn:E; zbool.
    + destruct (Utf8.DecodeLastRuneInString s) as [r w] eqn:Hd.
      rewrite ContainsRune_NUL. destruct (r =? 0) eqn:Er; zbool.
      * subst r. apply DecodeLast_zero in Hd. destruct Hd as [-> (p & ->)].
        rewrite len_app. change (len NUL) with 1.
        replace (len p + 1 - 1) with (len p) by lia. rewrite slice_app_prefix.
        destruct (IH p) as [[k Hk] Hne].
        { assert (Hl : len (p +:+ NUL) = len p + 1) by (rewrite len_app; reflexivity).
          unfold len in Hl. lia. }
        split; [|exact Hne]. exists (S k).
        rewrite string_repeat_snoc, <- append_assoc, <- Hk. reflexivity.
      * split; [exists O; rewrite append_nil_r; reflexivity|].
        intros p ->. unfold NUL in Hd. rewrite DecodeLast_app_ascii in Hd by (vm_compute; reflexivity).
        injection Hd as <- _. apply Er. reflexivity.
    + assert (s = "") as -> by (apply len_0_empty; pose proof (len_nonneg s); lia).
      split; [exists O; reflexivity|]. intros [|? ?]; discriminate.
Qed.

Lemma trimLeft_NUL n s :
  (String.length s <= n)%nat ->
  (exists k, s = string_repeat (chr 0) k +:+ Strings.trimLeft n s NUL) /\
  (forall t, Strings.trimLeft n s NUL <> String (chr 0) t).
Proof.
  revert s. induction n as [|n IH]; intros s Hn.
  - destruct s; [|cbn in Hn; lia]. cbn. split; [exists O; reflexivity|]. discriminate.
  - cbn [Strings.trimLeft]. destruct (0 <? len s) eqn:E; zbool.
    + destruct (Utf8.DecodeRuneInString s) as [r w] eqn:Hd.
      rewrite ContainsRune_NUL. destruct (r =? 0) eqn:Er; zbool.
      * subst r. apply DecodeRune_zero in Hd. destruct Hd as [-> (t & ->)].
        assert (Hs : slice (String (chr 0) t) 1 (len (String (chr 0) t)) = t)
          by (apply (slice_app_suffix NUL t)).
        rewrite Hs.
        destruct (IH t) as [[k Hk] Hne]; [cbn in Hn; lia|].
        split; [|exact Hne]. exists (S k). cbn [string_repeat].
        rewrite append_String, <- Hk. reflexivity.
      * split; [exists O; reflexivity|].
        intros t ->. rewrite DecodeRune_ascii in Hd by (vm_compute; reflexivity).
        injection Hd as <- _. apply Er. reflexivity.
    + assert (s = "") as -> by (apply len_0_empty; pose proof (len_nonneg s); lia).
      split; [exists O; reflexivity|]. discriminate.
Qed.

(** [Trim] with the cutset NUL removes the NUL bytes at both ends, and
    all of them. *)
Lemma Trim_NUL s :
  (exists i j, s = string_repeat (chr 0) i +:+ Strings.Trim s NUL +:+ string_repeat (chr 0) j) /\
  (forall t, Strings.Trim s NUL <> String (chr 0) t) /\
  (forall p, Strings.Trim s NUL <> p +:+ NUL).
Proof.
  unfold Strings.Trim. change (len NUL =? 0) with false. rewrite orb_false_r.
  destruct (len s =? 0) eqn:E; zbool.
  - apply len_0_empty in E. subst s. split; [exists O, O; reflexivity|].
    split; [discriminate|]. intros [|? ?]; discriminate.
  - destruct (trimRight_NUL (String.length s) s ltac:(lia)) as [[j Hj] Hr].
    set (r := Strings.trimRight (String.length s) s NUL) in *.
    destruct (trimLeft_NUL (String.length r) r ltac:(lia)) as [[i Hi] Hl].
    set (t := Strings.trimLeft (String.length r) r NUL) in *.
    split; [exists i, j; rewrite <- append_assoc, <- Hi; exact Hj|].
    split; [exact Hl|].
    intros p Hp. apply (Hr (string_repeat (chr 0) i +:+ p)).
    rewrite Hi, Hp, append_assoc. reflexivity.
Qed.

(** ** The values of the lookup tables *)





Lemma string_repeat_inside c n a d b :
  string_repeat c n = a +:+ String d b -> d = c.
Proof.
  revert a. induction n as [|n IH]; intros a H.
  - destruct a; discriminate.
  - cbn [string_repeat] in H. destruct a as [|x a].
    + injection H as -> _. reflexivity.
    + rewrite append_String in H. injection H as _ H. eapply IH, H.
Qed.

Lemma DecodeWindows1250_NULs n :
  DecodeWindows1250 (string_repeat (chr 0) n) = string_repeat (chr 0) n.
Proof.
  induction n as [|n IH]; [reflexivity|].
  cbn [string_repeat]. rewrite decodeBytes_String, Windows1250_low, IH by (vm_compute; reflexivity).
  reflexivity.
Qed.

Lemma Trim_NULs n : Strings.Trim (string_repeat (chr 0) n) NUL = "".
Proof.
  destruct (Trim_NUL (string_repeat (chr 0) n)) as ((i & j & Hd) & Hl & _).
  destruct (Strings.Trim (string_repeat (chr 0) n) NUL) as [|c t]; [reflexivity|].
  exfalso. apply string_repeat_inside in Hd. subst c. apply (Hl t). reflexivity.
Qed.

(** X2.  A record whose value holds NUL bytes only, or nothing, passes
    without a trace: nothing is stored under its key, and the key is not
    even read. *)
Theorem readRows_skips_NUL_value row rest ki vi m n :
  Shp.Attribute row vi = Ok (string_repeat (chr 0) n) ->
  readRows (row :: rest) ki vi m = readRows rest ki vi m.
Proof.
  intros H. cbn [readRows]. rewrite H. cbn [bind].
  rewrite DecodeWindows1250_NULs, Trim_NULs. reflexivity.
Qed.

Lemma readRows_skips_NUL_value_witness :
  readRows ({| Shp.BBox := Shp.mkBox 0 0 0 0;
               Shp.attributes := ["Glavna ulica"; NUL +:+ NUL; "5"] |} :: []) 2 1 ∅ =
  readRows [] 2 1 ∅.
Proof.
  apply (readRows_skips_NUL_value _ [] 2 1 ∅ 2). reflexivity.
Defined.

Lemma readRows_written rows ki vi m table k :
  readRows rows ki vi m = Ok table ->
  is_Some (m !! k) \/ (exists row v, row ∈ rows /\ rowWrites ki vi row k v) ->
  is_Some (table !! k).
Proof.
  revert m. induction rows as [|row rows IH]; intros m H Hk.
  - injection H as <-. destruct Hk as [Hk|(row & v & Hr & _)]; [exact Hk|].
    apply elem_of_nil in Hr. contradiction.
  - apply readRows_step in H. destruct H as (m' & H & Hm').
    apply (IH _ H).
    destruct Hk as [Hk|(r & v & Hr & Hw)].
    + left. destruct Hm' as [(k0 & v0 & _ & ->)|[_ ->]]; [|exact Hk].
      destruct (decide (k0 = k)) as [->|Hne]; [rewrite lookup_insert_eq; eauto|].
      rewrite lookup_insert_ne by assumption. exact Hk.
    + apply elem_of_cons in Hr. destruct Hr as [->|Hr]; [|right; eauto].
      left. destruct Hm' as [(k0 & v0 & Hw' & ->)|[Hno _]].
      * destruct (rowWrites_fun _ _ _ _ _ _ _ Hw Hw') as [-> ->].
        rewrite lookup_insert_eq. eauto.
      * exfalso. eapply Hno, Hw.
Qed.

(** X4.  The keys of the table are the keys of the records with a value
    that is not empty: none of them is lost. *)
Theorem readRows_keys rows ki vi table k :
  readRows rows ki vi ∅ = Ok table ->
  (is_Some (table !! k) <-> exists row v, row ∈ rows /\ rowWrites ki vi row k v).
Proof.
  intros H. split.
  - intros [v Hv]. destruct (readRows_lookup _ _ _ _ _ _ _ H Hv) as [He|(row & Hr & Hw)].
    + rewrite lookup_empty in He. discriminate.
    + eauto.
  - intros Hw. eapply readRows_written; [exact H|]. right. exact Hw.
Qed.

Lemma readRows_keys_witness :
  is_Some (({[ "100" := "Main St" ]} : gmap string string) !! "100") <->
  exists row v,
    row ∈ Shp.rows streetTable /\ rowWrites 0 1 row "100" v.
Proof.
  apply (readRows_keys (Shp.rows streetTable) 0 1 {[ "100" := "Main St" ]} "100").
  vm_compute. reflexivity.
Defined.

(** ** [ReadShapefile]: when it returns, and what *)

Lemma readRecord_cases lk row :
  match Shp.Attribute row 12 with
  | Ok status =>
    if String.eqb status "V" then
      exists dateOd, Shp.Attribute row 10 = Ok dateOd /\
        if 8 <=? len dateOd then exists f, readRecord lk row = Ok (Emit f)
        else readRecord lk row = Panic "slice bounds out of range"
    else readRecord lk row = Ok (Skip "skipping invalid...")
  | Panic msg => readRecord lk row = Panic msg
  | Fatal msg => readRecord lk row = Fatal msg
  | OutOfFuel => readRecord lk row = OutOfFuel
  end.
Proof.
  destruct (Shp.Attribute row 12) as [status| | |] eqn:H12;
    try (unfold readRecord; rewrite H12; reflexivity).
  destruct (String.eqb status "V") eqn:Ev.
  - apply String.eqb_eq in Ev. subst status.
    destruct (readRecord_valid lk row H12)
      as (labela & named & ptMid & dateOd & hsMid & _ & _ & _ & H10 & _ & HR).
    exists dateOd. split; [exact H10|]. rewrite HR.
    destruct (8 <=? len dateOd); eauto.
  - unfold readRecord. rewrite H12. cbn [bind]. rewrite Ev. reflexivity.
Qed.

Lemma readRecord_readable lk row :
  (exists s, readRecord lk row = Ok s) <-> readable row = true.
Proof.
  pose proof (readRecord_cases lk row) as H. unfold readable.
  destruct (Shp.Attribute row 12) as [status| | |].
  - destruct (String.eqb status "V").
    + destruct H as (dateOd & -> & H). destruct (8 <=? len dateOd).
      * destruct H as [f ->]. split; eauto.
      * rewrite H. split; [intros [s Hs]; discriminate|discriminate].
    + rewrite H. split; eauto.
  - rewrite H. split; [intros [s Hs]; discriminate|discriminate].
  - rewrite H. split; [intros [s Hs]; discriminate|discriminate].
  - rewrite H. split; [intros [s Hs]; discriminate|discriminate].
Qed.

Lemma readRecords_readable lk rows st :
  (exists out, readRecords lk rows st = Ok out) <-> forallb readable rows = true.
Proof.
  revert st. induction rows as [|row rows IH]; intros st.
  - cbn. split; eauto.
  - cbn [forallb]. rewrite andb_true_iff, <- (readRecord_readable lk row).
    cbn [readRecords]. split.
    + intros [out H]. inv_bind H. split; [eauto|].
      destruct a; eapply IH; eauto.
    + intros [[s ->] Hr]. cbn [bind]. destruct s; eapply IH; exact Hr.
Qed.

(** X6. [ReadShapefile] returns exactly when the file opens, every record
    has a status column, and every valid record has a date of at least
    eight bytes; the lookup tables have no part in it. *)
Theorem ReadShapefile_returns_iff fs lk name :
  (exists out, ReadShapefile fs lk name = Ok out) <->
  exists rdr, Shp.Open fs name = Some rdr /\ forallb readable (Shp.rows rdr) = true.
Proof.
  unfold ReadShapefile. destruct (Shp.Open fs name) as [rdr|].
  - rewrite readRecords_readable. split; [eauto|]. intros (r & [= <-] & H). exact H.
  - split; [intros [out H]; discriminate|intros (r & H & _); discriminate].
Qed.

Lemma isValid_Emit lk row f : readRecord lk row = Ok (Emit f) -> isValid row = true.
Proof.
  intros H. apply readRecord_Emit in H. destruct H as (? & ? & ? & ? & ? & H & _).
  unfold isValid. rewrite H. reflexivity.
Qed.

Lemma isValid_Skip lk row line :
  readRecord lk row = Ok (Skip line) -> isValid row = false /\ line = "skipping invalid...".
Proof.
  intros H. pose proof (readRecord_cases lk row) as C. unfold isValid.
  destruct (Shp.Attribute row 12) as [status| | |]; try congruence.
  destruct (String.eqb status "V").
  - destruct C as (d & _ & C). destruct (8 <=? len d); [destruct C as [f C]|]; congruence.
  - split; [reflexivity|congruence].
Qed.

Lemma readRecords_in_order lk rows st out :
  readRecords lk rows st = Ok out ->
  exists fs,
    Features (featureCollection out) = (Features (featureCollection st) ++ fs)%list /\
    Forall2 (fun row f => readRecord lk row = Ok (Emit f)) (List.filter isValid rows) fs /\
    stdout out = (stdout st ++
      map (fun _ => "skipping invalid...") (List.filter (fun r => negb (isValid r)) rows))%list.
Proof.
  revert st. induction rows as [|row rows IH]; intros st H.
  - injection H as <-. exists []. rewrite !app_nil_r. repeat split. constructor.
  - cbn [readRecords] in H. inv_bind H. destruct a as [line|f].
    + destruct (isValid_Skip _ _ _ Ha) as [Hv ->].
      apply IH in H. destruct H as (fs' & Hf & Hall & Hs).
      cbn [featureCollection stdout] in Hf, Hs.
      exists fs'. cbn [List.filter]. rewrite Hv. cbn [negb map].
      split; [exact Hf|]. split; [exact Hall|]. rewrite Hs, <- app_assoc. reflexivity.
    + pose proof (isValid_Emit _ _ _ Ha) as Hv.
      apply IH in H. destruct H as (fs' & Hf & Hall & Hs).
      cbn [featureCollection stdout AddFeature Features] in Hf, Hs.
      exists (f :: fs'). cbn [List.filter]. rewrite Hv. cbn [negb].
      split; [rewrite Hf, <- app_assoc; reflexivity|].
      split; [constructor; assumption|exact Hs].
Qed.

(** X7.  The collection holds one feature per valid record, in the order
    of the file, and one line is printed per record that is not valid. *)
Theorem ReadShapefile_in_order fs lk name out :
  ReadShapefile fs lk name = Ok out ->
  exists rdr, Shp.Open fs name = Some rdr /\
    Forall2 (fun row f => readRecord lk row = Ok (Emit f))
            (List.filter isValid (Shp.rows rdr)) (Features (featureCollection out)) /\
    stdout out = map (fun _ => "skipping invalid...")
                     (List.filter (fun r => negb (isValid r)) (Shp.rows rdr)).
Proof.
  unfold ReadShapefile. destruct (Shp.Open fs name) as [rdr|]; [|discriminate].
  intros H. apply readRecords_in_order in H. destruct H as (fs' & Hf & Hall & Hs).
  exists rdr. split; [reflexivity|]. cbn in Hf, Hs. rewrite Hf, Hs. auto.
Qed.

Lemma ReadShapefile_in_order_witness :
  exists rdr, Shp.Open (addressFile [rowInvalid; rowEast; rowAltOnly]) "in.shp" = Some rdr /\
    Forall2 (fun row f => readRecord sampleLookups row = Ok (Emit f))
            (List.filter isValid (Shp.rows rdr))
            [featureOf sampleLookups rowEast; featureOf sampleLookups rowAltOnly] /\
    ["skipping invalid..."] =
      map (fun _ => "skipping invalid...")
          (List.filter (fun r => negb (isValid r)) (Shp.rows rdr)).
Proof.
  apply (ReadShapefile_in_order (addressFile [rowInvalid; rowEast; rowAltOnly])
           sampleLookups "in.shp"
           {| featureCollection :=
                {| Features := [featureOf sampleLookups rowEast;
                                featureOf sampleLookups rowAltOnly] |};
              stdout := ["skipping invalid..."] |}).
  vm_compute. reflexivity.
Defined.

(** ** How the reading fails *)

Lemma Attribute_result row n :
  (exists s, Shp.Attribute row n = Ok s) \/ Shp.Attribute row n = Panic "index out of range".
Proof.
  unfold Shp.Attribute. destruct (0 <=? n); [|auto].
  destruct (Shp.attributes row !! Z.to_nat n); eauto.
Qed.

(** A failure of the run time, by its message. *)
Lemma readRecord_result lk row :
  (exists s, readRecord lk row = Ok s) \/
  readRecord lk row = Panic "index out of range" \/
  readRecord lk row = Panic "slice bounds out of range".
Proof.
  pose proof (readRecord_cases lk row) as H.
  destruct (Attribute_result row 12) as [[status E]| E]; rewrite E in H.
  - destruct (String.eqb status "V").
    + destruct H as (d & _ & H). destruct (8 <=? len d); [destruct H as [f H]|]; eauto.
    + eauto.
  - auto.
Qed.

Lemma readRecords_result lk rows st :
  (exists out, readRecords lk rows st = Ok out) \/
  readRecords lk rows st = Panic "index out of range" \/
  readRecords lk rows st = Panic "slice bounds out of range".
Proof.
  revert st. induction rows as [|row rows IH]; intros st; [left; eexists; reflexivity|].
  cbn [readRecords].
  destruct (readRecord_result lk row) as [[s ->]|[-> | ->]]; [|auto..].
  cbn [bind]. destruct s; apply IH.
Qed.

Lemma readRows_result rows ki vi m :
  (exists table, readRows rows ki vi m = Ok table) \/
  readRows rows ki vi m = Panic "index out of range".
Proof.
  revert m. induction rows as [|row rows IH]; intros m; [left; eexists; reflexivity|].
  cbn [readRows].
  destruct (Attribute_result row vi) as [[value ->]| ->]; [|auto].
  cbn [bind]. destruct (0 <? len (Strings.Trim (DecodeWindows1250 value) NUL)).
  - destruct (Attribute_result row ki) as [[key ->]| ->]; [|auto].
    cbn [bind]. apply IH.
  - cbn [bind]. apply IH.
Qed.

(** X5.  The loader and [ReadShapefile] end in [log.Fatal] exactly when the
    file does not open; once it is open, they return or they panic, the
    loader on a column the table does not have, [ReadShapefile] on that or
    on a date that is too short. *)
Theorem reading_failures fs lk name kc vc :
  (Shp.Open fs name = None ->
   readShapefileToMap fs name kc vc = Fatal "open" /\
   ReadShapefile fs lk name = Fatal "open") /\
  (forall rdr, Shp.Open fs name = Some rdr ->
   ((exists table, readShapefileToMap fs name kc vc = Ok table) \/
    readShapefileToMap fs name kc vc = Panic "index out of range") /\
   ((exists out, ReadShapefile fs lk name = Ok out) \/
    ReadShapefile fs lk name = Panic "index out of range" \/
    ReadShapefile fs lk name = Panic "slice bounds out of range")).
Proof.
  unfold readShapefileToMap, ReadShapefile. split.
  - intros ->. auto.
  - intros rdr ->. split.
    + destruct (findColumns _ _ _ _ _ _) as [ki vi]. apply readRows_result.
    + apply readRecords_result.
Qed.

Lemma reading_failures_witness :
  readShapefileToMap streetFile "missing.shp" "UL_MID" "UL_UIME" = Fatal "open" /\
  ReadShapefile streetFile sampleLookups "missing.shp" = Fatal "open".
Proof.
  apply (proj1 (reading_failures streetFile sampleLookups "missing.shp" "UL_MID" "UL_UIME")).
  reflexivity.
Defined.

(** ** The tags of a feature *)

Lemma hasTag_SetProperty_iff f k v k' :
  hasTag (SetProperty f k v) k' <-> k' = k \/ hasTag f k'.
Proof.
  split; [apply hasTag_SetProperty|].
  unfold hasTag. rewrite Properties_SetProperty. intros [->|H].
  - rewrite lookup_insert_eq. eauto.
  - destruct (decide (k = k')) as [->|Hne]; [rewrite lookup_insert_eq; eauto|].
    rewrite lookup_insert_ne by assumption. exact H.
Qed.

Lemma hasTag_NewPointFeature_iff c k : hasTag (NewPointFeature c) k <-> False.
Proof. split; [apply hasTag_NewPointFeature|contradiction]. Qed.

(** X8.  A feature has the house number, the name tag of one family with
    or without its two language variants, and the five tags that follow;
    it has no other tag. *)
Theorem readRecord_tags lk row f :
  readRecord lk row = Ok (Emit f) ->
  exists tag variants,
    (tag = tagStreet \/ tag = tagPlace) /\
    (variants = [] \/
     variants = [tag +:+ tagLangPostfixSlovenian; ApplyTagLanguagePostfix tag (lonOf row)]) /\
    forall k, hasTag f k <->
              In k ([tagHousenumber; tag] ++ variants ++
                    [tagPostCode; tagCity; tagSourceDate; tagSource; tagRef])%list.
Proof.
  intros H. apply readRecord_Emit_shape in H.
  destruct H as (labela & tag & name & alt & ptMid & dateOd & hsMid &
                 _ & _ & _ & _ & (ulMid & _ & Htag) & ->).
  assert (Ht : tag = tagStreet \/ tag = tagPlace).
  { destruct (ulNameMap lk !! ulMid); [left; apply Htag|].
    destruct Htag as (naMid & _ & -> & _). auto. }
  exists tag.
  unfold nameTags.
  destruct alt as [dj|]; [destruct (negb (dj =? name)%string)|].
  - exists [tag +:+ tagLangPostfixSlovenian; ApplyTagLanguagePostfix tag (lonOf row)].
    split; [exact Ht|]. split; [auto|]. intros k.
    rewrite !hasTag_SetProperty_iff, hasTag_NewPointFeature_iff. cbn [In app]. intuition.
  - exists []. split; [exact Ht|]. split; [auto|]. intros k.
    rewrite !hasTag_SetProperty_iff, hasTag_NewPointFeature_iff. cbn [In app]. intuition.
  - exists []. split; [exact Ht|]. split; [auto|]. intros k.
    rewrite !hasTag_SetProperty_iff, hasTag_NewPointFeature_iff. cbn [In app]. intuition.
Qed.

Lemma readRecord_tags_witness :
  exists tag variants,
    (tag = tagStreet \/ tag = tagPlace) /\
    (variants = [] \/
     variants = [tag +:+ tagLangPostfixSlovenian; ApplyTagLanguagePostfix tag (lonOf rowEast)]) /\
    forall k, hasTag (featureOf sampleLookups rowEast) k <->
              In k ([tagHousenumber; tag] ++ variants ++
                    [tagPostCode; tagCity; tagSourceDate; tagSource; tagRef])%list.
Proof.
  apply (readRecord_tags sampleLookups rowEast (featureOf sampleLookups rowEast)).
  vm_compute. reflexivity.
Defined.

Lemma nameTags_other tag name alt lon f0 k :
  tag = tagStreet \/ tag = tagPlace ->
  String.prefix tag k = false ->
  Properties (nameTags tag name alt lon f0) !! k = Properties f0 !! k.
Proof.
  intros Ht Hk. unfold nameTags.
  assert (N1 : tag <> k).
  { intros <-. destruct Ht as [-> | ->]; vm_compute in Hk; discriminate. }
  assert (N2 : tag +:+ tagLangPostfixSlovenian <> k).
  { intros <-. destruct Ht as [-> | ->]; vm_compute in Hk; discriminate. }
  assert (N3 : ApplyTagLanguagePostfix tag lon <> k).
  { intros <-. destruct (ApplyTagLanguagePostfix_cases tag lon) as [[_ E]|[_ E]];
      rewrite E in Hk; destruct Ht as [-> | ->]; vm_compute in Hk; discriminate. }
  destruct alt as [dj|]; [destruct (negb (dj =? name)%string)|];
    rewrite ?Properties_SetProperty, ?lookup_insert_ne by assumption; reflexivity.
Qed.

(** X9.  The values of the tags that every feature has, and its
    coordinates. *)
Theorem readRecord_values lk row f :
  readRecord lk row = Ok (Emit f) ->
  Point f = [latOf row; lonOf row] /\
  (exists labela, Shp.Attribute row 4 = Ok labela /\
     Properties f !! tagHousenumber =
       Some (AString (Strings.ToLower (DecodeWindows1250 labela)))) /\
  (exists ptMid, Shp.Attribute row 8 = Ok ptMid /\
     Properties f !! tagPostCode = Some (AString (mapIndex (ptCodeMap lk) ptMid)) /\
     Properties f !! tagCity = Some (AString (mapIndex (ptNameMap lk) ptMid))) /\
  Properties f !! tagSource = Some (AString "GURS") /\
  (exists hsMid, Shp.Attribute row 1 = Ok hsMid /\
     Properties f !! tagRef = Some (AString hsMid)).
Proof.
  intros H. apply readRecord_Emit in H.
  destruct H as (labela & named & ptMid & dateOd & hsMid & HV & H4 & HN & H8 & H10 & Hlen & H1 & ->).
  apply namingOf_inv in HN. destruct HN as (ulMid & H5 & HN).
  assert (Hn : exists tag name alt, (tag = tagStreet \/ tag = tagPlace) /\
            named = nameTags tag name alt (lonOf row)
              (SetProperty (NewPointFeature [latOf row; lonOf row]) tagHousenumber
                 (AString (Strings.ToLower (DecodeWindows1250 labela))))).
  { destruct (ulNameMap lk !! ulMid) as [ulName|].
    - do 3 eexists. split; [left; reflexivity|exact HN].
    - destruct HN as (naMid & _ & HN). do 3 eexists. split; [right; reflexivity|exact HN]. }
  destruct Hn as (tag & name & alt & Ht & ->).
  split; [rewrite !Point_SetProperty, Point_nameTags; reflexivity|].
  split; [|split; [|split]].
  - exists labela. split; [exact H4|]. lookup_tags.
    rewrite nameTags_other; [lookup_tags; reflexivity|exact Ht|].
    destruct Ht as [-> | ->]; vm_compute; reflexivity.
  - exists ptMid. split; [exact H8|]. split; lookup_tags; reflexivity.
  - lookup_tags. reflexivity.
  - exists hsMid. split; [exact H1|]. lookup_tags. reflexivity.
Qed.

Lemma readRecord_values_witness :
  Point (featureOf sampleLookups rowEast) = [latOf rowEast; lonOf rowEast] /\
  (exists labela, Shp.Attribute rowEast 4 = Ok labela /\
     Properties (featureOf sampleLookups rowEast) !! tagHousenumber =
       Some (AString (Strings.ToLower (DecodeWindows1250 labela)))) /\
  (exists ptMid, Shp.Attribute rowEast 8 = Ok ptMid /\
     Properties (featureOf sampleLookups rowEast) !! tagPostCode =
       Some (AString (mapIndex (ptCodeMap sampleLookups) ptMid)) /\
     Properties (featureOf sampleLookups rowEast) !! tagCity =
       Some (AString (mapIndex (ptNameMap sampleLookups) ptMid))) /\
  Properties (featureOf sampleLookups rowEast) !! tagSource = Some (AString "GURS") /\
  (exists hsMid, Shp.Attribute rowEast 1 = Ok hsMid /\
     Properties (featureOf sampleLookups rowEast) !! tagRef = Some (AString hsMid)).
Proof.
  apply (readRecord_values sampleLookups rowEast (featureOf sampleLookups rowEast)).
  vm_compute. reflexivity.
Defined.

(** X10.  A feature that has the Slovenian variant of a name tag has the two
    names joined by the separator under the tag itself and the other name
    under the variant of its longitude, and the two names differ. *)
Theorem readRecord_bilingual lk row f tag n :
  readRecord lk row = Ok (Emit f) ->
  tag = tagStreet \/ tag = tagPlace ->
  Properties f !! (tag +:+ tagLangPostfixSlovenian) = Some (AString n) ->
  exists alt, alt <> n /\
    Properties f !! tag = Some (AString (n +:+ bilingualSeparator +:+ alt)) /\
    Properties f !! ApplyTagLanguagePostfix tag (lonOf row) = Some (AString alt).
Proof.
  intros H Ht Hsl. apply readRecord_Emit_shape in H.
  destruct H as (labela & tag0 & name & alt & ptMid & dateOd & hsMid &
                 _ & _ & _ & _ & (ulMid & _ & Htag) & ->).
  assert (Ht0 : tag0 = tagStreet \/ tag0 = tagPlace).
  { destruct (ulNameMap lk !! ulMid); [left; apply Htag|].
    destruct Htag as (naMid & _ & -> & _). auto. }
  clear Htag.
  unfold nameTags in *.
  destruct alt as [dj|]; [destruct (negb (dj =? name)%string) eqn:Ed|].
  - destruct (ApplyTagLanguagePostfix_cases tag0 (lonOf row)) as [[El E0]|[El E0]];
      rewrite E0 in *;
      unfold ApplyTagLanguagePostfix; rewrite El;
      destruct Ht as [-> | ->]; destruct Ht0 as [-> | ->];
      revert Hsl; lookup_tags; intros Hsl; try discriminate Hsl;
      injection Hsl as <-; exists dj;
      (split; [apply negb_true_iff, String.eqb_neq in Ed; exact Ed|]);
      split; reflexivity.
  - exfalso. destruct Ht as [-> | ->]; destruct Ht0 as [-> | ->];
      revert Hsl; lookup_tags; discriminate.
  - exfalso. destruct Ht as [-> | ->]; destruct Ht0 as [-> | ->];
      revert Hsl; lookup_tags; discriminate.
Qed.

Lemma readRecord_bilingual_witness :
  exists alt, alt <> "Glavna ulica" /\
    Properties (featureOf sampleLookups rowEast) !! tagStreet =
      Some (AString ("Glavna ulica" +:+ bilingualSeparator +:+ alt)) /\
    Properties (featureOf sampleLookups rowEast) !!
      ApplyTagLanguagePostfix tagStreet (lonOf rowEast) = Some (AString alt).
Proof.
  apply (readRecord_bilingual sampleLookups rowEast (featureOf sampleLookups rowEast)
           tagStreet "Glavna ulica").
  - vm_compute. reflexivity.
  - left. reflexivity.
  - vm_compute. reflexivity.
Defined.

(** ** The order of normalized house numbers *)

Lemma ascii_compare_refl c : Ascii.compare c c = Eq.
Proof. unfold Ascii.compare. apply N.compare_refl. Qed.

(** Strings with a common prefix compare as their remainders do. *)
Lemma string_lt_prefix p a b : string_lt (p +:+ a) (p +:+ b) = string_lt a b.
Proof.
  unfold string_lt, String.ltb. induction p as [|c p IH]; [reflexivity|].
  rewrite !append_String. cbn [String.compare]. rewrite ascii_compare_refl. exact IH.
Qed.

Lemma string_lt_single c d :
  string_lt (String c "") (String d "") = (byte_val c <? byte_val d).
Proof.
  unfold string_lt, String.ltb, byte_val. cbn [String.compare]. unfold Ascii.compare.
  unfold Z.ltb. rewrite N2Z.inj_compare.
  destruct (N_of_ascii c ?= N_of_ascii d)%N; reflexivity.
Qed.

Lemma endsInDigit_app_ascii h c :
  byte_val c < 0x80 ->
  endsInDigit (h +:+ String c "") = Unicode.IsDigit (byte_val c).
Proof.
  intros Hc. unfold endsInDigit. rewrite DecodeLast_app_ascii by assumption. reflexivity.
Qed.

(** X14.  A house number that ends in a digit and the same number followed by
    one ASCII character that is no digit are padded with the same zeros,
    and they compare as the placeholder [_] and the character do: the
    plain number comes first when the character is a lower-case letter,
    last when it is an upper-case letter. *)
Theorem NormalizeHouseNumber_suffix h c :
  endsInDigit h = true -> byte_val c < 0x80 -> Unicode.IsDigit (byte_val c) = false ->
  NormalizeHouseNumber h =
    (string_repeat "0"%char (Z.to_nat (3 - Utf8.RuneCountInString h)) +:+ h) +:+ "_" /\
  NormalizeHouseNumber (h +:+ String c "") =
    (string_repeat "0"%char (Z.to_nat (3 - Utf8.RuneCountInString h)) +:+ h) +:+ String c "" /\
  string_lt (NormalizeHouseNumber h) (NormalizeHouseNumber (h +:+ String c "")) =
    (0x5F <? byte_val c).
Proof.
  intros Hd Hc Hn.
  assert (E1 : NormalizeHouseNumber h =
    (string_repeat "0"%char (Z.to_nat (3 - Utf8.RuneCountInString h)) +:+ h) +:+ "_").
  { revert Hd. unfold endsInDigit, NormalizeHouseNumber, Fmt.padString, Fmt.writePadding.
    destruct (Utf8.DecodeLastRuneInString h) as [lastRune k]. intros ->. reflexivity. }
  assert (E2 : NormalizeHouseNumber (h +:+ String c "") =
    (string_repeat "0"%char (Z.to_nat (3 - Utf8.RuneCountInString h)) +:+ h) +:+ String c "").
  { unfold NormalizeHouseNumber, Fmt.padString, Fmt.writePadding.
    rewrite DecodeLast_app_ascii by assumption. rewrite Hn. cbn [orb Z.eqb].
    rewrite RuneCount_app_ascii by assumption.
    replace (4 - (Utf8.RuneCountInString h + 1)) with (3 - Utf8.RuneCountInString h) by lia.
    rewrite append_assoc. reflexivity. }
  split; [exact E1|]. split; [exact E2|].
  rewrite E1, E2, string_lt_prefix. apply (string_lt_single "_"%char c).
Qed.

Lemma NormalizeHouseNumber_suffix_witness :
  NormalizeHouseNumber "12" =
    (string_repeat "0"%char (Z.to_nat (3 - Utf8.RuneCountInString "12")) +:+ "12") +:+ "_" /\
  NormalizeHouseNumber ("12" +:+ String "a"%char "") =
    (string_repeat "0"%char (Z.to_nat (3 - Utf8.RuneCountInString "12")) +:+ "12")
    +:+ String "a"%char "" /\
  string_lt (NormalizeHouseNumber "12") (NormalizeHouseNumber ("12" +:+ String "a"%char "")) =
    (0x5F <? byte_val "a"%char).
Proof.
  apply (NormalizeHouseNumber_suffix "12" "a"%char).
  - vm_compute. reflexivity.
  - vm_compute. reflexivity.
  - vm_compute. reflexivity.
Defined.

(** X15.  For house numbers below 1000 written in decimal, the order of the
    normalized strings is the order of the numbers; with four digits it is
    not. *)
Theorem NormalizeHouseNumber_numeric_order :
  (forall a b : nat, (a < 1000)%nat -> (b < 1000)%nat ->
     string_lt (NormalizeHouseNumber (NilZero.string_of_uint (Nat.to_uint a)))
               (NormalizeHouseNumber (NilZero.string_of_uint (Nat.to_uint b))) =
     (a <? b)%nat) /\
  string_lt (NormalizeHouseNumber (NilZero.string_of_uint (Nat.to_uint 1000)))
            (NormalizeHouseNumber (NilZero.string_of_uint (Nat.to_uint 999))) = true.
Proof.
  split; [|vm_compute; reflexivity].
  assert (C : (let L := map (fun a => (N.of_nat a,
                     NormalizeHouseNumber (NilZero.string_of_uint (Nat.to_uint a))))
                   (seq 0 1000) in
               forallb (fun x => forallb (fun y =>
                 Bool.eqb (string_lt (snd x) (snd y)) (fst x <? fst y)%N) L) L) = true)
    by (vm_compute; reflexivity).
  cbv zeta in C. rewrite forallb_forall in C.
  intros a b Ha Hb.
  assert (In' : forall a, (a < 1000)%nat ->
    In (N.of_nat a, NormalizeHouseNumber (NilZero.string_of_uint (Nat.to_uint a)))
       (map (fun a => (N.of_nat a,
                       NormalizeHouseNumber (NilZero.string_of_uint (Nat.to_uint a))))
            (seq 0 1000))).
  { intros x Hx. apply in_map_iff. exists x. split; [reflexivity|]. apply in_seq. lia. }
  specialize (C _ (In' a Ha)). rewrite forallb_forall in C.
  specialize (C _ (In' b Hb)). cbn [fst snd] in C.
  apply Bool.eqb_prop in C. rewrite C.
  destruct (a <? b)%nat eqn:E.
  - apply Nat.ltb_lt in E. apply N.ltb_lt. lia.
  - apply Nat.ltb_ge in E. apply N.ltb_ge. lia.
Qed.

Lemma NormalizeHouseNumber_numeric_order_witness :
  string_lt (NormalizeHouseNumber (NilZero.string_of_uint (Nat.to_uint 7)))
            (NormalizeHouseNumber (NilZero.string_of_uint (Nat.to_uint 12))) =
  (7 <? 12)%nat.
Proof.
  apply (proj1 NormalizeHouseNumber_numeric_order 7 12)%nat; lia.
Defined.

(** ** The comparison of [SortFeatureCollection] *)

Lemma string_cmp_cases a b :
  (String.ltb a b = true /\ String.ltb b a = false) \/
  (String.ltb a b = false /\ String.ltb b a = true) \/
  (String.ltb a b = false /\ String.ltb b a = false).
Proof.
  unfold String.ltb. rewrite (String.compare_antisym a b).
  destruct (b ?= a)%string; cbn [CompOpp]; auto.
Qed.

(** X12.  The comparison is asymmetric and irreflexive on features it can
    read: of two positions it never puts each before the other. *)
Theorem featureLess_asymmetric data i j :
  Forall comparable data ->
  0 <= i < Z.of_nat (length data) -> 0 <= j < Z.of_nat (length data) ->
  (featureLess data i j = Ok true -> featureLess data j i = Ok false) /\
  featureLess data i i = Ok false.
Proof.
  intros Hall Hi Hj. rewrite Forall_forall in Hall.
  destruct (index_in_range data i Hi) as (fi & Ei & Ii).
  destruct (index_in_range data j Hj) as (fj & Ej & Ij).
  destruct (Hall fi Ii) as (Ai & [pi Pi] & [hi Hhi]).
  destruct (Hall fj Ij) as (Aj & [pj Pj] & [hj Hhj]).
  assert (Hpair : forall (fa fb : Feature) pa pb ha hb,
    allStrings fa -> allStrings fb ->
    Properties fa !! tagPostCode = Some (AString pa) ->
    Properties fb !! tagPostCode = Some (AString pb) ->
    Properties fa !! tagHousenumber = Some (AString ha) ->
    Properties fb !! tagHousenumber = Some (AString hb) ->
    forall a b, GoSort.index data a = Ok fa -> GoSort.index data b = Ok fb ->
    featureLess data a b = Ok true -> featureLess data b a = Ok false).
  { clear. intros fa fb pa pb ha hb Aa Ab Pa Pb Ha Hb a b Ea Eb.
    unfold featureLess, string_lt, string_gt.
    rewrite Ea, Eb. cbn [bind]. rewrite Pa, Pb. cbn [bind assertString].
    destruct (string_cmp_cases pa pb) as [(-> & ->)|[(-> & ->)|(-> & ->)]];
      [reflexivity|discriminate|].
    assert (Hs : forall f, allStrings f -> forall k,
              notNil (Properties f !! k) = true ->
              exists s, Properties f !! k = Some (AString s)).
    { intros f Af k Hk. destruct (Properties f !! k) as [v|] eqn:E; [|discriminate].
      destruct (Af _ _ E) as [s ->]. eauto. }
    destruct (notNil (Properties fa !! tagStreet)) eqn:Sa;
      destruct (notNil (Properties fb !! tagStreet)) eqn:Sb;
      try (destruct (Hs fa Aa _ Sa) as [sa Sa']; rewrite Sa');
      try (destruct (Hs fb Ab _ Sb) as [sb Sb']; rewrite Sb');
      cbn [bind assertString];
      try (destruct (string_cmp_cases sa sb) as [(-> & ->)|[(-> & ->)|(-> & ->)]];
           cbn [bind]; [reflexivity|discriminate|]);
      (destruct (notNil (Properties fa !! tagPlace)) eqn:La;
       destruct (notNil (Properties fb !! tagPlace)) eqn:Lb;
       try (destruct (Hs fa Aa _ La) as [la La']; rewrite La');
       try (destruct (Hs fb Ab _ Lb) as [lb Lb']; rewrite Lb');
       cbn [bind assertString];
       try (destruct (string_cmp_cases la lb) as [(-> & ->)|[(-> & ->)|(-> & ->)]];
            cbn [bind]; [reflexivity|discriminate|]);
       rewrite Ha, Hb; cbn [bind assertString];
       destruct (string_cmp_cases (NormalizeHouseNumber ha) (NormalizeHouseNumber hb))
         as [(-> & ->)|[(-> & ->)|(-> & ->)]];
       first [reflexivity|discriminate]). }
  split.
  - apply (Hpair fi fj pi pj hi hj Ai Aj Pi Pj Hhi Hhj i j Ei Ej).
  - destruct (featureLess_total data i i fi fi Ei Ei Ai Ai
                (ex_intro _ pi Pi) (ex_intro _ pi Pi) (ex_intro _ hi Hhi) (ex_intro _ hi Hhi))
      as [[|] Hb]; [|exact Hb].
    exact (Hpair fi fi pi pi hi hi Ai Ai Pi Pi Hhi Hhi i i Ei Ei Hb).
Qed.

Lemma featureLess_asymmetric_witness :
  (featureLess [fB1; fX2; fA3] 2 0 = Ok true -> featureLess [fB1; fX2; fA3] 0 2 = Ok false) /\
  featureLess [fB1; fX2; fA3] 2 2 = Ok false.
Proof.
  apply (featureLess_asymmetric [fB1; fX2; fA3] 2 0).
  - assert (H : ReadShapefile (addressFile [rowB1; rowX2; rowA3]) sortLookups "in.shp" =
              Ok {| featureCollection := {| Features := [fB1; fX2; fA3] |}; stdout := [] |})
      by (vm_compute; reflexivity).
    apply Forall_forall. intros f Hin.
    destruct (ReadShapefile_features _ _ _ _ _ H Hin) as (rdr & row & _ & _ & He).
    apply readRecord_strings in He. exact He.
  - cbn [length]. lia.
  - cbn [length]. lia.
Defined.

(** ** [sort.Slice] with any comparison that does not fail *)

Lemma returns_Ok {B} (x : B) (P : B -> Prop) : P x -> returns (Ok x) P.
Proof. intros H. exists x. auto. Qed.

Lemma returns_bind {B C} (m : result B) (k : B -> result C) (P : B -> Prop) (Q : C -> Prop) :
  returns m P -> (forall x, P x -> returns (k x) Q) -> returns (bind m k) Q.
Proof. intros (x & -> & Hx) Hk. cbn [bind]. apply Hk, Hx. Qed.

Lemma returns_weaken {B} (r : result B) (P Q : B -> Prop) :
  returns r P -> (forall x, P x -> Q x) -> returns r Q.
Proof. intros (x & -> & Hx) H. exists x. auto. Qed.

Section AnyComparison.

Context {A : Type}.
Variable less : list A -> Z -> Z -> result bool.
Variable data0 : list A.

Let n : Z := Z.of_nat (length data0).

(** The comparison returns for every two positions of every arrangement
    of the slice. *)
Hypothesis Hless : forall d i j,
  d ≡ₚ data0 -> 0 <= i < n -> 0 <= j < n -> exists b, less d i j = Ok b.

(** The slice holds the elements it held at the start. *)
Let inv (d : list A) : Prop := d ≡ₚ data0.

Lemma inv_length d : inv d -> Z.of_nat (length d) = n.
Proof. intros H. unfold n. f_equal. apply Permutation_length, H. Qed.

Lemma Less_returns d i j :
  inv d -> 0 <= i < n -> 0 <= j < n ->
  returns (GoSort.Less less d i j) (fun _ => True).
Proof.
  intros Hd Hi Hj. destruct (Hless d i j Hd Hi Hj) as [b Hb].
  exists b. split; [exact Hb|exact I].
Qed.

Lemma Swap_returns d i j :
  inv d -> 0 <= i < n -> 0 <= j < n -> returns (GoSort.Swap d i j) inv.
Proof.
  intros Hd Hi Hj. pose proof (inv_length d Hd) as Hl.
  unfold GoSort.Swap, GoSort.index.
  destruct (0 <=? i) eqn:Ei; [|apply Z.leb_gt in Ei; lia].
  destruct (0 <=? j) eqn:Ej; [|apply Z.leb_gt in Ej; lia].
  destruct (d !! Z.to_nat i) as [x|] eqn:Li; [|apply lookup_ge_None in Li; lia].
  destruct (d !! Z.to_nat j) as [y|] eqn:Lj; [|apply lookup_ge_None in Lj; lia].
  cbn [bind]. apply returns_Ok. unfold inv.
  rewrite Permutation_insert_swap by assumption. exact Hd.
Qed.

Ltac step_less :=
  eapply returns_bind; [apply Less_returns; [assumption|lia|lia]|];
  let lt := fresh "lt" in intros lt _.

Ltac step_swap :=
  eapply returns_bind; [apply Swap_returns; [assumption|lia|lia]|];
  let d := fresh "d" in let Hd := fresh "Hd" in intros d Hd.

Lemma insertionSort_inner_returns fuel d a j :
  inv d -> 0 <= a -> j < n -> (Z.to_nat (j - a) < fuel)%nat ->
  returns (GoSort.insertionSort_inner less fuel d a j) inv.
Proof.
  revert d j. induction fuel as [|fuel IH]; intros d j Hd Ha Hj Hf; [lia|].
  cbn [GoSort.insertionSort_inner].
  destruct (a <? j) eqn:E; [|apply returns_Ok, Hd]. apply Z.ltb_lt in E.
  step_less. destruct lt; [|apply returns_Ok, Hd].
  step_swap. apply IH; [assumption|lia|lia|lia].
Qed.

Lemma insertionSort_outer_returns fuel d a b i :
  inv d -> 0 <= a < i -> b <= n -> (Z.to_nat (b - i) < fuel)%nat ->
  returns (GoSort.insertionSort_outer less fuel d a b i) inv.
Proof.
  revert d i. induction fuel as [|fuel IH]; intros d i Hd Ha Hb Hf; [lia|].
  cbn [GoSort.insertionSort_outer].
  destruct (i <? b) eqn:E; [|apply returns_Ok, Hd]. apply Z.ltb_lt in E.
  eapply returns_bind; [apply insertionSort_inner_returns; [assumption|lia|lia|lia]|].
  intros d' Hd'. apply IH; [assumption|lia|lia|lia].
Qed.

Lemma insertionSort_func_returns d a b :
  inv d -> 0 <= a -> b <= n -> returns (GoSort.insertionSort_func less d a b) inv.
Proof.
  intros Hd Ha Hb. unfold GoSort.insertionSort_func.
  apply insertionSort_outer_returns; [assumption|lia|lia|lia].
Qed.

Lemma siftDown_loop_returns fuel d root hi first :
  inv d -> 0 <= root -> 0 <= first -> first + hi <= n ->
  (Z.to_nat (hi - root) < fuel)%nat ->
  returns (GoSort.siftDown_loop less fuel d root hi first) inv.
Proof.
  revert d root. induction fuel as [|fuel IH]; intros d root Hd Hr Hfi Hhi Hf; [lia|].
  cbn [GoSort.siftDown_loop].
  destruct (hi <=? 2 * root + 1) eqn:E; [apply returns_Ok, Hd|]. apply Z.leb_gt in E.
  eapply returns_bind with (P := fun child => 2 * root + 1 <= child < hi).
  { destruct (2 * root + 1 + 1 <? hi) eqn:E2.
    - apply Z.ltb_lt in E2. step_less. apply returns_Ok. destruct lt; lia.
    - apply returns_Ok. lia. }
  intros child Hc. step_less.
  destruct lt; cbn [negb]; [|apply returns_Ok, Hd].
  step_swap. apply IH; [assumption|lia|lia|lia|lia].
Qed.

Lemma siftDown_func_returns d lo hi first :
  inv d -> 0 <= lo -> 0 <= first -> first + hi <= n ->
  returns (GoSort.siftDown_func less d lo hi first) inv.
Proof.
  intros Hd Hlo Hfi Hhi. unfold GoSort.siftDown_func.
  apply siftDown_loop_returns; [assumption|lia|lia|lia|lia].
Qed.

Lemma heapSort_build_returns fuel d i hi first :
  inv d -> 0 <= first -> first + hi <= n -> (Z.to_nat (i + 1) < fuel)%nat ->
  returns (GoSort.heapSort_build less fuel d i hi first) inv.
Proof.
  revert d i. induction fuel as [|fuel IH]; intros d i Hd Hfi Hhi Hf; [lia|].
  cbn [GoSort.heapSort_build].
  destruct (0 <=? i) eqn:E; [|apply returns_Ok, Hd]. apply Z.leb_le in E.
  eapply returns_bind; [apply siftDown_func_returns; [assumption|lia|lia|lia]|].
  intros d' Hd'. apply IH; [assumption|lia|lia|lia].
Qed.

Lemma heapSort_pop_returns fuel d i first :
  inv d -> 0 <= first -> first + i < n -> (Z.to_nat (i + 1) < fuel)%nat ->
  returns (GoSort.heapSort_pop less fuel d i 0 first) inv.
Proof.
  revert d i. induction fuel as [|fuel IH]; intros d i Hd Hfi Hhi Hf; [lia|].
  cbn [GoSort.heapSort_pop].
  destruct (0 <=? i) eqn:E; [|apply returns_Ok, Hd]. apply Z.leb_le in E.
  step_swap.
  eapply returns_bind; [apply siftDown_func_returns; [assumption|lia|lia|lia]|].
  intros d' Hd'. apply IH; [assumption|lia|lia|lia].
Qed.

Lemma heapSort_func_returns d a b :
  inv d -> 0 <= a <= b -> b <= n -> returns (GoSort.heapSort_func less d a b) inv.
Proof.
  intros Hd Ha Hb. unfold GoSort.heapSort_func.
  assert (Hq : Z.quot (b - a - 1) 2 <= b - a).
  { destruct (Z.eq_dec (b - a) 0) as [->|Hne]; [vm_compute; congruence|].
    rewrite Z.quot_div_nonneg by lia.
    apply Z.lt_le_incl, Z.div_lt_upper_bound; lia. }
  eapply returns_bind; [apply heapSort_build_returns; [assumption|lia|lia|lia]|].
  intros d' Hd'. apply heapSort_pop_returns; [assumption|lia|lia|lia].
Qed.

(** The four scans of the partitions stay between their bounds. *)
Lemma scanLess_returns fuel d a i j :
  inv d -> 0 <= a < n -> 0 <= i -> j < n -> (Z.to_nat (j - i + 1) < fuel)%nat ->
  returns (GoSort.scanLess less fuel d a i j) (fun i' => i <= i' /\ (i' <= j + 1 \/ i' = i)).
Proof.
  revert i. induction fuel as [|fuel IH]; intros i Hd Ha Hi Hj Hf; [lia|].
  cbn [GoSort.scanLess].
  destruct (i <=? j) eqn:E; [|apply returns_Ok; lia]. apply Z.leb_le in E.
  step_less. destruct lt; [|apply returns_Ok; lia].
  eapply returns_weaken; [apply IH; [assumption|lia|lia|lia|lia]|].
  cbv beta. intros; lia.
Qed.

Lemma scanNotLess_returns fuel d a i j :
  inv d -> 0 <= a < n -> 0 <= i -> j < n -> (Z.to_nat (j - i + 1) < fuel)%nat ->
  returns (GoSort.scanNotLess less fuel d a i j) (fun j' => j' <= j /\ (i - 1 <= j' \/ j' = j)).
Proof.
  revert j. induction fuel as [|fuel IH]; intros j Hd Ha Hi Hj Hf; [lia|].
  cbn [GoSort.scanNotLess].
  destruct (i <=? j) eqn:E; [|apply returns_Ok; lia]. apply Z.leb_le in E.
  step_less. destruct lt; cbn [negb]; [apply returns_Ok; lia|].
  eapply returns_weaken; [apply IH; [assumption|lia|lia|lia|lia]|].
  cbv beta. intros; lia.
Qed.

Lemma scanNotGreater_returns fuel d a i j :
  inv d -> 0 <= a < n -> 0 <= i -> j < n -> (Z.to_nat (j - i + 1) < fuel)%nat ->
  returns (GoSort.scanNotGreater less fuel d a i j)
          (fun i' => i <= i' /\ (i' <= j + 1 \/ i' = i)).
Proof.
  revert i. induction fuel as [|fuel IH]; intros i Hd Ha Hi Hj Hf; [lia|].
  cbn [GoSort.scanNotGreater].
  destruct (i <=? j) eqn:E; [|apply returns_Ok; lia]. apply Z.leb_le in E.
  step_less. destruct lt; cbn [negb]; [apply returns_Ok; lia|].
  eapply returns_weaken; [apply IH; [assumption|lia|lia|lia|lia]|].
  cbv beta. intros; lia.
Qed.

Lemma scanGreater_returns fuel d a i j :
  inv d -> 0 <= a < n -> 0 <= i -> j < n -> (Z.to_nat (j - i + 1) < fuel)%nat ->
  returns (GoSort.scanGreater less fuel d a i j)
          (fun j' => j' <= j /\ (i - 1 <= j' \/ j' = j)).
Proof.
  revert j. induction fuel as [|fuel IH]; intros j Hd Ha Hi Hj Hf; [lia|].
  cbn [GoSort.scanGreater].
  destruct (i <=? j) eqn:E; [|apply returns_Ok; lia]. apply Z.leb_le in E.
  step_less. destruct lt; [|apply returns_Ok; lia].
  eapply returns_weaken; [apply IH; [assumption|lia|lia|lia|lia]|].
  cbv beta. intros; lia.
Qed.

Lemma partition_loop_returns fuel d a i j :
  inv d -> 0 <= a -> a + 1 <= i -> a <= j < n -> (Z.to_nat (j - i + 1) < fuel)%nat ->
  returns (GoSort.partition_loop less fuel d a i j)
          (fun '(d', _, j') => inv d' /\ a <= j' <= j).
Proof.
  revert d i j. induction fuel as [|fuel IH]; intros d i j Hd Ha Hi Hj Hf; [lia|].
  cbn [GoSort.partition_loop].
  eapply returns_bind; [apply scanLess_returns; [assumption|lia|lia|lia|lia]|].
  intros i1 Hi1. cbv beta in Hi1.
  eapply returns_bind; [apply scanNotLess_returns; [assumption|lia|lia|lia|lia]|].
  intros j1 Hj1. cbv beta in Hj1.
  destruct (j1 <? i1) eqn:E; [apply returns_Ok; split; [assumption|lia]|].
  apply Z.ltb_ge in E. step_swap.
  eapply returns_weaken; [apply IH; [assumption|lia|lia|lia|lia]|].
  intros [[d' i'] j']. cbv beta. intros [? ?]. split; [assumption|lia].
Qed.

Lemma partition_func_returns d a b pivot :
  inv d -> 0 <= a -> a <= pivot < b -> b <= n ->
  returns (GoSort.partition_func less d a b pivot)
          (fun '(d', mid, _) => inv d' /\ a <= mid < b).
Proof.
  intros Hd Ha Hp Hb. unfold GoSort.partition_func.
  step_swap.
  eapply returns_bind; [apply scanLess_returns; [assumption|lia|lia|lia|lia]|].
  intros i1 Hi1. cbv beta in Hi1.
  eapply returns_bind; [apply scanNotLess_returns; [assumption|lia|lia|lia|lia]|].
  intros j1 Hj1. cbv beta in Hj1.
  destruct (j1 <? i1) eqn:E.
  - apply Z.ltb_lt in E. step_swap. apply returns_Ok. split; [assumption|lia].
  - apply Z.ltb_ge in E. step_swap.
    eapply returns_bind; [apply partition_loop_returns; [assumption|lia|lia|lia|lia]|].
    intros [[d' i'] j']. cbv beta. intros [Hd' Hj'].
    step_swap. apply returns_Ok. split; [assumption|lia].
Qed.

Lemma partitionEqual_loop_returns fuel d a i j :
  inv d -> 0 <= a < n -> 0 <= i -> j < n -> (Z.to_nat (j - i + 1) < fuel)%nat ->
  returns (GoSort.partitionEqual_loop less fuel d a i j)
          (fun '(d', i') => inv d' /\ i <= i' /\ (i' <= j + 1 \/ i' = i)).
Proof.
  revert d i j. induction fuel as [|fuel IH]; intros d i j Hd Ha Hi Hj Hf; [lia|].
  cbn [GoSort.partitionEqual_loop].
  eapply returns_bind; [apply scanNotGreater_returns; [assumption|lia|lia|lia|lia]|].
  intros i1 Hi1. cbv beta in Hi1.
  eapply returns_bind; [apply scanGreater_returns; [assumption|lia|lia|lia|lia]|].
  intros j1 Hj1. cbv beta in Hj1.
  destruct (j1 <? i1) eqn:E; [apply returns_Ok; split; [assumption|lia]|].
  apply Z.ltb_ge in E. step_swap.
  eapply returns_weaken; [apply IH; [assumption|lia|lia|lia|lia]|].
  intros [d' i']. cbv beta. intros (? & ? & ?). split; [assumption|lia].
Qed.

Lemma partitionEqual_func_returns d a b pivot :
  inv d -> 0 <= a -> a <= pivot < b -> b <= n ->
  returns (GoSort.partitionEqual_func less d a b pivot)
          (fun '(d', mid) => inv d' /\ a < mid <= b).
Proof.
  intros Hd Ha Hp Hb. unfold GoSort.partitionEqual_func.
  step_swap.
  eapply returns_weaken; [apply partitionEqual_loop_returns; [assumption|lia|lia|lia|lia]|].
  intros [d' i']. cbv beta. intros (? & ? & ?). split; [assumption|lia].
Qed.

Lemma scanOrdered_returns fuel d b i :
  inv d -> 1 <= i -> b <= n -> (Z.to_nat (b - i) < fuel)%nat ->
  returns (GoSort.scanOrdered less fuel d b i) (fun i' => i <= i' /\ (i' <= b \/ i' = i)).
Proof.
  revert i. induction fuel as [|fuel IH]; intros i Hd Hi Hb Hf; [lia|].
  cbn [GoSort.scanOrdered].
  destruct (i <? b) eqn:E; [|apply returns_Ok; lia]. apply Z.ltb_lt in E.
  step_less. destruct lt; cbn [negb]; [apply returns_Ok; lia|].
  eapply returns_weaken; [apply IH; [assumption|lia|lia|lia]|].
  cbv beta. intros; lia.
Qed.

Lemma shiftLeft_returns fuel d j :
  inv d -> j < n -> (Z.to_nat j < fuel)%nat ->
  returns (GoSort.shiftLeft less fuel d j) inv.
Proof.
  revert d j. induction fuel as [|fuel IH]; intros d j Hd Hj Hf; [lia|].
  cbn [GoSort.shiftLeft].
  destruct (1 <=? j) eqn:E; [|apply returns_Ok, Hd]. apply Z.leb_le in E.
  step_less. destruct lt; cbn [negb]; [|apply returns_Ok, Hd].
  step_swap. apply IH; [assumption|lia|lia].
Qed.

Lemma shiftRight_returns fuel d b j :
  inv d -> 1 <= j -> b <= n -> (Z.to_nat (b - j) < fuel)%nat ->
  returns (GoSort.shiftRight less fuel d b j) inv.
Proof.
  revert d j. induction fuel as [|fuel IH]; intros d j Hd Hj Hb Hf; [lia|].
  cbn [GoSort.shiftRight].
  destruct (j <? b) eqn:E; [|apply returns_Ok, Hd]. apply Z.ltb_lt in E.
  step_less. destruct lt; cbn [negb]; [|apply returns_Ok, Hd].
  step_swap. apply IH; [assumption|lia|lia|lia].
Qed.

Lemma partialInsertionSort_loop_returns steps d a b i :
  inv d -> 0 <= a -> a + 1 <= i <= b -> b <= n ->
  returns (GoSort.partialInsertionSort_loop less steps d a b i) (fun '(d', _) => inv d').
Proof.
  revert d i. induction steps as [|steps IH]; intros d i Hd Ha Hi Hb.
  - apply returns_Ok, Hd.
  - cbn [GoSort.partialInsertionSort_loop].
    eapply returns_bind; [apply scanOrdered_returns; [assumption|lia|lia|lia]|].
    intros i1 Hi1. cbv beta in Hi1.
    destruct (i1 =? b) eqn:E; [apply returns_Ok, Hd|]. apply Z.eqb_neq in E.
    destruct (b - a <? GoSort.shortestShifting); [apply returns_Ok, Hd|].
    step_swap.
    eapply returns_bind with (P := inv).
    { destruct (2 <=? i1 - a); [|apply returns_Ok; assumption].
      apply shiftLeft_returns; [assumption|lia|lia]. }
    intros d1 Hd1.
    eapply returns_bind with (P := inv).
    { destruct (2 <=? b - i1); [|apply returns_Ok; assumption].
      apply shiftRight_returns; [assumption|lia|lia|lia]. }
    intros d2 Hd2. apply IH; [assumption|lia|lia|lia].
Qed.

Lemma partialInsertionSort_func_returns d a b :
  inv d -> 0 <= a < b -> b <= n ->
  returns (GoSort.partialInsertionSort_func less d a b) (fun '(d', _) => inv d').
Proof.
  intros Hd Ha Hb. unfold GoSort.partialInsertionSort_func.
  apply partialInsertionSort_loop_returns; [assumption|lia|lia|lia].
Qed.

Lemma reverseRange_loop_returns fuel d i j :
  inv d -> 0 <= i -> j < n -> (Z.to_nat (j - i + 1) < fuel)%nat ->
  returns (GoSort.reverseRange_loop fuel d i j) inv.
Proof.
  revert d i j. induction fuel as [|fuel IH]; intros d i j Hd Hi Hj Hf; [lia|].
  cbn [GoSort.reverseRange_loop].
  destruct (i <? j) eqn:E; [|apply returns_Ok, Hd]. apply Z.ltb_lt in E.
  step_swap. apply IH; [assumption|lia|lia|lia].
Qed.

Lemma reverseRange_func_returns d a b :
  inv d -> 0 <= a -> b <= n -> returns (GoSort.reverseRange_func d a b) inv.
Proof.
  intros Hd Ha Hb. unfold GoSort.reverseRange_func.
  apply reverseRange_loop_returns; [assumption|lia|lia|lia].
Qed.

Lemma breakPatterns_loop_returns k d a length m idx random i :
  inv d -> 0 <= a -> 0 < length -> a + length <= n ->
  0 <= m -> 2 ^ m <= 2 * length ->
  0 <= idx - 1 + i -> idx - 1 + i + Z.of_nat k <= n ->
  returns (GoSort.breakPatterns_loop k d a length (2 ^ m) idx random i) inv.
Proof.
  revert d random i. induction k as [|k IH]; intros d random i Hd Ha Hl Hb Hm Hm2 Hi Hk.
  - apply returns_Ok, Hd.
  - cbn [GoSort.breakPatterns_loop].
    set (other := Z.land (GoSort.xorshiftNext random) (2 ^ m - 1)).
    assert (Ho : 0 <= other < 2 ^ m).
    { subst other. change (2 ^ m - 1) with (Z.pred (2 ^ m)). rewrite <- Z.ones_equiv.
      rewrite Z.land_ones by assumption. apply Z.mod_pos_bound.
      apply Z.pow_pos_nonneg; lia. }
    destruct (length <=? other) eqn:E; [apply Z.leb_le in E|apply Z.leb_gt in E].
    + step_swap. apply IH; try assumption; lia.
    + step_swap. apply IH; try assumption; lia.
Qed.

Lemma quot4 l : 0 <= l -> 4 * Z.quot l 4 <= l < 4 * Z.quot l 4 + 4.
Proof.
  intros H. pose proof (Z.quot_rem' l 4) as E.
  pose proof (Z.rem_bound_pos l 4 H ltac:(lia)). lia.
Qed.

Lemma breakPatterns_func_returns d a b :
  inv d -> 0 <= a -> b <= n -> returns (GoSort.breakPatterns_func d a b) inv.
Proof.
  intros Hd Ha Hb. unfold GoSort.breakPatterns_func. cbv zeta.
  destruct (8 <=? b - a) eqn:E; [|apply returns_Ok, Hd]. apply Z.leb_le in E.
  unfold GoSort.nextPowerOfTwo, GoSort.bitsLen.
  destruct (b - a <=? 0) eqn:E0; [apply Z.leb_le in E0; lia|].
  pose proof (Z.log2_nonneg (b - a)) as Hlog.
  destruct (Z.log2_spec (b - a) ltac:(lia)) as [Hl1 Hl2].
  rewrite Z.shiftl_1_l.
  pose proof (quot4 (b - a) ltac:(lia)) as Hq.
  apply breakPatterns_loop_returns; try assumption; try lia.
  rewrite Z.pow_succ_r in Hl2 by lia.
  replace (Z.log2 (b - a) + 1) with (Z.succ (Z.log2 (b - a))) by lia.
  rewrite Z.pow_succ_r by lia. lia.
Qed.

Lemma order2_func_returns d a b swaps :
  inv d -> 0 <= a < n -> 0 <= b < n ->
  returns (GoSort.order2_func less d a b swaps)
          (fun '(x, y, _) => x = a /\ y = b \/ x = b /\ y = a).
Proof.
  intros Hd Ha Hb. unfold GoSort.order2_func. step_less.
  destruct lt; apply returns_Ok; auto.
Qed.

Lemma median_func_returns d a b c swaps :
  inv d -> 0 <= a < n -> 0 <= b < n -> 0 <= c < n ->
  returns (GoSort.median_func less d a b c swaps)
          (fun '(m, _) => m = a \/ m = b \/ m = c).
Proof.
  intros Hd Ha Hb Hc. unfold GoSort.median_func.
  eapply returns_bind; [apply order2_func_returns; [assumption|lia|lia]|].
  intros [[a1 b1] s1] H1. cbv beta in H1.
  eapply returns_bind; [apply order2_func_returns; [assumption|lia|lia]|].
  intros [[b2 c2] s2] H2. cbv beta in H2.
  eapply returns_bind; [apply order2_func_returns; [assumption|lia|lia]|].
  intros [[a3 b3] s3] H3. cbv beta in H3.
  apply returns_Ok. lia.
Qed.

Lemma medianAdjacent_func_returns d a swaps :
  inv d -> 1 <= a -> a + 1 < n ->
  returns (GoSort.medianAdjacent_func less d a swaps)
          (fun '(m, _) => a - 1 <= m <= a + 1).
Proof.
  intros Hd Ha Hb. unfold GoSort.medianAdjacent_func.
  eapply returns_weaken; [apply median_func_returns; [assumption|lia|lia|lia]|].
  intros [m s]. cbv beta. lia.
Qed.

Lemma choosePivot_func_returns d a b :
  inv d -> 0 <= a < b -> b <= n ->
  returns (GoSort.choosePivot_func less d a b) (fun '(pivot, _) => a <= pivot < b).
Proof.
  intros Hd Ha Hb. unfold GoSort.choosePivot_func. cbv zeta.
  pose proof (quot4 (b - a) ltac:(lia)) as Hq. set (q := Z.quot (b - a) 4) in *.
  eapply returns_bind with (P := fun '(j, _) => a <= j < b).
  { destruct (8 <=? b - a) eqn:E8; [apply Z.leb_le in E8|apply returns_Ok; lia].
    eapply returns_bind
      with (P := fun '(i, j, k, _) => a <= i < b /\ a <= j < b /\ a <= k < b).
    { destruct (GoSort.shortestNinther <=? b - a) eqn:E50;
        [apply Z.leb_le in E50; unfold GoSort.shortestNinther in E50|apply returns_Ok; lia].
      eapply returns_bind; [apply medianAdjacent_func_returns; [assumption|lia|lia]|].
      intros [i1 s1] H1. cbv beta in H1.
      eapply returns_bind; [apply medianAdjacent_func_returns; [assumption|lia|lia]|].
      intros [j1 s2] H2. cbv beta in H2.
      eapply returns_bind; [apply medianAdjacent_func_returns; [assumption|lia|lia]|].
      intros [k1 s3] H3. cbv beta in H3.
      apply returns_Ok. lia. }
    intros [[[i1 j1] k1] s1] H1. cbv beta in H1.
    eapply returns_weaken; [apply median_func_returns; [assumption|lia|lia|lia]|].
    intros [m s]. cbv beta. lia. }
  intros [j s] Hj. cbv beta in Hj.
  destruct (s =? 0); [apply returns_Ok; exact Hj|].
  destruct (s =? GoSort.maxSwaps); apply returns_Ok; exact Hj.
Qed.

Lemma pdqsort_loop_returns fuel d a b limit wasBalanced wasPartitioned :
  inv d -> 0 <= a <= b -> b <= n -> (Z.to_nat (b - a) < fuel)%nat ->
  returns (GoSort.pdqsort_loop less fuel d a b limit wasBalanced wasPartitioned) inv.
Proof.
  revert d a b limit wasBalanced wasPartitioned.
  induction fuel as [|fuel IH]; intros d a b limit wb wp Hd Ha Hb Hf; [lia|].
  cbn [GoSort.pdqsort_loop]. cbv zeta.
  destruct (b - a <=? GoSort.maxInsertion) eqn:E12;
    [apply insertionSort_func_returns; [assumption|lia|lia]|].
  apply Z.leb_gt in E12. unfold GoSort.maxInsertion in E12.
  destruct (limit =? 0); [apply heapSort_func_returns; [assumption|lia|lia]|].
  eapply returns_bind with (P := fun '(d', _) => inv d').
  { destruct (negb wb); [|apply returns_Ok, Hd].
    eapply returns_bind; [apply breakPatterns_func_returns; [assumption|lia|lia]|].
    intros d' Hd'. apply returns_Ok, Hd'. }
  intros [d1 limit1] Hd1. cbv beta in Hd1.
  eapply returns_bind; [apply choosePivot_func_returns; [assumption|lia|lia]|].
  intros [pivot hint] Hp. cbv beta in Hp.
  eapply returns_bind with (P := fun '(d', pivot', _) => inv d' /\ a <= pivot' < b).
  { destruct (GoSort.isDecreasing hint); [|apply returns_Ok; auto].
    eapply returns_bind; [apply reverseRange_func_returns; [assumption|lia|lia]|].
    intros d' Hd'. apply returns_Ok. split; [assumption|lia]. }
  intros [[d2 pivot2] hint2] [Hd2 Hp2].
  eapply returns_bind with (P := fun '(d', _) => inv d').
  { destruct (wb && wp && GoSort.isIncreasing hint2); [|apply returns_Ok, Hd2].
    apply partialInsertionSort_func_returns; [assumption|lia|lia]. }
  intros [d3 sorted] Hd3. cbv beta in Hd3.
  destruct sorted; [apply returns_Ok, Hd3|].
  eapply returns_bind with (P := fun _ => True).
  { destruct (0 <? a) eqn:E0; [apply Z.ltb_lt in E0|apply returns_Ok, I].
    step_less. apply returns_Ok, I. }
  intros dup _. destruct dup.
  - eapply returns_bind; [apply partitionEqual_func_returns; [assumption|lia|lia|lia]|].
    intros [d4 mid] [Hd4 Hmid]. apply IH; [assumption|lia|lia|lia].
  - eapply returns_bind; [apply partition_func_returns; [assumption|lia|lia|lia]|].
    intros [[d4 mid] ap] [Hd4 Hmid].
    destruct (mid - a <? b - mid).
    + eapply returns_bind; [apply IH; [assumption|lia|lia|lia]|].
      intros d5 Hd5. apply IH; [assumption|lia|lia|lia].
    + eapply returns_bind; [apply IH; [assumption|lia|lia|lia]|].
      intros d5 Hd5. apply IH; [assumption|lia|lia|lia].
Qed.

(** [sort.Slice] returns, and with the elements it was given, whenever the
    comparison returns. *)
Lemma Slice_returns : returns (GoSort.Slice less data0) (fun d => d ≡ₚ data0).
Proof.
  unfold GoSort.Slice, GoSort.pdqsort_func. fold n.
  apply pdqsort_loop_returns; [unfold inv; reflexivity|lia|lia|lia].
Qed.

End AnyComparison.

(** ** [SortFeatureCollection] and [main] *)

Lemma featureLess_comparable data i j :
  Forall comparable data ->
  0 <= i < Z.of_nat (length data) -> 0 <= j < Z.of_nat (length data) ->
  exists b, featureLess data i j = Ok b.
Proof.
  intros Hall Hi Hj. rewrite Forall_forall in Hall.
  destruct (index_in_range data i Hi) as (fi & Ei & Ii).
  destruct (index_in_range data j Hj) as (fj & Ej & Ij).
  destruct (Hall fi Ii) as (Ai & Pi & Hi').
  destruct (Hall fj Ij) as (Aj & Pj & Hj').
  eapply featureLess_total; eassumption.
Qed.

Lemma Slice_featureLess_returns data :
  Forall comparable data ->
  returns (GoSort.Slice featureLess data) (fun d => d ≡ₚ data).
Proof.
  intros Hall. apply Slice_returns. intros d i j Hd Hi Hj.
  apply featureLess_comparable.
  - rewrite Hd. exact Hall.
  - rewrite (Permutation_length Hd). exact Hi.
  - rewrite (Permutation_length Hd). exact Hj.
Qed.

(** X13.  Sorting never fails on features the comparison can read, and it
    returns the features it was given, each as often as it was there. *)
Theorem SortFeatureCollection_permutes (fc : FeatureCollection) :
  Forall comparable (Features fc) ->
  exists sorted, SortFeatureCollection fc = Ok sorted /\
                 Features sorted ≡ₚ Features fc.
Proof.
  intros Hall. unfold SortFeatureCollection.
  destruct (Slice_featureLess_returns (Features fc) Hall) as (d & -> & Hd).
  cbn [bind]. eexists. split; [reflexivity|exact Hd].
Qed.

Lemma ReadShapefile_comparable fs lk name out :
  ReadShapefile fs lk name = Ok out -> Forall comparable (Features (featureCollection out)).
Proof.
  intros H. apply Forall_forall. intros f Hin.
  destruct (ReadShapefile_features _ _ _ _ _ H Hin) as (rdr & row & _ & _ & He).
  apply readRecord_strings in He. exact He.
Qed.

Lemma SortFeatureCollection_permutes_witness :
  exists sorted, SortFeatureCollection featuresUnsorted = Ok sorted /\
                 Features sorted ≡ₚ Features featuresUnsorted.
Proof.
  apply (SortFeatureCollection_permutes featuresUnsorted).
  assert (H : ReadShapefile (addressFile [rowA3; rowB1; rowX2]) sortLookups "in.shp" =
              Ok {| featureCollection := {| Features := [fA3; fB1; fX2] |}; stdout := [] |})
    by (vm_compute; reflexivity).
  apply ReadShapefile_comparable in H. cbn [featureCollection Features] in H.
  rewrite Forall_forall in H. apply Forall_forall. intros f Hf.
  apply H. cbn [featuresUnsorted Features] in Hf.
  repeat (apply elem_of_cons in Hf; destruct Hf as [->|Hf]; [set_solver|]).
  apply elem_of_nil in Hf. contradiction.
Defined.

(** X16.  When the lookups and the address table have been read, [main]
    goes on to the end: the sort returns the features of the table in some
    order, and the lines printed are those of the reading. *)
Theorem main_returns fs input lk out :
  ReadLookups fs = Ok lk -> ReadShapefile fs lk input = Ok out ->
  exists sorted,
    main fs input = Ok {| featureCollection := sorted; stdout := stdout out |} /\
    Features sorted ≡ₚ Features (featureCollection out).
Proof.
  intros Hl Hr. unfold main. rewrite Hl. cbn [bind]. rewrite Hr. cbn [bind].
  unfold SortFeatureCollection.
  destruct (Slice_featureLess_returns (Features (featureCollection out))) as (d & -> & Hd).
  - eapply ReadShapefile_comparable, Hr.
  - cbn [bind]. eexists. split; [reflexivity|exact Hd].
Qed.

Lemma main_returns_witness :
  exists sorted,
    main sampleFiles "in.shp" =
      Ok {| featureCollection := sorted; stdout := ["skipping invalid..."] |} /\
    Features sorted ≡ₚ
      [featureOf sampleFilesLookups
         (sampleRow "12A" "5" "6" "7" "20200131" "V" 14.50000001%float 46.05%float)].
Proof.
  apply (main_returns sampleFiles "in.shp" sampleFilesLookups
           {| featureCollection :=
                {| Features :=
                     [featureOf sampleFilesLookups
                        (sampleRow "12A" "5" "6" "7" "20200131" "V"
                                   14.50000001%float 46.05%float)] |};
              stdout := ["skipping invalid..."] |}).
  - vm_compute. reflexivity.
  - vm_compute. reflexivity.
Defined.

(** ** Positions of a slice and exchanges *)

Lemma nthZ_Some {A} (d : list A) i x :
  nthZ d i = Some x -> 0 <= i < Z.of_nat (length d).
Proof.
  unfold nthZ. destruct (0 <=? i) eqn:E; [|discriminate].
  apply Z.leb_le in E. intros H. apply lookup_lt_Some in H. lia.
Qed.

Lemma nthZ_is_Some {A} (d : list A) i :
  0 <= i < Z.of_nat (length d) -> exists x, nthZ d i = Some x.
Proof.
  intros H. unfold nthZ. destruct (0 <=? i) eqn:E; [|apply Z.leb_gt in E; lia].
  destruct (lookup_lt_is_Some_2 d (Z.to_nat i)) as [x Hx]; [lia|]. exists x. exact Hx.
Qed.

Lemma nthZ_elem_of {A} (d : list A) i x : nthZ d i = Some x -> x ∈ d.
Proof.
  unfold nthZ. destruct (0 <=? i); [|discriminate]. apply list_elem_of_lookup_2.
Qed.

Lemma index_nthZ {A} (d : list A) i x : GoSort.index d i = Ok x <-> nthZ d i = Some x.
Proof.
  unfold GoSort.index, nthZ. destruct (0 <=? i); [destruct (d !! Z.to_nat i)|];
    split; intros H; try discriminate; injection H as ->; reflexivity.
Qed.

Lemma Swap_swapped {A} (d : list A) i j d' : GoSort.Swap d i j = Ok d' -> swapped d i j d'.
Proof.
  unfold GoSort.Swap. intros H. inv_bind H. inv_bind H. injection H as <-.
  exists a, a0. rewrite <- !index_nthZ. auto.
Qed.

Lemma swapped_nthZ {A} (d : list A) i j d' k :
  swapped d i j d' ->
  nthZ d' k = if k =? j then nthZ d i else if k =? i then nthZ d j else nthZ d k.
Proof.
  intros (x & y & Hx & Hy & ->).
  pose proof (nthZ_Some _ _ _ Hx) as Bi. pose proof (nthZ_Some _ _ _ Hy) as Bj.
  destruct (k =? j) eqn:Ej; [apply Z.eqb_eq in Ej; subst k|apply Z.eqb_neq in Ej].
  - rewrite Hx. unfold nthZ. destruct (0 <=? j) eqn:E; [|apply Z.leb_gt in E; lia].
    apply list_lookup_insert_eq. rewrite length_insert. lia.
  - destruct (k =? i) eqn:Ei; [apply Z.eqb_eq in Ei; subst k|apply Z.eqb_neq in Ei].
    + rewrite Hy. unfold nthZ. destruct (0 <=? i) eqn:E; [|apply Z.leb_gt in E; lia].
      rewrite list_lookup_insert_ne by lia. apply list_lookup_insert_eq. lia.
    + unfold nthZ. destruct (0 <=? k) eqn:E; [apply Z.leb_le in E|reflexivity].
      rewrite !list_lookup_insert_ne by lia. reflexivity.
Qed.

Lemma swapped_perm {A} (d : list A) i j d' : swapped d i j d' -> d' ≡ₚ d.
Proof.
  intros (x & y & Hx & Hy & ->). unfold nthZ in Hx, Hy.
  destruct (0 <=? i); [|discriminate]. destruct (0 <=? j); [|discriminate].
  apply Permutation_insert_swap; assumption.
Qed.

(** ** Rearrangements of a part of the slice *)

Section Rearranged.

Context {A : Type} {le : A -> A -> Prop} `{!PreOrder le}.

Lemma le_refl x : le x x.
Proof. reflexivity. Qed.

Lemma le_trans x y z : le x y -> le y z -> le x z.
Proof. intros H1 H2. etransitivity; eassumption. Qed.

Local Hint Resolve le_refl : core.

Lemma respects_above (p : A) : respects le (le p).
Proof. intros x y Hxy _ Hp. eapply le_trans; eassumption. Qed.

Lemma respects_under (p : A) : respects le (fun x => le x p).
Proof. intros x y _ Hyx Hp. eapply le_trans; eassumption. Qed.

Lemma rearranged_refl a b (d : list A) : rearranged le a b d d.
Proof.
  split; [reflexivity|]. split; [|auto].
  intros k x _ H. exists x. auto.
Qed.

Lemma rearranged_trans a b (d1 d2 d3 : list A) :
  rearranged le a b d1 d2 -> rearranged le a b d2 d3 -> rearranged le a b d1 d3.
Proof.
  intros (P1 & O1 & I1) (P2 & O2 & I2). split; [etransitivity; eassumption|]. split.
  - intros k x3 Hk H3. destruct (O2 k x3 Hk H3) as (x2 & H2 & L1 & L2).
    destruct (O1 k x2 Hk H2) as (x1 & H1 & L3 & L4).
    exists x1. split; [exact H1|]. split; eapply le_trans; eassumption.
  - intros P HP H. apply I2; [exact HP|]. apply I1; assumption.
Qed.

Lemma rearranged_mono a b a' b' (d d' : list A) :
  a' <= a -> b <= b' -> rearranged le a b d d' -> rearranged le a' b' d d'.
Proof.
  intros Ha Hb (P1 & O1 & I1). split; [exact P1|]. split.
  - intros k x' Hk. apply O1. lia.
  - intros P HP H k x' Hk Hx'.
    destruct (decide (a <= k < b)) as [Hin|Hout].
    + eapply (I1 P HP); [|exact Hin|exact Hx']. intros k0 x0 Hk0. apply H. lia.
    + destruct (O1 k x' ltac:(lia) Hx') as (x & Hx & L1 & L2).
      apply (HP x x' L1 L2). eapply H; [exact Hk|exact Hx].
Qed.

Lemma rearranged_swap_in a b (d d' : list A) i j :
  a <= i < b -> a <= j < b -> swapped d i j d' -> rearranged le a b d d'.
Proof.
  intros Hi Hj Hs. split; [eapply swapped_perm; exact Hs|]. split.
  - intros k x' Hk. rewrite (swapped_nthZ _ _ _ _ k Hs).
    destruct (k =? j) eqn:Ej; [apply Z.eqb_eq in Ej; lia|].
    destruct (k =? i) eqn:Ei; [apply Z.eqb_eq in Ei; lia|].
    intros H. exists x'. auto.
  - intros P HP H k x' Hk. rewrite (swapped_nthZ _ _ _ _ k Hs).
    destruct (k =? j); [apply H; exact Hi|].
    destruct (k =? i); [apply H; exact Hj|]. apply H; exact Hk.
Qed.

Lemma rearranged_swap_eq a b (d d' : list A) i j x y :
  swapped d i j d' -> nthZ d i = Some x -> nthZ d j = Some y ->
  le x y -> le y x -> rearranged le a b d d'.
Proof.
  intros Hs Hx Hy L1 L2. split; [eapply swapped_perm; exact Hs|]. split.
  - intros k x' Hk. rewrite (swapped_nthZ _ _ _ _ k Hs).
    destruct (k =? j) eqn:Ej; [apply Z.eqb_eq in Ej; subst k|].
    { rewrite Hx. intros [= <-]. exists y. auto. }
    destruct (k =? i) eqn:Ei; [apply Z.eqb_eq in Ei; subst k|].
    { rewrite Hy. intros [= <-]. exists x. auto. }
    intros H. exists x'. auto.
  - intros P HP H k x' Hk. rewrite (swapped_nthZ _ _ _ _ k Hs).
    destruct (k =? j) eqn:Ej; [apply Z.eqb_eq in Ej; subst k|].
    { rewrite Hx. intros [= <-]. apply (HP y x L2 L1). eapply H; [exact Hk|exact Hy]. }
    destruct (k =? i) eqn:Ei; [apply Z.eqb_eq in Ei; subst k|].
    { rewrite Hy. intros [= <-]. apply (HP x y L1 L2). eapply H; [exact Hk|exact Hx]. }
    apply H; exact Hk.
Qed.

Lemma rearranged_perm a b (d d' : list A) : rearranged le a b d d' -> d' ≡ₚ d.
Proof. intros (P1 & _). exact P1. Qed.

Lemma rearranged_length a b (d d' : list A) :
  rearranged le a b d d' -> length d' = length d.
Proof. intros (P1 & _). apply Permutation_length, P1. Qed.

Lemma rearranged_outside a b (d d' : list A) k x' :
  rearranged le a b d d' -> k < a \/ b <= k -> nthZ d' k = Some x' ->
  exists x, nthZ d k = Some x /\ le x x' /\ le x' x.
Proof. intros (_ & O1 & _). apply O1. Qed.

(** What holds of all elements of a part of the slice still holds after a
    rearrangement inside the part or away from it. *)
Lemma rearranged_allIn a b a' b' (d d' : list A) P :
  rearranged le a b d d' -> b' <= a \/ b <= a' \/ a' <= a /\ b <= b' ->
  respects le P -> allIn d a' b' P -> allIn d' a' b' P.
Proof.
  intros Hr Hc HP H k x' Hk Hx'.
  destruct (decide (a <= k < b)) as [Hin|Hout].
  - assert (Hsub : a' <= a /\ b <= b') by lia.
    destruct (rearranged_mono a b a' b' d d' ltac:(lia) ltac:(lia) Hr) as (_ & _ & I1).
    eapply (I1 P HP H); eassumption.
  - destruct (rearranged_outside a b d d' k x' Hr ltac:(lia) Hx') as (x & Hx & L1 & L2).
    apply (HP x x' L1 L2). eapply H; [exact Hk|exact Hx].
Qed.

Lemma rearranged_below a b a' m b' (d d' : list A) :
  rearranged le a b d d' ->
  b <= a' \/ b' <= a \/ a' <= a /\ b <= m \/ m <= a /\ b <= b' ->
  below le d a' m b' -> below le d' a' m b'.
Proof.
  intros Hr Hc H i j x' y' Hi Hj Hx' Hy'.
  pose proof (rearranged_length _ _ _ _ Hr) as Hlen.
  pose proof (nthZ_Some _ _ _ Hx') as Bi. pose proof (nthZ_Some _ _ _ Hy') as Bj.
  destruct (nthZ_is_Some d j ltac:(lia)) as [y Hy].
  destruct (decide (a <= j < b)) as [Hjin|Hjout].
  - (* [j] inside the rearranged part: the part lies in [d[m:b']] *)
    assert (Hsub : m <= a /\ b <= b') by lia.
    assert (Hi' : i < a \/ b <= i) by lia.
    destruct (rearranged_outside a b d d' i x' Hr Hi' Hx') as (x & Hx & L1 & L2).
    apply le_trans with x; [exact L2|].
    assert (Hal : allIn d' m b' (le x)).
    { apply (rearranged_allIn a b m b' d d' (le x) Hr); [lia|apply respects_above|].
      intros k z Hk Hz. eapply H; [exact Hi|exact Hk|exact Hx|exact Hz]. }
    eapply Hal; [exact Hj|exact Hy'].
  - destruct (rearranged_outside a b d d' j y' Hr ltac:(lia) Hy') as (y0 & Hy0 & L1 & L2).
    apply le_trans with y0; [|exact L1].
    assert (Hal : allIn d' a' m (fun x => le x y0)).
    { apply (rearranged_allIn a b a' m d d' _ Hr); [|apply respects_under|].
      - destruct (decide (a <= i < b)); lia.
      - intros k z Hk Hz. eapply H; [exact Hk|exact Hj|exact Hz|exact Hy0]. }
    eapply Hal; [exact Hi|exact Hx'].
Qed.

Lemma rearranged_sortedBy a b a' b' (d d' : list A) :
  rearranged le a b d d' -> b' <= a \/ b <= a' ->
  sortedBy le d a' b' -> sortedBy le d' a' b'.
Proof.
  intros Hr Hc H i j x' y' Hi Hij Hj Hx' Hy'.
  destruct (rearranged_outside a b d d' i x' Hr ltac:(lia) Hx') as (x & Hx & L1 & L2).
  destruct (rearranged_outside a b d d' j y' Hr ltac:(lia) Hy') as (y & Hy & L3 & L4).
  apply le_trans with x; [exact L2|]. apply le_trans with y; [|exact L3].
  eapply H; [exact Hi|exact Hij|exact Hj|exact Hx|exact Hy].
Qed.

End Rearranged.

(** ** Insertion sort *)

Tactic Notation "inv_bind_as" hyp(H) ident(x) ident(Hx) :=
  apply bind_Ok in H; destruct H as (x & Hx & H).

Ltac eqb_cases :=
  repeat match goal with
  | H : context [?a =? ?b] |- _ => destruct (Z.eqb_spec a b)
  | |- context [?a =? ?b] => destruct (Z.eqb_spec a b)
  end.

Ltac same_elem :=
  repeat match goal with
  | H1 : nthZ ?d ?i = Some ?x, H2 : nthZ ?d ?i = Some ?y |- _ =>
    rewrite H1 in H2; injection H2 as H2; try subst
  end.

Lemma nthZ_eq {A} (d : list A) p q x : p = q -> nthZ d p = Some x -> nthZ d q = Some x.
Proof. intros ->. auto. Qed.

(** The element at a position, from a hypothesis on an equal position. *)
Ltac at_pos := eapply nthZ_eq; [|eassumption]; lia.

(** Conclude by a fact on two positions, found among the hypotheses. *)
Ltac by_pos H :=
  eapply H; [..|first [eassumption|at_pos]|first [eassumption|at_pos]]; lia.

Section InsertionSort.

Context {A : Type} {less : list A -> Z -> Z -> result bool}
        {le : A -> A -> Prop} {data0 : list A}.
Context `{!PreOrder le} `{!Compares less le data0}.

Lemma Less_true d i j x y :
  d ≡ₚ data0 -> GoSort.Less less d i j = Ok true ->
  nthZ d i = Some x -> nthZ d j = Some y -> le x y.
Proof.
  intros Hd H Hx Hy. destruct (compares d i j true Hd H) as (x0 & y0 & Hx0 & Hy0 & L).
  same_elem. exact L.
Qed.

Lemma Less_false d i j x y :
  d ≡ₚ data0 -> GoSort.Less less d i j = Ok false ->
  nthZ d i = Some x -> nthZ d j = Some y -> le y x.
Proof.
  intros Hd H Hx Hy. destruct (compares d i j false Hd H) as (x0 & y0 & Hx0 & Hy0 & L).
  same_elem. exact L.
Qed.

Lemma le_same d p q x y :
  p = q -> nthZ d p = Some x -> nthZ d q = Some y -> le x y.
Proof. intros -> H1 H2. rewrite H1 in H2. injection H2 as ->. apply le_refl. Qed.

Lemma Less_elems d i j r :
  d ≡ₚ data0 -> GoSort.Less less d i j = Ok r ->
  exists x y, nthZ d i = Some x /\ nthZ d j = Some y.
Proof.
  intros Hd H. destruct (compares d i j r Hd H) as (x & y & Hx & Hy & _). eauto.
Qed.

Lemma insertionSort_inner_sorted fuel d a i j d' :
  d ≡ₚ data0 -> a <= j <= i ->
  (forall p q x y, a <= p -> p < q -> q <= i -> p <> j -> q <> j ->
     nthZ d p = Some x -> nthZ d q = Some y -> le x y) ->
  (forall q x y, j < q <= i -> nthZ d j = Some x -> nthZ d q = Some y -> le x y) ->
  GoSort.insertionSort_inner less fuel d a j = Ok d' ->
  rearranged le a (i + 1) d d' /\ sortedBy le d' a (i + 1).
Proof.
  revert d j. induction fuel as [|fuel IH]; intros d j Hd Hj I1 I2 H; [discriminate|].
  cbn [GoSort.insertionSort_inner] in H.
  destruct (a <? j) eqn:E; [apply Z.ltb_lt in E|apply Z.ltb_ge in E].
  - inv_bind H. destruct a0.
    + inv_bind H. apply Swap_swapped in Ha0.
      destruct (Less_elems _ _ _ _ Hd Ha) as (x & y & Hx & Hy).
      pose proof (Less_true _ _ _ _ _ Hd Ha Hx Hy) as L.
      assert (Hd1 : a0 ≡ₚ data0) by (rewrite (swapped_perm _ _ _ _ Ha0); exact Hd).
      destruct (IH a0 (j - 1) Hd1 ltac:(lia)) as [R S]; [| |exact H|].
      * intros p q x1 y1 Hp Hpq Hq Np Nq.
        rewrite !(swapped_nthZ _ _ _ _ _ Ha0). intros H1 H2.
        eqb_cases; try lia; by_pos I1.
      * intros q x1 y1 Hq. rewrite !(swapped_nthZ _ _ _ _ _ Ha0). intros H1 H2.
        eqb_cases; try lia; same_elem; [exact L|by_pos I2].
      * split; [|exact S]. eapply rearranged_trans; [|exact R].
        eapply rearranged_swap_in; [| |exact Ha0]; lia.
    + injection H as <-. split; [apply rearranged_refl|].
      destruct (Less_elems _ _ _ _ Hd Ha) as (x & y & Hx & Hy).
      pose proof (Less_false _ _ _ _ _ Hd Ha Hx Hy) as L.
      intros p q x1 y1 Hp Hpq Hq H1 H2.
      destruct (Z.eq_dec q j) as [->|Nq].
      * same_elem. destruct (Z.eq_dec p (j - 1)) as [->|Np].
        -- same_elem. exact L.
        -- apply le_trans with y; [|exact L]. by_pos I1.
      * destruct (Z.eq_dec p j) as [->|Np]; [by_pos I2|by_pos I1].
  - injection H as <-. split; [apply rearranged_refl|].
    intros p q x1 y1 Hp Hpq Hq H1 H2.
    destruct (Z.eq_dec p j) as [->|Np]; [by_pos I2|by_pos I1].
Qed.

Lemma insertionSort_outer_sorted fuel d a b i d' :
  d ≡ₚ data0 -> a < i -> sortedBy le d a i ->
  GoSort.insertionSort_outer less fuel d a b i = Ok d' ->
  rearranged le a (Z.max i b) d d' /\ sortedBy le d' a (Z.max i b).
Proof.
  revert d i. induction fuel as [|fuel IH]; intros d i Hd Hi Hs H; [discriminate|].
  cbn [GoSort.insertionSort_outer] in H.
  destruct (i <? b) eqn:E; [apply Z.ltb_lt in E|apply Z.ltb_ge in E].
  - inv_bind H.
    destruct (insertionSort_inner_sorted (S (Z.to_nat (i - a))) d a i i a0 Hd
                ltac:(lia)) as [R1 S1]; [| |exact Ha|].
    + intros p q x y Hp Hpq Hq Np Nq. apply Hs; lia.
    + intros q x y Hq. lia.
    + assert (Hd1 : a0 ≡ₚ data0) by (rewrite (rearranged_perm _ _ _ _ R1); exact Hd).
      destruct (IH a0 (i + 1) Hd1 ltac:(lia) S1 H) as [R2 S2].
      replace (Z.max (i + 1) b) with (Z.max i b) in * by lia.
      split; [|exact S2]. eapply rearranged_trans; [|exact R2].
      eapply rearranged_mono; [| |exact R1]; lia.
  - injection H as <-. replace (Z.max i b) with i by lia.
    split; [apply rearranged_refl|exact Hs].
Qed.

Lemma insertionSort_func_sorted d a b d' :
  d ≡ₚ data0 -> a <= b ->
  GoSort.insertionSort_func less d a b = Ok d' ->
  rearranged le a b d d' /\ sortedBy le d' a b.
Proof.
  intros Hd Hab H. unfold GoSort.insertionSort_func in H.
  destruct (insertionSort_outer_sorted (S (Z.to_nat (b - a))) d a b (a + 1) d' Hd
              ltac:(lia)) as [R Hs]; [|exact H|].
  - intros p q x y Hp Hpq Hq. lia.
  - destruct (Z.eq_dec a b) as [->|Hne].
    + split.
      * (* nothing to sort: the loop does not run *)
        cbn [GoSort.insertionSort_outer] in H.
        destruct (b + 1 <? b) eqn:E; [apply Z.ltb_lt in E; lia|].
        injection H as <-. apply rearranged_refl.
      * intros p q x y Hp Hpq Hq. lia.
    + replace (Z.max (a + 1) b) with b in * by lia. split; assumption.
Qed.

End InsertionSort.

(** Conclude by a comparison that returned, or by two hypotheses on the
    same position. *)
Ltac by_less H :=
  first [eapply Less_true; [|exact H|at_pos|at_pos]; eassumption
        |eapply Less_false; [|exact H|at_pos|at_pos]; eassumption].
Ltac by_same := eapply le_same; [|eassumption|eassumption]; lia.

(** ** Heap sort *)

Section HeapSort.

Context {A : Type} {less : list A -> Z -> Z -> result bool}
        {le : A -> A -> Prop} {data0 : list A}.
Context `{!PreOrder le} `{!Compares less le data0}.

Lemma siftDown_loop_heap fuel d root hi first lo d' :
  d ≡ₚ data0 -> 0 <= lo <= root ->
  (forall p q x y, first + lo <= p -> p <> first + root ->
     q - first = 2 * (p - first) + 1 \/ q - first = 2 * (p - first) + 2 ->
     q < first + hi -> nthZ d p = Some x -> nthZ d q = Some y -> le y x) ->
  (forall p q x y, first + lo <= p ->
     root = 2 * (p - first) + 1 \/ root = 2 * (p - first) + 2 ->
     q - first = 2 * root + 1 \/ q - first = 2 * root + 2 ->
     q < first + hi -> nthZ d p = Some x -> nthZ d q = Some y -> le y x) ->
  GoSort.siftDown_loop less fuel d root hi first = Ok d' ->
  rearranged le (first + lo) (first + hi) d d' /\ heapFrom le d' first lo hi.
Proof.
  revert d root. induction fuel as [|fuel IH]; intros d root Hd Hr J1 J2 H; [discriminate|].
  cbn [GoSort.siftDown_loop] in H. cbv zeta in H.
  destruct (hi <=? 2 * root + 1) eqn:E; [apply Z.leb_le in E|apply Z.leb_gt in E].
  { injection H as <-. split; [apply rearranged_refl|].
    intros p q x y Hp Hq Hh Hx Hy.
    destruct (Z.eq_dec p (first + root)) as [->|Np]; [lia|]. by_pos J1. }
  inv_bind H. rename a into child.
  (* the child chosen is not below the other one *)
  assert (C : (child = 2 * root + 1 \/ child = 2 * root + 2) /\ child < hi /\
              forall q y z, q - first = 2 * root + 1 \/ q - first = 2 * root + 2 ->
                q < first + hi -> nthZ d q = Some y -> nthZ d (first + child) = Some z ->
                le y z).
  { destruct (2 * root + 1 + 1 <? hi) eqn:E2; [apply Z.ltb_lt in E2|apply Z.ltb_ge in E2].
    - inv_bind Ha. destruct a; injection Ha as <-.
      + split; [lia|]. split; [lia|]. intros q y z Hq Hh Hy Hz.
        destruct (Z.eq_dec q (first + (2 * root + 1))) as [Eq|Nq];
          [by_less Ha0|by_same].
      + split; [lia|]. split; [lia|]. intros q y z Hq Hh Hy Hz.
        destruct (Z.eq_dec q (first + (2 * root + 1))) as [Eq|Nq];
          [by_same|by_less Ha0].
    - injection Ha as <-. split; [lia|]. split; [lia|].
      intros q y z Hq Hh Hy Hz. by_same. }
  clear Ha. destruct C as (Hc & Hch & C).
  inv_bind H. destruct (Less_elems _ _ _ _ Hd Ha) as (r & c & Hr' & Hc').
  destruct a; cbn [negb] in H.
  - inv_bind H. apply Swap_swapped in Ha0. rename a into d1.
    assert (Hd1 : d1 ≡ₚ data0) by (rewrite (swapped_perm _ _ _ _ Ha0); exact Hd).
    destruct (IH d1 child Hd1 ltac:(lia)) as [R Hh]; [| |exact H|].
    + intros p q x y Hp Np Hq Hlt.
      rewrite !(swapped_nthZ _ _ _ _ _ Ha0). intros H1 H2.
      eqb_cases; first [lia|by_less Ha|by_pos C|by_pos J1|by_pos J2].
    + intros p q x y Hp Hpar Hq Hlt.
      rewrite !(swapped_nthZ _ _ _ _ _ Ha0). intros H1 H2.
      eqb_cases; first [lia|by_less Ha|by_pos C|by_pos J1|by_pos J2].
    + split; [|exact Hh]. eapply rearranged_trans; [|exact R].
      eapply rearranged_swap_in; [| |exact Ha0]; lia.
  - injection H as <-. split; [apply rearranged_refl|].
    intros p q x y Hp Hq Hh Hx Hy.
    destruct (Z.eq_dec p (first + root)) as [Ep|Np]; [|by_pos J1].
    apply le_trans with c; [by_pos C|by_less Ha].
Qed.

Lemma siftDown_func_heap d lo hi first d' :
  d ≡ₚ data0 -> 0 <= lo -> heapFrom le d first (lo + 1) hi ->
  GoSort.siftDown_func less d lo hi first = Ok d' ->
  rearranged le (first + lo) (first + hi) d d' /\ heapFrom le d' first lo hi.
Proof.
  intros Hd Hlo Hh H. unfold GoSort.siftDown_func in H.
  eapply siftDown_loop_heap; [exact Hd| | | |exact H].
  - lia.
  - intros p q x y Hp Np Hq Hlt Hx Hy. by_pos Hh.
  - intros p q x y Hp Hpar. lia.
Qed.

Lemma heapSort_build_heap fuel d i hi first d' :
  d ≡ₚ data0 -> -1 <= i -> heapFrom le d first (i + 1) hi ->
  GoSort.heapSort_build less fuel d i hi first = Ok d' ->
  rearranged le first (first + hi) d d' /\ heapFrom le d' first 0 hi.
Proof.
  revert d i. induction fuel as [|fuel IH]; intros d i Hd Hi Hh H; [discriminate|].
  cbn [GoSort.heapSort_build] in H.
  destruct (0 <=? i) eqn:E; [apply Z.leb_le in E|apply Z.leb_gt in E].
  - inv_bind H. rename a into d1.
    destruct (siftDown_func_heap d i hi first d1 Hd E Hh Ha) as [R1 H1].
    assert (Hd1 : d1 ≡ₚ data0) by (rewrite (rearranged_perm _ _ _ _ R1); exact Hd).
    replace i with (i - 1 + 1) in H1 by lia.
    destruct (IH d1 (i - 1) Hd1 ltac:(lia) H1 H) as [R2 H2].
    split; [|exact H2]. eapply rearranged_trans; [|exact R2].
    eapply rearranged_mono; [| |exact R1]; lia.
  - injection H as <-. split; [apply rearranged_refl|].
    replace 0 with (i + 1) by lia. exact Hh.
Qed.

(** The root of a heap is above all its elements. *)
Lemma heapFrom_root d first hi r :
  0 <= first -> first + hi <= Z.of_nat (length d) ->
  heapFrom le d first 0 hi -> nthZ d first = Some r ->
  forall (n : nat) p x, p - first <= Z.of_nat n -> first <= p < first + hi ->
    nthZ d p = Some x -> le x r.
Proof.
  intros Hf Hlen Hh Hr n. induction n as [|n IH]; intros p x Hn Hp Hx.
  - by_same.
  - destruct (Z.eq_dec p first) as [Ep|Np]; [by_same|].
    set (pp := first + (p - first - 1) / 2).
    pose proof (Z.div_mod (p - first - 1) 2 ltac:(lia)) as Hdm.
    pose proof (Z.mod_pos_bound (p - first - 1) 2 ltac:(lia)) as Hm.
    destruct (nthZ_is_Some d pp ltac:(subst pp; lia)) as [y Hy].
    apply le_trans with y.
    + eapply (Hh pp p); try eassumption; subst pp; lia.
    + apply (IH pp y); [subst pp; lia|subst pp; lia|exact Hy].
Qed.

Lemma heapSort_pop_sorted fuel d i first hi d' :
  d ≡ₚ data0 -> 0 <= first -> -1 <= i < hi -> first + hi <= Z.of_nat (length d) ->
  heapFrom le d first 0 (i + 1) ->
  sortedBy le d (first + (i + 1)) (first + hi) ->
  below le d first (first + (i + 1)) (first + hi) ->
  GoSort.heapSort_pop less fuel d i 0 first = Ok d' ->
  rearranged le first (first + hi) d d' /\ sortedBy le d' first (first + hi).
Proof.
  revert d i. induction fuel as [|fuel IH]; intros d i Hd Hf Hi Hlen Hh Hs Hb H;
    [discriminate|].
  cbn [GoSort.heapSort_pop] in H.
  destruct (0 <=? i) eqn:E; [apply Z.leb_le in E|apply Z.leb_gt in E].
  - inv_bind H. inv_bind H. rename a into d1, a0 into d2.
    apply Swap_swapped in Ha.
    assert (Hd1 : d1 ≡ₚ data0) by (rewrite (swapped_perm _ _ _ _ Ha); exact Hd).
    destruct (nthZ_is_Some d first ltac:(lia)) as [r Hr].
    pose proof (heapFrom_root d first (i + 1) r Hf ltac:(lia) Hh Hr) as Hmax.
    assert (Hmax' : forall p x y, first <= p < first + (i + 1) ->
                      nthZ d p = Some x -> nthZ d first = Some y -> le x y).
    { intros p x y Hp Hx Hy. rewrite Hr in Hy. injection Hy as <-.
      apply (Hmax (Z.to_nat (p - first)) p x); [lia|exact Hp|exact Hx]. }
    destruct (siftDown_func_heap d1 0 i first d2 Hd1 ltac:(lia)) as [R1 H1]; [|exact Ha0|].
    { intros p q x y Hp Hq Hlt. rewrite !(swapped_nthZ _ _ _ _ _ Ha). intros H1 H2.
      eqb_cases; try lia. by_pos Hh. }
    assert (Hd2 : d2 ≡ₚ data0) by (rewrite (rearranged_perm _ _ _ _ R1); exact Hd1).
    replace (first + 0) with first in R1 by lia.
    destruct (IH d2 (i - 1) Hd2 Hf ltac:(lia)) as [R2 S2]; [| | | |exact H|].
    + rewrite (rearranged_length _ _ _ _ R1), (Permutation_length (swapped_perm _ _ _ _ Ha)).
      exact Hlen.
    + replace (i - 1 + 1) with i by lia. exact H1.
    + replace (i - 1 + 1) with i by lia.
      eapply rearranged_sortedBy; [exact R1|lia|].
      intros p q x y Hp Hpq Hq. rewrite !(swapped_nthZ _ _ _ _ _ Ha). intros Hx Hy.
      eqb_cases; first [lia|by_pos Hb|by_pos Hs].
    + replace (i - 1 + 1) with i by lia.
      eapply rearranged_below; [exact R1|lia|].
      intros p q x y Hp Hq. rewrite !(swapped_nthZ _ _ _ _ _ Ha). intros Hx Hy.
      eqb_cases; first [lia|by_pos Hb|by_pos Hmax'|by_same].
    + split; [|exact S2]. eapply rearranged_trans; [|exact R2].
      eapply rearranged_trans.
      * eapply rearranged_swap_in; [| |exact Ha]; lia.
      * eapply rearranged_mono; [| |exact R1]; lia.
  - injection H as <-. split; [apply rearranged_refl|].
    replace first with (first + (i + 1)) at 1 by lia. exact Hs.
Qed.

Lemma heapSort_func_sorted d a b d' :
  d ≡ₚ data0 -> 0 <= a <= b -> b <= Z.of_nat (length d) ->
  GoSort.heapSort_func less d a b = Ok d' ->
  rearranged le a b d d' /\ sortedBy le d' a b.
Proof.
  intros Hd Hab Hlen H. unfold GoSort.heapSort_func in H. cbv zeta in H.
  inv_bind H. rename a0 into d1.
  assert (Hq : 2 * Z.quot (b - a - 1) 2 + 3 > b - a /\ -1 <= Z.quot (b - a - 1) 2).
  { destruct (Z.eq_dec a b) as [->|Hne].
    - replace (b - b - 1) with (-1) by lia. change (Z.quot (-1) 2) with 0. lia.
    - pose proof (Z.quot_rem' (b - a - 1) 2) as Hqr.
      pose proof (Z.rem_bound_pos (b - a - 1) 2 ltac:(lia) ltac:(lia)). lia. }
  assert (Hh0 : heapFrom le d a (Z.quot (b - a - 1) 2 + 1) (b - a)).
  { intros p q x y Hp Hc Hlt. lia. }
  destruct (heapSort_build_heap _ _ _ _ _ _ Hd (proj2 Hq) Hh0 Ha) as [R1 H1].
  assert (Hd1 : d1 ≡ₚ data0) by (rewrite (rearranged_perm _ _ _ _ R1); exact Hd).
  replace (a + (b - a)) with b in R1 by lia.
  assert (Hlen1 : a + (b - a) <= Z.of_nat (length d1))
    by (rewrite (rearranged_length _ _ _ _ R1); lia).
  assert (Hh1 : heapFrom le d1 a 0 (b - a - 1 + 1))
    by (replace (b - a - 1 + 1) with (b - a) by lia; exact H1).
  assert (Hs1 : sortedBy le d1 (a + (b - a - 1 + 1)) (a + (b - a)))
    by (intros p q x y Hp Hpq Hq'; lia).
  assert (Hb1 : below le d1 a (a + (b - a - 1 + 1)) (a + (b - a)))
    by (intros p q x y Hp Hq'; lia).
  assert (Hf1 : 0 <= a) by lia.
  assert (Hi1 : -1 <= b - a - 1 < b - a) by lia.
  destruct (heapSort_pop_sorted _ _ _ _ _ _ Hd1 Hf1 Hi1 Hlen1 Hh1 Hs1 Hb1 H) as [R2 S2].
  replace (a + (b - a)) with b in * by lia. split; [|exact S2].
  eapply rearranged_trans; eassumption.
Qed.

End HeapSort.

(** ** Partitions *)

Section Partition.

Context {A : Type} {less : list A -> Z -> Z -> result bool}
        {le : A -> A -> Prop} {data0 : list A}.
Context `{!PreOrder le} `{!Compares less le data0}.

Lemma scanLess_spec fuel d a i j i' :
  d ≡ₚ data0 -> GoSort.scanLess less fuel d a i j = Ok i' ->
  i <= i' <= Z.max i (j + 1) /\
  (forall k x p, i <= k < i' -> nthZ d k = Some x -> nthZ d a = Some p -> le x p) /\
  (forall x p, i' <= j -> nthZ d i' = Some x -> nthZ d a = Some p -> le p x).
Proof.
  intros Hd. revert i. induction fuel as [|fuel IH]; intros i H; [discriminate|].
  cbn [GoSort.scanLess] in H.
  destruct (i <=? j) eqn:E; [apply Z.leb_le in E|apply Z.leb_gt in E].
  - inv_bind H. destruct a0.
    + destruct (IH (i + 1) H) as (B & L & U). split; [lia|]. split; [|exact U].
      intros k x p Hk Hx Hp. destruct (Z.eq_dec k i) as [Ek|Nk]; [by_less Ha|by_pos L].
    + injection H as <-. split; [lia|]. split; [intros k x p Hk; lia|].
      intros x p _ Hx Hp. by_less Ha.
  - injection H as <-. split; [lia|]. split; [intros k x p Hk; lia|].
    intros x p Hk. lia.
Qed.

Lemma scanNotLess_spec fuel d a i j j' :
  d ≡ₚ data0 -> GoSort.scanNotLess less fuel d a i j = Ok j' ->
  Z.min j (i - 1) <= j' <= j /\
  (forall k x p, j' < k <= j -> nthZ d k = Some x -> nthZ d a = Some p -> le p x) /\
  (forall x p, i <= j' -> nthZ d j' = Some x -> nthZ d a = Some p -> le x p).
Proof.
  intros Hd. revert j. induction fuel as [|fuel IH]; intros j H; [discriminate|].
  cbn [GoSort.scanNotLess] in H.
  destruct (i <=? j) eqn:E; [apply Z.leb_le in E|apply Z.leb_gt in E].
  - inv_bind H. destruct a0; cbn [negb] in H.
    + injection H as <-. split; [lia|]. split; [intros k x p Hk; lia|].
      intros x p _ Hx Hp. by_less Ha.
    + destruct (IH (j - 1) H) as (B & U & L). split; [lia|]. split; [|exact L].
      intros k x p Hk Hx Hp. destruct (Z.eq_dec k j) as [Ek|Nk]; [by_less Ha|by_pos U].
  - injection H as <-. split; [lia|]. split; [intros k x p Hk; lia|].
    intros x p Hk. lia.
Qed.

Lemma scanNotGreater_spec fuel d a i j i' :
  d ≡ₚ data0 -> GoSort.scanNotGreater less fuel d a i j = Ok i' ->
  i <= i' <= Z.max i (j + 1) /\
  (forall k x p, i <= k < i' -> nthZ d k = Some x -> nthZ d a = Some p -> le x p) /\
  (forall x p, i' <= j -> nthZ d i' = Some x -> nthZ d a = Some p -> le p x).
Proof.
  intros Hd. revert i. induction fuel as [|fuel IH]; intros i H; [discriminate|].
  cbn [GoSort.scanNotGreater] in H.
  destruct (i <=? j) eqn:E; [apply Z.leb_le in E|apply Z.leb_gt in E].
  - inv_bind H. destruct a0; cbn [negb] in H.
    + injection H as <-. split; [lia|]. split; [intros k x p Hk; lia|].
      intros x p _ Hx Hp. by_less Ha.
    + destruct (IH (i + 1) H) as (B & L & U). split; [lia|]. split; [|exact U].
      intros k x p Hk Hx Hp. destruct (Z.eq_dec k i) as [Ek|Nk]; [by_less Ha|by_pos L].
  - injection H as <-. split; [lia|]. split; [intros k x p Hk; lia|].
    intros x p Hk. lia.
Qed.

Lemma scanGreater_spec fuel d a i j j' :
  d ≡ₚ data0 -> GoSort.scanGreater less fuel d a i j = Ok j' ->
  Z.min j (i - 1) <= j' <= j /\
  (forall k x p, j' < k <= j -> nthZ d k = Some x -> nthZ d a = Some p -> le p x) /\
  (forall x p, i <= j' -> nthZ d j' = Some x -> nthZ d a = Some p -> le x p).
Proof.
  intros Hd. revert j. induction fuel as [|fuel IH]; intros j H; [discriminate|].
  cbn [GoSort.scanGreater] in H.
  destruct (i <=? j) eqn:E; [apply Z.leb_le in E|apply Z.leb_gt in E].
  - inv_bind H. destruct a0.
    + destruct (IH (j - 1) H) as (B & U & L). split; [lia|]. split; [|exact L].
      intros k x p Hk Hx Hp. destruct (Z.eq_dec k j) as [Ek|Nk]; [by_less Ha|by_pos U].
    + injection H as <-. split; [lia|]. split; [intros k x p Hk; lia|].
      intros x p _ Hx Hp. by_less Ha.
  - injection H as <-. split; [lia|]. split; [intros k x p Hk; lia|].
    intros x p Hk. lia.
Qed.

(** The loop of [partition_func]: on the left of [i] the elements are
    below the pivot at [a], on the right of [j] they are above it. *)
Lemma partition_loop_spec fuel d a b i j d' i' j' :
  d ≡ₚ data0 -> a + 1 <= i -> a <= j < b ->
  (forall k x p, a + 1 <= k < i -> nthZ d k = Some x -> nthZ d a = Some p -> le x p) ->
  (forall k x p, j < k < b -> nthZ d k = Some x -> nthZ d a = Some p -> le p x) ->
  GoSort.partition_loop less fuel d a i j = Ok (d', i', j') ->
  rearranged le (a + 1) b d d' /\ a <= j' < b /\
  (forall k x p, a + 1 <= k <= j' -> nthZ d' k = Some x -> nthZ d' a = Some p -> le x p) /\
  (forall k x p, j' < k < b -> nthZ d' k = Some x -> nthZ d' a = Some p -> le p x).
Proof.
  revert d i j. induction fuel as [|fuel IH]; intros d i j Hd Hi Hj L U H; [discriminate|].
  cbn [GoSort.partition_loop] in H.
  inv_bind H. rename a0 into i1. inv_bind H. rename a0 into j1.
  destruct (scanLess_spec _ _ _ _ _ _ Hd Ha) as (B1 & L1 & U1).
  destruct (scanNotLess_spec _ _ _ _ _ _ Hd Ha0) as (B2 & U2 & L2).
  destruct (j1 <? i1) eqn:E; [apply Z.ltb_lt in E|apply Z.ltb_ge in E].
  - injection H as <- <- <-. split; [apply rearranged_refl|]. split; [lia|]. split.
    + intros k x p Hk Hx Hp.
      destruct (Z_lt_dec k i); [by_pos L|by_pos L1].
    + intros k x p Hk Hx Hp.
      destruct (Z_lt_dec j k); [by_pos U|by_pos U2].
  - inv_bind H. rename a0 into d1. apply Swap_swapped in Ha1.
    assert (Hd1 : d1 ≡ₚ data0) by (rewrite (swapped_perm _ _ _ _ Ha1); exact Hd).
    destruct (IH d1 (i1 + 1) (j1 - 1) Hd1 ltac:(lia) ltac:(lia)) as (R & Bj & L' & U');
      [| |exact H|].
    + intros k x p Hk. rewrite !(swapped_nthZ _ _ _ _ _ Ha1). intros Hx Hp.
      eqb_cases; first [lia|by_pos L2|destruct (Z_lt_dec k i); [by_pos L|by_pos L1]].
    + intros k x p Hk. rewrite !(swapped_nthZ _ _ _ _ _ Ha1). intros Hx Hp.
      eqb_cases; first [lia|by_pos U1|destruct (Z_lt_dec j k); [by_pos U|by_pos U2]].
    + split; [|auto]. eapply rearranged_trans; [|exact R].
      eapply rearranged_swap_in; [| |exact Ha1]; lia.
Qed.

(** [partition_func]: the new position of the pivot, with the elements
    below it on its left and the elements above it on its right. *)
Lemma partition_func_spec d a b pivot d' mid already :
  d ≡ₚ data0 -> a <= pivot < b ->
  GoSort.partition_func less d a b pivot = Ok (d', mid, already) ->
  rearranged le a b d d' /\ a <= mid < b /\
  (forall k x p, a <= k < mid -> nthZ d' k = Some x -> nthZ d' mid = Some p -> le x p) /\
  (forall k x p, mid < k < b -> nthZ d' k = Some x -> nthZ d' mid = Some p -> le p x).
Proof.
  intros Hd Hp H. unfold GoSort.partition_func in H. cbv zeta in H.
  inv_bind H. rename a0 into d1. apply Swap_swapped in Ha.
  assert (Hd1 : d1 ≡ₚ data0) by (rewrite (swapped_perm _ _ _ _ Ha); exact Hd).
  assert (R1 : rearranged le a b d d1) by (eapply rearranged_swap_in; [| |exact Ha]; lia).
  inv_bind H. rename a0 into i1. inv_bind H. rename a0 into j1.
  destruct (scanLess_spec _ _ _ _ _ _ Hd1 Ha0) as (B1 & L1 & U1).
  destruct (scanNotLess_spec _ _ _ _ _ _ Hd1 Ha1) as (B2 & U2 & L2).
  destruct (j1 <? i1) eqn:E; [apply Z.ltb_lt in E|apply Z.ltb_ge in E].
  - inv_bind H. rename a0 into d2. injection H as <- <- <-. apply Swap_swapped in Ha2.
    split; [|split; [lia|split]].
    + eapply rearranged_trans; [exact R1|].
      eapply rearranged_swap_in; [| |exact Ha2]; lia.
    + intros k x p Hk. rewrite !(swapped_nthZ _ _ _ _ _ Ha2). intros Hx Hpv.
      eqb_cases; first [lia|by_same|by_pos L1].
    + intros k x p Hk. rewrite !(swapped_nthZ _ _ _ _ _ Ha2). intros Hx Hpv.
      eqb_cases; first [lia|by_same|by_pos U2].
  - inv_bind H. rename a0 into d2. apply Swap_swapped in Ha2.
    assert (Hd2 : d2 ≡ₚ data0) by (rewrite (swapped_perm _ _ _ _ Ha2); exact Hd1).
    inv_bind H. destruct a0 as [[d3 i3] j3]. inv_bind H. rename a0 into d4.
    injection H as <- <- <-. apply Swap_swapped in Ha4.
    eapply partition_loop_spec with (b := b) in Ha3;
      [destruct Ha3 as (R3 & Bj & L3 & U3)|exact Hd2|lia|lia| |].
    2: { intros k x p Hk. rewrite !(swapped_nthZ _ _ _ _ _ Ha2). intros Hx Hpv.
      eqb_cases; first [lia|by_pos L2|by_pos L1]. }
    2: { intros k x p Hk. rewrite !(swapped_nthZ _ _ _ _ _ Ha2). intros Hx Hpv.
      eqb_cases; first [lia|by_pos U1|by_pos U2]. }
    split; [|split; [lia|split]].
    + eapply rearranged_trans; [exact R1|]. eapply rearranged_trans.
      { eapply rearranged_swap_in; [| |exact Ha2]; lia. }
      eapply rearranged_trans.
      { eapply rearranged_mono; [| |exact R3]; lia. }
      eapply rearranged_swap_in; [| |exact Ha4]; lia.
    + intros k x p Hk. rewrite !(swapped_nthZ _ _ _ _ _ Ha4). intros Hx Hpv.
      eqb_cases; first [lia|by_same|by_pos L3].
    + intros k x p Hk. rewrite !(swapped_nthZ _ _ _ _ _ Ha4). intros Hx Hpv.
      eqb_cases; first [lia|by_same|by_pos U3].
Qed.

Lemma partitionEqual_loop_spec fuel d a b i j d' i' :
  d ≡ₚ data0 -> a + 1 <= i <= b -> j < b ->
  (forall k x p, a + 1 <= k < i -> nthZ d k = Some x -> nthZ d a = Some p -> le x p) ->
  (forall k x p, j < k < b -> nthZ d k = Some x -> nthZ d a = Some p -> le p x) ->
  GoSort.partitionEqual_loop less fuel d a i j = Ok (d', i') ->
  rearranged le (a + 1) b d d' /\ a + 1 <= i' <= b /\
  (forall k x p, a + 1 <= k < i' -> nthZ d' k = Some x -> nthZ d' a = Some p -> le x p) /\
  (forall k x p, i' <= k < b -> nthZ d' k = Some x -> nthZ d' a = Some p -> le p x).
Proof.
  revert d i j. induction fuel as [|fuel IH]; intros d i j Hd Hi Hj L U H; [discriminate|].
  cbn [GoSort.partitionEqual_loop] in H.
  inv_bind H. rename a0 into i1. inv_bind H. rename a0 into j1.
  destruct (scanNotGreater_spec _ _ _ _ _ _ Hd Ha) as (B1 & L1 & U1).
  destruct (scanGreater_spec _ _ _ _ _ _ Hd Ha0) as (B2 & U2 & L2).
  destruct (j1 <? i1) eqn:E; [apply Z.ltb_lt in E|apply Z.ltb_ge in E].
  - injection H as <- <-. split; [apply rearranged_refl|]. split; [lia|]. split.
    + intros k x p Hk Hx Hp.
      destruct (Z_lt_dec k i); [by_pos L|by_pos L1].
    + intros k x p Hk Hx Hp.
      destruct (Z_lt_dec j k); [by_pos U|by_pos U2].
  - inv_bind H. rename a0 into d1. apply Swap_swapped in Ha1.
    assert (Hd1 : d1 ≡ₚ data0) by (rewrite (swapped_perm _ _ _ _ Ha1); exact Hd).
    destruct (IH d1 (i1 + 1) (j1 - 1) Hd1 ltac:(lia) ltac:(lia)) as (R & Bj & L' & U');
      [| |exact H|].
    + intros k x p Hk. rewrite !(swapped_nthZ _ _ _ _ _ Ha1). intros Hx Hp.
      eqb_cases; first [lia|by_pos L2|destruct (Z_lt_dec k i); [by_pos L|by_pos L1]].
    + intros k x p Hk. rewrite !(swapped_nthZ _ _ _ _ _ Ha1). intros Hx Hp.
      eqb_cases; first [lia|by_pos U1|destruct (Z_lt_dec j k); [by_pos U|by_pos U2]].
    + split; [|auto]. eapply rearranged_trans; [|exact R].
      eapply rearranged_swap_in; [| |exact Ha1]; lia.
Qed.

(** [partitionEqual_func]: the elements not above the pivot, which stays
    at [a], come first, the elements above it from [mid] on. *)
Lemma partitionEqual_func_spec d a b pivot d' mid :
  d ≡ₚ data0 -> a <= pivot < b ->
  GoSort.partitionEqual_func less d a b pivot = Ok (d', mid) ->
  rearranged le a b d d' /\ a + 1 <= mid <= b /\
  (forall p p0, nthZ d' a = Some p -> nthZ d pivot = Some p0 -> le p p0) /\
  (forall k x p, a + 1 <= k < mid -> nthZ d' k = Some x -> nthZ d' a = Some p -> le x p) /\
  (forall k x p, mid <= k < b -> nthZ d' k = Some x -> nthZ d' a = Some p -> le p x).
Proof.
  intros Hd Hp H. unfold GoSort.partitionEqual_func in H.
  inv_bind H. rename a0 into d1. apply Swap_swapped in Ha.
  assert (Hd1 : d1 ≡ₚ data0) by (rewrite (swapped_perm _ _ _ _ Ha); exact Hd).
  assert (R1 : rearranged le a b d d1) by (eapply rearranged_swap_in; [| |exact Ha]; lia).
  eapply partitionEqual_loop_spec with (b := b) in H;
    [destruct H as (R2 & Bm & L & U)|exact Hd1|lia|lia| |].
  2, 3: intros k x p Hk; lia.
  split; [|split; [exact Bm|split; [|split; assumption]]].
  - eapply rearranged_trans; [exact R1|]. eapply rearranged_mono; [| |exact R2]; lia.
  - intros p p0 Hpa Hp0.
    destruct (rearranged_outside _ _ _ _ a p R2 ltac:(lia) Hpa) as (x & Hx & L1 & L2).
    rewrite (swapped_nthZ _ _ _ _ _ Ha) in Hx.
    destruct (a =? pivot) eqn:E.
    + apply Z.eqb_eq in E. subst pivot. rewrite Hp0 in Hx. injection Hx as <-. exact L2.
    + rewrite Z.eqb_refl in Hx. rewrite Hp0 in Hx. injection Hx as <-. exact L2.
Qed.

End Partition.

(** ** Partial insertion sort, pattern breaking and reversal *)

Section PartialInsertionSort.

Context {A : Type} {less : list A -> Z -> Z -> result bool}
        {le : A -> A -> Prop} {data0 : list A}.
Context `{!PreOrder le} `{!Compares less le data0}.

Lemma scanOrdered_spec fuel d b i i' :
  d ≡ₚ data0 -> GoSort.scanOrdered less fuel d b i = Ok i' ->
  i <= i' <= Z.max i b /\
  (forall p q x y, i <= q < i' -> p = q - 1 ->
     nthZ d p = Some x -> nthZ d q = Some y -> le x y) /\
  (forall x y, i' < b -> nthZ d i' = Some x -> nthZ d (i' - 1) = Some y -> le x y).
Proof.
  intros Hd. revert i. induction fuel as [|fuel IH]; intros i H; [discriminate|].
  cbn [GoSort.scanOrdered] in H.
  destruct (i <? b) eqn:E; [apply Z.ltb_lt in E|apply Z.ltb_ge in E].
  - inv_bind H. destruct a; cbn [negb] in H.
    + injection H as <-. split; [lia|]. split; [intros p q x y Hq; lia|].
      intros x y _ Hx Hy. by_less Ha.
    + destruct (IH (i + 1) H) as (B & L & U). split; [lia|]. split; [|exact U].
      intros p q x y Hq Hp Hx Hy.
      destruct (Z.eq_dec q i) as [Eq|Nq]; [by_less Ha|by_pos L].
  - injection H as <-. split; [lia|]. split; [intros p q x y Hq; lia|].
    intros x y Hlt. lia.
Qed.

(** A part in order stays in order when it grows by elements that are
    each not below the one before. *)
Lemma sortedBy_adjacent d a i i' :
  0 <= a < i -> sortedBy le d a i ->
  (forall p q x y, i <= q < i' -> p = q - 1 ->
     nthZ d p = Some x -> nthZ d q = Some y -> le x y) ->
  sortedBy le d a i'.
Proof.
  intros Ha Hs Hadj.
  assert (H : forall (n : nat) p q x y, a <= p -> p < q -> q < i' -> q < i + Z.of_nat n ->
                nthZ d p = Some x -> nthZ d q = Some y -> le x y).
  { induction n as [|n IH]; intros p q x y Hp Hpq Hq Hn Hx Hy.
    - by_pos Hs.
    - destruct (Z_lt_dec q (i + Z.of_nat n)) as [Hlt|Hge]; [by_pos IH|].
      destruct (Z.eq_dec p (q - 1)) as [Ep|Np]; [by_pos Hadj|].
      pose proof (nthZ_Some _ _ _ Hy) as By.
      destruct (nthZ_is_Some d (q - 1) ltac:(lia)) as [z Hz].
      apply le_trans with z; [by_pos IH|by_pos Hadj]. }
  intros p q x y Hp Hpq Hq Hx Hy.
  apply (H (Z.to_nat (q - i + 1)) p q x y); try assumption; lia.
Qed.

(** The loop that shifts the smaller element to the left runs down to
    position 1, below [a] if the comparison lets it: it then exchanges
    elements that are each below the other. *)
Lemma shiftLeft_spec fuel d a b i j d' :
  d ≡ₚ data0 -> 0 <= a -> j < i <= b ->
  (forall p q x y, a <= p -> p < q -> q < i -> p <> j -> q <> j ->
     nthZ d p = Some x -> nthZ d q = Some y -> le x y) ->
  (forall p q x y, a <= q -> p < q < i -> p = j ->
     nthZ d p = Some x -> nthZ d q = Some y -> le x y) ->
  below le d 0 a b ->
  (forall p q x y, 0 <= p < a -> p <> j -> q = j ->
     nthZ d p = Some x -> nthZ d q = Some y -> le x y) ->
  GoSort.shiftLeft less fuel d j = Ok d' ->
  rearranged le a b d d' /\ sortedBy le d' a i.
Proof.
  revert d j. induction fuel as [|fuel IH]; intros d j Hd Ha Hj S1 S2 S3 S4 H;
    [discriminate|].
  cbn [GoSort.shiftLeft] in H.
  destruct (1 <=? j) eqn:E; [apply Z.leb_le in E|apply Z.leb_gt in E].
  - inv_bind H. destruct (Less_elems _ _ _ _ Hd Ha0) as (x0 & y0 & Hx0 & Hy0).
    destruct a0; cbn [negb] in H.
    + inv_bind H. rename a0 into d1. apply Swap_swapped in Ha1.
      assert (Hd1 : d1 ≡ₚ data0) by (rewrite (swapped_perm _ _ _ _ Ha1); exact Hd).
      assert (R1 : rearranged le a b d d1).
      { destruct (Z_le_dec a (j - 1)) as [Hin|Hout].
        - eapply rearranged_swap_in; [| |exact Ha1]; lia.
        - eapply rearranged_swap_eq; [exact Ha1|exact Hx0|exact Hy0| |].
          + by_less Ha0.
          + by_pos S4. }
      eapply IH in H;
        [destruct H as [R Hs]|exact Hd1|exact Ha|lia| | | |].
      * split; [|exact Hs]. eapply rearranged_trans; eassumption.
      * intros p q x y Hp Hpq Hq Np Nq.
        rewrite !(swapped_nthZ _ _ _ _ _ Ha1). intros Hx Hy.
        eqb_cases; first [lia|by_pos S1|by_pos S3|destruct (Z_le_dec a (j - 1)); [by_pos S1|by_pos S3]].
      * intros p q x y Hq Hpq Hp.
        rewrite !(swapped_nthZ _ _ _ _ _ Ha1). intros Hx Hy.
        eqb_cases; first [lia|by_less Ha0|by_pos S2].
      * eapply rearranged_below; [exact R1|lia|exact S3].
      * intros p q x y Hp Np Hq.
        rewrite !(swapped_nthZ _ _ _ _ _ Ha1). intros Hx Hy.
        eqb_cases; first [lia|by_pos S4].
    + injection H as <-. split; [apply rearranged_refl|].
      intros p q x y Hp Hpq Hq Hx Hy.
      destruct (Z.eq_dec q j) as [Eq|Nq].
      * destruct (Z.eq_dec p (j - 1)) as [Ep|Np]; [by_less Ha0|].
        apply le_trans with y0; [by_pos S1|by_less Ha0].
      * destruct (Z.eq_dec p j) as [Ep|Np]; [by_pos S2|by_pos S1].
  - injection H as <-. split; [apply rearranged_refl|].
    intros p q x y Hp Hpq Hq Hx Hy.
    destruct (Z.eq_dec p j) as [Ep|Np]; [by_pos S2|by_pos S1].
Qed.

Lemma shiftRight_spec fuel d b i j d' :
  i < j -> GoSort.shiftRight less fuel d b j = Ok d' -> rearranged le i b d d'.
Proof.
  revert d j. induction fuel as [|fuel IH]; intros d j Hj H; [discriminate|].
  cbn [GoSort.shiftRight] in H.
  destruct (j <? b) eqn:E; [apply Z.ltb_lt in E|apply Z.ltb_ge in E].
  - inv_bind_as H lt Hlt. destruct lt; cbn [negb] in H.
    + inv_bind_as H d1 Hd1. apply Swap_swapped in Hd1.
      eapply rearranged_trans; [|eapply (IH d1 (j + 1)); [lia|exact H]].
      eapply rearranged_swap_in; [| |exact Hd1]; lia.
    + injection H as <-. apply rearranged_refl.
  - injection H as <-. apply rearranged_refl.
Qed.

Lemma partialInsertionSort_loop_spec steps d a b i d' sorted :
  d ≡ₚ data0 -> 0 <= a -> a < i <= b ->
  sortedBy le d a i -> below le d 0 a b ->
  GoSort.partialInsertionSort_loop less steps d a b i = Ok (d', sorted) ->
  rearranged le a b d d' /\ (sorted = true -> sortedBy le d' a b).
Proof.
  revert d i. induction steps as [|steps IH]; intros d i Hd Ha Hi Hs Hb H.
  { injection H as <- <-. split; [apply rearranged_refl|discriminate]. }
  cbn [GoSort.partialInsertionSort_loop] in H.
  inv_bind_as H i1 Hi1.
  destruct (scanOrdered_spec _ _ _ _ _ Hd Hi1) as (B & Hadj & Hstop).
  pose proof (sortedBy_adjacent d a i i1 ltac:(lia) Hs Hadj) as Hs1.
  destruct (i1 =? b) eqn:Eb; [apply Z.eqb_eq in Eb; subst i1|apply Z.eqb_neq in Eb].
  { injection H as <- <-. split; [apply rearranged_refl|]. intros _. exact Hs1. }
  destruct (b - a <? GoSort.shortestShifting) eqn:E50.
  { injection H as <- <-. split; [apply rearranged_refl|discriminate]. }
  inv_bind_as H d1 Ha1. apply Swap_swapped in Ha1.
  assert (Hd1 : d1 ≡ₚ data0) by (rewrite (swapped_perm _ _ _ _ Ha1); exact Hd).
  assert (R1 : rearranged le a b d d1) by (eapply rearranged_swap_in; [| |exact Ha1]; lia).
  assert (Hb1 : below le d1 0 a b) by (eapply rearranged_below; [exact R1|lia|exact Hb]).
  inv_bind_as H d2 Ha2.
  assert (L2 : rearranged le a b d1 d2 /\ sortedBy le d2 a i1).
  { destruct (2 <=? i1 - a) eqn:E2; [apply Z.leb_le in E2|apply Z.leb_gt in E2].
    - eapply shiftLeft_spec with (a := a) (b := b) (i := i1) in Ha2;
        [exact Ha2|exact Hd1|exact Ha|lia| | |exact Hb1|].
      + intros p q x y Hp Hpq Hq Np Nq.
        rewrite !(swapped_nthZ _ _ _ _ _ Ha1). intros Hx Hy.
        eqb_cases; first [lia|by_pos Hs1].
      + intros p q x y Hq Hpq Hp. lia.
      + intros p q x y Hp Np Hq.
        rewrite !(swapped_nthZ _ _ _ _ _ Ha1). intros Hx Hy.
        eqb_cases; first [lia|by_pos Hb].
    - injection Ha2 as <-. split; [apply rearranged_refl|].
      intros p q x y Hp Hpq Hq. lia. }
  destruct L2 as [R2 Hs2].
  assert (Hd2 : d2 ≡ₚ data0) by (rewrite (rearranged_perm _ _ _ _ R2); exact Hd1).
  inv_bind_as H d3 Ha3.
  assert (R3 : rearranged le i1 b d2 d3).
  { destruct (2 <=? b - i1) eqn:E2.
    - eapply shiftRight_spec; [|exact Ha3]. lia.
    - injection Ha3 as <-. apply rearranged_refl. }
  assert (R3' : rearranged le a b d2 d3) by (eapply rearranged_mono; [| |exact R3]; lia).
  assert (Hd3 : d3 ≡ₚ data0) by (rewrite (rearranged_perm _ _ _ _ R3); exact Hd2).
  eapply IH in H; [destruct H as [R4 Hs4]|exact Hd3|exact Ha|lia| |].
  - split; [|exact Hs4].
    eapply rearranged_trans; [exact R1|]. eapply rearranged_trans; [exact R2|].
    eapply rearranged_trans; [exact R3'|exact R4].
  - eapply rearranged_sortedBy; [exact R3|lia|exact Hs2].
  - eapply rearranged_below; [exact R3'|lia|].
    eapply rearranged_below; [exact R2|lia|exact Hb1].
Qed.

Lemma partialInsertionSort_func_spec d a b d' sorted :
  d ≡ₚ data0 -> 0 <= a < b -> below le d 0 a b ->
  GoSort.partialInsertionSort_func less d a b = Ok (d', sorted) ->
  rearranged le a b d d' /\ (sorted = true -> sortedBy le d' a b).
Proof.
  intros Hd Ha Hb H. unfold GoSort.partialInsertionSort_func in H.
  eapply partialInsertionSort_loop_spec in H; [exact H|exact Hd|lia|lia| |exact Hb].
  intros p q x y Hp Hpq Hq. lia.
Qed.

Lemma reverseRange_loop_spec fuel (d : list A) a b i j d' :
  a <= i -> j < b ->
  GoSort.reverseRange_loop fuel d i j = Ok d' -> rearranged le a b d d'.
Proof.
  revert d i j. induction fuel as [|fuel IH]; intros d i j Hi Hj H; [discriminate|].
  cbn [GoSort.reverseRange_loop] in H.
  destruct (i <? j) eqn:E; [apply Z.ltb_lt in E|apply Z.ltb_ge in E].
  - inv_bind_as H d1 Hd1. apply Swap_swapped in Hd1.
    eapply rearranged_trans; [|eapply (IH d1 (i + 1) (j - 1)); [lia|lia|exact H]].
    eapply rearranged_swap_in; [| |exact Hd1]; lia.
  - injection H as <-. apply rearranged_refl.
Qed.

Lemma reverseRange_func_spec (d : list A) a b d' :
  GoSort.reverseRange_func d a b = Ok d' -> rearranged le a b d d'.
Proof.
  unfold GoSort.reverseRange_func. apply reverseRange_loop_spec; lia.
Qed.

Lemma breakPatterns_loop_spec k (d : list A) a length m idx random i d' :
  0 < length -> 0 <= m -> 2 ^ m <= 2 * length ->
  a <= idx - 1 + i -> idx - 1 + i + Z.of_nat k <= a + length ->
  GoSort.breakPatterns_loop k d a length (2 ^ m) idx random i = Ok d' ->
  rearranged le a (a + length) d d'.
Proof.
  revert d random i. induction k as [|k IH]; intros d random i Hl Hm Hm2 Hi Hk H.
  - injection H as <-. apply rearranged_refl.
  - cbn [GoSort.breakPatterns_loop] in H. cbv zeta in H.
    set (other := Z.land (GoSort.xorshiftNext random) (2 ^ m - 1)) in H.
    assert (Ho : 0 <= other < 2 ^ m).
    { subst other. change (2 ^ m - 1) with (Z.pred (2 ^ m)). rewrite <- Z.ones_equiv.
      rewrite Z.land_ones by assumption. apply Z.mod_pos_bound.
      apply Z.pow_pos_nonneg; lia. }
    inv_bind_as H d1 Hd1. apply Swap_swapped in Hd1.
    eapply rearranged_trans; [|eapply IH; [| | | | |exact H]; lia].
    eapply rearranged_swap_in; [| |exact Hd1];
      destruct (length <=? other) eqn:E;
      [apply Z.leb_le in E|apply Z.leb_gt in E|apply Z.leb_le in E|apply Z.leb_gt in E]; lia.
Qed.

Lemma breakPatterns_func_spec (d : list A) a b d' :
  GoSort.breakPatterns_func d a b = Ok d' -> rearranged le a b d d'.
Proof.
  intros H. unfold GoSort.breakPatterns_func in H. cbv zeta in H.
  destruct (8 <=? b - a) eqn:E; [apply Z.leb_le in E|injection H as <-; apply rearranged_refl].
  unfold GoSort.nextPowerOfTwo, GoSort.bitsLen in H.
  destruct (b - a <=? 0) eqn:E0; [apply Z.leb_le in E0; lia|].
  pose proof (Z.log2_nonneg (b - a)) as Hlog.
  destruct (Z.log2_spec (b - a) ltac:(lia)) as [Hl1 Hl2].
  rewrite Z.shiftl_1_l in H.
  assert (Hq : 4 * Z.quot (b - a) 4 <= b - a < 4 * Z.quot (b - a) 4 + 4).
  { pose proof (Z.quot_rem' (b - a) 4) as Eq.
    pose proof (Z.rem_bound_pos (b - a) 4 ltac:(lia) ltac:(lia)). lia. }
  eapply breakPatterns_loop_spec in H;
    [replace (a + (b - a)) with b in H by lia; exact H|..]; try lia.
  rewrite Z.pow_succ_r in Hl2 by lia.
  replace (Z.log2 (b - a) + 1) with (Z.succ (Z.log2 (b - a))) by lia.
  rewrite Z.pow_succ_r by lia. lia.
Qed.

End PartialInsertionSort.

(** ** The pattern-defeating quicksort *)

Section Pdqsort.

Context {A : Type} {less : list A -> Z -> Z -> result bool}
        {le : A -> A -> Prop} {data0 : list A}.
Context `{!PreOrder le} `{!Compares less le data0}.

Lemma order2_func_spec d a b swaps x y s :
  GoSort.order2_func less d a b swaps = Ok (x, y, s) ->
  x = a /\ y = b \/ x = b /\ y = a.
Proof.
  unfold GoSort.order2_func. intros H. inv_bind_as H r Hr.
  destruct r; injection H as <- <- <-; auto.
Qed.

Lemma median_func_spec d a b c swaps m s :
  GoSort.median_func less d a b c swaps = Ok (m, s) -> m = a \/ m = b \/ m = c.
Proof.
  unfold GoSort.median_func. intros H.
  inv_bind_as H r1 H1. destruct r1 as [[a1 b1] s1]. apply order2_func_spec in H1.
  inv_bind_as H r2 H2. destruct r2 as [[b2 c2] s2]. apply order2_func_spec in H2.
  inv_bind_as H r3 H3. destruct r3 as [[a3 b3] s3]. apply order2_func_spec in H3.
  injection H as <- <-. lia.
Qed.

Lemma medianAdjacent_func_spec d a swaps m s :
  GoSort.medianAdjacent_func less d a swaps = Ok (m, s) -> a - 1 <= m <= a + 1.
Proof.
  unfold GoSort.medianAdjacent_func. intros H. apply median_func_spec in H. lia.
Qed.

Lemma choosePivot_func_spec d a b pivot hint :
  a < b -> GoSort.choosePivot_func less d a b = Ok (pivot, hint) -> a <= pivot < b.
Proof.
  intros Hab H. unfold GoSort.choosePivot_func in H. cbv zeta in H.
  assert (Hq : 4 * Z.quot (b - a) 4 <= b - a < 4 * Z.quot (b - a) 4 + 4).
  { pose proof (Z.quot_rem' (b - a) 4) as Eq.
    pose proof (Z.rem_bound_pos (b - a) 4 ltac:(lia) ltac:(lia)). lia. }
  set (q := Z.quot (b - a) 4) in *.
  inv_bind_as H r Hr. destruct r as [j s].
  assert (Hj : a <= j < b).
  { destruct (8 <=? b - a) eqn:E8; [apply Z.leb_le in E8|injection Hr as <- <-; lia].
    inv_bind_as Hr r1 H1. destruct r1 as [[[i1 j1] k1] s1].
    apply median_func_spec in Hr.
    assert (a <= i1 < b /\ a <= j1 < b /\ a <= k1 < b); [|lia].
    destruct (GoSort.shortestNinther <=? b - a) eqn:E50;
      [apply Z.leb_le in E50; unfold GoSort.shortestNinther in E50
      |injection H1 as <- <- <- <-; lia].
    inv_bind_as H1 r2 H2. destruct r2 as [i2 s2]. apply medianAdjacent_func_spec in H2.
    inv_bind_as H1 r3 H3. destruct r3 as [j3 s3]. apply medianAdjacent_func_spec in H3.
    inv_bind_as H1 r4 H4. destruct r4 as [k4 s4]. apply medianAdjacent_func_spec in H4.
    injection H1 as <- <- <- <-. lia. }
  destruct (s =? 0); [injection H as <- <-; exact Hj|].
  destruct (s =? GoSort.maxSwaps); injection H as <- <-; exact Hj.
Qed.

(** Two parts in order around a pivot make a part in order. *)
Lemma sortedBy_join d a mid b pv :
  sortedBy le d a mid -> sortedBy le d (mid + 1) b ->
  allIn d a mid (fun x => le x pv) -> allIn d (mid + 1) b (le pv) ->
  allIn d mid (mid + 1) (fun z => le z pv /\ le pv z) ->
  sortedBy le d a b.
Proof.
  intros S1 S2 L U M p q x y Hp Hpq Hq Hx Hy.
  destruct (Z_lt_dec q mid) as [Hq1|Hq1]; [by_pos S1|].
  destruct (Z_lt_dec mid p) as [Hp1|Hp1]; [by_pos S2|].
  apply le_trans with pv.
  - destruct (Z.eq_dec p mid) as [Ep|Np].
    + apply (M p x); [lia|exact Hx].
    + apply (L p x); [lia|exact Hx].
  - destruct (Z.eq_dec q mid) as [Eq|Nq].
    + apply (M q y); [lia|exact Hy].
    + apply (U q y); [lia|exact Hy].
Qed.

(** Elements that stand for the pivot, followed by a part in order of
    elements above it, make a part in order. *)
Lemma sortedBy_join_equal d a mid b pv :
  sortedBy le d mid b ->
  allIn d a mid (fun x => le x pv) -> allIn d a b (le pv) ->
  sortedBy le d a b.
Proof.
  intros S2 L U p q x y Hp Hpq Hq Hx Hy.
  destruct (Z_le_dec mid p) as [Hp1|Hp1]; [by_pos S2|].
  apply le_trans with pv.
  - apply (L p x); [lia|exact Hx].
  - apply (U q y); [lia|exact Hy].
Qed.

Lemma below_pivot d a mid b pv :
  below le d 0 a b ->
  allIn d a mid (fun x => le x pv) -> allIn d (mid + 1) b (le pv) ->
  allIn d mid (mid + 1) (fun z => le z pv /\ le pv z) ->
  a <= mid -> below le d 0 (mid + 1) b.
Proof.
  intros Hb L U M Ha p q x y Hp Hq Hx Hy.
  destruct (Z_lt_dec p a) as [Hp1|Hp1]; [by_pos Hb|].
  apply le_trans with pv.
  - destruct (Z.eq_dec p mid) as [Ep|Np].
    + apply (M p x); [lia|exact Hx].
    + apply (L p x); [lia|exact Hx].
  - apply (U q y); [lia|exact Hy].
Qed.

Lemma respects_both (pv : A) : respects le (fun z => le z pv /\ le pv z).
Proof. intros x y Hxy Hyx [H1 H2]. split; eapply le_trans; eassumption. Qed.

(** [pdqsort_func] puts [data[a:b]] in order, when the elements before
    [a] are below those of [data[a:b]] (the test for duplicates relies on
    it). *)
Lemma pdqsort_loop_sorted fuel d a b limit wb wp d' :
  d ≡ₚ data0 -> 0 <= a <= b -> b <= Z.of_nat (length d) -> below le d 0 a b ->
  GoSort.pdqsort_loop less fuel d a b limit wb wp = Ok d' ->
  rearranged le a b d d' /\ sortedBy le d' a b.
Proof.
  revert d a b limit wb wp d'.
  induction fuel as [|fuel IH]; intros d a b limit wb wp d' Hd Ha Hlen Hb H;
    [discriminate|].
  cbn [GoSort.pdqsort_loop] in H. cbv zeta in H.
  destruct (b - a <=? GoSort.maxInsertion) eqn:E12.
  { eapply insertionSort_func_sorted; [exact Hd|lia|exact H]. }
  apply Z.leb_gt in E12. unfold GoSort.maxInsertion in E12.
  destruct (limit =? 0).
  { eapply heapSort_func_sorted; [exact Hd|lia|exact Hlen|exact H]. }
  inv_bind_as H r1 H1. destruct r1 as [d1 limit1].
  assert (R1 : rearranged le a b d d1).
  { destruct (negb wb); [|injection H1 as <- <-; apply rearranged_refl].
    inv_bind_as H1 dd Hdd. injection H1 as <- <-.
    eapply breakPatterns_func_spec; exact Hdd. }
  clear H1.
  inv_bind_as H r2 H2. destruct r2 as [pivot hint].
  apply choosePivot_func_spec in H2; [|lia].
  inv_bind_as H r3 H3. destruct r3 as [[d2 pivot2] hint2].
  assert (R2 : rearranged le a b d1 d2 /\ a <= pivot2 < b).
  { destruct (GoSort.isDecreasing hint);
      [|injection H3 as <- <- <-; split; [apply rearranged_refl|lia]].
    inv_bind_as H3 dd Hdd. injection H3 as <- <- <-. split; [|lia].
    eapply reverseRange_func_spec; exact Hdd. }
  clear H3. destruct R2 as [R2 Hp2].
  assert (R12 : rearranged le a b d d2) by (eapply rearranged_trans; eassumption).
  assert (Hd2 : d2 ≡ₚ data0) by (rewrite (rearranged_perm _ _ _ _ R12); exact Hd).
  assert (Hb2 : below le d2 0 a b) by (eapply rearranged_below; [exact R12|lia|exact Hb]).
  inv_bind_as H r4 H4. destruct r4 as [d3 sorted].
  assert (R3 : rearranged le a b d2 d3 /\ (sorted = true -> sortedBy le d3 a b)).
  { destruct (wb && wp && GoSort.isIncreasing hint2).
    - eapply partialInsertionSort_func_spec; [exact Hd2|lia|exact Hb2|exact H4].
    - injection H4 as <- <-. split; [apply rearranged_refl|discriminate]. }
  clear H4. destruct R3 as [R3 Hs3].
  assert (R13 : rearranged le a b d d3) by (eapply rearranged_trans; eassumption).
  destruct sorted.
  { injection H as <-. split; [exact R13|apply Hs3; reflexivity]. }
  clear Hs3.
  assert (Hd3 : d3 ≡ₚ data0) by (rewrite (rearranged_perm _ _ _ _ R13); exact Hd).
  assert (Hb3 : below le d3 0 a b) by (eapply rearranged_below; [exact R13|lia|exact Hb]).
  assert (Hlen3 : b <= Z.of_nat (length d3))
    by (rewrite (rearranged_length _ _ _ _ R13); exact Hlen).
  inv_bind_as H dup Hdup. destruct dup.
  - (* the pivot is not above the element before [a]: it is a least element *)
    assert (Hmin : 0 < a /\ forall x y, nthZ d3 pivot2 = Some x ->
                     nthZ d3 (a - 1) = Some y -> le x y).
    { destruct (0 <? a) eqn:E0; [apply Z.ltb_lt in E0|discriminate].
      inv_bind_as Hdup r Hr. destruct r; [discriminate|]. split; [exact E0|].
      intros x y Hx Hy. by_less Hr. }
    clear Hdup. destruct Hmin as [Ha0 Hmin].
    inv_bind_as H r5 H5. destruct r5 as [d4 mid].
    destruct (partitionEqual_func_spec _ _ _ _ _ _ Hd3 Hp2 H5) as (R4 & Hm & E & L & U).
    assert (Hd4 : d4 ≡ₚ data0) by (rewrite (rearranged_perm _ _ _ _ R4); exact Hd3).
    assert (Hlen4 : b <= Z.of_nat (length d4))
      by (rewrite (rearranged_length _ _ _ _ R4); exact Hlen3).
    assert (Hb4 : below le d4 0 a b) by (eapply rearranged_below; [exact R4|lia|exact Hb3]).
    destruct (nthZ_is_Some d3 pivot2 ltac:(lia)) as [p0 Hp0].
    destruct (nthZ_is_Some d3 (a - 1) ltac:(lia)) as [y0 Hy0].
    destruct (nthZ_is_Some d4 a ltac:(lia)) as [pv Hpv].
    assert (F1 : allIn d4 a mid (fun x => le x pv)).
    { intros k x Hk Hx. destruct (Z.eq_dec k a) as [Ek|Nk]; [by_same|by_pos L]. }
    assert (F2 : allIn d4 a b (le pv)).
    { assert (F0 : allIn d4 a b (le p0)).
      { eapply rearranged_allIn; [exact R4|lia|apply respects_above|].
        intros k x Hk Hx. apply le_trans with y0; [by_pos Hmin|by_pos Hb3]. }
      intros k x Hk Hx. apply le_trans with p0; [by_pos E|].
      apply (F0 k x Hk Hx). }
    assert (F3 : below le d4 0 mid b).
    { intros p q x y Hp Hq Hx Hy.
      destruct (Z_lt_dec p a) as [Hp1|Hp1]; [by_pos Hb4|].
      apply le_trans with pv; [apply (F1 p x); [lia|exact Hx]|apply (F2 q y); [lia|exact Hy]]. }
    eapply IH in H; [destruct H as [R5 S5]|exact Hd4|lia|exact Hlen4|exact F3].
    split.
    + eapply rearranged_trans; [exact R13|]. eapply rearranged_trans; [exact R4|].
      eapply rearranged_mono; [| |exact R5]; lia.
    + apply sortedBy_join_equal with (mid := mid) (pv := pv); [exact S5| |].
      * eapply rearranged_allIn; [exact R5|lia|apply respects_under|exact F1].
      * eapply rearranged_allIn; [exact R5|lia|apply respects_above|exact F2].
  - clear Hdup.
    inv_bind_as H r5 H5. destruct r5 as [[d4 mid] already].
    destruct (partition_func_spec _ _ _ _ _ _ _ Hd3 Hp2 H5) as (R4 & Hm & L & U).
    assert (Hd4 : d4 ≡ₚ data0) by (rewrite (rearranged_perm _ _ _ _ R4); exact Hd3).
    assert (Hlen4 : b <= Z.of_nat (length d4))
      by (rewrite (rearranged_length _ _ _ _ R4); exact Hlen3).
    assert (Hb4 : below le d4 0 a b) by (eapply rearranged_below; [exact R4|lia|exact Hb3]).
    destruct (nthZ_is_Some d4 mid ltac:(lia)) as [pv Hpv].
    assert (F1 : allIn d4 a mid (fun x => le x pv)) by (intros k x Hk Hx; by_pos L).
    assert (F2 : allIn d4 (mid + 1) b (le pv)) by (intros k x Hk Hx; by_pos U).
    assert (F3 : allIn d4 mid (mid + 1) (fun z => le z pv /\ le pv z)).
    { intros k x Hk Hx. split; by_same. }
    assert (Hb4' : below le d4 0 (mid + 1) b)
      by (eapply below_pivot; [exact Hb4|exact F1|exact F2|exact F3|lia]).
    assert (Hb4'' : below le d4 0 a mid) by (intros p q x y Hp Hq Hx Hy; by_pos Hb4).
    destruct (mid - a <? b - mid).
    + inv_bind_as H d5 H6.
      eapply IH in H6; [destruct H6 as [R5 S5]|exact Hd4|lia|lia|exact Hb4''].
      assert (Hd5 : d5 ≡ₚ data0) by (rewrite (rearranged_perm _ _ _ _ R5); exact Hd4).
      assert (Hlen5 : b <= Z.of_nat (length d5))
        by (rewrite (rearranged_length _ _ _ _ R5); exact Hlen4).
      eapply IH in H; [destruct H as [R6 S6]|exact Hd5|lia|exact Hlen5|].
      2: { eapply rearranged_below; [exact R5|lia|exact Hb4']. }
      split.
      * eapply rearranged_trans; [exact R13|]. eapply rearranged_trans; [exact R4|].
        eapply rearranged_trans; eapply rearranged_mono; [| |exact R5| | |exact R6]; lia.
      * apply sortedBy_join with (mid := mid) (pv := pv).
        -- eapply rearranged_sortedBy; [exact R6|lia|exact S5].
        -- exact S6.
        -- eapply rearranged_allIn; [exact R6|lia|apply respects_under|].
           eapply rearranged_allIn; [exact R5|lia|apply respects_under|exact F1].
        -- eapply rearranged_allIn; [exact R6|lia|apply respects_above|].
           eapply rearranged_allIn; [exact R5|lia|apply respects_above|exact F2].
        -- eapply rearranged_allIn; [exact R6|lia|apply respects_both|].
           eapply rearranged_allIn; [exact R5|lia|apply respects_both|exact F3].
    + inv_bind_as H d5 H6.
      eapply IH in H6; [destruct H6 as [R5 S5]|exact Hd4|lia|lia|exact Hb4'].
      assert (Hd5 : d5 ≡ₚ data0) by (rewrite (rearranged_perm _ _ _ _ R5); exact Hd4).
      assert (Hlen5 : b <= Z.of_nat (length d5))
        by (rewrite (rearranged_length _ _ _ _ R5); exact Hlen4).
      eapply IH in H; [destruct H as [R6 S6]|exact Hd5|lia|lia|].
      2: { eapply rearranged_below; [exact R5|lia|exact Hb4'']. }
      split.
      * eapply rearranged_trans; [exact R13|]. eapply rearranged_trans; [exact R4|].
        eapply rearranged_trans; eapply rearranged_mono; [| |exact R5| | |exact R6]; lia.
      * apply sortedBy_join with (mid := mid) (pv := pv).
        -- exact S6.
        -- eapply rearranged_sortedBy; [exact R6|lia|exact S5].
        -- eapply rearranged_allIn; [exact R6|lia|apply respects_under|].
           eapply rearranged_allIn; [exact R5|lia|apply respects_under|exact F1].
        -- eapply rearranged_allIn; [exact R6|lia|apply respects_above|].
           eapply rearranged_allIn; [exact R5|lia|apply respects_above|exact F2].
        -- eapply rearranged_allIn; [exact R6|lia|apply respects_both|].
           eapply rearranged_allIn; [exact R5|lia|apply respects_both|exact F3].
Qed.

(** [sort.Slice] leaves the slice in order for [le], when it returns. *)
Lemma Slice_sorted d' :
  GoSort.Slice less data0 = Ok d' ->
  d' ≡ₚ data0 /\ sortedBy le d' 0 (Z.of_nat (length d')).
Proof.
  unfold GoSort.Slice, GoSort.pdqsort_func. intros H.
  eapply pdqsort_loop_sorted in H; [|reflexivity|lia|lia|].
  - destruct H as [R S]. split; [eapply rearranged_perm; exact R|].
    rewrite (rearranged_length _ _ _ _ R). exact S.
  - intros p q x y Hp. lia.
Qed.

End Pdqsort.

(** ** The order of strings *)

Lemma string_compare_refl a : (a ?= a)%string = Eq.
Proof.
  induction a as [|c a IH]; [reflexivity|]. cbn [String.compare].
  unfold Ascii.compare. rewrite N.compare_refl. exact IH.
Qed.

Lemma string_compare_trans a b c :
  (a ?= b)%string = Lt -> (b ?= c)%string = Lt -> (a ?= c)%string = Lt.
Proof.
  revert b c. induction a as [|x a IH]; intros [|y b] [|z c]; cbn [String.compare];
    try discriminate; auto.
  unfold Ascii.compare.
  destruct (N.compare_spec (N_of_ascii x) (N_of_ascii y)) as [E1|E1|E1];
    destruct (N.compare_spec (N_of_ascii y) (N_of_ascii z)) as [E2|E2|E2];
    destruct (N.compare_spec (N_of_ascii x) (N_of_ascii z)) as [E3|E3|E3];
    try discriminate; try lia; auto.
  apply IH.
Qed.

Lemma ltb_irrefl a : String.ltb a a = false.
Proof. unfold String.ltb. rewrite string_compare_refl. reflexivity. Qed.

Lemma ltb_false_trans a b c :
  String.ltb b a = false -> String.ltb c b = false -> String.ltb c a = false.
Proof.
  unfold String.ltb. intros H1 H2.
  destruct (b ?= a)%string eqn:E1; try discriminate;
    destruct (c ?= b)%string eqn:E2; try discriminate.
  - apply String.compare_eq_iff in E1, E2. subst. rewrite string_compare_refl. reflexivity.
  - apply String.compare_eq_iff in E1. subst. rewrite E2. reflexivity.
  - apply String.compare_eq_iff in E2. subst. rewrite E1. reflexivity.
  - rewrite String.compare_antisym in E1, E2.
    destruct (a ?= b)%string eqn:F1; try discriminate.
    destruct (b ?= c)%string eqn:F2; try discriminate.
    rewrite String.compare_antisym, (string_compare_trans _ _ _ F1 F2). reflexivity.
Qed.

Lemma ltb_false_antisym a b :
  String.ltb a b = false -> String.ltb b a = false -> a = b.
Proof.
  unfold String.ltb. intros H1 H2. rewrite String.compare_antisym in H1.
  destruct (b ?= a)%string eqn:E; try discriminate.
  apply String.compare_eq_iff in E. auto.
Qed.

(** ** The comparison of [SortFeatureCollection] as a function of two features *)

Lemma lessStep_same a r : lessStep a a r = r.
Proof. unfold lessStep, string_lt, string_gt. rewrite ltb_irrefl. reflexivity. Qed.

Lemma lessStep_asym a b r r' :
  lessStep a b r = true -> (r = true -> r' = false) -> lessStep b a r' = false.
Proof.
  unfold lessStep, string_lt, string_gt.
  destruct (string_cmp_cases a b) as [(-> & ->)|[(-> & ->)|(-> & ->)]]; auto;
    discriminate.
Qed.

Lemma lessStep_ntrans a b c rba rcb rca :
  lessStep b a rba = false -> lessStep c b rcb = false ->
  (a = b -> b = c -> rba = false -> rcb = false -> rca = false) ->
  lessStep c a rca = false.
Proof.
  unfold lessStep, string_lt, string_gt. intros H1 H2 Hr.
  destruct (String.ltb b a) eqn:E1; [discriminate|].
  destruct (String.ltb c b) eqn:E2; [discriminate|].
  rewrite (ltb_false_trans _ _ _ E1 E2).
  destruct (String.ltb a c) eqn:E3; [reflexivity|].
  assert (Eac : a = c) by (apply ltb_false_antisym; [exact E3|apply (ltb_false_trans _ _ _ E1 E2)]).
  subst c.
  assert (Eab : a = b) by (apply ltb_false_antisym; assumption).
  subst b. rewrite ltb_irrefl in H1, H2. apply Hr; auto.
Qed.

Lemma tagStep_same f k r : tagStep f f k r = r.
Proof. unfold tagStep. destruct (stringTag f k); [apply lessStep_same|reflexivity]. Qed.

Lemma tagStep_asym f g k r r' :
  tagStep f g k r = true -> (r = true -> r' = false) -> tagStep g f k r' = false.
Proof.
  unfold tagStep. destruct (stringTag f k), (stringTag g k); auto.
  apply lessStep_asym.
Qed.

Lemma tagStep_ntrans f g h k rgf rhg rhf :
  (is_Some (stringTag f k) <-> is_Some (stringTag g k)) ->
  (is_Some (stringTag g k) <-> is_Some (stringTag h k)) ->
  tagStep g f k rgf = false -> tagStep h g k rhg = false ->
  (stringTag f k = stringTag g k -> stringTag g k = stringTag h k ->
   rgf = false -> rhg = false -> rhf = false) ->
  tagStep h f k rhf = false.
Proof.
  unfold tagStep. intros S1 S2.
  destruct (stringTag f k) as [a|], (stringTag g k) as [b|], (stringTag h k) as [c|];
    try (destruct S1 as [X Y];
         first [destruct (X ltac:(eauto)) as [? ?]; discriminate
               |destruct (Y ltac:(eauto)) as [? ?]; discriminate]);
    try (destruct S2 as [X Y];
         first [destruct (X ltac:(eauto)) as [? ?]; discriminate
               |destruct (Y ltac:(eauto)) as [? ?]; discriminate]).
  - intros H1 H2 Hr. eapply lessStep_ntrans; [exact H1|exact H2|].
    intros -> ->. apply Hr; reflexivity.
  - intros H1 H2 Hr. apply Hr; auto.
Qed.

Lemma lessFeature_irrefl f : lessFeature f f = false.
Proof. unfold lessFeature. rewrite !tagStep_same. apply ltb_irrefl. Qed.

Lemma lessFeature_asym f g : lessFeature f g = true -> lessFeature g f = false.
Proof.
  unfold lessFeature. intros H.
  eapply tagStep_asym; [exact H|]. intros H1.
  eapply tagStep_asym; [exact H1|]. intros H2.
  eapply tagStep_asym; [exact H2|]. unfold string_lt. intros H3.
  destruct (string_cmp_cases (NormalizeHouseNumber (default "" (stringTag f tagHousenumber)))
              (NormalizeHouseNumber (default "" (stringTag g tagHousenumber))))
    as [(_ & E)|[(E & _)|(E & _)]]; [exact E|congruence|congruence].
Qed.

Lemma stringTag_notNil f k :
  allStrings f -> (is_Some (stringTag f k) <-> notNil (Properties f !! k) = true).
Proof.
  intros Hall. unfold stringTag. destruct (Properties f !! k) as [v|] eqn:E.
  - destruct (Hall _ _ E) as [s ->]. cbn. split; eauto.
  - cbn. split; [intros [x Hx]; discriminate|discriminate].
Qed.

Lemma stringTag_postcode f g :
  comparable f -> comparable g ->
  stringTag f tagPostCode = stringTag g tagPostCode ->
  Properties f !! tagPostCode = Properties g !! tagPostCode.
Proof.
  intros (_ & [pf Pf] & _) (_ & [pg Pg] & _). unfold stringTag.
  rewrite Pf, Pg. congruence.
Qed.

(** On features named alike when they have the same postcode, the
    comparison is transitive in its negative form. *)
Lemma lessFeature_ntrans l f g h :
  Forall comparable l -> uniform l -> f ∈ l -> g ∈ l -> h ∈ l ->
  lessFeature g f = false -> lessFeature h g = false -> lessFeature h f = false.
Proof.
  intros Hall Hu Hf Hg Hh. rewrite Forall_forall in Hall.
  pose proof (Hall f Hf) as Cf. pose proof (Hall g Hg) as Cg. pose proof (Hall h Hh) as Ch.
  assert (Hp : forall x, comparable x -> is_Some (stringTag x tagPostCode)).
  { intros x (_ & [p Px] & _). unfold stringTag. rewrite Px. eauto. }
  unfold lessFeature. intros H1 H2.
  eapply tagStep_ntrans; [| |exact H1|exact H2|].
  { split; intros _; apply Hp; assumption. }
  { split; intros _; apply Hp; assumption. }
  intros Efg Egh H3 H4.
  apply stringTag_postcode in Efg; [|assumption|assumption].
  apply stringTag_postcode in Egh; [|assumption|assumption].
  destruct (Hu f g Hf Hg Efg) as [Sfg Lfg].
  destruct (Hu g h Hg Hh Egh) as [Sgh Lgh].
  destruct Cf as (Af & _), Cg as (Ag & _), Ch as (Ah & _).
  eapply tagStep_ntrans; [| |exact H3|exact H4|].
  { rewrite !stringTag_notNil by assumption. rewrite Sfg. tauto. }
  { rewrite !stringTag_notNil by assumption. rewrite Sgh. tauto. }
  intros _ _ H5 H6.
  eapply tagStep_ntrans; [| |exact H5|exact H6|].
  { rewrite !stringTag_notNil by assumption. rewrite Lfg. tauto. }
  { rewrite !stringTag_notNil by assumption. rewrite Lgh. tauto. }
  intros _ _. unfold string_lt. apply ltb_false_trans.
Qed.

(** The comparison looks at the two features only. *)
Lemma featureLess_two d i j f g :
  nthZ d i = Some f -> nthZ d j = Some g ->
  featureLess d i j = featureLess [f; g] 0 1.
Proof.
  intros Hi Hj. apply index_nthZ in Hi, Hj. unfold featureLess.
  rewrite Hi, Hj. reflexivity.
Qed.

Lemma featureLess_elems d i j r :
  featureLess d i j = Ok r -> exists f g, nthZ d i = Some f /\ nthZ d j = Some g.
Proof.
  unfold featureLess. intros H. inv_bind_as H f Hf. inv_bind_as H g Hg.
  apply index_nthZ in Hf, Hg. eauto.
Qed.

Lemma featureLess_lessFeature f g :
  comparable f -> comparable g -> featureLess [f; g] 0 1 = Ok (lessFeature f g).
Proof.
  intros (Af & [pf Pf] & [hf Hf]) (Ag & [pg Pg] & [hg Hg]).
  unfold featureLess, lessFeature.
  change (GoSort.index [f; g] 0) with (Ok f). change (GoSort.index [f; g] 1) with (Ok g).
  cbn [bind]. rewrite Pf, Pg. cbn [bind assertString].
  unfold tagStep at 1. unfold stringTag at 1 2. rewrite Pf, Pg.
  unfold lessStep at 1.
  destruct (string_lt pf pg); [reflexivity|]. destruct (string_gt pf pg); [reflexivity|].
  assert (Hs : forall (x : Feature) k, allStrings x ->
            (notNil (Properties x !! k) = true /\
             exists s, Properties x !! k = Some (AString s) /\ stringTag x k = Some s) \/
            (notNil (Properties x !! k) = false /\ stringTag x k = None)).
  { intros x k Ax. unfold stringTag. destruct (Properties x !! k) as [v|] eqn:E; [|auto].
    destruct (Ax _ _ E) as [s ->]. left. cbn. eauto. }
  assert (Hh : string_lt (NormalizeHouseNumber hf) (NormalizeHouseNumber hg) =
               string_lt (NormalizeHouseNumber (default "" (stringTag f tagHousenumber)))
                         (NormalizeHouseNumber (default "" (stringTag g tagHousenumber)))).
  { unfold stringTag. rewrite Hf, Hg. reflexivity. }
  rewrite <- Hh. rewrite Hf, Hg.
  unfold tagStep, lessStep.
  destruct (Hs f tagStreet Af) as [(E1 & sf & E2 & E3)|(E1 & E3)];
    destruct (Hs g tagStreet Ag) as [(F1 & sg & F2 & F3)|(F1 & F3)];
    destruct (Hs f tagPlace Af) as [(G1 & lf & G2 & G3)|(G1 & G3)];
    destruct (Hs g tagPlace Ag) as [(K1 & lg & K2 & K3)|(K1 & K3)];
    rewrite ?E3, ?F3, ?G3, ?K3, ?E2, ?F2, ?G2, ?K2, ?E1, ?F1, ?G1, ?K1;
    cbn [bind assertString notNil];
    repeat match goal with
    | |- context [string_lt ?a ?b] =>
      lazymatch a with
      | NormalizeHouseNumber _ => fail
      | _ => destruct (string_lt a b); cbn [bind]; [reflexivity|]
      end
    | |- context [string_gt ?a ?b] => destruct (string_gt a b); cbn [bind]; [reflexivity|]
    end; reflexivity.
Qed.

(** ** [SortFeatureCollection] sorts *)

Lemma byPostcode_preorder : PreOrder byPostcode.
Proof.
  split.
  - intros f. unfold byPostcode, string_lt. apply ltb_irrefl.
  - intros f g h H1 H2. unfold byPostcode, string_lt in *.
    eapply ltb_false_trans; eassumption.
Qed.

Lemma assertString_postcodeOf f p :
  assertString (Properties f !! tagPostCode) = Ok p -> postcodeOf f = p.
Proof.
  unfold postcodeOf. destruct (Properties f !! tagPostCode) as [[s| | |]|]; cbn;
    intros H; try discriminate. injection H as ->. reflexivity.
Qed.

(** Whatever the comparison answers, it follows the postcodes. *)
Lemma featureLess_byPostcode data0 : Compares featureLess byPostcode data0.
Proof.
  intros d i j r _ H. destruct (featureLess_elems _ _ _ _ H) as (f & g & Hf & Hg).
  exists f, g. split; [exact Hf|]. split; [exact Hg|].
  rewrite (featureLess_two _ _ _ _ _ Hf Hg) in H. unfold featureLess in H.
  change (GoSort.index [f; g] 0) with (Ok f) in H.
  change (GoSort.index [f; g] 1) with (Ok g) in H. cbn [bind] in H.
  inv_bind_as H pf Pf. inv_bind_as H pg Pg.
  apply assertString_postcodeOf in Pf, Pg. unfold byPostcode. rewrite Pf, Pg.
  unfold string_lt, string_gt in *.
  destruct (string_cmp_cases pf pg) as [(E1 & E2)|[(E1 & E2)|(E1 & E2)]];
    rewrite E1 in H; try rewrite E2 in H.
  - injection H as <-. exact E2.
  - injection H as <-. exact E1.
  - destruct r; assumption.
Qed.

Lemma nthZ_of_nat {A} (d : list A) (i : nat) : nthZ d (Z.of_nat i) = d !! i.
Proof.
  unfold nthZ. destruct (0 <=? Z.of_nat i) eqn:E; [|apply Z.leb_gt in E; lia].
  rewrite Nat2Z.id. reflexivity.
Qed.

Lemma Slice_featureLess_byPostcode data :
  Forall comparable data ->
  returns (GoSort.Slice featureLess data)
          (fun d => d ≡ₚ data /\ sortedBy byPostcode d 0 (Z.of_nat (length d))).
Proof.
  intros Hall. destruct (Slice_featureLess_returns data Hall) as (d & Hd & _).
  exists d. split; [exact Hd|].
  exact (@Slice_sorted _ featureLess byPostcode data byPostcode_preorder
           (featureLess_byPostcode data) d Hd).
Qed.

(** X21.  Whatever the names of the features, the sorted collection is in
    the order of the postcodes: no feature comes after a feature with a
    greater postcode. *)
Theorem SortFeatureCollection_by_postcode (fc : FeatureCollection) :
  Forall comparable (Features fc) ->
  exists sorted,
    SortFeatureCollection fc = Ok sorted /\
    Features sorted ≡ₚ Features fc /\
    forall (i j : nat) f g pf pg, (i < j)%nat ->
      Features sorted !! i = Some f -> Features sorted !! j = Some g ->
      Properties f !! tagPostCode = Some (AString pf) ->
      Properties g !! tagPostCode = Some (AString pg) ->
      string_lt pg pf = false.
Proof.
  intros Hall. unfold SortFeatureCollection.
  destruct (Slice_featureLess_byPostcode (Features fc) Hall) as (d & -> & Hd & Hs).
  cbn [bind]. eexists. split; [reflexivity|]. cbn [Features]. split; [exact Hd|].
  intros i j f g pf pg Hij Hf Hg Pf Pg.
  assert (H : byPostcode f g).
  { apply (Hs (Z.of_nat i) (Z.of_nat j)); try lia.
    - apply lookup_lt_Some in Hg. lia.
    - rewrite nthZ_of_nat. exact Hf.
    - rewrite nthZ_of_nat. exact Hg. }
  unfold byPostcode, postcodeOf in H. rewrite Pf, Pg in H. exact H.
Qed.

Lemma sample_comparable : Forall comparable [fA3; fB1; fX2].
Proof.
  assert (H : ReadShapefile (addressFile [rowA3; rowB1; rowX2]) sortLookups "in.shp" =
              Ok {| featureCollection := {| Features := [fA3; fB1; fX2] |}; stdout := [] |})
    by (vm_compute; reflexivity).
  apply ReadShapefile_comparable in H. exact H.
Qed.

Lemma Forall_sample (P : Feature -> Prop) l :
  Forall P [fA3; fB1; fX2] -> Forall (fun f => f ∈ [fA3; fB1; fX2]) l -> Forall P l.
Proof.
  intros HP Hl. rewrite Forall_forall in HP, Hl. apply Forall_forall.
  intros f Hf. apply HP, Hl, Hf.
Qed.

Lemma SortFeatureCollection_by_postcode_witness :
  exists sorted,
    SortFeatureCollection featuresUnsorted = Ok sorted /\
    Features sorted ≡ₚ Features featuresUnsorted /\
    forall (i j : nat) f g pf pg, (i < j)%nat ->
      Features sorted !! i = Some f -> Features sorted !! j = Some g ->
      Properties f !! tagPostCode = Some (AString pf) ->
      Properties g !! tagPostCode = Some (AString pg) ->
      string_lt pg pf = false.
Proof.
  apply (SortFeatureCollection_by_postcode featuresUnsorted).
  apply (Forall_sample _ _ sample_comparable).
  cbn [featuresUnsorted Features]. repeat (apply Forall_cons; split; [set_solver|]).
  apply Forall_nil_2.
Defined.

Lemma notAfter_preorder l : Forall comparable l -> uniform l -> PreOrder (notAfter l).
Proof.
  intros Hall Hu. split.
  - intros f Hf. split; [exact Hf|apply lessFeature_irrefl].
  - intros f g h H1 H2 Hf. destruct (H1 Hf) as [Hg L1]. destruct (H2 Hg) as [Hh L2].
    split; [exact Hh|]. exact (lessFeature_ntrans l f g h Hall Hu Hf Hg Hh L1 L2).
Qed.

Lemma featureLess_notAfter l : Forall comparable l -> Compares featureLess (notAfter l) l.
Proof.
  intros Hall d i j r Hd H. destruct (featureLess_elems _ _ _ _ H) as (f & g & Hf & Hg).
  exists f, g. split; [exact Hf|]. split; [exact Hg|].
  assert (If : f ∈ l) by (rewrite <- Hd; eapply nthZ_elem_of; exact Hf).
  assert (Ig : g ∈ l) by (rewrite <- Hd; eapply nthZ_elem_of; exact Hg).
  rewrite Forall_forall in Hall.
  rewrite (featureLess_two _ _ _ _ _ Hf Hg) in H.
  rewrite (featureLess_lessFeature f g (Hall f If) (Hall g Ig)) in H. injection H as <-.
  destruct (lessFeature f g) eqn:E.
  - intros _. split; [exact Ig|apply lessFeature_asym, E].
  - intros _. split; [exact If|exact E].
Qed.

Lemma Slice_featureLess_inOrder data :
  Forall comparable data -> uniform data ->
  returns (GoSort.Slice featureLess data)
          (fun d => d ≡ₚ data /\ inOrder featureLess d).
Proof.
  intros Hall Hu. destruct (Slice_featureLess_returns data Hall) as (d & Hd & _).
  exists d. split; [exact Hd|].
  destruct (@Slice_sorted _ featureLess (notAfter data) data (notAfter_preorder data Hall Hu)
              (featureLess_notAfter data Hall) d Hd) as [Hp Hs].
  split; [exact Hp|]. intros i j Hi Hj.
  destruct (nthZ_is_Some d i ltac:(lia)) as [f Hf].
  destruct (nthZ_is_Some d j ltac:(lia)) as [g Hg].
  assert (If : f ∈ data) by (rewrite <- Hp; eapply nthZ_elem_of; exact Hf).
  assert (Ig : g ∈ data) by (rewrite <- Hp; eapply nthZ_elem_of; exact Hg).
  destruct (Hs i j f g ltac:(lia) ltac:(lia) Hj Hf Hg If) as [_ L].
  rewrite Forall_forall in Hall.
  rewrite (featureLess_two _ _ _ _ _ Hg Hf).
  rewrite (featureLess_lessFeature g f (Hall g Ig) (Hall f If)). rewrite L. reflexivity.
Qed.

(** X22.  When the features of one postcode are named alike (all by a
    street, or all by a place), the sorted collection is in order: the
    comparison puts no feature before an earlier one. *)
Theorem SortFeatureCollection_in_order (fc : FeatureCollection) :
  Forall comparable (Features fc) -> uniform (Features fc) ->
  exists sorted,
    SortFeatureCollection fc = Ok sorted /\
    Features sorted ≡ₚ Features fc /\
    inOrder featureLess (Features sorted).
Proof.
  intros Hall Hu. unfold SortFeatureCollection.
  destruct (Slice_featureLess_inOrder (Features fc) Hall Hu) as (d & -> & Hd & Hs).
  cbn [bind]. eexists. split; [reflexivity|]. cbn [Features]. split; assumption.
Qed.

Lemma featuresTwoStreets_sample :
  Forall (fun f => f = fA3 \/ f = fB1) (Features featuresTwoStreets).
Proof.
  cbn [featuresTwoStreets Features]. repeat (apply Forall_cons; split; [auto|]).
  apply Forall_nil_2.
Qed.

Lemma featuresTwoStreets_comparable : Forall comparable (Features featuresTwoStreets).
Proof.
  pose proof sample_comparable as H. rewrite Forall_forall in H.
  eapply Forall_impl; [exact featuresTwoStreets_sample|].
  intros f [->| ->]; apply H; set_solver.
Qed.

Lemma featuresTwoStreets_uniform : uniform (Features featuresTwoStreets).
Proof.
  pose proof featuresTwoStreets_sample as H. rewrite Forall_forall in H.
  intros f g Hf Hg _. destruct (H f Hf) as [->| ->], (H g Hg) as [->| ->];
    split; vm_compute; reflexivity.
Qed.

Lemma SortFeatureCollection_in_order_witness :
  exists sorted,
    SortFeatureCollection featuresTwoStreets = Ok sorted /\
    Features sorted ≡ₚ Features featuresTwoStreets /\
    inOrder featureLess (Features sorted).
Proof.
  apply (SortFeatureCollection_in_order featuresTwoStreets).
  - exact featuresTwoStreets_comparable.
  - exact featuresTwoStreets_uniform.
Defined.

(** X23.  When the features of one postcode are named alike, sorting the
    sorted collection again changes nothing: the result is reproducible
    from any of its own outputs. *)
Theorem SortFeatureCollection_idempotent (fc : FeatureCollection) :
  Forall comparable (Features fc) -> uniform (Features fc) ->
  exists sorted,
    SortFeatureCollection fc = Ok sorted /\
    SortFeatureCollection sorted = Ok sorted.
Proof.
  intros Hall Hu. unfold SortFeatureCollection.
  destruct (Slice_featureLess_inOrder (Features fc) Hall Hu) as (d & -> & Hd & Hs).
  cbn [bind]. eexists. split; [reflexivity|]. cbn [Features].
  rewrite (Slice_inOrder featureLess d Hs). reflexivity.
Qed.

Lemma SortFeatureCollection_idempotent_witness :
  exists sorted,
    SortFeatureCollection featuresTwoStreets = Ok sorted /\
    SortFeatureCollection sorted = Ok sorted.
Proof.
  apply (SortFeatureCollection_idempotent featuresTwoStreets).
  - exact featuresTwoStreets_comparable.
  - exact featuresTwoStreets_uniform.
Defined.
